(** * golang-perf: the benchproc grouping and filtering engine

    A shallow embedding of the packages [benchfmt] (benchmark names),
    [benchproc/internal/parse] (filter and projection expressions) and
    [benchproc] (extractors, schemas, interned configs, ordering and
    header compaction), followed by the properties proved about them.

    Conventions of the embedding:
    - a Go [string] is a [string], a Go [[]byte] is a [list ascii];
    - a Go [int] is a [Z]; indices into slices go through [Z.to_nat];
    - heap objects that the source shares through pointers
      ([*fieldInternal], [*configNode]) live in stores owned by the
      [Schema]; a pointer is an offset into the store;
    - a run-time panic is [None] in the option monad;
    - closures are data: one constructor per [func] literal of the source,
      carrying the variables the literal captures. *)

From Stdlib Require Import ZArith Ascii String List Bool Lia.
From Stdlib Require Import Permutation Sorted.
From Stdlib Require Import Floats.SpecFloat.
From stdpp Require Import gmap strings list fin_maps sorting.

Open Scope Z_scope.

(** ** Bytes and the few functions of package [bytes] and [strings] in use *)

Abbreviation bytes := (list ascii).

Definition bs (s : string) : bytes := list_ascii_of_string s.
Definition str (b : bytes) : string := string_of_list_ascii b.

Definition byte_eqb (a b : ascii) : bool := Ascii.eqb a b.

(** [bytes.HasPrefix] *)
Fixpoint HasPrefix (s p : bytes) {struct p} : bool :=
  match p, s with
  | [], _ => true
  | c :: p', d :: s' => byte_eqb c d && HasPrefix s' p'
  | _ :: _, [] => false
  end.

(** [bytes.Contains] *)
Fixpoint Contains (s sub : bytes) : bool :=
  HasPrefix s sub ||
  match s with
  | [] => false
  | _ :: s' => Contains s' sub
  end.

(** [bytes.IndexByte]: the offset of the first [c], or -1. *)
Fixpoint IndexByte (s : bytes) (c : ascii) : Z :=
  match s with
  | [] => -1
  | d :: s' =>
      if byte_eqb d c then 0
      else let i := IndexByte s' c in if i <? 0 then -1 else i + 1
  end.

(** [s[lo:hi]] *)
Definition slice {A} (s : list A) (lo hi : nat) : list A :=
  take (hi - lo) (drop lo s).

Definition is_digit (c : ascii) : bool :=
  (N.leb 48 (N_of_ascii c) && N.leb (N_of_ascii c) 57)%N.

(** ** Package benchfmt: results and names *)

Module benchfmt.

(** A file configuration pair. *)
Record Config := mkConfig { Key : string; Value : bytes }.

(** A measurement; the float is of no use to the engine and is left out. *)
Record Value_ := mkValue { Unit : string }.

Record Result := mkResult {
  FileConfig : list Config;
  Name : bytes;
  Values : list Value_
}.

Definition Full (n : bytes) : bytes := n.

(** The loop of [splitGomaxprocs], [k] being [i+1]. *)
Fixpoint splitGomaxprocs_from (n : bytes) (k : nat) : bytes * option bytes :=
  match k with
  | O => (n, None)
  | S i =>
      match n !! i with
      | None => (n, None)
      | Some c =>
          if byte_eqb c "-" && (i <? length n - 1)%nat
          then (take i n, Some (drop i n))
          else if negb (is_digit c) then (n, None)
          else splitGomaxprocs_from n i
      end
  end.

Definition splitGomaxprocs (n : bytes) : bytes * option bytes :=
  splitGomaxprocs_from n (length n).

Definition Base (n : bytes) : bytes :=
  let slash := IndexByte (Full n) "/" in
  if 0 <=? slash then take (Z.to_nat slash) n
  else fst (splitGomaxprocs n).

(** The loop of [Parts] over [buf]: [rest] is [buf[i:]], [acc] the parts
    appended so far. *)
Fixpoint Parts_loop (buf rest : bytes) (i prev : nat) (acc : list bytes)
  : list bytes * nat :=
  match rest with
  | [] => (acc, prev)
  | c :: rest' =>
      if byte_eqb c "/"
      then Parts_loop buf rest' (S i) i (acc ++ [slice buf prev i])
      else Parts_loop buf rest' (S i) prev acc
  end.

Definition nameParts (n : bytes) : list bytes :=
  let '(buf, gomaxprocs) := splitGomaxprocs n in
  let '(acc, prev) := Parts_loop buf buf 0 0 [] in
  let acc := acc ++ [drop prev buf] in
  match gomaxprocs with
  | Some g => acc ++ [g]
  | None => acc
  end.

(** [nameParts[0], nameParts[1:]]; the slice is never empty. *)
Definition Parts (n : bytes) : option (bytes * list bytes) :=
  match nameParts n with
  | [] => None
  | b :: ps => Some (b, ps)
  end.

(** [FileConfigIndex] on a result whose index is absent or in step with
    [FileConfig]: the index maps a key to its last position. *)
Fixpoint configPos_from (l : list Config) (i : nat) (m : gmap string nat)
  : gmap string nat :=
  match l with
  | [] => m
  | cfg :: l' => configPos_from l' (S i) (<[Key cfg := i]> m)
  end.

Definition FileConfigIndex (r : Result) (key : string) : option nat :=
  configPos_from (FileConfig r) 0%nat ∅ !! key.

End benchfmt.

(** ** Package benchproc: extractors *)

Module extract.
Import benchfmt.

(** An [extractor] is one of five closures; [apply] runs it. *)
Inductive extractor :=
| extractName
| extractFull
| extractNamePartOf (prefix : bytes) (isGomaxprocs : bool)
| extractFileKeyOf (key : string)
| extractFullExcludedOf (replace : list bytes) (excName excGomaxprocs : bool).

(** The search of the [outer] loop for a [k] of [replace] that prefixes
    [part]. *)
Fixpoint find_replace (replace : list bytes) (part : bytes) : option bytes :=
  match replace with
  | [] => None
  | k :: ks => if HasPrefix part k then Some k else find_replace ks part
  end.

(** One iteration of the [outer] loop: what is appended for [part].
    [part[0]] panics on an empty part. *)
Definition normalize_part (replace : list bytes) (excGomaxprocs : bool)
    (part : bytes) : option bytes :=
  match find_replace replace part with
  | Some k => Some (k ++ bs "*")
  | None =>
      if excGomaxprocs then
        match part with
        | [] => None
        | c :: _ => if byte_eqb c "-" then Some (bs "-*") else Some part
        end
      else Some part
  end.

Fixpoint normalize_parts (replace : list bytes) (excGomaxprocs : bool)
    (parts : list bytes) (newName : bytes) : option bytes :=
  match parts with
  | [] => Some newName
  | part :: parts' =>
      match normalize_part replace excGomaxprocs part with
      | None => None
      | Some out => normalize_parts replace excGomaxprocs parts' (newName ++ out)
      end
  end.

Definition extractFullExcluded (res : Result) (replace : list bytes)
    (excName excGomaxprocs : bool) : option bytes :=
  let name := Full (Name res) in
  let found := excName in
  let found := if found then true else existsb (Contains name) replace in
  let found :=
    if negb found && excGomaxprocs && (0 <=? IndexByte name "-")
    then true else found in
  if negb found then Some name
  else
    match Parts (Name res) with
    | None => None
    | Some (base, parts) =>
        let newName := if excName then bs "*" else base in
        normalize_parts replace excGomaxprocs parts newName
    end.

Fixpoint find_part (parts : list bytes) (prefix : bytes) : bytes :=
  match parts with
  | [] => []
  | part :: parts' =>
      if HasPrefix part prefix then drop (length prefix) part
      else find_part parts' prefix
  end.

Definition extractNamePart (res : Result) (prefix : bytes)
    (isGomaxprocs : bool) : option bytes :=
  match Parts (Name res) with
  | None => None
  | Some (_, parts) =>
      let search := Some (find_part parts prefix) in
      if isGomaxprocs && (0 <? length parts)%nat then
        match last parts with
        | Some (c :: tl) => if byte_eqb c "-" then Some tl else search
        | _ => None
        end
      else search
  end.

Definition extractFileKey (res : Result) (key : string) : bytes :=
  match FileConfigIndex res key with
  | None => []
  | Some pos =>
      match FileConfig res !! pos with
      | Some cfg => Value cfg
      | None => []
      end
  end.

Definition apply (e : extractor) (res : Result) : option bytes :=
  match e with
  | extractName => Some (Base (Name res))
  | extractFull => Some (Full (Name res))
  | extractNamePartOf prefix g => extractNamePart res prefix g
  | extractFileKeyOf key => Some (extractFileKey res key)
  | extractFullExcludedOf replace n g => extractFullExcluded res replace n g
  end.

Definition starts_with_slash (k : string) : bool := HasPrefix (bs k) (bs "/").

(** [newExtractor]; the error is the text of [fmt.Errorf]. *)
Definition newExtractor (key : string) : extractor + string :=
  if (String.length key =? 0)%nat then inr "key must not be empty"%string
  else if String.eqb key ".name" then inl extractName
  else if String.eqb key ".fullname" then inl extractFull
  else if starts_with_slash key then
    inl (extractNamePartOf (bs key ++ bs "=") (String.eqb key "/gomaxprocs"))
  else inl (extractFileKeyOf key).

(** The loop of [newExtractorFullName] over [exclude]. *)
Fixpoint exclude_loop (exclude : list string) (replace : list bytes)
    (excName excGomaxprocs : bool) : list bytes * bool * bool :=
  match exclude with
  | [] => (replace, excName, excGomaxprocs)
  | k :: ks =>
      let excName := if String.eqb k ".name" then true else excName in
      if negb (starts_with_slash k) then
        exclude_loop ks replace excName excGomaxprocs
      else
        let replace := replace ++ [bs k ++ bs "="] in
        let excGomaxprocs :=
          if String.eqb k "/gomaxprocs" then true else excGomaxprocs in
        exclude_loop ks replace excName excGomaxprocs
  end.

Definition newExtractorFullName (exclude : list string) : extractor :=
  let '(replace, excName, excGomaxprocs) := exclude_loop exclude [] false false in
  if (length replace =? 0)%nat && negb excName && negb excGomaxprocs
  then extractFull
  else extractFullExcludedOf replace excName excGomaxprocs.

End extract.

(** ** Package benchfmt: the file configuration and its index *)

Module fileconfig.
Import benchfmt.

(** [s[i]]; an index out of range panics. *)
Definition elem {A} (l : list A) (i : Z) : option A :=
  if 0 <=? i then l !! Z.to_nat i else None.

(** The part of a [Result] that the file configuration methods use:
    [FileConfig]; the pairs behind it in its backing array, which
    deletions left there ([spare], the nearest first; a zeroed slot of
    capacity is not listed, reusing it gives the pair that appending
    gives); and [configPos], nil or a map. *)
Record Result := mkResult {
  FileConfig : list Config;
  spare : list Config;
  configPos : option (gmap string Z)
}.

(** The loop of [FileConfigIndex], from position [i]. *)
Fixpoint index_from (l : list Config) (i : Z) (m : gmap string Z)
  : gmap string Z :=
  match l with
  | [] => m
  | cfg :: l' => index_from l' (i + 1) (<[Key cfg := i]> m)
  end.

(** [FileConfigIndex]: the result with its index built, that index, and
    [pos] when [ok]. *)
Definition FileConfigIndex (r : Result) (key : string)
  : Result * gmap string Z * option Z :=
  let m := match configPos r with
           | Some m => m
           | None => index_from (FileConfig r) 0 ∅
           end in
  (mkResult (FileConfig r) (spare r) (Some m), m, m !! key).

(** [ensureFileConfig]: the result and the position of the pair that the
    returned pointer points to. *)
Definition ensureFileConfig (r : Result) (key : string) : option (Result * Z) :=
  let '(r, m, posok) := FileConfigIndex r key in
  match posok with
  | Some pos => _ ← elem (FileConfig r) pos; Some (r, pos)
  | None =>
      let n := Z.of_nat (length (FileConfig r)) in
      let m := <[key := n]> m in
      match spare r with
      | old :: sp =>
          Some (mkResult (FileConfig r ++ [mkConfig key (Value old)]) sp (Some m), n)
      | [] =>
          Some (mkResult (FileConfig r ++ [mkConfig key []]) [] (Some m), n)
      end
  end.

Definition deleteFileConfig (r : Result) (key : string) : option Result :=
  let '(r, m, posok) := FileConfigIndex r key in
  match posok with
  | None => Some r
  | Some pos =>
      let l := FileConfig r in
      let n := Z.of_nat (length l) in
      cfg ← elem l pos;
      cfg2 ← elem l (n - 1);
      let l := <[Z.to_nat (n - 1) := cfg]> (<[Z.to_nat pos := cfg2]> l) in
      now ← elem l pos;
      let m := <[Key now := pos]> m in
      gone ← elem l (n - 1);
      Some (mkResult (take (Z.to_nat (n - 1)) l) (gone :: spare r)
              (Some (delete key m)))
  end.

Definition SetFileConfig (r : Result) (key value : string) : option Result :=
  if String.eqb value "" then deleteFileConfig r key
  else
    '(r, pos) ← ensureFileConfig r key;
    cfg ← elem (FileConfig r) pos;
    Some (mkResult (<[Z.to_nat pos := mkConfig (Key cfg) (bs value)]> (FileConfig r))
            (spare r) (configPos r)).

Definition GetFileConfig (r : Result) (key : string) : option (Result * string) :=
  let '(r, _, posok) := FileConfigIndex r key in
  match posok with
  | None => Some (r, ""%string)
  | Some pos => cfg ← elem (FileConfig r) pos; Some (r, str (Value cfg))
  end.

End fileconfig.

(** ** Package benchfmt: unit metadata *)

Module units.

Record UnitMetadata := mkUnitMetadata {
  Unit : string;
  Key : string;
  Value : string
}.

(** [index] is nil or a map from [unitKey] to a position. *)
Record Units := mkUnits {
  Metadata : list UnitMetadata;
  index : option (gmap (string * string) Z)
}.

Fixpoint index_from (l : list UnitMetadata) (i : Z) (m : gmap (string * string) Z)
  : gmap (string * string) Z :=
  match l with
  | [] => m
  | md :: l' => index_from l' (i + 1) (<[(Unit md, Key md) := i]> m)
  end.

(** [Units.Get]: the units with the index built, and [value, ok]. *)
Definition Get (u : Units) (unit key : string)
  : option (Units * (string * bool)) :=
  let m := match index u with
           | Some m => m
           | None => index_from (Metadata u) 0 ∅
           end in
  let u := mkUnits (Metadata u) (Some m) in
  match m !! (unit, key) with
  | Some i => md ← fileconfig.elem (Metadata u) i; Some (u, (Value md, true))
  | None => Some (u, (""%string, false))
  end.

(** [Units.Set]: the units and the error, nil or its text. *)
Definition Set_ (u : Units) (unit key value : string)
  : option (Units * option string) :=
  '(u, (have, ok)) ← Get u unit key;
  if ok : bool then
    if String.eqb have value then Some (u, None)
    else Some (u, Some ("metadata " ++ key ++ " of unit " ++ unit ++
                        " already set to " ++ have)%string)
  else
    m ← index u;
    Some (mkUnits (Metadata u ++ [mkUnitMetadata unit key value])
            (Some (<[(unit, key) := Z.of_nat (length (Metadata u))]> m)), None).

End units.

(** ** The Go standard library, as far as the packages call it

    These functions are not code of the repository.  The embedding takes
    them as parameters and never looks inside them; [float64] values are
    IEEE 754 binary64 numbers ([prec = 53], [emax = 1024]). *)

Abbreviation float64 := spec_float.

Class GoLib := {
  (** [strconv.Unquote] on a double-quoted literal; [None] is an error. *)
  strconv_Unquote : string -> option string;
  (** [strconv.Quote] *)
  strconv_Quote : string -> string;
  (** [regexp.Compile]: the compiled expression (kept as its source) or
      the text of the error. *)
  regexp_Compile : string -> string + string;
  (** [strconv.ParseFloat(x, 64)]: the value and whether [err == nil]. *)
  strconv_ParseFloat : string -> float64 * bool;
  (** [maphash.Hash.Sum64] of the bytes written since [SetSeed(configSeed)]. *)
  maphash_Sum64 : bytes -> Z
}.

(** The double quote character, and text between double quotes. *)
Definition dquote : string := String (ascii_of_nat 34) EmptyString.
Definition quoted (s : string) : string := (dquote ++ s ++ dquote)%string.

(** ** Package benchproc/internal/parse *)

Module parse.

#[local] Set Warnings "-register-all".

Record SyntaxError := mkSyntaxError {
  Query : string;
  Off : Z;
  Msg : string
}.

(** *** The tokenizer *)

Record tok := mkTok {
  Kind : ascii;
  tOff : Z;
  Tok : string;
  Regexp : option string
}.

(** Modelled from the spec: the tokenizer (its file is not among the
    sources).  A [tokenizer] is the unread part of the query and its byte
    offset; the error tracker is shared by every copy of a tokenizer, and
    keeps the first error raised. *)
Record tokenizer := mkTokenizer { q : bytes; off : Z }.

Record errorTracker := mkErrorTracker {
  qOrig : string;
  err : option SyntaxError
}.

Definition newTokenizer (query : string) : tokenizer * errorTracker :=
  (mkTokenizer (bs query) 0, mkErrorTracker query None).

Definition Kind0 : ascii := Ascii.zero.

Definition record_error (e : errorTracker) (o : Z) (msg : string)
  : errorTracker :=
  match err e with
  | Some _ => e
  | None => mkErrorTracker (qOrig e) (Some (mkSyntaxError (qOrig e) o msg))
  end.

Fixpoint skipSpace (t : bytes) (o : Z) : tokenizer :=
  match t with
  | c :: t' => if byte_eqb c " " then skipSpace t' (o + 1) else mkTokenizer t o
  | [] => mkTokenizer [] o
  end.

Definition atEnd (t : tokenizer) : tokenizer :=
  mkTokenizer [] (off t + Z.of_nat (length (q t))).

(** Modelled from the spec: [tokenizer.error] reports the offset of the
    next token and moves to the end of the input. *)
Definition error (t : tokenizer) (msg : string) (e : errorTracker)
  : tok * tokenizer * errorTracker :=
  let t' := skipSpace (q t) (off t) in
  (mkTok Kind0 (off t') "" None, atEnd t, record_error e (off t') msg).

Definition errorAt (t : tokenizer) (o : Z) (msg : string) (e : errorTracker)
  : tok * tokenizer * errorTracker :=
  (mkTok Kind0 o "" None, atEnd t, record_error e o msg).

Definition isPunct (c : ascii) : bool :=
  existsb (byte_eqb c) (bs "():@,-*").

Definition isWordEnd (c : ascii) : bool :=
  existsb (byte_eqb c) (bs " ():@,").

Fixpoint wordLen (t : bytes) : nat :=
  match t with
  | [] => O
  | c :: t' => if isWordEnd c then O else S (wordLen t')
  end.

(** The length of a quoted literal's body, up to its closing quote. *)
Fixpoint quoteLen (t : bytes) : option nat :=
  match t with
  | [] => None
  | c :: t' =>
      if byte_eqb c (ascii_of_nat 34) then Some O
      else if byte_eqb c "\" then
        match t' with
        | [] => None
        | _ :: t'' => Nat.add 2 <$> quoteLen t''
        end
      else S <$> quoteLen t'
  end.

(** The length of a regexp literal's body, up to the closing slash: a
    slash that is escaped, in a character class or in a group is part of
    the body. *)
Fixpoint regexpLen (t : bytes) (inClass : bool) (depth : nat) : option nat :=
  match t with
  | [] => None
  | c :: t' =>
      if byte_eqb c "\" then
        match t' with
        | [] => None
        | _ :: t'' => Nat.add 2 <$> regexpLen t'' inClass depth
        end
      else if inClass then S <$> regexpLen t' (negb (byte_eqb c "]")) depth
      else if byte_eqb c "[" then S <$> regexpLen t' true depth
      else if byte_eqb c "(" then S <$> regexpLen t' false (S depth)
      else if byte_eqb c ")" then S <$> regexpLen t' false (Nat.pred depth)
      else if byte_eqb c "/" && (depth =? 0)%nat then Some O
      else S <$> regexpLen t' false depth
  end.

Definition advance (t : tokenizer) (n : nat) : tokenizer :=
  mkTokenizer (drop n (q t)) (off t + Z.of_nat n).

Section Tokens.
Context `{GoLib}.

(** Modelled from the spec: the next token.  Kinds: ['w'] bare word,
    ['q'] quoted string, ['r'] regexp, ['A'] and ['O'] the operators,
    a punctuation character for itself, 0 at the end of the input or on
    an error. *)
Definition next (allowRegexp : bool) (t0 : tokenizer) (e : errorTracker)
  : tok * tokenizer * errorTracker :=
  let t := skipSpace (q t0) (off t0) in
  match q t with
  | [] => (mkTok Kind0 (off t) "" None, t, e)
  | c :: rest =>
      if isPunct c then
        (mkTok c (off t) (str [c]) None, advance t 1, e)
      else if byte_eqb c (ascii_of_nat 34) then
        match quoteLen rest with
        | None => errorAt t (off t) "missing end quote" e
        | Some n =>
            match strconv_Unquote (str (take (n + 2) (q t))) with
            | None => errorAt t (off t) "bad escape sequence" e
            | Some s => (mkTok "q" (off t) s None, advance t (n + 2), e)
            end
        end
      else if allowRegexp && byte_eqb c "/" then
        match regexpLen rest false 0 with
        | None => errorAt t (off t) ("missing close " ++ quoted "/") e
        | Some n =>
            let t' := advance t (n + 2) in
            let follow_ok :=
              match q t' with
              | [] => true
              | d :: _ => byte_eqb d " " || byte_eqb d ")"
              end in
            if negb follow_ok then
              errorAt t (off t')
                ("regexp must be followed by space or an operator (unescaped "
                   ++ quoted "/" ++ "?)") e
            else
              match regexp_Compile (str (take n rest)) with
              | inr msg => errorAt t (off t) msg e
              | inl re => (mkTok "r" (off t) (str (take n rest)) (Some re), t', e)
              end
        end
      else
        let n := wordLen (q t) in
        let w := str (take n (q t)) in
        let k : ascii :=
          if String.eqb w "AND" then "A"
          else if String.eqb w "OR" then "O" else "w" in
        (mkTok k (off t) w None, advance t n, e)
  end%char%string.

Definition key := next false.
Definition value := next true.

(** Modelled from the spec: [tokenizer.end], an error unless the input
    is used up. *)
Definition end_ (t : tokenizer) (e : errorTracker) : tokenizer * errorTracker :=
  let '(tk, _, e) := key t e in
  if negb (byte_eqb (Kind tk) Kind0) then
    let '(_, t', e) := error t ("unexpected " ++ strconv_Quote (Tok tk)) e in
    (t', e)
  else (t, e).
End Tokens.

(** *** Filter expressions *)

(** Modelled from the spec: the Filter tree (its declaration is not among
    the sources); [FilterNil] is the nil interface value. *)
Inductive Op := OpAnd | OpOr | OpNot.

Inductive Filter :=
| FilterNil
| FilterMatch (Key : string) (Regexp : option string) (Lit : string) (Off : Z)
| FilterOp (op : Op) (Exprs : list Filter).

Definition kind_in (k : ascii) (ks : string) : bool :=
  existsb (byte_eqb k) (bs ks).

(** [mkMatch] panics on a token that is no word and no regexp. *)
Definition mkMatch (o : Z) (k : string) (val : tok) : option Filter :=
  if kind_in (Kind val) "wq" then Some (FilterMatch k None (Tok val) o)
  else if byte_eqb (Kind val) "r" then Some (FilterMatch k (Regexp val) "" o)
  else None.

Abbreviation result A := (option (A * tokenizer * errorTracker)).

Section Parser.
Context `{GoLib}.

Definition perror (toks : tokenizer) (msg : string) (e : errorTracker)
  : tokenizer * errorTracker :=
  let '(_, toks, e) := error toks msg e in (toks, e).

(** The [for] loop of [parser.match] over the values of
    [key:(v1 v2 ...)]; the fuel bounds the number of iterations. *)
Fixpoint match_values (fuel : nat) (o : Z) (k : string) (rest : tokenizer)
    (terms : list Filter) (e : errorTracker) : result Filter :=
  match fuel with
  | O => None
  | S fuel =>
      let '(val, toks2, e) := value rest e in
      if byte_eqb (Kind val) ")" then
        if (length terms =? 0)%nat then
          let '(t, e) := perror rest "nothing to match" e in
          Some (FilterNil, t, e)
        else Some (FilterOp OpOr terms, toks2, e)
      else if kind_in (Kind val) "wqr" then
        m ← mkMatch o k val;
        match_values fuel o k toks2 (terms ++ [m]) e
      else
        let '(t, e) := perror rest "expected value" e in
        Some (FilterNil, t, e)
  end.

(** [parser.expr], [parser.andExpr] and [parser.match]; each call and
    each loop iteration uses one unit of fuel. *)
Fixpoint expr_loop (fuel : nat) (toks : tokenizer) (terms : list Filter)
    (e : errorTracker) {struct fuel} : result Filter :=
  match fuel with
  | O => None
  | S fuel =>
      '(qf, toks, e) ← andExpr fuel toks e;
      let terms := terms ++ [qf] in
      let '(op, toks2, e) := key toks e in
      if negb (byte_eqb (Kind op) "O") then
        match terms with
        | [t] => Some (t, toks, e)
        | _ => Some (FilterOp OpOr terms, toks, e)
        end
      else expr_loop fuel toks2 terms e
  end
with andExpr (fuel : nat) (toks : tokenizer) (e : errorTracker)
    {struct fuel} : result Filter :=
  match fuel with
  | O => None
  | S fuel =>
      '(qf, toks, e) ← parser_match fuel toks e;
      andExpr_loop fuel toks [qf] e
  end
with andExpr_loop (fuel : nat) (toks : tokenizer) (terms : list Filter)
    (e : errorTracker) {struct fuel} : result Filter :=
  match fuel with
  | O => None
  | S fuel =>
      let '(op, toks2, e) := key toks e in
      if byte_eqb (Kind op) "A" then andExpr_loop fuel toks2 terms e
      else if kind_in (Kind op) "(-*wq" then
        '(qf, toks, e) ← parser_match fuel toks e;
        andExpr_loop fuel toks (terms ++ [qf]) e
      else if kind_in (Kind op) ")O" || byte_eqb (Kind op) Kind0 then
        match terms with
        | [t] => Some (t, toks, e)
        | _ => Some (FilterOp OpAnd terms, toks, e)
        end
      else
        let '(t, e) := perror toks ("unexpected " ++ strconv_Quote (Tok op)) e in
        Some (FilterNil, t, e)
  end
with parser_match (fuel : nat) (start : tokenizer) (e : errorTracker)
    {struct fuel} : result Filter :=
  match fuel with
  | O => None
  | S fuel =>
      let '(tk, rest, e) := key start e in
      if byte_eqb (Kind tk) "(" then
        '(qf, rest, e) ← expr_loop fuel rest [] e;
        let '(op, toks2, e) := key rest e in
        if negb (byte_eqb (Kind op) ")") then
          let '(t, e) := perror rest ("missing " ++ quoted ")") e in
          Some (FilterNil, t, e)
        else Some (qf, toks2, e)
      else if byte_eqb (Kind tk) "-" then
        '(qf, rest, e) ← parser_match fuel rest e;
        Some (FilterOp OpNot [qf], rest, e)
      else if byte_eqb (Kind tk) "*" then
        Some (FilterOp OpAnd [], rest, e)
      else if kind_in (Kind tk) "wq" then
        let o := tOff tk in
        let k := Tok tk in
        let '(op, toks2, e) := key rest e in
        if negb (byte_eqb (Kind op) ":") then
          let '(t, e) := perror start "expected key:value" e in
          Some (FilterNil, t, e)
        else
          let rest := toks2 in
          let '(val, rest, e) := value rest e in
          if kind_in (Kind val) "wqr" then
            m ← mkMatch o k val; Some (m, rest, e)
          else if byte_eqb (Kind val) "(" then
            match_values fuel o k rest [] e
          else
            let '(t, e) := perror start "expected key:value" e in
            Some (FilterNil, t, e)
      else
        let '(t, e) := perror start "expected key:value or subexpression" e in
        Some (FilterNil, t, e)
  end%char%string.

Definition expr (fuel : nat) (toks : tokenizer) (e : errorTracker)
  : result Filter := expr_loop fuel toks [] e.

(** [ParseFilter]; the fuel covers every token of the query. *)
Definition ParseFilter_fuel (fuel : nat) (query : string)
  : option (Filter + SyntaxError) :=
  let '(toks, e) := newTokenizer query in
  '(qf, toks, e) ← expr fuel toks e;
  let '(toks, e) := end_ toks e in
  match err e with
  | Some se => Some (inr se)
  | None => Some (inl qf)
  end.

Definition ParseFilter (query : string) : option (Filter + SyntaxError) :=
  ParseFilter_fuel (4 * String.length query + 8) query.
End Parser.

(** *** Projection expressions *)

Record Projection := mkProjection {
  pKey : string;
  Order : string;
  Fixed : list string;
  KeyOff : Z;
  OrderOff : Z
}.

Definition zeroProjection : Projection := mkProjection "" "" [] 0 0.

Section Projections.
Context `{GoLib}.

(** The [for] loop of [parseProjection1] over a parenthesized list. *)
Fixpoint fixed_loop (fuel : nat) (p : Projection) (toks : tokenizer)
    (e : errorTracker) : result Projection :=
  match fuel with
  | O => None
  | S fuel =>
      let '(t, toks2, e) := key toks e in
      if kind_in (Kind t) "wq" then
        fixed_loop fuel
          (mkProjection (pKey p) (Order p) (Fixed p ++ [Tok t]) (KeyOff p) (OrderOff p))
          toks2 e
      else if byte_eqb (Kind t) ")" then
        if (length (Fixed p) =? 0)%nat then
          let '(_, toks, e) := error toks "nothing to match" e in
          Some (p, toks, e)
        else Some (p, toks2, e)
      else
        let '(_, toks, e) := error toks "missing )" e in
        Some (p, toks, e)
  end%char%string.

Definition parseProjection1 (fuel : nat) (toks : tokenizer) (e : errorTracker)
  : result Projection :=
  let p := zeroProjection in
  let '(k, toks2, e) := key toks e in
  if negb (kind_in (Kind k) "wq") then
    let '(_, toks, e) := error toks "expected key" e in
    Some (p, toks, e)
  else
    let toks := toks2 in
    let p := mkProjection (Tok k) "first" [] (tOff k)
               (tOff k + Z.of_nat (String.length (Tok k))) in
    let '(sep, toks2, e) := key toks e in
    if negb (byte_eqb (Kind sep) "@") then Some (p, toks, e)
    else
      let toks := toks2 in
      let '(order, toks2, e) := key toks e in
      let p := mkProjection (pKey p) (Order p) (Fixed p) (KeyOff p) (tOff order) in
      if kind_in (Kind order) "wq" then
        Some (mkProjection (pKey p) (Tok order) (Fixed p) (KeyOff p) (OrderOff p),
              toks2, e)
      else if byte_eqb (Kind order) "(" then
        fixed_loop fuel
          (mkProjection (pKey p) "fixed" (Fixed p) (KeyOff p) (OrderOff p))
          toks2 e
      else
        let '(_, toks, e) :=
          error toks "expected named sort order or parenthesized list" e in
        Some (p, toks, e).

(** The [for] loop of [ParseProjection]. *)
Fixpoint projection_loop (fuel : nat) (toks : tokenizer)
    (projs : list Projection) (e : errorTracker) : result (list Projection) :=
  match fuel with
  | O => None
  | S fuel =>
      let '(tk, toks2, e) := key toks e in
      if byte_eqb (Kind tk) Kind0 then Some (projs, toks, e)
      else
        let toks :=
          if byte_eqb (Kind tk) "," && (0 <? length projs)%nat
          then toks2 else toks in
        '(proj, toks, e) ← parseProjection1 fuel toks e;
        projection_loop fuel toks (projs ++ [proj]) e
  end%char.

Definition ParseProjection_fuel (fuel : nat) (query : string)
  : option (list Projection + SyntaxError) :=
  let '(toks, e) := newTokenizer query in
  '(projs, toks, e) ← projection_loop fuel toks [] e;
  let '(toks, e) := end_ toks e in
  match err e with
  | Some se => Some (inr se)
  | None => Some (inl projs)
  end.

Definition ParseProjection (query : string)
  : option (list Projection + SyntaxError) :=
  ParseProjection_fuel (String.length query + 2) query.
End Projections.

End parse.

(** ** Package benchproc: numbers and the built-in orders (sort.go) *)

Module num.

(** Operations of Go on [float64] and [int]. *)
Definition fmul : float64 -> float64 -> float64 := SFmul 53 1024.
Definition flt : float64 -> float64 -> bool := SFltb.
Definition fgt (a b : float64) : bool := SFltb b a.
Definition IsNaN (f : float64) : bool :=
  match f with S754_nan => true | _ => false end.
Definition float_of_Z (z : Z) : float64 := binary_normalize 53 1024 z 0 false.

(** [math.Pow(base, float64(exp))] at the arguments [parseNum] passes, an
    integral base and an exponent from 0 to 8: the power, rounded to the
    nearest binary64. *)
Definition math_Pow (base exp : Z) : float64 := float_of_Z (base ^ exp).

(** A Go [int]: 64 bits, wrapping. *)
Definition wrap64 (z : Z) : Z := (z + 2 ^ 63) mod 2 ^ 64 - 2 ^ 63.

(** [strings.Compare] and [a < b] on strings: byte-wise. *)
Definition strings_Compare (a b : string) : Z :=
  match String.compare a b with Lt => -1 | Eq => 0 | Gt => 1 end.
Definition string_lt (a b : string) : bool := String.ltb a b.

Definition numPrefixes : string := "KMGTPEZY".

Definition isNumChar (c : ascii) : bool := is_digit c || byte_eqb c ".".
Definition isPrefixChar (c : ascii) : bool :=
  byte_eqb c "k" || (0 <=? IndexByte (bs numPrefixes) c).

Fixpoint spanNum (x : bytes) : nat :=
  match x with
  | c :: x' => if isNumChar c then S (spanNum x') else O
  | [] => O
  end.

(** [numRe] matched at the start of [x], which begins with a digit or a
    dot: the two submatches.  Every part after the first is optional and
    greedy, so the match never backtracks. *)
Definition numRe_at (x : bytes) : bytes * bytes :=
  let n := spanNum x in
  let rest := drop n x in
  let sub2 :=
    match rest with
    | p :: rest' =>
        if isPrefixChar p then
          match rest' with
          | i :: _ => if byte_eqb i "i" then [p; i] else [p]
          | [] => [p]
          end
        else []
    | [] => []
    end in
  (take n x, sub2).

(** [numRe.FindStringSubmatch]: the leftmost match, or [None]. *)
Fixpoint FindStringSubmatch (x : bytes) : option (bytes * bytes) :=
  match x with
  | [] => None
  | c :: x' => if isNumChar c then Some (numRe_at x) else FindStringSubmatch x'
  end.

Definition HasSuffix_i (s : bytes) : bool :=
  match last s with
  | Some c => byte_eqb c "i"
  | None => false
  end.

Section Num.
Context `{GoLib}.

(** [parseNum]: the value and whether [err == nil]. *)
Definition parseNum (x : string) : float64 * bool :=
  let '(v, ok) := strconv_ParseFloat x in
  if ok then (v, true)
  else
    let fail := (S754_zero false, false) in
    match FindStringSubmatch (bs x) with
    | None => fail
    | Some (sub1, sub2) =>
        let '(v, ok) := strconv_ParseFloat (str sub1) in
        if ok then
          let exp :=
            match sub2 with
            | pre :: _ =>
                let pre := if byte_eqb pre "k" then "K"%char else pre in
                1 + IndexByte (bs numPrefixes) pre
            | [] => 0
            end in
          let iec := HasSuffix_i sub2 in
          if iec then (fmul v (math_Pow 1024 exp), true)
          else (fmul v (math_Pow 1000 exp), true)
        else fail
    end.

(** [builtinOrders["num"]] *)
Definition order_num (a b : string) : Z :=
  let '(aa, oka) := parseNum a in
  let '(bb, okb) := parseNum b in
  if oka && okb then
    if flt aa bb || (negb (IsNaN aa) && IsNaN bb) then -1
    else if fgt aa bb || (IsNaN aa && negb (IsNaN bb)) then 1
    else 0
  else if negb oka && negb okb then 0
  else if oka then -1
  else 1.
End Num.

(** [builtinOrders["alpha"]] *)
Definition order_alpha (a b : string) : Z := strings_Compare a b.

End num.

(** ** Package benchproc: schemas and configs *)

Module benchproc.
Import extract.

#[local] Set Warnings "-register-all".

(** *** Fields *)

(** A [Field] is a name and a pointer to its [fieldInternal]; the zero
    Field has a nil pointer. *)
Record Field := mkField { Name : string; fieldInternal_ptr : option nat }.

(** The comparison closures: the three of [makeProjection], the one of
    [AddValues], and the two [builtinOrders].  [cmpNil] is the nil func. *)
Inductive cmpFn :=
| cmpNil
| cmpFixed (fixedMap : gmap string Z)
| cmpFirst (field : Field)
| cmpUnit (field : Field)
| cmpAlpha
| cmpNum.

Record fieldInternal := mkFieldInternal {
  schema : option nat;
  idx : Z;
  sub : list Field;
  cmp : cmpFn;
  order : option (gmap string Z)
}.

(** *** Configs *)

Record configNode := mkConfigNode {
  nschema : option nat;
  vals : list string
}.

(** A [Config] is a pointer to a [configNode]; two Configs are [==] when
    the pointers are. *)
Record Config := mkConfigOf { c : option nat }.

Definition IsZero (cf : Config) : bool :=
  match c cf with None => true | Some _ => false end.

(** *** Closures of [makeProjection] *)

(** [initField] *)
Inductive initFn :=
| initFixed (fixedMap : gmap string Z)
| initFirst
| initBuiltin (cmp : cmpFn).

(** [project] *)
Inductive projectFn :=
| projectConfig (initField : initFn) (group : Field) (seen : gmap string Field)
| projectFullname (field : Field)
| projectKey (ext : extractor) (field : Field).

(** [filter], the closure of [makeFilter], and what [Parse] builds from
    it.  Modelled from the spec: [filterOp] and [Filter.match] (their file
    is not among the sources) are kept as a tree of their arguments. *)
Inductive filterFn :=
| filterFixed (ext : extractor) (fixedMap : gmap string Z)
| filterParsed (f : parse.Filter)
| filterOp (op : parse.Op) (subs : list filterFn).

Record Filter := mkFilter { match_ : filterFn }.

(** *** Schemas *)

Record Schema := mkSchema {
  self : nat;                      (** the address of this Schema *)
  root : Field;
  nFields : Z;
  unitField : Field;
  flatCache : option (list Field);
  project : list projectFn;
  row : list string;
  interns : gmap string string;
  configs : gmap Z (list nat);
  fieldHeap : list fieldInternal;  (** the [fieldInternal]s allocated *)
  nodeHeap : list configNode       (** the [configNode]s allocated *)
}.

Definition set_fieldHeap (s : Schema) (h : list fieldInternal) : Schema :=
  mkSchema (self s) (root s) (nFields s) (unitField s) (flatCache s)
    (project s) (row s) (interns s) (configs s) h (nodeHeap s).
Definition set_row (s : Schema) (r : list string) : Schema :=
  mkSchema (self s) (root s) (nFields s) (unitField s) (flatCache s)
    (project s) r (interns s) (configs s) (fieldHeap s) (nodeHeap s).
Definition set_flatCache (s : Schema) (fc : option (list Field)) : Schema :=
  mkSchema (self s) (root s) (nFields s) (unitField s) fc
    (project s) (row s) (interns s) (configs s) (fieldHeap s) (nodeHeap s).
Definition set_project (s : Schema) (p : list projectFn) : Schema :=
  mkSchema (self s) (root s) (nFields s) (unitField s) (flatCache s)
    p (row s) (interns s) (configs s) (fieldHeap s) (nodeHeap s).
Definition set_interns (s : Schema) (m : gmap string string) : Schema :=
  mkSchema (self s) (root s) (nFields s) (unitField s) (flatCache s)
    (project s) (row s) m (configs s) (fieldHeap s) (nodeHeap s).
Definition set_nFields (s : Schema) (n : Z) : Schema :=
  mkSchema (self s) (root s) n (unitField s) (flatCache s)
    (project s) (row s) (interns s) (configs s) (fieldHeap s) (nodeHeap s).
Definition set_unitField (s : Schema) (f : Field) : Schema :=
  mkSchema (self s) (root s) (nFields s) f (flatCache s)
    (project s) (row s) (interns s) (configs s) (fieldHeap s) (nodeHeap s).
Definition set_configs (s : Schema) (m : gmap Z (list nat))
    (h : list configNode) : Schema :=
  mkSchema (self s) (root s) (nFields s) (unitField s) (flatCache s)
    (project s) (row s) (interns s) m (fieldHeap s) h.

(** Dereferencing; a nil pointer panics. *)
Definition deref (h : list fieldInternal) (f : Field) : option fieldInternal :=
  p ← fieldInternal_ptr f; h !! p.

Definition update (h : list fieldInternal) (f : Field)
    (g : fieldInternal -> fieldInternal) : option (list fieldInternal) :=
  p ← fieldInternal_ptr f; fi ← h !! p; Some (<[p := g fi]> h).

Definition newSchema (addr : nat) : Schema :=
  mkSchema addr (mkField "" (Some O)) 0 (mkField "" None) None [] []
    ∅ ∅ [mkFieldInternal None (-1) [] cmpNil None] [].

Definition add_sub (field : Field) (fi : fieldInternal) : fieldInternal :=
  mkFieldInternal (schema fi) (idx fi) (sub fi ++ [field]) (cmp fi) (order fi).

Definition addField (s : Schema) (group : Field) (name : string)
  : option (Schema * Field) :=
  gi ← deref (fieldHeap s) group;
  if negb (idx gi =? -1) then None
  else
    let field := mkField name (Some (length (fieldHeap s))) in
    let h := fieldHeap s ++ [mkFieldInternal (Some (self s)) (nFields s) [] cmpNil None] in
    let s := set_nFields (set_fieldHeap s h) (nFields s + 1) in
    h ← update (fieldHeap s) group (add_sub field);
    let s := set_fieldHeap s h in
    let s := set_row s (row s ++ [""]) in
    let s := set_flatCache s None in
    Some (s, field).

Definition addGroup (s : Schema) (group : Field) (name : string)
  : option (Schema * Field) :=
  let field := mkField name (Some (length (fieldHeap s))) in
  let h := fieldHeap s ++ [mkFieldInternal (Some (self s)) (-1) [] cmpNil None] in
  let s := set_fieldHeap s h in
  h ← update (fieldHeap s) group (add_sub field);
  Some (set_fieldHeap s h, field).

Definition set_cmp (cm : cmpFn) (fi : fieldInternal) : fieldInternal :=
  mkFieldInternal (schema fi) (idx fi) (sub fi) cm (order fi).
Definition set_order (o : option (gmap string Z)) (fi : fieldInternal)
  : fieldInternal :=
  mkFieldInternal (schema fi) (idx fi) (sub fi) (cmp fi) o.

Definition AddValues (s : Schema) : option (Schema * Field) :=
  match fieldInternal_ptr (unitField s) with
  | Some _ => None
  | None =>
      '(s, field) ← addField s (root s) ".unit";
      h ← update (fieldHeap s) field (set_order (Some ∅));
      h ← update h field (set_cmp (cmpUnit field));
      let s := set_unitField (set_fieldHeap s h) field in
      Some (s, field)
  end.

(** [walk] of [Fields]; a tree of fields is no deeper than the heap is
    long, which bounds the fuel. *)
Fixpoint walk (h : list fieldInternal) (fuel : nat) (f : Field)
  : option (list Field) :=
  match fuel with
  | O => None
  | S fuel =>
      fi ← deref h f;
      if negb (idx fi =? -1) then Some [f]
      else ls ← mapM (walk h fuel) (sub fi); Some (concat ls)
  end.

Definition Fields (s : Schema) : option (Schema * list Field) :=
  match flatCache s with
  | Some fc => Some (s, fc)
  | None =>
      fc ← walk (fieldHeap s) (S (length (fieldHeap s))) (root s);
      Some (set_flatCache s (Some fc), fc)
  end.

(** [Schema.intern] *)
Definition intern (s : Schema) (b : bytes) : Schema * string :=
  match interns s !! str b with
  | Some st => (s, st)
  | None => (set_interns s (<[str b := str b]> (interns s)), str b)
  end.

(** [s[i] = v]; an index out of range panics. *)
Definition store {A} (l : list A) (i : Z) (v : A) : option (list A) :=
  if (0 <=? i) && (i <? Z.of_nat (length l))
  then Some (<[Z.to_nat i := v]> l) else None.

(** [s[i]]; an index out of range panics. *)
Definition index {A} (l : list A) (i : Z) : option A :=
  if 0 <=? i then l !! Z.to_nat i else None.

(** The assignment of [s.intern(val)] to slot [field.idx] of the row. *)
Definition store_row (s : Schema) (field : Field) (val : bytes) : option Schema :=
  fi ← deref (fieldHeap s) field;
  let '(s, st) := intern s val in
  r ← store (row s) (idx fi) st;
  Some (set_row s r).

(** *** Configs of a schema *)

Definition node (s : Schema) (cf : Config) : option configNode :=
  p ← c cf; nodeHeap s !! p.

Definition option_nat_eqb (a b : option nat) : bool :=
  match a, b with
  | Some x, Some y => (x =? y)%nat
  | None, None => true
  | _, _ => false
  end.

(** [Config.Get] *)
Definition Get (s : Schema) (cf : Config) (f : Field) : option string :=
  if IsZero cf then None
  else
    n ← node s cf;
    fi ← deref (fieldHeap s) f;
    if negb (option_nat_eqb (nschema n) (schema fi)) then None
    else
      let i := idx fi in
      if Z.of_nat (length (vals n)) <=? i then Some ""
      else index (vals n) i.

(** [configNode.equalRow] *)
Fixpoint equalRow_loop (vs row : list string) : bool :=
  match vs, row with
  | [], _ => true
  | v :: vs', r :: row' => if negb (String.eqb r v) then false else equalRow_loop vs' row'
  | _ :: _, [] => false
  end.

Definition equalRow (n : configNode) (row : list string) : bool :=
  if negb (length (vals n) =? length row)%nat then false
  else equalRow_loop (vals n) row.

(** The trimming loop of [internRow]: [row = row[:len(row)-1]] while the
    last value is empty; [n] is [len(row)]. *)
Fixpoint trim_loop (row : list string) (n : nat) : list string :=
  match n with
  | O => []
  | S k =>
      match row !! k with
      | Some v => if String.eqb v "" then trim_loop row k else take n row
      | None => take n row
      end
  end.

Definition trim (row : list string) : list string :=
  trim_loop row (length row).

Fixpoint find_config (s : Schema) (cs : list nat) (row : list string)
  : option (option nat) :=
  match cs with
  | [] => Some None
  | p :: cs' =>
      n ← nodeHeap s !! p;
      if equalRow n row then Some (Some p) else find_config s cs' row
  end.

(** One iteration of the loop of [internRow] over the fields. *)
Definition observe (h : list fieldInternal) (row : list string) (field : Field)
  : option (list fieldInternal) :=
  fi ← deref h field;
  match order fi with
  | None => Some h
  | Some o =>
      val ← (if idx fi <? Z.of_nat (length row) then index row (idx fi) else Some "");
      match o !! val with
      | Some _ => Some h
      | None => update h field (set_order (Some (<[val := Z.of_nat (size o)]> o)))
      end
  end.

Fixpoint observe_all (h : list fieldInternal) (row : list string)
    (fields : list Field) : option (list fieldInternal) :=
  match fields with
  | [] => Some h
  | f :: fs => h ← observe h row f; observe_all h row fs
  end.

Section Intern.
Context `{GoLib}.

(** The bytes [internRow] writes to the hash. *)
Definition hash_row (row : list string) : Z :=
  maphash_Sum64 (concat (bs <$> row)).

Definition internRow (s : Schema) : option (Schema * Config) :=
  let row := trim (row s) in
  let hash := hash_row row in
  let cs := default [] (configs s !! hash) in
  found ← find_config s cs row;
  match found with
  | Some p => Some (s, mkConfigOf (Some p))
  | None =>
      '(s, fields) ← Fields s;
      h ← observe_all (fieldHeap s) row fields;
      let s := set_fieldHeap s h in
      let p := length (nodeHeap s) in
      let nodes := nodeHeap s ++ [mkConfigNode (Some (self s)) row] in
      let cs := default [] (configs s !! hash) ++ [p] in
      Some (set_configs s (<[hash := cs]> (configs s)) nodes, mkConfigOf (Some p))
  end.
End Intern.

(** *** The projection parser (ProjectionParser, makeProjection) *)

Record ProjectionParser := mkProjectionParser {
  configKeys : option (gmap string bool);
  fullnameKeys : list string;
  haveConfig : bool;
  haveFullname : bool;
  fullExtractor : option extractor
}.

Definition zeroProjectionParser : ProjectionParser :=
  mkProjectionParser None [] false false None.

(** [p.configKeys[key]]; reading a nil map gives the zero value. *)
Definition configKeys_get (p : ProjectionParser) (key : string) : bool :=
  match configKeys p with
  | Some m => default false (m !! key)
  | None => false
  end.

(** [initField(field)] *)
Definition call_initField (init : initFn) (h : list fieldInternal)
    (field : Field) : option (list fieldInternal) :=
  match init with
  | initFixed m => update h field (set_cmp (cmpFixed m))
  | initFirst =>
      h ← update h field (set_order (Some ∅));
      update h field (set_cmp (cmpFirst field))
  | initBuiltin cm => update h field (set_cmp cm)
  end.

(** The loop of the [.config] closure over [r.FileConfig]. *)
Fixpoint projectConfig_loop (p : ProjectionParser) (init : initFn)
    (group : Field) (cfgs : list benchfmt.Config)
    (seen : gmap string Field) (s : Schema)
  : option (gmap string Field * Schema) :=
  match cfgs with
  | [] => Some (seen, s)
  | cfg :: cfgs' =>
      match seen !! benchfmt.Key cfg with
      | Some field =>
          s ← store_row s field (benchfmt.Value cfg);
          projectConfig_loop p init group cfgs' seen s
      | None =>
          if configKeys_get p (benchfmt.Key cfg)
          then projectConfig_loop p init group cfgs' seen s
          else
            '(s, field) ← addField s group (benchfmt.Key cfg);
            h ← call_initField init (fieldHeap s) field;
            let s := set_fieldHeap s h in
            let seen := <[benchfmt.Key cfg := field]> seen in
            s ← store_row s field (benchfmt.Value cfg);
            projectConfig_loop p init group cfgs' seen s
      end
  end.

(** A call of a [project] closure; the closure comes back with the
    variables it captured as they are after the call. *)
Definition call_project (pr : projectFn) (p : ProjectionParser) (s : Schema)
    (r : benchfmt.Result) : option (ProjectionParser * Schema * projectFn) :=
  match pr with
  | projectConfig init group seen =>
      '(seen, s) ← projectConfig_loop p init group (benchfmt.FileConfig r) seen s;
      Some (p, s, projectConfig init group seen)
  | projectFullname field =>
      let p :=
        match fullExtractor p with
        | Some _ => p
        | None =>
            mkProjectionParser (configKeys p) (fullnameKeys p) (haveConfig p)
              (haveFullname p) (Some (newExtractorFullName (fullnameKeys p)))
        end in
      ext ← fullExtractor p;
      val ← apply ext r;
      s ← store_row s field val;
      Some (p, s, pr)
  | projectKey ext field =>
      val ← apply ext r;
      s ← store_row s field val;
      Some (p, s, pr)
  end.

(** The second loop of [populateRow]; [i] is the position of the closure
    that runs next. *)
Fixpoint populate_loop (projs : list projectFn) (i : nat)
    (p : ProjectionParser) (s : Schema) (r : benchfmt.Result)
  : option (ProjectionParser * Schema) :=
  match projs with
  | [] => Some (p, s)
  | pr :: projs' =>
      '(p, s, pr) ← call_project pr p s r;
      let s := set_project s (<[i := pr]> (project s)) in
      populate_loop projs' (S i) p s r
  end.

Definition populateRow (p : ProjectionParser) (s : Schema) (r : benchfmt.Result)
  : option (ProjectionParser * Schema) :=
  let s := set_row s ((fun _ => "") <$> row s) in
  populate_loop (project s) 0%nat p s r.

Section Project.
Context `{GoLib}.

Definition Project (p : ProjectionParser) (s : Schema) (r : benchfmt.Result)
  : option (ProjectionParser * Schema * Config) :=
  '(p, s) ← populateRow p s r;
  '(s, cf) ← internRow s;
  Some (p, s, cf).

(** The loop of [ProjectValues] that varies the [.unit] field. *)
Fixpoint values_loop (s : Schema) (u : Z) (vs : list benchfmt.Value_)
    (out : list Config) : option (Schema * list Config) :=
  match vs with
  | [] => Some (s, out)
  | val :: vs' =>
      r ← store (row s) u (benchfmt.Unit val);
      '(s, cf) ← internRow (set_row s r);
      values_loop s u vs' (out ++ [cf])
  end.

Definition ProjectValues (p : ProjectionParser) (s : Schema)
    (r : benchfmt.Result)
  : option (ProjectionParser * Schema * list Config) :=
  '(p, s) ← populateRow p s r;
  match fieldInternal_ptr (unitField s) with
  | None =>
      '(s, cf) ← internRow s;
      Some (p, s, (fun _ => cf) <$> benchfmt.Values r)
  | Some _ =>
      ui ← deref (fieldHeap s) (unitField s);
      '(s, out) ← values_loop s (idx ui) (benchfmt.Values r) [];
      Some (p, s, out)
  end.

(** [builtinOrders] *)
Definition builtinOrders (name : string) : option cmpFn :=
  if String.eqb name "alpha" then Some cmpAlpha
  else if String.eqb name "num" then Some cmpNum
  else None.

(** The loop that fills [fixedMap]. *)
Fixpoint fixedMap_loop (fixed : list string) (i : Z) (m : gmap string Z)
  : gmap string Z :=
  match fixed with
  | [] => m
  | v :: fixed' => fixedMap_loop fixed' (i + 1) (<[v := i]> m)
  end.

Definition set_have (p : ProjectionParser) (hc hf : bool) : ProjectionParser :=
  mkProjectionParser (configKeys p) (fullnameKeys p) hc hf (fullExtractor p).

(** [makeProjection]: the parser and the schema as the call leaves
    them, and the filter closure (nil when there is none) or the error. *)
Definition makeProjection (p : ProjectionParser) (s : Schema) (q : string)
    (proj : parse.Projection)
  : option (ProjectionParser * Schema * (option filterFn + parse.SyntaxError)) :=
  let fixedMap := fixedMap_loop (parse.Fixed proj) 0 ∅ in
  let isFixed := String.eqb (parse.Order proj) "fixed" in
  let order : option initFn :=
    if isFixed then Some (initFixed fixedMap)
    else if String.eqb (parse.Order proj) "first" then Some initFirst
    else initBuiltin <$> builtinOrders (parse.Order proj) in
  match order with
  | None =>
      Some (p, s, inr (parse.mkSyntaxError q (parse.OrderOff proj)
                         ("unknown order " ++ strconv_Quote (parse.Order proj))))
  | Some initField =>
      let makeFilter (ext : extractor) : option filterFn :=
        if isFixed then Some (filterFixed ext fixedMap) else None in
      if String.eqb (parse.pKey proj) ".config" then
        if isFixed then
          Some (p, s, inr (parse.mkSyntaxError q (parse.OrderOff proj)
                             "fixed order not allowed for .config"))
        else
          let p := set_have p true (haveFullname p) in
          '(s, group) ← addGroup s (root s) ".config";
          let pr := projectConfig initField group ∅ in
          Some (p, set_project s (project s ++ [pr]), inl None)
      else if String.eqb (parse.pKey proj) ".fullname" then
        let p := set_have p (haveConfig p) true in
        '(s, field) ← addField s (root s) ".fullname";
        h ← call_initField initField (fieldHeap s) field;
        let s := set_fieldHeap s h in
        let filter := makeFilter extractFull in
        let pr := projectFullname field in
        Some (p, set_project s (project s ++ [pr]), inl filter)
      else
        p ← (if String.eqb (parse.pKey proj) ".name"
                || starts_with_slash (parse.pKey proj)
             then Some (mkProjectionParser (configKeys p)
                          (fullnameKeys p ++ [parse.pKey proj])
                          (haveConfig p) (haveFullname p) (fullExtractor p))
             else
               m ← configKeys p;
               Some (mkProjectionParser (Some (<[parse.pKey proj := true]> m))
                       (fullnameKeys p) (haveConfig p) (haveFullname p)
                       (fullExtractor p)));
        match newExtractor (parse.pKey proj) with
        | inr msg =>
            Some (p, s, inr (parse.mkSyntaxError q (parse.KeyOff proj) msg))
        | inl ext =>
            '(s, field) ← addField s (root s) (parse.pKey proj);
            h ← call_initField initField (fieldHeap s) field;
            let s := set_fieldHeap s h in
            let filter := makeFilter ext in
            let pr := projectKey ext field in
            Some (p, set_project s (project s ++ [pr]), inl filter)
        end
  end.

(** The loop of [Parse] over the parts. *)
Fixpoint parts_loop (p : ProjectionParser) (s : Schema) (q : string)
    (parts : list parse.Projection) (filterParts : list filterFn)
  : option (ProjectionParser * (Schema * list filterFn + parse.SyntaxError)) :=
  match parts with
  | [] => Some (p, inl (s, filterParts))
  | part :: parts' =>
      '(p, s, res) ← makeProjection p s q part;
      match res with
      | inr e => Some (p, inr e)
      | inl f =>
          let filterParts :=
            match f with
            | Some f => filterParts ++ [f]
            | None => filterParts
            end in
          parts_loop p s q parts' filterParts
      end
  end.

(** [ProjectionParser.Parse]; [addr] is the address of the Schema that
    [newSchema] allocates.  The result is the Schema, or nil and the
    error. *)
Definition Parse (p : ProjectionParser) (addr : nat) (proj : string)
    (filter : Filter)
  : option (ProjectionParser * Filter * (Schema + parse.SyntaxError)) :=
  let p :=
    match configKeys p with
    | Some _ => p
    | None => mkProjectionParser (Some ∅) (fullnameKeys p) (haveConfig p)
                (haveFullname p) (fullExtractor p)
    end in
  let s := newSchema addr in
  res ← parse.ParseProjection proj;
  match res with
  | inr e => Some (p, filter, inr e)
  | inl parts =>
      '(p, res) ← parts_loop p s proj parts [];
      match res with
      | inr e => Some (p, filter, inr e)
      | inl (s, filterParts) =>
          let filter :=
            if (0 <? length filterParts)%nat
            then mkFilter (filterOp parse.OpAnd (filterParts ++ [match_ filter]))
            else filter in
          Some (p, filter, inl s)
      end
  end.

(** [ProjectionParser.Residue] *)
Definition Residue (p : ProjectionParser) (addr : nat)
  : option (ProjectionParser * Schema) :=
  let s := newSchema addr in
  '(p, s) ← (if negb (haveConfig p) then
               '(p, s, _) ← makeProjection p s ""
                   (parse.mkProjection ".config" "first" [] 0 0);
               Some (p, s)
             else Some (p, s));
  '(p, s) ← (if negb (haveFullname p) then
               '(p, s, _) ← makeProjection p s ""
                   (parse.mkProjection ".fullname" "first" [] 0 0);
               Some (p, s)
             else Some (p, s));
  Some (p, s).
End Project.

(** *** Ordering (sort.go) *)

(** [m[k]] on a map of ints; an absent key reads as 0. *)
Definition map_get (m : gmap string Z) (k : string) : Z := default 0 (m !! k).

Section Order.
Context `{GoLib}.

(** A call of [node.cmp]; calling the nil func panics. *)
Definition call_cmp (h : list fieldInternal) (cm : cmpFn) (a b : string)
  : option Z :=
  match cm with
  | cmpNil => None
  | cmpFixed m => Some (num.wrap64 (map_get m a - map_get m b))
  | cmpFirst f | cmpUnit f =>
      fi ← deref h f;
      let o := default ∅ (order fi) in
      Some (num.wrap64 (map_get o a - map_get o b))
  | cmpAlpha => Some (num.order_alpha a b)
  | cmpNum => Some (num.order_num a b)
  end.

(** The value of a tuple at a storage index: [""] past the end. *)
Definition at_idx (a : list string) (i : Z) : option string :=
  if i <? Z.of_nat (length a) then index a i else Some "".

Fixpoint less (h : list fieldInternal) (flat : list Field)
    (a b : list string) : option bool :=
  match flat with
  | [] => Some false
  | nd :: flat' =>
      fi ← deref h nd;
      aa ← at_idx a (idx fi);
      bb ← at_idx b (idx fi);
      if negb (String.eqb aa bb) then
        cm ← call_cmp h (cmp fi) aa bb;
        if negb (cm =? 0) then Some (cm <? 0)
        else Some (num.string_lt aa bb)
      else less h flat' a b
  end.

(** [Config.Less] *)
Definition Less (s : Schema) (cf o : Config) : option (Schema * bool) :=
  n ← node s cf;
  m ← node s o;
  if negb (option_nat_eqb (nschema n) (nschema m)) then None
  else
    '(s, flat) ← Fields s;
    b ← less (fieldHeap s) flat (vals n) (vals m);
    Some (s, b).

(** [commonSchema]: the schema all configs have, nil for no config. *)
Definition commonSchema (s : Schema) (cfs : list Config)
  : option (option nat) :=
  match cfs with
  | [] => Some None
  | c0 :: rest =>
      n0 ← node s c0;
      _ ← mapM (fun cf => n ← node s cf;
                  if option_nat_eqb (nschema n) (nschema n0)
                  then Some tt else None) rest;
      Some (nschema n0)
  end.

(** [sort.Slice] is not code of the repository; an insertion sort
    stands for it. *)
Fixpoint sort_insert {A} (lt : A -> A -> option bool) (x : A) (l : list A)
  : option (list A) :=
  match l with
  | [] => Some [x]
  | y :: l' =>
      match lt x y with
      | None => None
      | Some true => Some (x :: y :: l')
      | Some false => r ← sort_insert lt x l'; Some (y :: r)
      end
  end.

Fixpoint sort_Slice {A} (lt : A -> A -> option bool) (l : list A)
  : option (list A) :=
  match l with
  | [] => Some []
  | x :: l' => r ← sort_Slice lt l'; sort_insert lt x r
  end.

Definition SortConfigs (s : Schema) (cfs : list Config)
  : option (Schema * list Config) :=
  if (length cfs =? 0)%nat then Some (s, cfs)
  else
    _ ← commonSchema s cfs;
    '(s, flat) ← Fields s;
    r ← sort_Slice (fun ci cj =>
           n ← node s ci; m ← node s cj;
           less (fieldHeap s) flat (vals n) (vals m)) cfs;
    Some (s, r).
End Order.

(** *** Header compaction (header.go) *)

Record ConfigHeader := mkConfigHeader {
  hField : Z;
  Start : Z;
  Len : Z;
  hValue : string
}.

Definition incr_Len (n : ConfigHeader) : ConfigHeader :=
  mkConfigHeader (hField n) (Start n) (Len n + 1) (hValue n).

(** [configs[lo:hi]]; bounds out of range panic. *)
Definition subslice {A} (l : list A) (lo hi : Z) : option (list A) :=
  if (0 <=? lo) && (lo <=? hi) && (hi <=? Z.of_nat (length l))
  then Some (slice l (Z.to_nat lo) (Z.to_nat hi)) else None.

(** The innermost loop of [NewConfigHeader], over the configs of one
    parent.  [level] is [levels[i]]; [node], when not nil, points to its
    last element. *)
Fixpoint header_configs (s : Schema) (field : Field) (i pstart j : Z)
    (cfs : list Config) (level : list ConfigHeader) (node_nil : bool)
  : option (list ConfigHeader) :=
  match cfs with
  | [] => Some level
  | config :: cfs' =>
      val ← Get s config field;
      let fresh := level ++ [mkConfigHeader i (pstart + j) 1 val] in
      if node_nil then header_configs s field i pstart (j + 1) cfs' fresh false
      else
        nd ← last level;
        if String.eqb val (hValue nd)
        then header_configs s field i pstart (j + 1) cfs'
               (<[Nat.pred (length level) := incr_Len nd]> level) false
        else header_configs s field i pstart (j + 1) cfs' fresh false
  end.

(** The loop over the nodes of the previous level. *)
Fixpoint header_parents (s : Schema) (cfs : list Config) (field : Field)
    (i : Z) (prevLevel : list ConfigHeader) (level : list ConfigHeader)
  : option (list ConfigHeader) :=
  match prevLevel with
  | [] => Some level
  | parent :: prevLevel' =>
      span ← subslice cfs (Start parent) (Start parent + Len parent);
      level ← header_configs s field i (Start parent) 0 span level true;
      header_parents s cfs field i prevLevel' level
  end.

(** The loop over the fields. *)
Fixpoint header_fields (s : Schema) (cfs : list Config) (fields : list Field)
    (i : Z) (prevLevel : list ConfigHeader)
  : option (list (list ConfigHeader)) :=
  match fields with
  | [] => Some []
  | field :: fields' =>
      level ← header_parents s cfs field i prevLevel [];
      rest ← header_fields s cfs fields' (i + 1) level;
      Some (level :: rest)
  end.

(** [NewConfigHeader]; the nil result is the empty list of levels. *)
Definition NewConfigHeader (s : Schema) (cfs : list Config)
  : option (Schema * list (list ConfigHeader)) :=
  if (length cfs =? 0)%nat then Some (s, [])
  else
    _ ← commonSchema s cfs;
    '(s, fields) ← Fields s;
    let prevLevel := [mkConfigHeader (-1) 0 (Z.of_nat (length cfs)) ""] in
    levels ← header_fields s cfs fields 0 prevLevel;
    Some (s, levels).

(** *** Fields that vary (nonsingular.go) *)

(** The inner loop of [NonSingularFields] over [configs[1:]]: whether one
    of them reads for [f] another value than [base]; the loop stops at
    the first. *)
Fixpoint differs (s : Schema) (f : Field) (base : string)
    (rest : list Config) : option bool :=
  match rest with
  | [] => Some false
  | c :: rest' =>
      v ← Get s c f;
      if negb (String.eqb v base) then Some true else differs s f base rest'
  end.

(** The loop over the fields. *)
Fixpoint nonsingular_loop (s : Schema) (c0 : Config) (rest : list Config)
    (fields : list Field) (out : list Field) : option (list Field) :=
  match fields with
  | [] => Some out
  | f :: fields' =>
      base ← Get s c0 f;
      d ← differs s f base rest;
      nonsingular_loop s c0 rest fields' (if d : bool then out ++ [f] else out)
  end.

(** [NonSingularFields]; the nil result is the empty list. *)
Definition NonSingularFields (s : Schema) (configs : list Config)
  : option (Schema * list Field) :=
  if (length configs <=? 1)%nat then Some (s, [])
  else
    _ ← commonSchema s configs;
    '(s, fields) ← Fields s;
    match configs with
    | c0 :: rest => out ← nonsingular_loop s c0 rest fields []; Some (s, out)
    | [] => None
    end.

End benchproc.

(** ** An instance of the library functions

    A model of the library functions on the inputs the examples use: double
    quoted literals with the escapes of a backslash and of a quote, every
    regular expression compiling, decimal literals and the spellings of
    infinity and NaN as floats, and an FNV-style hash.  It instantiates the
    parameters of the general statements; nothing is proved of Go's
    library from it. *)

Module golib_model.

Fixpoint unescape (b : bytes) : option bytes :=
  match b with
  | [] => Some []
  | c :: b' =>
      if byte_eqb c "\" then
        match b' with
        | d :: b'' =>
            if byte_eqb d "\" || byte_eqb d (ascii_of_nat 34)
            then cons d <$> unescape b'' else None
        | [] => None
        end
      else cons c <$> unescape b'
  end.

Definition Unquote (s : string) : option string :=
  match bs s with
  | _ :: t => str <$> unescape (take (length t - 1) t)
  | [] => None
  end.

Fixpoint escape (b : bytes) : bytes :=
  match b with
  | [] => []
  | c :: b' =>
      if byte_eqb c "\" || byte_eqb c (ascii_of_nat 34)
      then "\"%char :: c :: escape b' else c :: escape b'
  end.

Definition Quote (s : string) : string := quoted (str (escape (bs s))).

Definition Compile (s : string) : string + string := inl s.

Definition lower (c : ascii) : ascii :=
  let n := N_of_ascii c in
  if (N.leb 65 n && N.leb n 90)%N then ascii_of_N (n + 32) else c.

Definition digit_val (c : ascii) : Z := Z.of_N (N_of_ascii c) - 48.

(** The digits at the start of [b]: their value, their number, the rest. *)
Fixpoint digits (b : bytes) (acc : Z) (n : Z) : Z * Z * bytes :=
  match b with
  | c :: b' => if is_digit c then digits b' (10 * acc + digit_val c) (n + 1)
               else (acc, n, b)
  | [] => (acc, n, [])
  end.

(** [n / d], rounded to the nearest binary64, ties to even: a quotient
    of at least 55 bits with a sticky bit, then [binary_normalize]. *)
Definition round_ratio (neg : bool) (n d : Z) : float64 :=
  if n =? 0 then S754_zero neg
  else
    let k := Z.max 0 (56 + Z.log2 d - Z.log2 n) in
    let q := (n * 2 ^ k) / d in
    let sticky := if (n * 2 ^ k) mod d =? 0 then 0 else 1 in
    let m := 2 * q + sticky in
    binary_normalize 53 1024 (if neg then - m else m) (- k - 1) neg.

Definition is_inf (f : float64) : bool :=
  match f with S754_infinity _ => true | _ => false end.

Definition ParseFloat (s : string) : float64 * bool :=
  let fail := (S754_zero false, false) in
  let b := lower <$> bs s in
  let '(neg, signed, b) :=
    match b with
    | c :: b' =>
        if byte_eqb c "-" then (true, true, b')
        else if byte_eqb c "+" then (false, true, b') else (false, false, b)
    | [] => (false, false, b)
    end in
  if String.eqb (str b) "inf" || String.eqb (str b) "infinity"
  then (S754_infinity neg, true)
  else if String.eqb (str b) "nan" then
    if signed then fail else (S754_nan, true)
  else
    let '(ip, ni, b) := digits b 0 0 in
    let '(fp, nf, b) :=
      match b with
      | c :: b' => if byte_eqb c "." then digits b' ip 0 else (ip, 0, b)
      | [] => (ip, 0, b)
      end in
    if ni + nf =? 0 then fail
    else
      let exp : option Z :=
        match b with
        | [] => Some 0
        | c :: b' =>
            if byte_eqb c "e" then
              let '(eneg, b') :=
                match b' with
                | d :: b'' =>
                    if byte_eqb d "-" then (true, b'')
                    else if byte_eqb d "+" then (false, b'') else (false, b')
                | [] => (false, b')
                end in
              let '(ev, ne, rest) := digits b' 0 0 in
              if (0 <? ne) && (length rest =? 0)%nat
              then Some (if eneg then - ev else ev) else None
            else None
        end in
      match exp with
      | None => fail
      | Some e =>
          let e10 := e - nf in
          let f := if 0 <=? e10 then round_ratio neg (fp * 10 ^ e10) 1
                   else round_ratio neg fp (10 ^ (- e10)) in
          (f, negb (is_inf f))
      end.

Definition Sum64 (b : bytes) : Z :=
  fold_left (fun h c => ((h * 1099511628211) mod 2 ^ 64 + Z.of_N (N_of_ascii c)) mod 2 ^ 64)
    b 14695981039346656037.

Definition lib : GoLib := {|
  strconv_Unquote := Unquote;
  strconv_Quote := Quote;
  regexp_Compile := Compile;
  strconv_ParseFloat := ParseFloat;
  maphash_Sum64 := Sum64
|}.

End golib_model.

(** ** Predicates the statements use *)

Module spec.
Import benchproc.

(** A node of schema [s]: made by [s], trimmed, and no longer than the
    row of [s]. *)
Definition node_ok (s : Schema) (n : configNode) : Prop :=
  nschema n = Some (self s) ∧
  Z.of_nat (length (vals n)) ≤ nFields s ∧
  trim (vals n) = vals n.

Definition nodes_ok (s : Schema) : Prop :=
  Z.of_nat (length (row s)) = nFields s ∧ Forall (node_ok s) (nodeHeap s).

(** The tuple of the record projected last: the row, trimmed. *)
Definition tuple_of (s : Schema) : list string := trim (row s).

(** [p] is the first node of the bucket of [t] that holds [t]. *)
Definition first_match `{GoLib} (s : Schema) (t : list string) (p : nat) : Prop :=
  find_config s (default [] (configs s !! hash_row t)) t = Some (Some p).

(** Later states only add nodes, and only at the end of buckets. *)
Definition extends (s s' : Schema) : Prop :=
  (∃ l, nodeHeap s' = nodeHeap s ++ l) ∧
  ∀ h cs, configs s !! h = Some cs → ∃ cs', configs s' !! h = Some (cs ++ cs').

(** What a call leaves alone: the nodes, the buckets, the address. *)
Definition same_nodes (s s' : Schema) : Prop :=
  nodeHeap s' = nodeHeap s ∧ configs s' = configs s ∧ self s' = self s.

Section Projects.
Context `{GoLib}.

(** [Project] on each record of a list in turn; the configs are
    dropped. *)
Fixpoint Projects (p : ProjectionParser) (s : Schema)
    (rs : list benchfmt.Result) : option (ProjectionParser * Schema) :=
  match rs with
  | [] => Some (p, s)
  | r :: rs' => '(p, s, _) ← Project p s r; Projects p s rs'
  end.
End Projects.

(** *** Numbers *)

(** The rank of an SI prefix, as the spec lists them. *)
Definition SI_rank (p : ascii) : option Z :=
  if byte_eqb p "k" then Some 1
  else if byte_eqb p "K" then Some 1
  else if byte_eqb p "M" then Some 2
  else if byte_eqb p "G" then Some 3
  else if byte_eqb p "T" then Some 4
  else if byte_eqb p "P" then Some 5
  else if byte_eqb p "E" then Some 6
  else if byte_eqb p "Z" then Some 7
  else if byte_eqb p "Y" then Some 8
  else None.

(** [<number><prefix>], [<number><prefix>i], then an optional [B] or [b]. *)
Definition suffixed (d : bytes) (p : ascii) (iec : bool) (b : bytes) : string :=
  str (d ++ [p] ++ (if iec then bs "i" else []) ++ b).

Definition unit_suffix (b : bytes) : Prop := b = [] ∨ b = bs "b" ∨ b = bs "B".

(** What [strconv.ParseFloat] makes of the literals of the examples. *)
Definition float_literals : list (string * float64) :=
  [("-inf", S754_infinity true); ("-infinity", S754_infinity true);
   ("1", num.float_of_Z 1); ("1.0", num.float_of_Z 1);
   ("inf", S754_infinity false); ("infinity", S754_infinity false);
   ("NaN", S754_nan); ("nan", S754_nan)]%string.

Definition not_floats : list string := ["1k"; "1K"; "1ki"; "1Mi"; "1Y"]%string.

Definition ParseFloat_agrees `{GoLib} : Prop :=
  Forall (λ xv, strconv_ParseFloat xv.1 = (xv.2, true)) float_literals ∧
  Forall (λ x, snd (strconv_ParseFloat x) = false) not_floats.

(** The values of the test of [@num], in the order the test expects. *)
Definition num_values : list string :=
  ["-inf"; "-infinity"; "1"; "1.0"; "inf"; "infinity"; "NaN"; "nan"]%string.

(** A schema store with the one field of the projection [a@num], and the
    tuple order on one-value tuples that it gives. *)
Definition num_heap : list fieldInternal :=
  [mkFieldInternal None (-1) [mkField "a" (Some 1%nat)] cmpNil None;
   mkFieldInternal (Some O) 0 [] cmpNum None].

Definition num_less `{GoLib} (x y : string) : option bool :=
  less num_heap [mkField "a" (Some 1%nat)] [x] [y].

(** No element of [l] is before an earlier one. *)
Definition sorted_by {A} (lt : A → A → option bool) (l : list A) : Prop :=
  ∀ i j x y, (i < j)%nat → l !! i = Some x → l !! j = Some y →
             lt y x = Some false.

(** The position of [x] in [l]. *)
Fixpoint rank_in (x : string) (l : list string) : nat :=
  match l with
  | [] => O
  | y :: l' => if String.eqb x y then O else S (rank_in x l')
  end.

(** The float a literal of [float_literals] stands for. *)
Definition literal_value (x : string) : float64 :=
  default S754_nan (snd <$> List.find (λ xv, String.eqb xv.1 x) float_literals).

(** The num order on two floats, and the tuple order it gives on two
    strings that read as these floats. *)
Definition float_order (aa bb : float64) : Z :=
  if num.flt aa bb || (negb (num.IsNaN aa) && num.IsNaN bb) then -1
  else if num.fgt aa bb || (num.IsNaN aa && negb (num.IsNaN bb)) then 1
  else 0.

Definition float_less (aa bb : float64) (x y : string) : bool :=
  if negb (String.eqb x y) then
    if negb (float_order aa bb =? 0) then float_order aa bb <? 0
    else num.string_lt x y
  else false.

(** *** Full names with exclusions *)

Definition excludes (k : string) (exclude : list string) : bool :=
  existsb (String.eqb k) exclude.

(** The excluded sub-name keys, each followed by [=]. *)
Definition excluded_prefixes (exclude : list string) : list bytes :=
  (λ k, bs k ++ bs "=") <$> List.filter extract.starts_with_slash exclude.

Definition starts_with (part : bytes) (ch : ascii) : bool :=
  match part with
  | d :: _ => byte_eqb d ch
  | [] => false
  end.

(** What stands for a part of a name: [/key=*] for the first excluded
    key the part has, [-*] for the gomaxprocs part when [/gomaxprocs] is
    excluded, the part itself otherwise. *)
Definition stand_in (exclude : list string) (part : bytes) : bytes :=
  match List.find (HasPrefix part) (excluded_prefixes exclude) with
  | Some k => k ++ bs "*"
  | None =>
      if excludes "/gomaxprocs" exclude && starts_with part "-"
      then bs "-*" else part
  end.

(** The base name, or [*] when [.name] is excluded. *)
Definition stand_in_base (exclude : list string) (base : bytes) : bytes :=
  if excludes ".name" exclude then bs "*" else base.

(** The state of the loop of [Parts]: the parts found are [buf] up to
    [prev], and each part after the first starts with a slash. *)
Definition parts_inv (buf : bytes) (i prev : nat) (acc : list bytes) : Prop :=
  (prev ≤ i ≤ length buf)%nat ∧ concat acc = take prev buf ∧
  (acc = [] → prev = O) ∧
  (acc ≠ [] → (prev < i)%nat ∧ starts_with (drop prev buf) "/" = true) ∧
  Forall (λ p, starts_with p "/" = true) (tail acc).

(** *** Headers *)

(** [runs i lo vs cur]: [cur] is the list of the maximal runs of equal
    values in [vs], the first value being at position [lo]; every node
    is at level [i]. *)
Inductive runs (i : Z) : Z → list string → list ConfigHeader → Prop :=
| runs_nil lo : runs i lo [] []
| runs_cons lo v k vs cur :
    (match vs with w :: _ => w ≠ v | [] => True end) →
    runs i (lo + Z.of_nat (S k)) vs cur →
    runs i lo (replicate (S k) v ++ vs)
      (mkConfigHeader i lo (Z.of_nat (S k)) v :: cur).

(** [level] subdivides every node of [prev] into the maximal runs of the
    values [col] has over the span of the node. *)
Definition subdivides (col : list string) (i : Z)
    (prev level : list ConfigHeader) : Prop :=
  ∃ curs,
    Forall2 (λ p cur, ∃ span,
               subslice col (Start p) (Start p + Len p) = Some span ∧
               runs i (Start p) span cur) prev curs ∧
    level = concat curs.

(** Level [i] subdivides level [i-1], for the columns [cols] of the
    fields from [i] on. *)
Fixpoint levels_from (cols : list (list string)) (i : Z)
    (prev : list ConfigHeader) (levels : list (list ConfigHeader)) : Prop :=
  match cols, levels with
  | [], [] => True
  | col :: cols', level :: levels' =>
      subdivides col i prev level ∧ levels_from cols' (i + 1) level levels'
  | _, _ => False
  end.

(** A value appended to a list of runs: the last run grows, or a new one
    starts at [pos]. *)
Definition snoc_run (i : Z) (level : list ConfigHeader) (v : string) (pos : Z)
  : list ConfigHeader :=
  match last level with
  | Some nd =>
      if String.eqb v (hValue nd)
      then <[Nat.pred (length level) := incr_Len nd]> level
      else level ++ [mkConfigHeader i pos 1 v]
  | None => level ++ [mkConfigHeader i pos 1 v]
  end.

Definition is_nil {A} (l : list A) : bool :=
  match l with [] => true | _ => false end.

(** A node within a sequence of [n] configs. *)
Definition in_range (n : Z) (nd : ConfigHeader) : Prop :=
  0 ≤ Start nd ∧ 0 ≤ Len nd ∧ Start nd + Len nd ≤ n.

(** The values of the configs [cfs] for the field [f]. *)
Definition column (s : Schema) (cfs : list Config) (f : Field)
  : option (list string) :=
  mapM (λ cf, Get s cf f) cfs.

(** The span that stands above the first level: the whole sequence. *)
Definition root_span (cfs : list Config) : list ConfigHeader :=
  [mkConfigHeader (-1) 0 (Z.of_nat (length cfs)) ""].

(** A header cell as the spec writes it, [value × length]. *)
Definition cells (level : list ConfigHeader) : list (string * Z) :=
  (λ n, (hValue n, Len n)) <$> level.

(** *** Filters *)

(** The match of a key against one value: literal for a word, regexp
    for a regexp. *)
Definition match_of (o : Z) (k : string) (val : parse.tok) : parse.Filter :=
  if byte_eqb (parse.Kind val) "r"
  then parse.FilterMatch k (parse.Regexp val) "" o
  else parse.FilterMatch k None (parse.Tok val) o.

(** [value_list rest e vs cl before after e']: from [rest] the tokenizer
    reads the values [vs] and then the closing parenthesis [cl], which
    starts at [before] and ends at [after]. *)
Inductive value_list `{GoLib}
  : parse.tokenizer → parse.errorTracker → list parse.tok → parse.tok →
    parse.tokenizer → parse.tokenizer → parse.errorTracker → Prop :=
| value_list_close rest e cl after e' :
    parse.value rest e = (cl, after, e') →
    parse.Kind cl = ")"%char →
    value_list rest e [] cl rest after e'
| value_list_value rest e val toks2 e1 vs cl before after e' :
    parse.value rest e = (val, toks2, e1) →
    parse.kind_in (parse.Kind val) "wqr" = true →
    value_list toks2 e1 vs cl before after e' →
    value_list rest e (val :: vs) cl before after e'.

(** Modelled from the spec: the evaluation of a filter (the evaluator is
    not among the sources): AND holds when every child does, OR when
    some child does, NOT negates its child; [leaf] decides a match. *)
Fixpoint matches (leaf : string → option string → string → bool)
    (f : parse.Filter) : bool :=
  match f with
  | parse.FilterNil => false
  | parse.FilterMatch k re lit _ => leaf k re lit
  | parse.FilterOp parse.OpAnd fs => forallb (matches leaf) fs
  | parse.FilterOp parse.OpOr fs => existsb (matches leaf) fs
  | parse.FilterOp parse.OpNot fs =>
      match fs with
      | f0 :: _ => negb (matches leaf f0)
      | [] => false
      end
  end.

(** *** Projections *)

(** The root of the schema is a group. *)
Definition root_ok (s : Schema) : Prop :=
  ∃ gp gi, fieldInternal_ptr (root s) = Some gp ∧
           fieldHeap s !! gp = Some gi ∧ idx gi = -1.

(** A part that gives [.config] a fixed order. *)
Definition config_fixed (proj : parse.Projection) : Prop :=
  parse.pKey proj = ".config"%string ∧ parse.Order proj = "fixed"%string.

Definition config_fixed_error (q : string) (proj : parse.Projection)
  : parse.SyntaxError :=
  parse.mkSyntaxError q (parse.OrderOff proj) "fixed order not allowed for .config".

(** *** The tuple order *)

(** The non-negative values of a Go [int]; the positions and sizes that
    the order maps hold are of this kind. *)
Definition nonneg_int (z : Z) : Prop := 0 ≤ z < 2 ^ 63.

(** A comparison closure that can be called: not nil, its captured field
    allocated, its map holding positions. *)
Definition cmp_ok (h : list fieldInternal) (cm : cmpFn) : Prop :=
  match cm with
  | cmpNil => False
  | cmpFixed m => map_Forall (λ _ v, nonneg_int v) m
  | cmpFirst f | cmpUnit f =>
      ∃ fi, deref h f = Some fi ∧
            map_Forall (λ _ v, nonneg_int v) (default ∅ (order fi))
  | cmpAlpha | cmpNum => True
  end.

(** The fields of a flattened schema: allocated leaves with a comparison
    closure. *)
Definition flat_ok (h : list fieldInternal) (flat : list Field) : Prop :=
  Forall (λ f, ∃ fi, deref h f = Some fi ∧ 0 ≤ idx fi ∧ cmp_ok h (cmp fi)) flat.

(** Every storage index below [n] belongs to a field of [flat]. *)
Definition covers (h : list fieldInternal) (flat : list Field) (n : Z) : Prop :=
  ∀ i, 0 ≤ i < n → ∃ f fi, f ∈ flat ∧ deref h f = Some fi ∧ idx fi = i.

(** The tuple of a Config of a schema with [n] fields: trimmed, and no
    longer than [n]. *)
Definition tuple_ok (n : Z) (a : list string) : Prop :=
  Z.of_nat (length a) ≤ n ∧ trim a = a.

(** The value of a tuple for a storage index. *)
Definition value_at (a : list string) (i : Z) : string :=
  default ""%string (a !! Z.to_nat i).

(** The order of one field on two values that differ: by the
    comparator, and by the bytes of the strings when it returns 0. *)
Definition field_before `{GoLib} (h : list fieldInternal) (fi : fieldInternal)
    (x y : string) : Prop :=
  ∃ cv, call_cmp h (cmp fi) x y = Some cv ∧
        (cv < 0 ∨ (cv = 0 ∧ num.string_lt x y = true)).

(** [a] is before [b] at the first field of [flat] where they differ. *)
Definition first_difference `{GoLib} (h : list fieldInternal)
    (flat : list Field) (a b : list string) : Prop :=
  ∃ pre f post fi,
    flat = pre ++ f :: post ∧
    Forall (λ g, ∃ gi, deref h g = Some gi ∧
                       value_at a (idx gi) = value_at b (idx gi)) pre ∧
    deref h f = Some fi ∧
    value_at a (idx fi) ≠ value_at b (idx fi) ∧
    field_before h fi (value_at a (idx fi)) (value_at b (idx fi)).

(** Keys of floats and of strings under the num order, compared
    lexicographically. *)
Definition key3 : Type := Z * Z * Z.

Definition key3_lt (a b : key3) : Prop :=
  a.1.1 < b.1.1 ∨ (a.1.1 = b.1.1 ∧ (a.1.2 < b.1.2 ∨ (a.1.2 = b.1.2 ∧ a.2 < b.2))).

Definition float_key (f : float64) : key3 :=
  match f with
  | S754_nan => (3, 0, 0)
  | S754_infinity true => (-2, 0, 0)
  | S754_infinity false => (2, 0, 0)
  | S754_zero _ => (0, 0, 0)
  | S754_finite true m e => (-1, - e, - Z.pos m)
  | S754_finite false m e => (1, e, Z.pos m)
  end.

Definition num_key `{GoLib} (x : string) : key3 :=
  let '(v, ok) := num.parseNum x in
  if ok then float_key v else (4, 0, 0).

(** *** Growth of a schema *)

(** Every index in use is below [nFields]. *)
Definition idx_bound (s : Schema) : Prop :=
  Forall (λ fi, idx fi < nFields s) (fieldHeap s).

(** The flatten cache, when there is one, is the flattening. *)
Definition cache_ok (s : Schema) : Prop :=
  ∀ fc, flatCache s = Some fc →
    walk (fieldHeap s) (S (length (fieldHeap s))) (root s) = Some fc.

Definition wf (s : Schema) : Prop := nodes_ok s ∧ idx_bound s ∧ cache_ok s.

(** The fields of [h] are in [h'] with the index, the comparator and the
    observation order they had. *)
Definition agree (h h' : list fieldInternal) : Prop :=
  ∀ p fi, h !! p = Some fi →
    ∃ fi', h' !! p = Some fi' ∧ idx fi' = idx fi ∧ cmp fi' = cmp fi ∧
           order fi' = order fi ∧ schema fi' = schema fi.

Definition is_ptr (p : nat) (f : Field) : bool :=
  match fieldInternal_ptr f with
  | Some q => (q =? p)%nat
  | None => false
  end.

(** *** Comparators *)

(** A comparator that orders the strings as a total preorder. *)
Definition good_cmp (cf : string → string → Z) : Prop :=
  (∀ x y, cf x y < 0 ↔ 0 < cf y x) ∧
  (∀ x y z, cf x y ≤ 0 → cf y z ≤ 0 → cf x z ≤ 0).

(** The order of a field on the values: by the comparator, then by the
    bytes. *)
Definition before (cf : string → string → Z) (x y : string) : Prop :=
  cf x y < 0 ∨ (cf x y = 0 ∧ num.string_lt x y = true).

Definition beforeb (cf : string → string → Z) (x y : string) : bool :=
  if negb (cf x y =? 0) then cf x y <? 0 else num.string_lt x y.

(** *** Schemas that the package builds *)

(** A comparison closure whose captured field, if it has one, is among
    the first [n] allocated. *)
Definition cmp_ptr_ok (n : nat) (cm : cmpFn) : Prop :=
  match cm with
  | cmpNil => False
  | cmpFirst f | cmpUnit f => ∃ q, fieldInternal_ptr f = Some q ∧ (q < n)%nat
  | _ => True
  end.

(** The positions that the maps of a field hold are not negative. *)
Definition order_nonneg (fi : fieldInternal) : Prop :=
  map_Forall (λ _ v, 0 ≤ v) (default ∅ (order fi)).

Definition maps_nonneg (fi : fieldInternal) : Prop :=
  order_nonneg fi ∧ ∀ m, cmp fi = cmpFixed m → map_Forall (λ _ v, 0 ≤ v) m.

(** A field of a store of [n] fields: a leaf has a comparison closure. *)
Definition entry_ok (n : nat) (fi : fieldInternal) : Prop :=
  (idx fi = -1 ∨ cmp_ptr_ok n (cmp fi)) ∧ maps_nonneg fi.

(** Every leaf of the store has a comparison closure. *)
Definition callable (h : list fieldInternal) : Prop :=
  ∀ p fi, h !! p = Some fi → entry_ok (length h) fi.

(** The ints of the store did not overflow: the positions that the maps
    hold are below 2^63. *)
Definition bounded (h : list fieldInternal) : Prop :=
  ∀ p fi, h !! p = Some fi →
    map_Forall (λ _ v, v < 2 ^ 63) (default ∅ (order fi)) ∧
    ∀ m, cmp fi = cmpFixed m → map_Forall (λ _ v, v < 2 ^ 63) m.

(** The store is a tree under the first field: the children of a field
    were allocated after it, and every other field is a child of a
    group. *)
Definition tree_ok (h : list fieldInternal) : Prop :=
  (∃ r, h !! O = Some r ∧ idx r = -1) ∧
  (∀ p fi, h !! p = Some fi →
     Forall (λ f, ∃ q, fieldInternal_ptr f = Some q ∧ (p < q < length h)%nat)
       (sub fi)) ∧
  (∀ q, (0 < q < length h)%nat →
     ∃ p fi f, h !! p = Some fi ∧ idx fi = -1 ∧ f ∈ sub fi ∧
               fieldInternal_ptr f = Some q).

(** The fields of a schema: a tree under the root, with the storage
    indices from 0 to [nFields], each of them in use, and the leaves
    pointing back to the schema. *)
Definition fields_ok (s : Schema) : Prop :=
  fieldInternal_ptr (root s) = Some O ∧
  tree_ok (fieldHeap s) ∧
  (∀ p fi, fieldHeap s !! p = Some fi → -1 ≤ idx fi < nFields s) ∧
  (∀ i, 0 ≤ i < nFields s → ∃ p fi, fieldHeap s !! p = Some fi ∧ idx fi = i) ∧
  (∀ p fi, fieldHeap s !! p = Some fi → idx fi ≠ -1 →
     schema fi = Some (self s)).

(** The closures of a schema create fields with a comparison closure. *)
Definition init_ok (init : initFn) : Prop :=
  match init with
  | initFixed m => map_Forall (λ _ v, 0 ≤ v) m
  | initFirst => True
  | initBuiltin cm => cm = cmpAlpha ∨ cm = cmpNum
  end.

Definition proj_ok (pr : projectFn) : Prop :=
  match pr with
  | projectConfig init _ _ => init_ok init
  | _ => True
  end.

(** Every node is in the bucket of its tuple, and no two nodes hold one
    tuple. *)
Definition nodes_unique `{GoLib} (s : Schema) : Prop :=
  (∀ p n, nodeHeap s !! p = Some n →
     p ∈ default [] (configs s !! hash_row (vals n))) ∧
  (∀ p q n m, nodeHeap s !! p = Some n → nodeHeap s !! q = Some m →
     vals n = vals m → p = q).

(** The invariant of a schema between two calls of the package, but for
    the closures of the leaves. *)
Definition winv `{GoLib} (s : Schema) : Prop :=
  nodes_ok s ∧ cache_ok s ∧ fields_ok s ∧ nodes_unique s ∧
  Forall proj_ok (project s).

(** The invariant of a schema between two calls of the package. *)
Definition inv `{GoLib} (s : Schema) : Prop :=
  winv s ∧ callable (fieldHeap s).

(** [h'] is [h] with other closures and order maps. *)
Definition decor (h h' : list fieldInternal) : Prop :=
  length h' = length h ∧
  ∀ p fi, h !! p = Some fi →
    ∃ fi', h' !! p = Some fi' ∧ idx fi' = idx fi ∧ sub fi' = sub fi ∧
           schema fi' = schema fi.

(** The schemas of the package: made by [Parse] or [Residue], and then
    used by [AddValues], [Project], [ProjectValues] and [Fields], with
    any parser. *)
Inductive reachable `{GoLib} : Schema → Prop :=
| reach_Parse p addr q filter p' filter' s :
    Parse p addr q filter = Some (p', filter', inl s) → reachable s
| reach_Residue p addr p' s :
    Residue p addr = Some (p', s) → reachable s
| reach_AddValues s s' f :
    reachable s → AddValues s = Some (s', f) → reachable s'
| reach_Project p s r p' s' cf :
    reachable s → Project p s r = Some (p', s', cf) → reachable s'
| reach_ProjectValues p s r p' s' cfs :
    reachable s → ProjectValues p s r = Some (p', s', cfs) → reachable s'
| reach_Fields s s' fl :
    reachable s → Fields s = Some (s', fl) → reachable s'.

(** Every leaf of the store but the one at [q] has a comparison
    closure. *)
Definition callable_but (h : list fieldInternal) (q : nat) : Prop :=
  ∀ p fi, h !! p = Some fi →
    (p ≠ q → entry_ok (length h) fi) ∧ order_nonneg fi.

(** What the calls that fill the row leave alone. *)
Definition framed (s s' : Schema) : Prop :=
  same_nodes s s' ∧ nFields s' = nFields s ∧
  length (row s') = length (row s) ∧ root s' = root s ∧
  fieldHeap s' = fieldHeap s ∧ flatCache s' = flatCache s ∧
  project s' = project s.

(** A Config of the schema, and the order of [Config.Less] on them. *)
Definition is_config (s : Schema) (cf : Config) : Prop := is_Some (node s cf).

Definition config_less `{GoLib} (s : Schema) (a b : Config) : option bool :=
  snd <$> Less s a b.

(** *** Configs are immutable *)

(** What every call leaves of a schema: its address, the nodes it has
    (later ones come after), and the index and the schema of every
    field. *)
Definition stable (s s' : Schema) : Prop :=
  self s' = self s ∧
  (∃ l, nodeHeap s' = nodeHeap s ++ l) ∧
  ∀ p fi, fieldHeap s !! p = Some fi →
    ∃ fi', fieldHeap s' !! p = Some fi' ∧ idx fi' = idx fi ∧
           schema fi' = schema fi.

(** [s'] is [s] after any number of calls of [AddValues], [Project],
    [ProjectValues] and [Fields], with any parser. *)
Inductive later `{GoLib} : Schema → Schema → Prop :=
| later_refl s : later s s
| later_AddValues s s1 s' f :
    later s s1 → AddValues s1 = Some (s', f) → later s s'
| later_Project s s1 p r p' s' cf :
    later s s1 → Project p s1 r = Some (p', s', cf) → later s s'
| later_ProjectValues s s1 p r p' s' cfs :
    later s s1 → ProjectValues p s1 r = Some (p', s', cfs) → later s s'
| later_Fields s s1 s' fl :
    later s s1 → Fields s1 = Some (s', fl) → later s s'.

(** *** What a schema needs to run *)

(** [f] points to a leaf of the store, [g] to a group. *)
Definition leaf (h : list fieldInternal) (f : Field) : Prop :=
  ∃ q fi, fieldInternal_ptr f = Some q ∧ h !! q = Some fi ∧ idx fi ≠ -1.

Definition group (h : list fieldInternal) (g : Field) : Prop :=
  ∃ q gi, fieldInternal_ptr g = Some q ∧ h !! q = Some gi ∧ idx gi = -1.

(** The fields that a [project] closure captured are in the store: the
    group and the fields seen of [.config], the field of a key. *)
Definition closure_ok (h : list fieldInternal) (pr : projectFn) : Prop :=
  match pr with
  | projectConfig _ g seen => group h g ∧ map_Forall (λ _ f, leaf h f) seen
  | projectFullname f => leaf h f
  | projectKey _ f => leaf h f
  end.

(** The buckets hold nodes of the store. *)
Definition buckets_ok (s : Schema) : Prop :=
  ∀ hsh cs, configs s !! hsh = Some cs →
    Forall (λ q, (q < length (nodeHeap s))%nat) cs.

(** The unit field is nil or a leaf. *)
Definition unit_ok (s : Schema) : Prop :=
  fieldInternal_ptr (unitField s) = None ∨ leaf (fieldHeap s) (unitField s).

Definition runnable (s : Schema) : Prop :=
  Forall (closure_ok (fieldHeap s)) (project s) ∧ buckets_ok s ∧ unit_ok s.

(** [h'] has the fields of [h], each with its index. *)
Definition keeps (h h' : list fieldInternal) : Prop :=
  ∀ q fi, h !! q = Some fi → ∃ fi', h' !! q = Some fi' ∧ idx fi' = idx fi.

(** What filling the row leaves of a schema. *)
Definition carries (s s' : Schema) : Prop :=
  keeps (fieldHeap s) (fieldHeap s') ∧ nodeHeap s' = nodeHeap s ∧
  configs s' = configs s ∧ unitField s' = unitField s.

(** *** Headers as tilings *)

(** The nodes of [level] follow one another from [lo] to [hi], none
    empty, with no gap. *)
Fixpoint tiles (level : list ConfigHeader) (lo hi : Z) : Prop :=
  match level with
  | [] => lo = hi
  | nd :: level' =>
      Start nd = lo ∧ 0 < Len nd ∧ tiles level' (lo + Len nd) hi
  end.

(** [nd] lies within one of the nodes of [prev]. *)
Definition nested (prev : list ConfigHeader) (nd : ConfigHeader) : Prop :=
  ∃ p, p ∈ prev ∧ Start p ≤ Start nd ∧ Start nd + Len nd ≤ Start p + Len p.

(** The values of [col] over the span of [nd] are the value of [nd]. *)
Definition spans_value (col : list string) (nd : ConfigHeader) : Prop :=
  ∀ j, Start nd ≤ j < Start nd + Len nd →
       col !! Z.to_nat j = Some (hValue nd).

(** Each level, for the columns [cols] of its field, tiles the [n]
    configs with nodes nested in the level before, each over configs
    that have its value. *)
Fixpoint header_ok (cols : list (list string)) (n : Z)
    (prev : list ConfigHeader) (levels : list (list ConfigHeader)) : Prop :=
  match cols, levels with
  | [], [] => True
  | col :: cols', level :: levels' =>
      tiles level 0 n ∧ Forall (nested prev) level ∧
      Forall (spans_value col) level ∧ header_ok cols' n level levels'
  | _, _ => False
  end.

(** *** Fields that vary *)

(** The value that [Get] reads, the empty string if it panics. *)
Definition val (s : Schema) (c : Config) (f : Field) : string :=
  default ""%string (Get s c f).

(** Two of the configs read different values for [f]. *)
Definition varies (s : Schema) (cfs : list Config) (f : Field) : Prop :=
  ∃ a b, a ∈ cfs ∧ b ∈ cfs ∧ Get s a f ≠ Get s b f.

End spec.

(** ** Notions for the file configuration and the unit metadata *)

Module result_spec.
Import benchfmt fileconfig.

Definition keys (l : list Config) : list string := Key <$> l.

(** The keys of [FileConfig] are distinct, and the index, once built,
    maps exactly each key to its position. *)
Definition in_step (r : Result) : Prop :=
  NoDup (keys (FileConfig r)) ∧
  ∀ m, configPos r = Some m →
    ∀ k i, m !! k = Some i ↔ 0 ≤ i ∧ keys (FileConfig r) !! Z.to_nat i = Some k.

(** The value of the pair of [l] with key [k], empty when there is none. *)
Definition pair_value (l : list Config) (k : string) : bytes :=
  match find (λ c, String.eqb (Key c) k) l with
  | Some c => Value c
  | None => []
  end.

(** The value of the last pair of [l] with key [k]. *)
Definition last_pair_value (l : list Config) (k : string) : bytes :=
  pair_value (reverse l) k.

(** What [GetFileConfig] returns. *)
Definition reads (r : Result) (k v : string) : Prop :=
  ∃ r', GetFileConfig r k = Some (r', v).

End result_spec.

Module units_spec.
Import units.

Definition ukeys (l : list UnitMetadata) : list (string * string) :=
  (λ md, (Unit md, Key md)) <$> l.

(** The (unit, key) pairs of [Metadata] are distinct, and the index, once
    built, maps exactly each to its position. *)
Definition in_step (u : Units) : Prop :=
  NoDup (ukeys (Metadata u)) ∧
  ∀ m, index u = Some m →
    ∀ k i, m !! k = Some i ↔ 0 ≤ i ∧ ukeys (Metadata u) !! Z.to_nat i = Some k.

(** The value of the first entry of [l] for [unit] and [key]. *)
Definition meta_value (l : list UnitMetadata) (unit key : string)
  : option string :=
  Value <$> find (λ md, String.eqb (Unit md) unit && String.eqb (Key md) key) l.

End units_spec.

(** ** Notions for benchmark names *)

Module name_spec.
Import benchfmt.

Definition digits (ds : bytes) : Prop := Forall (λ c, is_digit c = true) ds.

(** A name that ends in a dash and one digit or more. *)
Definition has_gomaxprocs (n : bytes) : Prop :=
  ∃ buf ds, n = buf ++ "-"%char :: ds ∧ ds ≠ [] ∧ digits ds.

(** A part [/...] with no other slash. *)
Definition slash_part (p : bytes) : Prop :=
  ∃ q, p = "/"%char :: q ∧ "/"%char ∉ q.

(** The GOMAXPROCS part for the digits [ds], when there are any. *)
Definition procs_part (procs : option bytes) : option bytes :=
  (λ ds, "-"%char :: ds) <$> procs.

(** The name with the given base, parts and GOMAXPROCS. *)
Definition name_of (base : bytes) (ps : list bytes) (procs : option bytes)
  : bytes :=
  base ++ concat ps ++ default [] (procs_part procs).

(** The part [/k=v]. *)
Definition part_of (kv : bytes * bytes) : bytes :=
  "/"%char :: kv.1 ++ "="%char :: kv.2.

(** The value of the first pair with key [k], empty when there is none. *)
Fixpoint kv_lookup (kvs : list (bytes * bytes)) (k : bytes) : bytes :=
  match kvs with
  | [] => []
  | (k', v) :: kvs' => if decide (k' = k) then v else kv_lookup kvs' k
  end.

End name_spec.

(** ** The examples of the repository's tests, as data *)

Module examples.
Import benchproc.

(** [NewFilter("*")] of the tests. *)
Definition star : Filter :=
  mkFilter (filterParsed (parse.FilterOp parse.OpAnd [])).

(** The file configuration from alternating keys and values. *)
Fixpoint fileConfig (l : list string) : list benchfmt.Config :=
  match l with
  | k :: v :: l' => benchfmt.mkConfig k (bs v) :: fileConfig l'
  | _ => []
  end.

(** The helper [r] of the tests: a result from its full name and its file
    configuration. *)
Definition r (fullName : string) (fc : list string) : benchfmt.Result :=
  benchfmt.mkResult (fileConfig fc) (bs fullName) [].

(** [mustParse]: a fresh parser on [proj], with the library model. *)
Definition mustParse (proj : string) : ProjectionParser * Schema :=
  match Parse (H := golib_model.lib) zeroProjectionParser 1 proj star with
  | Some (p, _, inl s) => (p, s)
  | _ => (zeroProjectionParser, newSchema 0)
  end.

(** The states and configs of a run of [Project] over some records. *)
Fixpoint run (p : ProjectionParser) (s : Schema) (rs : list benchfmt.Result)
  : ProjectionParser * Schema * list Config :=
  match rs with
  | [] => (p, s, [])
  | r :: rs' =>
      match Project (H := golib_model.lib) p s r with
      | Some (p, s, cf) => let '(p, s, cfs) := run p s rs' in (p, s, cf :: cfs)
      | None => (p, s, [])
      end
  end.

(** The header example: the four tuples of the doc comment of
    [NewConfigHeader], projected by [.config]. *)
Definition header_records : list benchfmt.Result :=
  [r "" ["a"; "1"; "b"; "1"; "c"; "1"]; r "" ["a"; "1"; "b"; "1"; "c"; "2"];
   r "" ["a"; "2"; "b"; "2"; "c"; "2"]; r "" ["a"; "2"; "b"; "3"; "c"; "3"]]%string.

Definition header_run : ProjectionParser * Schema * list Config :=
  Eval vm_compute in
    let '(p, s) := mustParse ".config" in run p s header_records.

Definition header_schema : Schema := header_run.1.2.
Definition header_configs_ex : list Config := header_run.2.

(** The cells the spec claims for the example, and the cells of the doc
    comment of the source. *)
Definition claimed_cells : list (list (string * Z)) :=
  [[("1", 2); ("2", 2)]; [("1", 2); ("2", 1); ("3", 1)];
   [("1", 1); ("2", 2); ("3", 1)]]%string.

Definition documented_cells : list (list (string * Z)) :=
  [[("1", 2); ("2", 2)]; [("1", 2); ("2", 1); ("3", 1)];
   [("1", 1); ("2", 1); ("2", 1); ("3", 1)]]%string.

(** One step of [Project] with the library model, on a state. *)
Definition step (st : ProjectionParser * Schema) (rec : benchfmt.Result)
  : ProjectionParser * Schema * Config :=
  default (st, mkConfigOf None) (Project (H := golib_model.lib) st.1 st.2 rec).

(** A run through [.config]: a record with the key [a], one that brings
    the key [b], and the first record again. *)
Definition intern_r1 : benchfmt.Result := r "" ["a"; "1"]%string.
Definition intern_r2 : benchfmt.Result := r "" ["a"; "1"; "b"; "2"]%string.
Definition intern_st0 : ProjectionParser * Schema :=
  Eval vm_compute in mustParse ".config".
Definition intern_st1 : ProjectionParser * Schema * Config :=
  Eval vm_compute in step intern_st0 intern_r1.
Definition intern_st2 : ProjectionParser * Schema * Config :=
  Eval vm_compute in step intern_st1.1 intern_r2.
Definition intern_st3 : ProjectionParser * Schema * Config :=
  Eval vm_compute in step intern_st2.1 intern_r1.

(** The schema after the second record, its fields, and the schema grown
    by one more field. *)
Definition grown_schema : Schema := intern_st2.1.2.
Definition field_a : Field := mkField "a" (Some 2%nat).
Definition field_b : Field := mkField "b" (Some 3%nat).
Definition field_x : Field := mkField "x" (Some 4%nat).
Definition grown_schema' : Schema :=
  Eval vm_compute in
    default grown_schema (fst <$> addField grown_schema (root grown_schema) "x").

(** The columns of the header example. *)
Definition header_fields_ex : list Field :=
  Eval vm_compute in default [] (snd <$> Fields header_schema).
Definition header_schema' : Schema :=
  Eval vm_compute in default header_schema (fst <$> Fields header_schema).
Definition header_cols : list (list string) :=
  Eval vm_compute in
    default [] (mapM (spec.column header_schema' header_configs_ex) header_fields_ex).

(** The parts of the projection expression [.config@(1 2)]. *)
Definition config_fixed_q : string := ".config@(1 2)".
Definition config_fixed_part : parse.Projection :=
  parse.mkProjection ".config" "fixed" ["1"; "2"]%string 0 8.

(** Two filter expressions: a list of a word and a regexp, and an empty
    list. *)
Definition multi_q : string := "a:(b /c/)".
Definition empty_q : string := "a:()".

End examples.

(** ** Sample results, units and names *)

Module samples.

(** A result as a struct literal gives it: three pairs and no index. *)
Definition file_result : fileconfig.Result :=
  fileconfig.mkResult
    (examples.fileConfig ["goos"; "linux"; "goarch"; "amd64"; "pkg"; "p"]%string)
    [] None.

(** Units with one entry and no index. *)
Definition sample_units : units.Units :=
  units.mkUnits [units.mkUnitMetadata "ns/op" "better" "lower"] None.

(** The name [BenchmarkX/a=1/b=2-8], in its components. *)
Definition sample_base : bytes := bs "BenchmarkX".
Definition sample_kvs : list (bytes * bytes) :=
  [(bs "a", bs "1"); (bs "b", bs "2")].
Definition sample_procs : option bytes := Some (bs "8").

(** The two Configs of the run of [examples]. *)
Definition grown_configs : list benchproc.Config :=
  [examples.intern_st1.2; examples.intern_st2.2].

(** The schema of the run with a unit field, and a result of two
    values. *)
Definition units_schema : benchproc.Schema :=
  Eval vm_compute in
    default examples.grown_schema
      (fst <$> benchproc.AddValues examples.grown_schema).

Definition values_result : benchfmt.Result :=
  benchfmt.mkResult (examples.fileConfig ["a"; "1"]%string) (bs "BenchmarkX")
    [benchfmt.mkValue "ns/op"; benchfmt.mkValue "B/op"].

End samples.

(** * Properties *)

(** ** Interning (Schema.Project, Schema.internRow, Config.Get) *)

Module intern_props.
Import benchproc spec.

Ltac inv_opt :=
  repeat match goal with
  | H : Some _ = Some _ |- _ => injection H as H; try subst
  | H : None = Some _ |- _ => discriminate H
  | H : mbind _ ?m = Some _ |- _ =>
      let E := fresh "E" in destruct m eqn:E; simpl in H; [|discriminate H]
  | H : (let '(_, _) := ?x in _) = Some _ |- _ => destruct x
  | H : (match ?x with (_, _) => _ end) = Some _ |- _ => destruct x
  end.

Lemma equalRow_loop_true vs row :
  length vs = length row → equalRow_loop vs row = true → vs = row.
Proof.
  revert row. induction vs as [|v vs IH]; intros [|r row] Hl He; simpl in *;
    try done.
  destruct (String.eqb r v) eqn:E; simpl in He; [|done].
  apply String.eqb_eq in E. subst. f_equal. apply IH; [lia|done].
Qed.

Lemma equalRow_loop_refl vs : equalRow_loop vs vs = true.
Proof. induction vs as [|v vs IH]; simpl; [done|]. by rewrite String.eqb_refl. Qed.

Lemma equalRow_spec n row : equalRow n row = true ↔ vals n = row.
Proof.
  unfold equalRow. split.
  - destruct (length (vals n) =? length row)%nat eqn:E; simpl; [|done].
    apply Nat.eqb_eq in E. by apply equalRow_loop_true.
  - intros <-. rewrite Nat.eqb_refl. simpl. apply equalRow_loop_refl.
Qed.



Lemma extends_refl s : extends s s.
Proof.
  split; [exists []; by rewrite app_nil_r|].
  intros h cs Hc. exists []. by rewrite app_nil_r.
Qed.

Lemma extends_trans s1 s2 s3 : extends s1 s2 → extends s2 s3 → extends s1 s3.
Proof.
  intros [[l1 H1] C1] [[l2 H2] C2]. split.
  - exists (l1 ++ l2). by rewrite H2, H1, app_assoc.
  - intros h cs Hc. destruct (C1 _ _ Hc) as [cs1 Hc1].
    destruct (C2 _ _ Hc1) as [cs2 Hc2]. exists (cs1 ++ cs2).
    by rewrite Hc2, app_assoc.
Qed.

Lemma find_config_found s cs t p :
  find_config s cs t = Some (Some p) →
  ∃ n, nodeHeap s !! p = Some n ∧ vals n = t.
Proof.
  induction cs as [|q cs IH]; simpl; [done|].
  intros Hf. destruct (nodeHeap s !! q) as [n|] eqn:En; simpl in Hf; [|done].
  destruct (equalRow n t) eqn:Ee.
  - inv_opt. exists n. split; [done|]. by apply equalRow_spec.
  - by apply IH.
Qed.

Lemma find_config_extends s s' cs cs' t p :
  (∃ l, nodeHeap s' = nodeHeap s ++ l) →
  find_config s cs t = Some (Some p) →
  find_config s' (cs ++ cs') t = Some (Some p).
Proof.
  intros [l Hl]. induction cs as [|q cs IH]; simpl; [done|].
  intros Hf. destruct (nodeHeap s !! q) as [n|] eqn:En; simpl in Hf; [|done].
  rewrite Hl, (lookup_app_l_Some _ _ _ _ En). simpl.
  destruct (equalRow n t); [done|]. by apply IH.
Qed.

Lemma first_match_extends `{GoLib} s s' t p :
  extends s s' → first_match s t p → first_match s' t p.
Proof.
  intros [Hn Hc] Hf. unfold first_match in *.
  destruct (configs s !! hash_row t) as [cs|] eqn:Ec; simpl in Hf; [|done].
  destruct (Hc _ _ Ec) as [cs' ->]. simpl. by eapply find_config_extends.
Qed.

Lemma find_config_app_none s s' cs cs' t :
  (∃ l, nodeHeap s' = nodeHeap s ++ l) →
  find_config s cs t = Some None →
  find_config s' (cs ++ cs') t = find_config s' cs' t.
Proof.
  intros [l Hl]. induction cs as [|q cs IH]; simpl; [done|].
  intros Hf. destruct (nodeHeap s !! q) as [n|] eqn:En; simpl in Hf; [|done].
  rewrite Hl, (lookup_app_l_Some _ _ _ _ En). simpl.
  destruct (equalRow n t); [done|]. by apply IH.
Qed.


Lemma same_nodes_refl s : same_nodes s s.
Proof. done. Qed.

Lemma same_nodes_trans s1 s2 s3 :
  same_nodes s1 s2 → same_nodes s2 s3 → same_nodes s1 s3.
Proof. intros (?&?&?) (?&?&?). repeat split; congruence. Qed.

Lemma same_nodes_extends s s' : same_nodes s s' → extends s s'.
Proof.
  intros (Hn&Hc&_). split; [exists []; by rewrite app_nil_r|].
  intros h cs E. exists []. by rewrite app_nil_r, Hc.
Qed.

Lemma Fields_same s s' fl :
  Fields s = Some (s', fl) →
  same_nodes s s' ∧ row s' = row s ∧ fieldHeap s' = fieldHeap s ∧
  nFields s' = nFields s.
Proof.
  unfold Fields. destruct (flatCache s); intros Hf; inv_opt; done.
Qed.

Lemma intern_same s b s' st :
  intern s b = (s', st) →
  same_nodes s s' ∧ row s' = row s ∧ fieldHeap s' = fieldHeap s ∧
  nFields s' = nFields s ∧ project s' = project s.
Proof.
  unfold intern. destruct (interns s !! str b); intros [= <- <-]; done.
Qed.

Lemma store_row_same s f v s' :
  store_row s f v = Some s' →
  same_nodes s s' ∧ fieldHeap s' = fieldHeap s ∧ nFields s' = nFields s ∧
  length (row s') = length (row s) ∧ project s' = project s.
Proof.
  unfold store_row. intros Hs.
  destruct (deref (fieldHeap s) f) as [fi|]; simpl in Hs; [|done].
  destruct (intern s v) as [sx st] eqn:Ei. apply intern_same in Ei.
  destruct Ei as ((?&?&?)&Hr&?&?&?).
  destruct (store (row sx) (idx fi) st) as [rw|] eqn:Es; simpl in Hs; [|done].
  injection Hs as <-. simpl.
  unfold store in Es. case_match; [|done]. injection Es as <-.
  rewrite length_insert. unfold same_nodes in *. simpl.
  repeat split; congruence.
Qed.

Lemma addField_same s g name s' f :
  addField s g name = Some (s', f) →
  same_nodes s s' ∧ project s' = project s.
Proof.
  unfold addField. intros Ha. inv_opt. case_match; [done|]. inv_opt. done.
Qed.

Lemma addGroup_same s g name s' f :
  addGroup s g name = Some (s', f) →
  same_nodes s s' ∧ project s' = project s.
Proof. unfold addGroup. intros Ha. inv_opt. done. Qed.

Lemma projectConfig_loop_same p init g cfgs seen s seen' s' :
  projectConfig_loop p init g cfgs seen s = Some (seen', s') →
  same_nodes s s' ∧ project s' = project s.
Proof.
  revert seen s. induction cfgs as [|cfg cfgs IH]; intros seen s Hl; simpl in Hl.
  { by inv_opt. }
  destruct (seen !! benchfmt.Key cfg) as [fld|].
  - inv_opt. apply store_row_same in E as (Hs&_&_&_&Hp).
    apply IH in Hl as (Hs'&Hp'). split; [by eapply same_nodes_trans|congruence].
  - destruct (configKeys_get p (benchfmt.Key cfg)); [by apply IH in Hl|].
    inv_opt. apply addField_same in E as (Hs1&Hp1).
    apply store_row_same in E1 as (Hs2&_&_&_&Hp2).
    apply IH in Hl as (Hs3&Hp3). simpl in *. split.
    + eapply same_nodes_trans; [|exact Hs3].
      eapply same_nodes_trans; [exact Hs1|exact Hs2].
    + congruence.
Qed.

Lemma call_project_same pr p s r p' s' pr' :
  call_project pr p s r = Some (p', s', pr') →
  same_nodes s s' ∧ project s' = project s.
Proof.
  destruct pr; simpl; intros Hc; inv_opt.
  - by apply projectConfig_loop_same in E.
  - apply store_row_same in E1 as (?&_&_&_&?). done.
  - apply store_row_same in E0 as (?&_&_&_&?). done.
Qed.

Lemma populate_loop_same projs i p s r p' s' :
  populate_loop projs i p s r = Some (p', s') → same_nodes s s'.
Proof.
  revert i p s. induction projs as [|pr projs IH]; intros i p s Hl; simpl in Hl.
  { by inv_opt. }
  inv_opt. apply call_project_same in E as (Hs&_). apply IH in Hl.
  eapply same_nodes_trans; [exact Hs|]. exact Hl.
Qed.

Lemma populateRow_same p s r p' s' :
  populateRow p s r = Some (p', s') → same_nodes s s'.
Proof. unfold populateRow. intros Hp. by apply populate_loop_same in Hp. Qed.

Section Interning.
Context `{GoLib}.

Lemma internRow_post s s' cf :
  internRow s = Some (s', cf) →
  ∃ p, cf = mkConfigOf (Some p) ∧ first_match s' (trim (row s)) p ∧
       extends s s' ∧ row s' = row s.
Proof.
  unfold internRow. intros Hi.
  destruct (find_config s _ _) as [[p|]|] eqn:Ef; simpl in Hi; [| |done].
  - inv_opt. exists p. split; [done|]. split; [done|].
    split; [apply extends_refl|done].
  - inv_opt. apply Fields_same in E as ((Hn&Hc&Hs)&Hr&Hh&Hf).
    exists (length (nodeHeap s0)). split; [done|]. simpl.
    rewrite Hr, Hc, Hn. split; [|split; [|done]].
    + unfold first_match. simpl. rewrite lookup_insert_eq. simpl.
      erewrite find_config_app_none; [| |exact Ef].
      2:{ simpl. by exists [mkConfigNode (Some (self s0)) (trim (row s))]. }
      simpl. rewrite lookup_app_r, Nat.sub_diag by done. simpl.
      assert (equalRow (mkConfigNode (Some (self s0)) (trim (row s)))
                (trim (row s)) = true) as -> by by apply equalRow_spec.
      done.
    + split; simpl; [by eexists|].
      intros h cs Ec. destruct (decide (h = hash_row (trim (row s)))) as [->|Hne].
      * rewrite lookup_insert_eq, Ec. simpl. by eexists.
      * rewrite lookup_insert_ne by done. exists []. by rewrite app_nil_r.
Qed.

Lemma Project_post p s r p' s' cf :
  Project p s r = Some (p', s', cf) →
  ∃ q, cf = mkConfigOf (Some q) ∧ first_match s' (trim (row s')) q ∧
       extends s s'.
Proof.
  unfold Project. intros Hp. inv_opt.
  apply populateRow_same in E. apply internRow_post in E0 as (q&->&Hf&He&Hr).
  exists q. rewrite Hr. split; [done|]. split; [done|].
  eapply extends_trans; [by apply same_nodes_extends|done].
Qed.

Lemma Projects_extends p s rs p' s' :
  Projects p s rs = Some (p', s') → extends s s'.
Proof.
  revert p s. induction rs as [|r rs IH]; intros p s Hp; simpl in Hp.
  { inv_opt. apply extends_refl. }
  inv_opt. apply Project_post in E as (_&_&_&He). apply IH in Hp.
  by eapply extends_trans.
Qed.


(** C1.  Let a schema project a record [r1], then any records [rs],
    then a record [r2].  The two Configs are the same pointer exactly
    when the two trimmed value tuples are equal: equal tuples give the
    identical Config, tuples that differ give distinct Configs. *)
Theorem C1_Project_interns p s r1 p1 s1 c1 rs p2 s2 r2 p3 s3 c2 :
  Project p s r1 = Some (p1, s1, c1) →
  Projects p1 s1 rs = Some (p2, s2) →
  Project p2 s2 r2 = Some (p3, s3, c2) →
  (tuple_of s1 = tuple_of s3 → c1 = c2) ∧
  (tuple_of s1 ≠ tuple_of s3 → c1 ≠ c2).
Proof.
  intros H1 Hs H2. unfold tuple_of.
  pose proof (Project_post _ _ _ _ _ _ H1) as (q1&->&Hf1&He1).
  pose proof (Projects_extends _ _ _ _ _ Hs) as He2.
  pose proof (Project_post _ _ _ _ _ _ H2) as (q2&->&Hf2&He3).
  split.
  - intros Ht. unfold Project in H2. inv_opt.
    pose proof (populateRow_same _ _ _ _ _ E) as Hsame.
    pose proof (internRow_post _ _ _ E0) as (q&[= <-]&_&_&Hr).
    rewrite Hr in Ht.
    assert (first_match s0 (trim (row s0)) q1) as Hf.
    { rewrite <- Ht. eapply first_match_extends; [|exact Hf1].
      eapply extends_trans; [exact He2|by apply same_nodes_extends]. }
    unfold internRow in E0. unfold first_match in Hf. rewrite Hf in E0.
    simpl in E0. by inv_opt.
  - intros Hne [= ->]. apply Hne.
    apply find_config_found in Hf1 as (n1&Hn1&<-).
    apply find_config_found in Hf2 as (n2&Hn2&<-).
    destruct (extends_trans _ _ _ He1 (extends_trans _ _ _ He2 He3))
      as [[l Hl] _].
    destruct (extends_trans _ _ _ He2 He3) as [[l' Hl'] _].
    rewrite Hl', (lookup_app_l_Some _ _ _ _ Hn1) in Hn2. by inv_opt.
Qed.
End Interning.

(** *** Nodes stay well formed *)

Lemma trim_loop_take row n : ∃ k, (k ≤ n)%nat ∧ trim_loop row n = take k row.
Proof.
  induction n as [|n IH]; simpl.
  { exists O. split; [lia|]. by rewrite take_0. }
  destruct (row !! n) as [v|]; [|exists (S n); split; [lia|done]].
  destruct (String.eqb v ""); [|exists (S n); split; [lia|done]].
  destruct IH as (k&?&->). exists k. split; [lia|done].
Qed.

Lemma trim_length row : (length (trim row) ≤ length row)%nat.
Proof.
  unfold trim. destruct (trim_loop_take row (length row)) as (k&?&->).
  rewrite length_take. lia.
Qed.

Lemma trim_loop_last row n :
  (n ≤ length row)%nat →
  trim_loop row n = [] ∨
  ∃ v, last (trim_loop row n) = Some v ∧ v ≠ ""%string ∧
       (length (trim_loop row n) ≤ n)%nat.
Proof.
  induction n as [|n IH]; simpl; intros Hn; [by left|].
  destruct (row !! n) as [v|] eqn:Ev.
  2:{ apply lookup_ge_None in Ev. lia. }
  destruct (String.eqb v "") eqn:E.
  - destruct IH as [->|(w&?&?&?)]; [lia|by left|]. right. exists w.
    split; [done|]. split; [done|]. lia.
  - right. exists v. split; [|split].
    + rewrite (take_S_r _ _ _ Ev), last_snoc. done.
    + intros ->. by rewrite String.eqb_refl in E.
    + rewrite length_take. lia.
Qed.

Lemma trim_id_of_last row v :
  last row = Some v → v ≠ ""%string → trim row = row.
Proof.
  intros Hl Hv. unfold trim. destruct row as [|x row _] using rev_ind; [done|].
  rewrite last_snoc in Hl. injection Hl as ->.
  rewrite length_app. simpl. rewrite Nat.add_1_r. simpl.
  rewrite lookup_app_r, Nat.sub_diag by done. simpl.
  destruct (String.eqb v "") eqn:E.
  - apply String.eqb_eq in E. done.
  - rewrite take_ge; [done|]. rewrite length_app. simpl. lia.
Qed.

Lemma trim_idemp row : trim (trim row) = trim row.
Proof.
  destruct (trim_loop_last row (length row)) as [E|(v&Hl&Hv&_)]; [done| |].
  - unfold trim at 2. rewrite E. done.
  - by eapply trim_id_of_last.
Qed.

Lemma nodes_ok_newSchema a : nodes_ok (newSchema a).
Proof. split; [done|]. constructor. Qed.

(** A state later than [s] in which the row is as long as the schema has
    fields keeps the nodes of [s] well formed. *)
Lemma nodes_ok_mono s s' :
  nodes_ok s → same_nodes s s' → nFields s ≤ nFields s' →
  Z.of_nat (length (row s')) = nFields s' → nodes_ok s'.
Proof.
  intros [_ Hn] (Hh&_&Hs) Hle Hr. split; [done|]. rewrite Hh.
  eapply Forall_impl; [exact Hn|]. intros n (?&?&?).
  unfold node_ok. rewrite Hs. repeat split; [done|lia|done].
Qed.

Lemma addField_row s g name s' f :
  addField s g name = Some (s', f) →
  nFields s' = nFields s + 1 ∧ row s' = row s ++ [""%string] ∧
  nodeHeap s' = nodeHeap s ∧ self s' = self s ∧
  ∃ gp gi, fieldInternal_ptr g = Some gp ∧ fieldHeap s !! gp = Some gi ∧
    idx gi = -1 ∧ f = mkField name (Some (length (fieldHeap s))) ∧
    fieldHeap s' =
      <[gp := add_sub f gi]>
        (fieldHeap s ++ [mkFieldInternal (Some (self s)) (nFields s) [] cmpNil None]).
Proof.
  unfold addField. intros Ha.
  destruct (deref (fieldHeap s) g) as [gi|] eqn:Eg; simpl in Ha; [|done].
  destruct (idx gi =? -1) eqn:Ei; simpl in Ha; [|done].
  apply Z.eqb_eq in Ei. unfold deref in Eg.
  destruct (fieldInternal_ptr g) as [gp|] eqn:Ep; simpl in Eg; [|done].
  unfold update in Ha. simpl in Ha. rewrite Ep in Ha. simpl in Ha.
  rewrite (lookup_app_l_Some _ _ _ _ Eg) in Ha. simpl in Ha.
  injection Ha as <- <-. simpl. repeat split; try done.
  exists gp, gi. done.
Qed.

(** C10.  [Get] reads the empty string for every field whose storage
    index is at or past the end of the tuple the Config stores; so a
    field that [addField] appends to the schema after the Config was
    interned reads as the empty string on it, and there is no panic. *)
Theorem C10_Get_past_end :
  (∀ s cf f n fi,
     node s cf = Some n → deref (fieldHeap s) f = Some fi →
     nschema n = schema fi → Z.of_nat (length (vals n)) ≤ idx fi →
     Get s cf f = Some ""%string) ∧
  (∀ s cf n g name s' f,
     nodes_ok s → node s cf = Some n → addField s g name = Some (s', f) →
     node s' cf = Some n ∧ Get s' cf f = Some ""%string).
Proof.
  assert (∀ s cf f n fi,
     node s cf = Some n → deref (fieldHeap s) f = Some fi →
     nschema n = schema fi → Z.of_nat (length (vals n)) ≤ idx fi →
     Get s cf f = Some ""%string) as Hget.
  { intros s cf f n fi Hn Hf Hs Hl. unfold Get.
    assert (IsZero cf = false) as ->.
    { unfold node in Hn. unfold IsZero. by destruct (c cf). }
    rewrite Hn, Hf. simpl. rewrite Hs.
    assert (option_nat_eqb (schema fi) (schema fi) = true) as ->.
    { destruct (schema fi); simpl; [apply Nat.eqb_refl|done]. }
    simpl. apply Z.leb_le in Hl. by rewrite Hl. }
  split; [exact Hget|].
  intros s cf n g name s' f [_ Hok] Hn Ha.
  apply addField_row in Ha as (Hnf&Hr&Hh&Hs&gp&gi&Hgp&Hgi&_&->&Hfh).
  assert (node s' cf = Some n) as Hn'.
  { unfold node in *. by rewrite Hh. }
  split; [done|].
  assert (node_ok s n) as (Hsch&Hlen&_).
  { unfold node in Hn. destruct (c cf) as [p|]; simpl in Hn; [|done].
    rewrite Forall_lookup in Hok. by eapply Hok. }
  apply (Hget s' cf _ n
           (mkFieldInternal (Some (self s)) (nFields s) [] cmpNil None));
    [exact Hn'| |exact Hsch|exact Hlen].
  unfold deref. simpl. rewrite Hfh.
  apply lookup_lt_Some in Hgi as Hlt.
  rewrite list_lookup_insert_ne by lia.
  by rewrite lookup_app_r, Nat.sub_diag.
Qed.

End intern_props.

(** ** Numbers and the num order (sort.go) *)

Module num_props.
Import num benchproc spec.

Lemma bs_str b : bs (str b) = b.
Proof. apply list_ascii_of_string_of_list_ascii. Qed.


Lemma flt_nan_r x : flt x S754_nan = false.
Proof. by destruct x. Qed.

Lemma flt_nan_l x : flt S754_nan x = false.
Proof. by destruct x. Qed.

Lemma IsNaN_true x : IsNaN x = true → x = S754_nan.
Proof. by destruct x. Qed.

Lemma prefix_not_num p : is_Some (SI_rank p) → isNumChar p = false.
Proof.
  destruct p as [[] [] [] [] [] [] [] []]; vm_compute; intros [? ?]; done.
Qed.

Lemma prefix_rank p r :
  SI_rank p = Some r →
  isPrefixChar p = true ∧
  1 + IndexByte (bs numPrefixes) (if byte_eqb p "k" then "K"%char else p) = r ∧
  byte_eqb p "i" = false.
Proof.
  destruct p as [[] [] [] [] [] [] [] []]; vm_compute; intros ?;
    try done; by simplify_eq.
Qed.

Lemma spanNum_app d x :
  Forall (λ c, isNumChar c = true) d →
  (match x with c :: _ => isNumChar c = false | [] => True end) →
  spanNum (d ++ x) = length d.
Proof.
  induction 1 as [|c d Hc _ IH]; intros Hx; simpl.
  - destruct x as [|c x]; [done|]. simpl. by rewrite Hx.
  - rewrite Hc. f_equal. by apply IH.
Qed.

Lemma find_at d x :
  d ≠ [] → Forall (λ c, isNumChar c = true) d →
  FindStringSubmatch (d ++ x) = Some (numRe_at (d ++ x)).
Proof.
  intros Hd Hf. destruct d as [|c d]; [done|]. simpl.
  apply Forall_cons in Hf as [-> _]. done.
Qed.

Section Num.
Context `{GoLib}.

(** [parseNum] on [d] followed by [x], where [d] is a number for
    [ParseFloat] and the whole is not. *)
Lemma parseNum_suffixed d x v :
  d ≠ [] → Forall (λ c, isNumChar c = true) d →
  (match x with c :: _ => isNumChar c = false | [] => True end) →
  snd (strconv_ParseFloat (str (d ++ x))) = false →
  strconv_ParseFloat (str d) = (v, true) →
  parseNum (str (d ++ x)) =
    let sub2 := snd (numRe_at (d ++ x)) in
    let exp := match sub2 with
               | pre :: _ =>
                   1 + IndexByte (bs numPrefixes)
                         (if byte_eqb pre "k" then "K"%char else pre)
               | [] => 0
               end in
    (fmul v (math_Pow (if HasSuffix_i sub2 then 1024 else 1000) exp), true).
Proof.
  intros Hd Hf Hx Hw Hv. unfold parseNum.
  destruct (strconv_ParseFloat (str (d ++ x))) as [w ok]. simpl in Hw. subst ok.
  rewrite bs_str, (find_at d x Hd Hf).
  unfold numRe_at at 1. rewrite (spanNum_app d x Hf Hx).
  rewrite take_app_length, Hv.
  unfold numRe_at. rewrite (spanNum_app d x Hf Hx). simpl.
  by destruct (HasSuffix_i _).
Qed.

(** C5.  [parseNum] maps ["1"] to 1, ["1k"] and ["1K"] to 1000,
    ["1ki"] to 1024, ["1Mi"] to 1048576 and ["1Y"] to 1e24 (the
    binary64 nearest to 10^24); in general a number followed by an SI
    prefix of rank [r] is multiplied by 1000^r, by 1024^r when an [i]
    follows the prefix, and a trailing [B] or [b] changes nothing.
    [ParseFloat] is Go's: the statement takes from it that it reads
    ["1"] as 1, reads the number before the prefix, and rejects the
    suffixed literal as a whole. *)
Theorem C5_parseNum_prefixes :
  (ParseFloat_agrees →
   parseNum "1" = (float_of_Z 1, true) ∧
   parseNum "1k" = (float_of_Z 1000, true) ∧
   parseNum "1K" = (float_of_Z 1000, true) ∧
   parseNum "1ki" = (float_of_Z 1024, true) ∧
   parseNum "1Mi" = (float_of_Z 1048576, true) ∧
   parseNum "1Y" = (float_of_Z (10 ^ 24), true)) ∧
  (∀ d p r iec b v,
     d ≠ [] → Forall (λ c, isNumChar c = true) d →
     SI_rank p = Some r → unit_suffix b →
     snd (strconv_ParseFloat (suffixed d p iec b)) = false →
     strconv_ParseFloat (str d) = (v, true) →
     parseNum (suffixed d p iec b) =
       (fmul v (math_Pow (if iec then 1024 else 1000) r), true)) ∧
  (∀ d b v,
     d ≠ [] → Forall (λ c, isNumChar c = true) d →
     b = bs "b" ∨ b = bs "B" →
     snd (strconv_ParseFloat (str (d ++ b))) = false →
     strconv_ParseFloat (str d) = (v, true) →
     parseNum (str (d ++ b)) = (fmul v (math_Pow 1000 0), true)).
Proof.
  assert (∀ d p r iec b v,
     d ≠ [] → Forall (λ c, isNumChar c = true) d →
     SI_rank p = Some r → unit_suffix b →
     snd (strconv_ParseFloat (suffixed d p iec b)) = false →
     strconv_ParseFloat (str d) = (v, true) →
     parseNum (suffixed d p iec b) =
       (fmul v (math_Pow (if iec then 1024 else 1000) r), true)) as Hgen.
  { intros d p r iec b v Hd Hf Hr Hb Hw Hv. unfold suffixed in *.
    pose proof (prefix_not_num p (ex_intro _ r Hr)) as Hp.
    destruct (prefix_rank p r Hr) as (Hpc&Hrk&Hi).
    set (x := [p] ++ (if iec then bs "i" else []) ++ b) in *.
    assert (match x with c :: _ => isNumChar c = false | [] => True end)
      as Hx by done.
    rewrite (parseNum_suffixed d x v Hd Hf Hx Hw Hv).
    unfold numRe_at. rewrite (spanNum_app d x Hf Hx), drop_app_length.
    subst x. cbn [app snd]. rewrite Hpc.
    assert ((match (if iec then bs "i" else []) ++ b with
             | [] => [p]
             | i :: _ => if byte_eqb i "i" then [p; i] else [p]
             end) = if iec then [p; "i"%char] else [p]) as ->.
    { destruct iec; [done|]. destruct Hb as [->|[->| ->]]; done. }
    destruct iec; unfold HasSuffix_i; cbn [last]; rewrite Hrk;
      [done|by rewrite Hi]. }
  split; [|split; [exact Hgen|]].
  - intros [Hlit Hnot].
    assert (strconv_ParseFloat "1" = (float_of_Z 1, true)) as H1.
    { rewrite Forall_forall in Hlit.
      apply (Hlit ("1"%string, float_of_Z 1)). unfold float_literals.
      rewrite !elem_of_cons. auto. }
    assert (∀ x, x ∈ not_floats → snd (strconv_ParseFloat x) = false) as Hn.
    { by rewrite Forall_forall in Hnot. }
    assert (∀ p r iec, SI_rank p = Some r →
              suffixed (bs "1") p iec [] ∈ not_floats →
              parseNum (suffixed (bs "1") p iec []) =
                (fmul (float_of_Z 1) (math_Pow (if iec then 1024 else 1000) r),
                 true)) as Hone.
    { intros p r iec Hr Hin. apply Hgen; try done.
      - repeat constructor.
      - by left.
      - by apply Hn. }
    split; [|repeat split].
    + unfold parseNum. by rewrite H1.
    + apply (Hone "k"%char 1 false); [done|]. unfold not_floats.
      rewrite !elem_of_cons. auto.
    + apply (Hone "K"%char 1 false); [done|]. unfold not_floats.
      rewrite !elem_of_cons. auto.
    + apply (Hone "k"%char 1 true); [done|]. unfold not_floats.
      rewrite !elem_of_cons. auto.
    + apply (Hone "M"%char 2 true); [done|]. unfold not_floats.
      rewrite !elem_of_cons. auto 10.
    + apply (Hone "Y"%char 8 false); [done|]. unfold not_floats.
      rewrite !elem_of_cons. auto 10.
  - intros d b v Hd Hf Hb Hw Hv.
    assert (match b with c :: _ => isNumChar c = false | [] => True end) as Hx.
    { destruct Hb as [-> | ->]; done. }
    rewrite (parseNum_suffixed d _ v Hd Hf Hx Hw Hv).
    unfold numRe_at. rewrite (spanNum_app d _ Hf Hx), drop_app_length.
    destruct Hb as [-> | ->]; done.
Qed.
End Num.

(** *** Sorting under an order that ranks the elements of a list *)

Section Sorting.
Context {A : Type} (lt : A → A → option bool) (pos : A → nat) (L : list A).
Hypothesis lt_pos : ∀ x y, x ∈ L → y ∈ L → lt x y = Some (pos x <? pos y)%nat.
Hypothesis pos_L : ∀ i x, L !! i = Some x → pos x = i.

Let R (a b : A) : Prop := (pos a ≤ pos b)%nat.

Lemma pos_inj x y : x ∈ L → y ∈ L → pos x = pos y → x = y.
Proof.
  intros [i Hi]%list_elem_of_lookup [j Hj]%list_elem_of_lookup Hp.
  rewrite (pos_L _ _ Hi), (pos_L _ _ Hj) in Hp. subst. congruence.
Qed.

Lemma L_sorted : StronglySorted R L.
Proof.
  assert (∀ l k, (∀ i x, l !! i = Some x → pos x = (k + i)%nat) →
            StronglySorted R l) as Hs.
  { induction l as [|x l IH]; intros k Hk; constructor.
    - apply (IH (S k)). intros i y Hy. rewrite (Hk (S i) y Hy). lia.
    - apply Forall_forall. intros y [i Hi]%list_elem_of_lookup.
      unfold R. rewrite (Hk O x eq_refl), (Hk (S i) y Hi). lia. }
  apply (Hs L O). intros i x Hx. by rewrite (pos_L _ _ Hx).
Qed.

Lemma sort_insert_ok x l :
  x ∈ L → l ⊆ L → StronglySorted R l →
  ∃ l', sort_insert lt x l = Some l' ∧ l' ≡ₚ x :: l ∧ StronglySorted R l'.
Proof.
  intros Hx. induction l as [|y l IH]; intros Hl Hs; simpl.
  { exists [x]. split; [done|]. split; [done|]. repeat constructor. }
  assert (y ∈ L) as Hy by (apply Hl; left).
  rewrite (lt_pos _ _ Hx Hy).
  apply StronglySorted_inv in Hs as [Hs Hall].
  destruct (pos x <? pos y)%nat eqn:E.
  - apply Nat.ltb_lt in E. exists (x :: y :: l). split; [done|].
    split; [done|]. constructor; [by constructor|].
    constructor; [unfold R; lia|]. eapply Forall_impl; [exact Hall|].
    unfold R. simpl. intros z Hz. lia.
  - apply Nat.ltb_ge in E. destruct IH as (l'&->&Hp&Hs'); [|done|].
    { intros z Hz. apply Hl. by right. }
    simpl. exists (y :: l'). split; [done|]. split.
    + rewrite Hp. apply perm_swap.
    + constructor; [done|]. rewrite Hp. constructor; [done|exact Hall].
Qed.

Lemma sort_Slice_ok l :
  l ⊆ L →
  ∃ l', sort_Slice lt l = Some l' ∧ l' ≡ₚ l ∧ StronglySorted R l'.
Proof.
  induction l as [|x l IH]; intros Hl; simpl.
  { exists []. split; [done|]. split; [done|]. constructor. }
  destruct IH as (l'&->&Hp&Hs).
  { intros z Hz. apply Hl. by right. }
  simpl. destruct (sort_insert_ok x l') as (l''&->&Hp'&Hs'); [| |done|].
  - apply Hl. left.
  - intros z Hz. apply Hl. right. by rewrite <- Hp.
  - exists l''. split; [done|]. split; [|done]. by rewrite Hp', Hp.
Qed.

Lemma sorted_perm_unique l : l ≡ₚ L → StronglySorted R l → l = L.
Proof.
  intros Hp Hs. apply (StronglySorted_unique_strong R); [|done|apply L_sorted|done].
  intros x y Hx Hy Hxy Hyx. rewrite Hp in Hx.
  apply pos_inj; [done..|]. unfold R in *. lia.
Qed.

Lemma sorted_by_strongly l : l ⊆ L → sorted_by lt l → StronglySorted R l.
Proof.
  induction l as [|x l IH]; intros Hl Hs; constructor.
  - apply IH.
    + intros z Hz. apply Hl. by right.
    + intros i j a b Hij Ha Hb. apply (Hs (S i) (S j) a b); [lia|done..].
  - apply Forall_forall. intros y Hy.
    apply list_elem_of_lookup in Hy as Hy'. destruct Hy' as [j Hj].
    pose proof (Hs O (S j) x y ltac:(lia) eq_refl Hj) as Hlt.
    rewrite lt_pos in Hlt; [|apply Hl; by right|apply Hl; left].
    injection Hlt as Hlt. apply Nat.ltb_ge in Hlt. exact Hlt.
Qed.

(** Every permutation of [L] sorts to [L], and [L] is the only sorted
    permutation of [L]. *)
Lemma sort_ranked l :
  l ≡ₚ L →
  sort_Slice lt l = Some L ∧
  (∀ l', l' ≡ₚ l → sorted_by lt l' → l' = L).
Proof.
  intros Hp. split.
  - destruct (sort_Slice_ok l) as (l'&->&Hp'&Hs).
    { intros z Hz. by rewrite <- Hp. }
    f_equal. apply sorted_perm_unique; [by rewrite Hp'|done].
  - intros l' Hp' Hs. apply sorted_perm_unique; [by rewrite Hp'|].
    apply sorted_by_strongly; [|done]. intros z Hz. by rewrite <- Hp, <- Hp'.
Qed.
End Sorting.

Section NumOrder.
Context `{GoLib}.

Lemma order_num_floats a b aa bb :
  parseNum a = (aa, true) → parseNum b = (bb, true) →
  order_num a b = float_order aa bb.
Proof. unfold order_num. by intros -> ->. Qed.

Lemma num_less_unfold x y :
  num_less x y =
    Some (if negb (String.eqb x y) then
            if negb (order_num x y =? 0) then order_num x y <? 0
            else string_lt x y
          else false).
Proof.
  unfold num_less. simpl. unfold at_idx, index. simpl.
  destruct (String.eqb x y); simpl; [done|].
  by destruct (order_num x y =? 0).
Qed.

Lemma num_less_floats x y aa bb :
  parseNum x = (aa, true) → parseNum y = (bb, true) →
  num_less x y = Some (float_less aa bb x y).
Proof.
  intros Hx Hy. rewrite num_less_unfold, (order_num_floats _ _ _ _ Hx Hy).
  done.
Qed.

Lemma parseNum_literal x :
  ParseFloat_agrees → x ∈ num_values → parseNum x = (literal_value x, true).
Proof.
  intros [Hlit _] Hx. rewrite Forall_forall in Hlit.
  assert ((x, literal_value x) ∈ float_literals) as Hin.
  { unfold num_values in Hx. rewrite !elem_of_cons, elem_of_nil in Hx.
    unfold float_literals. rewrite !elem_of_cons.
    repeat (destruct Hx as [->|Hx]; [auto 10|]). done. }
  apply Hlit in Hin. simpl in Hin. unfold parseNum. by rewrite Hin.
Qed.

Lemma num_less_ranks :
  ParseFloat_agrees →
  ∀ x y, x ∈ num_values → y ∈ num_values →
    num_less x y = Some (rank_in x num_values <? rank_in y num_values)%nat.
Proof.
  intros Hp x y Hx Hy.
  rewrite (num_less_floats x y _ _ (parseNum_literal x Hp Hx)
             (parseNum_literal y Hp Hy)).
  f_equal. unfold num_values in Hx, Hy.
  rewrite !elem_of_cons, elem_of_nil in Hx, Hy.
  repeat (destruct Hx as [->|Hx]);
    repeat (destruct Hy as [->|Hy]); try done; vm_compute; reflexivity.
Qed.

Lemma rank_in_values i x :
  num_values !! i = Some x → rank_in x num_values = i.
Proof.
  do 8 (destruct i as [|i]; [by intros [= <-]|]). done.
Qed.

(** C4.  Under the num comparator a string that [parseNum] reads
    comes before every string it does not read; a number that is not
    NaN, infinite or not, comes before NaN; two strings that are not
    read, or two NaNs, compare as 0, and the tuple order then decides
    by comparing the strings.  The values "-inf", "-infinity", "1", "1.0",
    "inf", "infinity", "NaN" and "nan" sort to exactly this order from
    every permutation, and it is their only sorted permutation.
    [ParseFloat] is Go's: the last part takes from it the floats that
    these eight literals stand for. *)
Theorem C4_num_order :
  (∀ a b x, parseNum a = (x, true) → snd (parseNum b) = false →
     order_num a b = -1 ∧ order_num b a = 1) ∧
  (∀ a b x y, parseNum a = (x, true) → parseNum b = (y, true) →
     IsNaN x = false → IsNaN y = true →
     order_num a b = -1 ∧ order_num b a = 1) ∧
  (∀ a b, snd (parseNum a) = false → snd (parseNum b) = false →
     order_num a b = 0) ∧
  (∀ a b, parseNum a = (S754_nan, true) → parseNum b = (S754_nan, true) →
     order_num a b = 0) ∧
  (∀ a b, a ≠ b → order_num a b = 0 → num_less a b = Some (string_lt a b)) ∧
  (ParseFloat_agrees →
   ∀ l, l ≡ₚ num_values →
     sort_Slice num_less l = Some num_values ∧
     ∀ l', l' ≡ₚ l → sorted_by num_less l' → l' = num_values).
Proof.
  repeat split.
  - unfold order_num. rewrite H0. destruct (parseNum b) as [y ok].
    simpl in *. by subst.
  - unfold order_num. rewrite H0. destruct (parseNum b) as [y ok].
    simpl in *. by subst.
  - rewrite (order_num_floats _ _ _ _ H0 H1). unfold float_order.
    apply IsNaN_true in H3 as ->. rewrite flt_nan_r, H2. done.
  - rewrite (order_num_floats _ _ _ _ H1 H0). unfold float_order.
    apply IsNaN_true in H3 as ->. rewrite flt_nan_l. unfold fgt.
    rewrite flt_nan_r, H2. done.
  - intros a b Ha Hb. unfold order_num.
    destruct (parseNum a) as [x oka], (parseNum b) as [y okb].
    simpl in *. by subst.
  - intros a b Ha Hb. by rewrite (order_num_floats _ _ _ _ Ha Hb).
  - intros a b Hne Ho. rewrite num_less_unfold, Ho. simpl.
    destruct (String.eqb a b) eqn:E; [|done].
    by apply String.eqb_eq in E.
  - eapply (sort_ranked num_less (λ x, rank_in x num_values) num_values);
      [by apply num_less_ranks|apply rank_in_values|done].
  - eapply (sort_ranked num_less (λ x, rank_in x num_values) num_values);
      [by apply num_less_ranks|apply rank_in_values|done].
Qed.
End NumOrder.

End num_props.

(** ** Header compaction (header.go) *)

Module header_props.
Import benchproc spec.

Lemma runs_nil_iff i lo vs cur : runs i lo vs cur → (vs = [] ↔ cur = []).
Proof. destruct 1; split; intros Hn; try done. Qed.

Lemma snoc_run_cons i x level v pos :
  level ≠ [] → snoc_run i (x :: level) v pos = x :: snoc_run i level v pos.
Proof.
  intros Hne. unfold snoc_run. destruct level as [|y level]; [done|].
  change (last (x :: y :: level)) with (last (y :: level)).
  destruct (last (y :: level)) as [nd|]; [|done].
  destruct (String.eqb v (hValue nd)); done.
Qed.

Lemma runs_single i lo v : runs i lo [v] [mkConfigHeader i lo 1 v].
Proof. apply (runs_cons i lo v O [] []); [done|constructor]. Qed.

Lemma runs_snoc i lo vs cur v :
  runs i lo vs cur →
  runs i lo (vs ++ [v]) (snoc_run i cur v (lo + Z.of_nat (length vs))).
Proof.
  induction 1 as [lo|lo u k vs cur Hhd Hr IH].
  { simpl. rewrite Z.add_0_r. apply runs_single. }
  destruct cur as [|nd1 cur].
  - apply runs_nil_iff in Hr as Hn. destruct Hn as [_ Hn].
    rewrite (Hn eq_refl), app_nil_r. unfold snoc_run.
    cbn [last length Nat.pred hValue].
    rewrite length_replicate.
    destruct (String.eqb v u) eqn:E.
    + apply String.eqb_eq in E. subst v. cbn.
      replace (u :: replicate k u ++ [u])
        with (replicate (S (S k)) u ++ []).
      2:{ rewrite app_nil_r. simpl. f_equal. apply replicate_cons_app. }
      unfold incr_Len. cbn [hField Start Len hValue].
      replace (Z.of_nat (S k) + 1) with (Z.of_nat (S (S k))) by lia.
      apply runs_cons; [done|constructor].
    + apply (runs_cons i lo u k [v]).
      * intros ->. by rewrite String.eqb_refl in E.
      * apply runs_single.
  - rewrite snoc_run_cons by done. rewrite <- app_assoc.
    apply runs_cons.
    + destruct vs as [|w vs]; [|done].
      apply runs_nil_iff in Hr as [Hn _]. by specialize (Hn eq_refl).
    + replace (lo + Z.of_nat (length (replicate (S k) u ++ vs)))
        with (lo + Z.of_nat (S k) + Z.of_nat (length vs)).
      { exact IH. }
      rewrite length_app, length_replicate. lia.
Qed.

Lemma snoc_run_app i L0 cur v pos :
  cur ≠ [] → snoc_run i (L0 ++ cur) v pos = L0 ++ snoc_run i cur v pos.
Proof.
  intros Hne. induction L0 as [|x L0 IH]; [done|].
  simpl. rewrite snoc_run_cons, IH; [done|].
  destruct L0, cur; done.
Qed.

Lemma snoc_run_ne i cur v pos : snoc_run i cur v pos ≠ [].
Proof.
  unfold snoc_run. destruct (last cur) as [nd|] eqn:E.
  - destruct (String.eqb v (hValue nd)).
    + intros Hn. apply (f_equal length) in Hn. rewrite length_insert in Hn.
      destruct cur; done.
    + by destruct cur.
  - by destruct cur.
Qed.

Lemma header_configs_runs s f i ps L0 cfs :
  ∀ vs done cur,
    mapM (λ cf, Get s cf f) cfs = Some vs →
    runs i ps done cur →
    ∃ cur',
      header_configs s f i ps (Z.of_nat (length done)) cfs (L0 ++ cur)
        (is_nil cur) = Some (L0 ++ cur') ∧
      runs i ps (done ++ vs) cur'.
Proof.
  induction cfs as [|cf cfs IH]; intros vs done cur Hm Hr.
  { apply mapM_Some in Hm. apply Forall2_nil_inv_l in Hm as ->.
    exists cur. rewrite app_nil_r. done. }
  apply mapM_Some in Hm. apply Forall2_cons_inv_l in Hm as (v&vs'&Hv&Hm&->).
  apply mapM_Some in Hm. simpl. rewrite Hv. simpl.
  pose proof (runs_snoc i ps done cur v Hr) as Hr'.
  destruct (IH vs' (done ++ [v]) _ Hm Hr') as (cur'&Hc&Hrr).
  rewrite length_app in Hc. simpl in Hc.
  replace (Z.of_nat (length done + 1)) with (Z.of_nat (length done) + 1) in Hc by lia.
  assert (is_nil (snoc_run i cur v (ps + Z.of_nat (length done))) = false) as Hnil.
  { pose proof (snoc_run_ne i cur v (ps + Z.of_nat (length done))).
    by destruct (snoc_run _ _ _ _). }
  rewrite Hnil in Hc. exists cur'. rewrite <- app_assoc in Hrr.
  split; [|exact Hrr]. rewrite <- Hc.
  destruct cur as [|nd cur]; simpl.
  - unfold snoc_run. simpl. by rewrite <- app_assoc.
  - assert (nd :: cur ≠ []) as Hne by done.
    rewrite <- (snoc_run_app i L0 (nd :: cur) v _ Hne).
    unfold snoc_run. rewrite last_app. cbn [last].
    destruct (last (nd :: cur)) as [ndl|] eqn:El.
    2:{ by apply last_None in El. }
    simpl. by destruct (String.eqb v (hValue ndl)).
Qed.

Lemma runs_in_range i lo span cur n :
  runs i lo span cur → 0 ≤ lo → lo + Z.of_nat (length span) ≤ n →
  Forall (in_range n) cur.
Proof.
  induction 1 as [lo|lo u k vs cur Hhd Hr IH]; intros Hlo Hn; [constructor|].
  rewrite length_app, length_replicate in Hn.
  constructor.
  - unfold in_range. simpl. lia.
  - apply IH; lia.
Qed.

Lemma subslice_Some {A} (l : list A) lo hi span :
  subslice l lo hi = Some span →
  0 ≤ lo ∧ lo ≤ hi ∧ hi ≤ Z.of_nat (length l) ∧
  span = slice l (Z.to_nat lo) (Z.to_nat hi).
Proof.
  unfold subslice. case_match eqn:E; [|done]. intros [= <-].
  apply andb_prop in E as [E E3]. apply andb_prop in E as [E1 E2].
  repeat split; try lia.
Qed.

Lemma subslice_mapM {A B} (g : A → option B) l vs lo hi :
  mapM g l = Some vs → 0 ≤ lo → lo ≤ hi → hi ≤ Z.of_nat (length l) →
  ∃ span vspan, subslice l lo hi = Some span ∧
    subslice vs lo hi = Some vspan ∧ mapM g span = Some vspan ∧
    Z.of_nat (length vspan) = hi - lo.
Proof.
  intros Hm H1 H2 H3. apply mapM_Some in Hm.
  pose proof (Forall2_length _ _ _ Hm) as Hl.
  exists (slice l (Z.to_nat lo) (Z.to_nat hi)), (slice vs (Z.to_nat lo) (Z.to_nat hi)).
  unfold subslice.
  assert ((0 <=? lo) && (lo <=? hi) && (hi <=? Z.of_nat (length l)) = true) as ->.
  { rewrite !andb_true_iff. lia. }
  assert ((0 <=? lo) && (lo <=? hi) && (hi <=? Z.of_nat (length vs)) = true) as ->.
  { rewrite !andb_true_iff. lia. }
  split; [done|]. split; [done|]. split.
  - apply mapM_Some. unfold slice. by apply Forall2_take, Forall2_drop.
  - unfold slice. rewrite length_take, length_drop. lia.
Qed.

Lemma header_parents_ok s cfs f i col prev :
  mapM (λ cf, Get s cf f) cfs = Some col →
  Forall (in_range (Z.of_nat (length cfs))) prev →
  ∀ L0, ∃ curs,
    header_parents s cfs f i prev L0 = Some (L0 ++ concat curs) ∧
    Forall2 (λ p cur, ∃ span,
               subslice col (Start p) (Start p + Len p) = Some span ∧
               runs i (Start p) span cur) prev curs ∧
    Forall (in_range (Z.of_nat (length cfs))) (concat curs).
Proof.
  intros Hcol. induction 1 as [|p prev (Hp1&Hp2&Hp3) _ IH]; intros L0; simpl.
  { exists []. simpl. rewrite app_nil_r. repeat split; constructor. }
  destruct (subslice_mapM _ _ _ (Start p) (Start p + Len p) Hcol)
    as (span&vspan&->&Hvs&Hm&Hlen); [lia..|].
  simpl.
  destruct (header_configs_runs s f i (Start p) L0 span vspan [] [] Hm
              (runs_nil i (Start p))) as (cur&Hc&Hr).
  simpl in Hc, Hr. rewrite app_nil_r in Hc.
  change (Z.of_nat 0) with 0 in Hc. rewrite Hc. simpl.
  destruct (IH (L0 ++ cur)) as (curs&->&Hf&Hrange).
  exists (cur :: curs). simpl. rewrite app_assoc. split; [done|]. split.
  - constructor; [|done]. by exists vspan.
  - apply Forall_app. split; [|done].
    eapply runs_in_range; [exact Hr|lia|lia].
Qed.

Lemma header_fields_ok s cfs fields :
  ∀ cols i prev,
    mapM (column s cfs) fields = Some cols →
    Forall (in_range (Z.of_nat (length cfs))) prev →
    ∃ levels,
      header_fields s cfs fields i prev = Some levels ∧
      length levels = length fields ∧
      levels_from cols i prev levels.
Proof.
  induction fields as [|f fields IH]; intros cols i prev Hm Hprev.
  { apply mapM_Some in Hm. apply Forall2_nil_inv_l in Hm as ->.
    exists []. done. }
  apply mapM_Some in Hm. apply Forall2_cons_inv_l in Hm as (col&cols'&Hc&Hm&->).
  apply mapM_Some in Hm. simpl.
  destruct (header_parents_ok s cfs f i col prev Hc Hprev [])
    as (curs&->&Hf&Hrange).
  simpl. destruct (IH cols' (i + 1) (concat curs) Hm Hrange) as (levels&->&Hl&Hlv).
  simpl. exists (concat curs :: levels). split; [done|].
  split; [simpl; by f_equal|].
  split; [|done]. by exists curs.
Qed.

(** C6, as amended.  For a sequence of configs that is not empty,
    [NewConfigHeader] returns one level per field of the schema; the
    first level subdivides the span of the whole sequence, which is no
    level itself, and every further level subdivides each node of the
    level before it, into the maximal runs of configs that have the same
    value for the field of the level.  A run never crosses the boundary
    of a parent, so one value can give two adjacent nodes.  For no
    configs there is no level.  The four tuples of the example give the
    cells a:1x2 a:2x2, then b:1x2 b:2x1 b:3x1, then c:1x1 c:2x1 c:2x1
    c:3x1. *)
Theorem C6_header_levels :
  (∀ s cfs s' fields cols sch,
     cfs ≠ [] → commonSchema s cfs = Some sch →
     Fields s = Some (s', fields) →
     mapM (column s' cfs) fields = Some cols →
     ∃ levels,
       NewConfigHeader s cfs = Some (s', levels) ∧
       length levels = length fields ∧
       levels_from cols 0 (root_span cfs) levels) ∧
  (∀ s, NewConfigHeader s [] = Some (s, [])) ∧
  (∃ s' levels,
     NewConfigHeader examples.header_schema examples.header_configs_ex
       = Some (s', levels) ∧
     cells <$> levels = examples.documented_cells).
Proof.
  split; [|split].
  - intros s cfs s' fields cols sch Hne Hcs Hf Hm. unfold NewConfigHeader.
    destruct cfs as [|cf cfs]; [done|].
    change (length (cf :: cfs) =? 0)%nat with false. cbn iota.
    rewrite Hcs, Hf. simpl.
    destruct (header_fields_ok s' (cf :: cfs) fields cols 0
                (root_span (cf :: cfs)) Hm) as (levels&Hl&Hlen&Hlv).
    { repeat constructor; simpl; lia. }
    unfold root_span in Hl. simpl in Hl. rewrite Hl. simpl.
    exists levels. done.
  - done.
  - eexists _, _. split; vm_compute; reflexivity.
Qed.

(** The levels of the example are not the cells the claim gives: the
    third level has two nodes for c:2, one under b:1 and one under b:2. *)
Lemma C6_counterexample :
  ∃ s' levels,
    NewConfigHeader examples.header_schema examples.header_configs_ex
      = Some (s', levels) ∧
    cells <$> levels ≠ examples.claimed_cells.
Proof. eexists _, _. split; [vm_compute; reflexivity|]. vm_compute. discriminate. Qed.

End header_props.

(** ** Full names with excluded components (extract.go) *)

Module extract_props.
Import benchfmt extract spec.

Lemma byte_eqb_eq a b : byte_eqb a b = true ↔ a = b.
Proof. apply Ascii.eqb_eq. Qed.

Lemma HasPrefix_app s post k :
  HasPrefix s k = true → HasPrefix (s ++ post) k = true.
Proof.
  revert s. induction k as [|c k IH]; intros [|d s] Hp; simpl in *; try done.
  apply andb_prop in Hp as [-> Hp]. simpl. by apply IH.
Qed.

Lemma Contains_app pre s post k :
  HasPrefix s k = true → Contains (pre ++ s ++ post) k = true.
Proof.
  intros Hp. induction pre as [|c pre IH]; simpl.
  - destruct (s ++ post) eqn:E; simpl;
      rewrite <- E, (HasPrefix_app _ _ _ Hp); done.
  - rewrite IH. apply orb_true_r.
Qed.

Lemma IndexByte_elem s ch : ch ∈ s → (0 <=? IndexByte s ch) = true.
Proof.
  induction s as [|d s IH]; [by intros ?%elem_of_nil|].
  intros [->|Hin]%elem_of_cons; simpl.
  - unfold byte_eqb. by rewrite Ascii.eqb_refl.
  - destruct (byte_eqb d ch); [done|]. specialize (IH Hin).
    apply Z.leb_le in IH. destruct (IndexByte s ch <? 0) eqn:E.
    + apply Z.ltb_lt in E. lia.
    + apply Z.leb_le. lia.
Qed.

Lemma starts_with_elem part ch : starts_with part ch = true → ch ∈ part.
Proof.
  destruct part as [|d part]; [done|]. simpl. intros ->%byte_eqb_eq. left.
Qed.

(** *** [Parts] splits a name into its components *)

Lemma splitGomaxprocs_from_spec n k :
  (k ≤ length n)%nat →
  match splitGomaxprocs_from n k with
  | (buf, None) => buf = n
  | (buf, Some g) => n = buf ++ g ∧ starts_with g "-" = true
  end.
Proof.
  induction k as [|i IH]; intros Hk; simpl; [done|].
  destruct (n !! i) as [ch|] eqn:E; [|done].
  destruct (byte_eqb ch "-") eqn:E1; simpl.
  - destruct (i <? length n - 1)%nat.
    + split; [by rewrite take_drop|].
      rewrite (drop_S _ _ _ E). simpl. done.
    + destruct (negb (is_digit ch)); [done|]. apply IH. lia.
  - destruct (negb (is_digit ch)); [done|]. apply IH. lia.
Qed.

Lemma Parts_loop_spec buf rest i prev acc :
  drop i buf = rest → parts_inv buf i prev acc →
  ∃ acc' prev', Parts_loop buf rest i prev acc = (acc', prev') ∧
    parts_inv buf (length buf) prev' acc'.
Proof.
  revert i prev acc. induction rest as [|ch rest IH]; intros i prev acc Hd Hinv.
  { exists acc, prev. split; [done|].
    assert (i = length buf) as <-; [|done].
    destruct Hinv as (H1&_).
    apply (f_equal length) in Hd. rewrite length_drop in Hd. simpl in Hd. lia. }
  assert (buf !! i = Some ch) as Hi.
  { rewrite <- (Nat.add_0_r i), <- lookup_drop, Hd. done. }
  assert (drop (S i) buf = rest) as Hd'.
  { rewrite (drop_S _ _ _ Hi) in Hd. by injection Hd. }
  destruct Hinv as (H1&H2&H3&H4&H5). simpl.
  destruct (byte_eqb ch "/") eqn:E.
  - apply byte_eqb_eq in E. subst ch. apply lookup_lt_Some in Hi as Hlt.
    apply IH; [done|]. unfold parts_inv.
    split; [lia|]. split; [|split; [|split]].
    + rewrite concat_app, H2. simpl. rewrite app_nil_r. unfold slice.
      rewrite take_take_drop. f_equal. lia.
    + by destruct acc.
    + intros _. split; [lia|]. rewrite (drop_S _ _ _ Hi). simpl. done.
    + destruct acc as [|a acc]; [constructor|]. simpl in *.
      apply Forall_app. split; [done|]. constructor; [|constructor].
      destruct (H4 ltac:(done)) as [Hpl Hs]. unfold slice.
      destruct (drop prev buf) as [|d l] eqn:Ed; [done|].
      destruct (i - prev)%nat eqn:En; [lia|]. simpl. done.
  - apply lookup_lt_Some in Hi as Hlt.
    apply IH; [done|]. unfold parts_inv.
    split; [lia|]. split; [done|]. split; [done|]. split; [|done].
    intros Hne. destruct (H4 Hne) as [? ?]. split; [lia|done].
Qed.

Lemma nameParts_spec n :
  ∃ base parts, nameParts n = base :: parts ∧ base ++ concat parts = n ∧
    Forall (λ p, starts_with p "/" = true ∨ starts_with p "-" = true) parts.
Proof.
  unfold nameParts, splitGomaxprocs.
  pose proof (splitGomaxprocs_from_spec n (length n) ltac:(lia)) as Hs.
  destruct (splitGomaxprocs_from n (length n)) as [buf g].
  destruct (Parts_loop_spec buf buf O O []) as (acc&prev&->&Hinv).
  { done. }
  { unfold parts_inv. simpl. split; [lia|]. split; [done|]. split; [done|].
    split; [done|constructor]. }
  destruct Hinv as (H1&H2&H3&H4&H5).
  assert (∃ base parts, acc ++ [drop prev buf] = base :: parts ∧
            base ++ concat parts = buf ∧
            Forall (λ p, starts_with p "/" = true) parts) as (base&parts&Ha&Hc&Hf).
  { destruct acc as [|a acc].
    - rewrite (H3 eq_refl). simpl. exists buf, []. rewrite app_nil_r.
      split; [done|]. split; [done|constructor].
    - exists a, (acc ++ [drop prev buf]). split; [done|]. split.
      + rewrite concat_app. simpl. rewrite app_nil_r, app_assoc.
        simpl in H2. rewrite H2. apply take_drop.
      + apply Forall_app. split; [done|]. constructor; [|constructor].
        by destruct (H4 ltac:(done)). }
  destruct g as [g|].
  - destruct Hs as [-> Hg]. exists base, (parts ++ [g]). rewrite Ha.
    split; [done|]. split.
    + rewrite concat_app. simpl. rewrite app_nil_r, app_assoc. by rewrite Hc.
    + apply Forall_app. split.
      * eapply Forall_impl; [exact Hf|]. intros p Hp. by left.
      * constructor; [by right|constructor].
  - subst buf. exists base, parts. rewrite Ha. split; [done|]. split; [done|].
    eapply Forall_impl; [exact Hf|]. intros p Hp. by left.
Qed.

(** *** The loop over the parts *)

Lemma find_replace_find replace part :
  find_replace replace part = List.find (HasPrefix part) replace.
Proof.
  induction replace as [|k ks IH]; simpl; [done|].
  by destruct (HasPrefix part k).
Qed.

Lemma normalize_part_spec exclude part :
  part ≠ [] →
  normalize_part (excluded_prefixes exclude) (excludes "/gomaxprocs" exclude)
    part = Some (stand_in exclude part).
Proof.
  intros Hne. unfold normalize_part, stand_in. rewrite find_replace_find.
  destruct (List.find _ _); [done|].
  destruct (excludes "/gomaxprocs" exclude); simpl; [|done].
  destruct part as [|d part]; [done|]. simpl. by destruct (byte_eqb d "-").
Qed.

Lemma normalize_parts_spec exclude parts newName :
  Forall (λ p, p ≠ []) parts →
  normalize_parts (excluded_prefixes exclude) (excludes "/gomaxprocs" exclude)
    parts newName = Some (newName ++ concat (stand_in exclude <$> parts)).
Proof.
  intros Hf. revert newName. induction Hf as [|p parts Hp _ IH]; intros newName.
  { simpl. by rewrite app_nil_r. }
  simpl. rewrite (normalize_part_spec _ _ Hp), IH. by rewrite app_assoc.
Qed.

Lemma excludes_cons k0 k ks :
  excludes k0 (k :: ks) = (k0 =? k)%string || excludes k0 ks.
Proof. done. Qed.

Lemma excluded_prefixes_cons k ks :
  excluded_prefixes (k :: ks) =
    if starts_with_slash k then (bs k ++ bs "=") :: excluded_prefixes ks
    else excluded_prefixes ks.
Proof.
  unfold excluded_prefixes. cbn [List.filter].
  by destruct (starts_with_slash k).
Qed.

Lemma exclude_loop_spec exclude :
  ∀ replace eN eG,
    exclude_loop exclude replace eN eG =
      (replace ++ excluded_prefixes exclude,
       eN || excludes ".name" exclude,
       eG || excludes "/gomaxprocs" exclude).
Proof.
  induction exclude as [|k ks IH]; intros replace eN eG.
  { cbn. by rewrite app_nil_r, !orb_false_r. }
  cbn [exclude_loop]. rewrite !excludes_cons, excluded_prefixes_cons.
  rewrite (String.eqb_sym ".name" k), (String.eqb_sym "/gomaxprocs" k).
  destruct (starts_with_slash k) eqn:Es; cbn [negb]; rewrite IH.
  - rewrite <- app_assoc. cbn [app].
    assert ((k =? ".name")%string = false) as ->.
    { apply String.eqb_neq. intros ->. done. }
    by destruct (k =? "/gomaxprocs")%string, eN, eG.
  - assert ((k =? "/gomaxprocs")%string = false) as ->.
    { apply String.eqb_neq. intros ->. done. }
    by destruct (k =? ".name")%string, eN, eG.
Qed.

(** Without an excluded key in the name, every part stands for itself. *)
Lemma stand_in_id exclude name base parts :
  base ++ concat parts = name →
  existsb (Contains name) (excluded_prefixes exclude) = false →
  (excludes "/gomaxprocs" exclude = true → (0 <=? IndexByte name "-") = false) →
  stand_in exclude <$> parts = parts.
Proof.
  intros Hn Hc Hg. apply list_eq. intros j. rewrite list_lookup_fmap.
  destruct (parts !! j) as [part|] eqn:Ej; [|done]. simpl. f_equal.
  apply list_elem_of_lookup_2 in Ej.
  apply list_elem_of_split in Ej as (l1&l2&->).
  unfold stand_in.
  destruct (List.find (HasPrefix part) (excluded_prefixes exclude)) as [k|] eqn:Ef.
  { apply find_some in Ef as [Hin Hp]. exfalso.
    assert (existsb (Contains name) (excluded_prefixes exclude) = true) as Ht.
    { apply existsb_exists. exists k. split; [done|]. subst name.
      rewrite concat_app. simpl. rewrite app_assoc. by apply Contains_app. }
    congruence. }
  destruct (excludes "/gomaxprocs" exclude) eqn:Eg; [|done]. simpl.
  destruct (starts_with part "-") eqn:Es; [|done]. exfalso.
  specialize (Hg eq_refl).
  assert ((0 <=? IndexByte name "-") = true) as Ht; [|congruence].
  apply IndexByte_elem. subst name. rewrite concat_app. simpl.
  rewrite !elem_of_app. right. right. left. by apply starts_with_elem.
Qed.

(** C7.  The extractor of the full name that [newExtractorFullName]
    makes for a list of excluded keys never panics, and its value is the
    name with every component in its place: the base name, or [*] when
    [.name] is excluded, followed by each part of the name, where
    [/key=*] stands for a part of an excluded sub-name key and [-*] for
    the gomaxprocs part when [/gomaxprocs] is excluded, and every other
    part stands for itself.  So the parser that has parsed
    [.fullname,.config] and then [.name,/a,exc] projects the name
    [Name/a=1/b=2] to the full name [*/a=*/b=2]. *)
Theorem C7_fullname_stand_ins :
  (∀ exclude res, ∃ base parts,
     Parts (Name res) = Some (base, parts) ∧
     base ++ concat parts = Name res ∧
     apply (newExtractorFullName exclude) res =
       Some (stand_in_base exclude base ++ concat (stand_in exclude <$> parts))) ∧
  (∃ p1 f1 s1 p2 f2 s2 p3 s3 cf fl,
     benchproc.Parse (H := golib_model.lib) benchproc.zeroProjectionParser 1
       ".fullname,.config" examples.star = Some (p1, f1, inl s1) ∧
     benchproc.Parse (H := golib_model.lib) p1 2 ".name,/a,exc" f1
       = Some (p2, f2, inl s2) ∧
     benchproc.Project (H := golib_model.lib) p2 s1
       (examples.r "Name/a=1/b=2" []) = Some (p3, s3, cf) ∧
     benchproc.Fields s3 = Some (s3, [fl]) ∧
     benchproc.Name fl = ".fullname"%string ∧
     benchproc.Get s3 cf fl = Some "*/a=*/b=2"%string).
Proof.
  split.
  - intros exclude res.
    destruct (nameParts_spec (Name res)) as (base&parts&Hp&Hc&Hf).
    exists base, parts. unfold Parts. rewrite Hp. split; [done|]. split; [done|].
    assert (Forall (λ p : bytes, p ≠ []) parts) as Hne.
    { eapply Forall_impl; [exact Hf|]. intros p [Hs|Hs] ->; done. }
    unfold newExtractorFullName. rewrite exclude_loop_spec. simpl.
    destruct ((length (excluded_prefixes exclude) =? 0)%nat &&
              negb (excludes ".name" exclude) &&
              negb (excludes "/gomaxprocs" exclude)) eqn:E.
    + apply andb_prop in E as [E E3]. apply andb_prop in E as [E1 E2].
      apply negb_true_iff in E2, E3. apply Nat.eqb_eq in E1.
      simpl. unfold Full, stand_in_base. rewrite E2. f_equal.
      rewrite (stand_in_id exclude (Name res) base parts); [done|done| |].
      * destruct (excluded_prefixes exclude); done.
      * by rewrite E3.
    + simpl. unfold extractFullExcluded, Full, stand_in_base.
      destruct (excludes ".name" exclude) eqn:En.
      { simpl. unfold Parts. rewrite Hp. by apply normalize_parts_spec. }
      destruct (existsb (Contains (Name res)) (excluded_prefixes exclude)) eqn:Ec.
      { simpl. unfold Parts. rewrite Hp. by apply normalize_parts_spec. }
      simpl.
      destruct (excludes "/gomaxprocs" exclude &&
                (0 <=? IndexByte (Name res) "-")) eqn:Eg.
      { simpl. unfold Parts. rewrite Hp. by apply normalize_parts_spec. }
      simpl. f_equal.
      rewrite (stand_in_id exclude (Name res) base parts); [done|done|done|].
      intros Hg. rewrite Hg in Eg. done.
  - do 10 eexists.
    split; [vm_compute; reflexivity|].
    split; [vm_compute; reflexivity|].
    split; [vm_compute; reflexivity|].
    split; [vm_compute; reflexivity|].
    split; vm_compute; reflexivity.
Qed.

End extract_props.

(** ** Filter expressions (filter.go of package parse) *)

Module filter_props.
Import parse spec.

Section Filter.
Context `{GoLib}.

Lemma mkMatch_value o k val :
  kind_in (Kind val) "wqr" = true → mkMatch o k val = Some (match_of o k val).
Proof.
  unfold mkMatch, match_of, kind_in. simpl.
  destruct (byte_eqb (Kind val) "w") eqn:Ew, (byte_eqb (Kind val) "q") eqn:Eq,
    (byte_eqb (Kind val) "r") eqn:Er; simpl; try done;
    unfold byte_eqb in *; apply Ascii.eqb_eq in Er;
    try apply Ascii.eqb_eq in Ew; try apply Ascii.eqb_eq in Eq; congruence.
Qed.

Lemma kind_wqr_not_paren val :
  kind_in (Kind val) "wqr" = true →
  byte_eqb (Kind val) ")" = false ∧ byte_eqb (Kind val) "(" = false.
Proof.
  unfold kind_in. simpl. rewrite !orb_true_iff. unfold byte_eqb.
  rewrite !Ascii.eqb_eq. intros Hk. split; apply Ascii.eqb_neq; intros E;
    rewrite E in Hk; destruct Hk as [?|[?|[?|?]]]; done.
Qed.

(** The loop over the values reads a whole list of values. *)
Lemma match_values_list o k rest e vs cl before after e' :
  value_list rest e vs cl before after e' →
  ∀ fuel terms, (length vs < fuel)%nat → terms ++ (match_of o k <$> vs) ≠ [] →
    match_values fuel o k rest terms e =
      Some (FilterOp OpOr (terms ++ (match_of o k <$> vs)), after, e').
Proof.
  induction 1 as [rest e cl after e' Hv Hk
                 |rest e val toks2 e1 vs cl before after e' Hv Hk _ IH];
    intros fuel terms Hf Hne.
  - destruct fuel as [|fuel]; [simpl in Hf; lia|]. simpl. rewrite Hv.
    apply Ascii.eqb_eq in Hk. unfold byte_eqb. rewrite Hk.
    simpl in *. rewrite app_nil_r in *. by destruct terms.
  - destruct fuel as [|fuel]; [simpl in Hf; lia|]. simpl. rewrite Hv.
    destruct (kind_wqr_not_paren val Hk) as [-> _]. rewrite Hk.
    rewrite (mkMatch_value _ _ _ Hk). simpl.
    rewrite IH; [|simpl in Hf; lia|].
    + by rewrite <- app_assoc.
    + rewrite <- app_assoc. simpl. by destruct terms.
Qed.

(** A closing parenthesis starts where [tokenizer.error] points. *)
Lemma paren_offset b t e cl after e' :
  next b t e = (cl, after, e') → Kind cl = ")"%char →
  off (skipSpace (q t) (off t)) = tOff cl.
Proof.
  unfold next. set (t' := skipSpace (q t) (off t)).
  destruct (q t') as [|ch rest]; [by intros [= <- _ _]|].
  destruct (isPunct ch); [by intros [= <- _ _]|].
  destruct (byte_eqb ch (ascii_of_nat 34)).
  { destruct (quoteLen rest); [|by intros [= <- _ _]].
    destruct (strconv_Unquote _); by intros [= <- _ _]. }
  destruct (b && byte_eqb ch "/").
  { destruct (regexpLen rest false 0); [|by intros [= <- _ _]].
    destruct (negb _); [by intros [= <- _ _]|].
    destruct (regexp_Compile _); by intros [= <- _ _]. }
  intros [= <- _ _]. simpl.
  destruct (String.eqb _ "AND"); [done|]. by destruct (String.eqb _ "OR").
Qed.

(** C8.  [parser.match] on [key:(v1 v2 ...)] with at least one value
    returns the OR of the matches of the key against each value, a
    match being what [key:v] alone parses to: literal for a word,
    regexp for a regexp.  On [*] it returns the AND of no terms, which
    holds of every record.  On [key:()] it returns no filter and
    records the syntax error "nothing to match" at the offset of the
    closing parenthesis, unless an error was recorded before. *)
Theorem C8_match_multi :
  (∀ fuel start e tk r1 e1 op r2 e2 val r3 e3,
     key start e = (tk, r1, e1) → kind_in (Kind tk) "wq" = true →
     key r1 e1 = (op, r2, e2) → Kind op = ":"%char →
     value r2 e2 = (val, r3, e3) →
     (kind_in (Kind val) "wqr" = true →
      parser_match (S fuel) start e =
        Some (match_of (tOff tk) (Tok tk) val, r3, e3)) ∧
     (Kind val = "("%char →
      (∀ vs cl before after e4,
         value_list r3 e3 vs cl before after e4 → vs ≠ [] →
         (length vs < fuel)%nat →
         parser_match (S fuel) start e =
           Some (FilterOp OpOr (match_of (tOff tk) (Tok tk) <$> vs), after, e4)) ∧
      (∀ cl after e4,
         value r3 e3 = (cl, after, e4) → Kind cl = ")"%char →
         err e4 = None → (0 < fuel)%nat →
         ∃ e5, parser_match (S fuel) start e = Some (FilterNil, atEnd r3, e5) ∧
               err e5 = Some (mkSyntaxError (qOrig e4) (tOff cl)
                                "nothing to match")))) ∧
  (∀ fuel start e tk rest e',
     key start e = (tk, rest, e') → Kind tk = "*"%char →
     parser_match (S fuel) start e = Some (FilterOp OpAnd [], rest, e')) ∧
  (∀ leaf, matches leaf (FilterOp OpAnd []) = true).
Proof.
  split; [|split; [|done]].
  - intros fuel start e tk r1 e1 op r2 e2 val r3 e3 Hk Hkk Ho Hok Hv.
    assert (byte_eqb (Kind tk) "(" = false ∧ byte_eqb (Kind tk) "-" = false ∧
            byte_eqb (Kind tk) "*" = false) as (Hp1&Hp2&Hp3).
    { unfold kind_in in Hkk. simpl in Hkk. rewrite orb_false_r in Hkk.
      apply orb_true_iff in Hkk. unfold byte_eqb in *.
      rewrite !Ascii.eqb_eq in Hkk.
      repeat split; apply Ascii.eqb_neq; intros E; rewrite E in Hkk;
        destruct Hkk as [?|?]; done. }
    assert (byte_eqb (Kind op) ":" = true) as Hop.
    { unfold byte_eqb. by apply Ascii.eqb_eq. }
    split; [|intros Hpar; split].
    + intros Hval. simpl. rewrite Hk, Hp1, Hp2, Hp3, Hkk, Ho, Hop. simpl.
      rewrite Hv, Hval. by rewrite (mkMatch_value _ _ _ Hval).
    + intros vs cl before after e4 Hvl Hne Hf. simpl.
      rewrite Hk, Hp1, Hp2, Hp3, Hkk, Ho, Hop. simpl. rewrite Hv.
      assert (kind_in (Kind val) "wqr" = false) as -> by by rewrite Hpar.
      assert (byte_eqb (Kind val) "(" = true) as -> by by rewrite Hpar.
      rewrite (match_values_list _ _ _ _ _ _ _ _ _ Hvl fuel []); [done|done|].
      simpl. by destruct vs.
    + intros cl after e4 Hcl Hck He4 Hf. simpl.
      rewrite Hk, Hp1, Hp2, Hp3, Hkk, Ho, Hop. simpl. rewrite Hv.
      assert (kind_in (Kind val) "wqr" = false) as -> by by rewrite Hpar.
      assert (byte_eqb (Kind val) "(" = true) as -> by by rewrite Hpar.
      destruct fuel as [|fuel]; [lia|]. simpl. rewrite Hcl.
      assert (byte_eqb (Kind cl) ")" = true) as -> by by rewrite Hck.
      simpl. eexists. split; [done|]. unfold record_error. rewrite He4.
      unfold value in Hcl. by rewrite (paren_offset _ _ _ _ _ _ Hcl Hck).
  - intros fuel start e tk rest e' Hk Hkk. simpl. rewrite Hk, Hkk. done.
Qed.
End Filter.

End filter_props.

(** ** Projection expressions (ProjectionParser) *)

Module projection_props.
Import benchproc spec intern_props.

Lemma root_ok_newSchema a : root_ok (newSchema a).
Proof. by eexists O, _. Qed.

Lemma addField_root s name :
  root_ok s →
  ∃ s' f, addField s (root s) name = Some (s', f) ∧ root_ok s' ∧
    fieldInternal_ptr f = Some (length (fieldHeap s)) ∧
    is_Some (fieldHeap s' !! length (fieldHeap s)) ∧
    length (fieldHeap s') = S (length (fieldHeap s)).
Proof.
  intros (gp&gi&Hp&Hg&Hi). unfold addField, deref. rewrite Hp. simpl.
  rewrite Hg. simpl. rewrite Hi. simpl. unfold update. simpl. rewrite Hp. simpl.
  rewrite (lookup_app_l_Some _ _ _ _ Hg). simpl.
  eexists _, _. split; [done|]. apply lookup_lt_Some in Hg as Hlt.
  split; [|split; [done|split]].
  - exists gp, (add_sub (mkField name (Some (length (fieldHeap s)))) gi).
    simpl. split; [done|]. split; [|done].
    apply list_lookup_insert_eq. rewrite length_app. simpl. lia.
  - simpl. rewrite list_lookup_insert_ne by lia.
    rewrite lookup_app_r, Nat.sub_diag by done. by eexists.
  - simpl. rewrite length_insert, length_app. simpl. lia.
Qed.

Lemma addGroup_root s name :
  root_ok s → ∃ s' f, addGroup s (root s) name = Some (s', f) ∧ root_ok s'.
Proof.
  intros (gp&gi&Hp&Hg&Hi). unfold addGroup, update. simpl. rewrite Hp. simpl.
  rewrite (lookup_app_l_Some _ _ _ _ Hg). simpl.
  eexists _, _. split; [done|]. apply lookup_lt_Some in Hg as Hlt.
  exists gp, (add_sub (mkField name (Some (length (fieldHeap s)))) gi).
  simpl. split; [done|]. split; [|done].
  apply list_lookup_insert_eq. rewrite length_app. simpl. lia.
Qed.

Lemma update_other h f g p gp :
  fieldInternal_ptr f = Some p → gp ≠ p → is_Some (h !! p) →
  ∃ h', update h f g = Some h' ∧ h' !! gp = h !! gp ∧
        is_Some (h' !! p) ∧ length h' = length h.
Proof.
  intros Hp Hne [fi Hfi]. unfold update. rewrite Hp. simpl. rewrite Hfi. simpl.
  eexists. split; [done|]. rewrite list_lookup_insert_ne by done.
  split; [done|]. split; [|by rewrite length_insert].
  rewrite list_lookup_insert_eq; [by eexists|]. by apply lookup_lt_Some in Hfi.
Qed.

Lemma call_initField_other init h f p gp :
  fieldInternal_ptr f = Some p → gp ≠ p → is_Some (h !! p) →
  ∃ h', call_initField init h f = Some h' ∧ h' !! gp = h !! gp.
Proof.
  intros Hp Hne Hs. destruct init as [fixedMap| |cm]; simpl.
  - destruct (update_other h f (set_cmp (cmpFixed fixedMap)) p gp Hp Hne Hs)
      as (h'&->&?&_). by eexists.
  - destruct (update_other h f (set_order (Some ∅)) p gp Hp Hne Hs)
      as (h1&->&E1&Hs1&_). simpl.
    destruct (update_other h1 f (set_cmp (cmpFirst f)) p gp Hp Hne Hs1)
      as (h2&->&E2&_). eexists. split; [done|]. congruence.
  - destruct (update_other h f (set_cmp cm) p gp Hp Hne Hs) as (h'&->&?&_).
    by eexists.
Qed.

(** Adding a leaf field at the root and initialising it cannot panic. *)
Lemma add_init_root s name init :
  root_ok s →
  ∃ s' f h, addField s (root s) name = Some (s', f) ∧
    call_initField init (fieldHeap s') f = Some h ∧
    root_ok (set_fieldHeap s' h).
Proof.
  intros Hr. pose proof Hr as (gp&gi&Hp&Hg&Hi).
  destruct (addField_root s name Hr) as (s'&f&Ha&(gp'&gi'&Hp'&Hg'&Hi')&Hf&Hs&Hl).
  apply lookup_lt_Some in Hg as Hlt.
  pose proof (addField_row _ _ _ _ _ Ha) as (_&_&_&_&_&_&_&_&_&_&_).
  assert (gp' ≠ length (fieldHeap s)) as Hne.
  { assert (root s' = root s) as Hroot.
    { unfold addField in Ha. unfold deref in Ha. rewrite Hp in Ha. simpl in Ha.
      rewrite Hg in Ha. simpl in Ha. rewrite Hi in Ha. simpl in Ha.
      unfold update in Ha. simpl in Ha. rewrite Hp in Ha. simpl in Ha.
      rewrite (lookup_app_l_Some _ _ _ _ Hg) in Ha. simpl in Ha.
      by injection Ha as <- _. }
    rewrite Hroot, Hp in Hp'. injection Hp' as <-. lia. }
  destruct (call_initField_other init (fieldHeap s') f _ gp' Hf Hne Hs)
    as (h&Hc&Hh).
  exists s', f, h. split; [done|]. split; [done|].
  exists gp', gi'. simpl. split; [done|]. split; [congruence|done].
Qed.

Section Projection.
Context `{GoLib}.

Lemma makeProjection_config_fixed p s q proj :
  config_fixed proj →
  makeProjection p s q proj = Some (p, s, inr (config_fixed_error q proj)).
Proof.
  intros [Hk Ho]. unfold makeProjection. rewrite Hk, Ho. done.
Qed.

(** [makeProjection] cannot panic on a schema whose root is a group,
    once the parser has its map of keys. *)
Lemma makeProjection_total p s q proj :
  root_ok s → is_Some (configKeys p) →
  ∃ p' s' res, makeProjection p s q proj = Some (p', s', res) ∧
    root_ok s' ∧ is_Some (configKeys p').
Proof.
  intros Hr Hk. unfold makeProjection.
  destruct (if String.eqb (parse.Order proj) "fixed" then _ else _)
    as [init|]; [|by eexists _, _, _].
  destruct (String.eqb (parse.pKey proj) ".config").
  { destruct (String.eqb (parse.Order proj) "fixed"); [by eexists _, _, _|].
    destruct (addGroup_root s ".config" Hr) as (s'&f&->&Hr'). simpl.
    eexists _, _, _. split; [done|]. split; [|done].
    destruct Hr' as (gp&gi&?&?&?). by exists gp, gi. }
  destruct (String.eqb (parse.pKey proj) ".fullname").
  { destruct (add_init_root s ".fullname" init Hr) as (s'&f&h&->&Hc&Hr').
    simpl. rewrite Hc. simpl. eexists _, _, _. split; [done|].
    split; [|done]. destruct Hr' as (gp&gi&?&?&?). by exists gp, gi. }
  destruct Hk as [m Hm].
  assert (∃ p', (if String.eqb (parse.pKey proj) ".name"
                    || extract.starts_with_slash (parse.pKey proj)
                 then Some (mkProjectionParser (configKeys p)
                              (fullnameKeys p ++ [parse.pKey proj])
                              (haveConfig p) (haveFullname p) (fullExtractor p))
                 else
                   m ← configKeys p;
                   Some (mkProjectionParser (Some (<[parse.pKey proj := true]> m))
                           (fullnameKeys p) (haveConfig p) (haveFullname p)
                           (fullExtractor p))) = Some p' ∧
                is_Some (configKeys p')) as (p'&->&Hk').
  { destruct (_ || _).
    - eexists. split; [done|]. simpl. by rewrite Hm.
    - rewrite Hm. simpl. eexists. split; [done|]. by eexists. }
  simpl. destruct (extract.newExtractor (parse.pKey proj)) as [ext|msg].
  2:{ by eexists _, _, _. }
  destruct (add_init_root s (parse.pKey proj) init Hr) as (s'&f&h&->&Hc&Hr').
  simpl. rewrite Hc. simpl. eexists _, _, _. split; [done|].
  split; [|done]. destruct Hr' as (gp&gi&?&?&?). by exists gp, gi.
Qed.

(** The loop over the parts stops with an error at a part that gives
    [.config] a fixed order, if not before. *)
Lemma parts_loop_config_fixed q parts :
  Exists config_fixed parts →
  ∀ p s fps, root_ok s → is_Some (configKeys p) →
    ∃ p' e, parts_loop p s q parts fps = Some (p', inr e).
Proof.
  induction parts as [|part parts IH]; intros Hex p s fps Hr Hk.
  { by apply Exists_nil in Hex. }
  simpl.
  destruct (makeProjection_total p s q part Hr Hk) as (p1&s1&res&Hm&Hr1&Hk1).
  rewrite Hm. simpl. destruct res as [f|e]; [|by eexists _, _].
  apply Exists_cons in Hex as [Hcf|Hex].
  { rewrite (makeProjection_config_fixed p s q part Hcf) in Hm. done. }
  by apply IH.
Qed.

Lemma parts_loop_first q pre part post :
  config_fixed part →
  ∀ p s fps p1 s1 fps1,
    parts_loop p s q pre fps = Some (p1, inl (s1, fps1)) →
    parts_loop p s q (pre ++ part :: post) fps =
      Some (p1, inr (config_fixed_error q part)).
Proof.
  intros Hcf. induction pre as [|p0 pre IH]; intros p s fps p1 s1 fps1 Hl.
  { simpl in Hl. injection Hl as <- <- <-. simpl.
    by rewrite (makeProjection_config_fixed p s q part Hcf). }
  simpl in *. destruct (makeProjection p s q p0) as [[[p2 s2] res]|];
    simpl in *; [|done].
  destruct res as [f|e]; [|done]. by eapply IH.
Qed.

(** C9, as amended.  [makeProjection] rejects a part that gives
    [.config] a fixed order with the syntax error "fixed order not
    allowed for .config" at the offset of the order, and leaves the
    parser and the schema as they were.  So [Parse], on an expression
    that has such a part, returns nil for the Schema and a syntax
    error, and does not touch the filter: the error is the one above
    when every part before the first such part is accepted, and
    otherwise the error of an earlier part. *)
Theorem C9_config_fixed_order :
  (∀ p s q proj, config_fixed proj →
     makeProjection p s q proj = Some (p, s, inr (config_fixed_error q proj))) ∧
  (∀ p addr q filter parts,
     parse.ParseProjection q = Some (inl parts) →
     Exists config_fixed parts →
     ∃ p' e, Parse p addr q filter = Some (p', filter, inr e)) ∧
  (∀ p addr q filter pre part post p1 s1 fps1,
     parse.ParseProjection q = Some (inl (pre ++ part :: post)) →
     config_fixed part →
     parts_loop (if configKeys p is Some _ then p
                 else mkProjectionParser (Some ∅) (fullnameKeys p)
                        (haveConfig p) (haveFullname p) (fullExtractor p))
       (newSchema addr) q pre [] = Some (p1, inl (s1, fps1)) →
     Parse p addr q filter =
       Some (p1, filter, inr (config_fixed_error q part))).
Proof.
  split; [exact makeProjection_config_fixed|split].
  - intros p addr q filter parts Hp Hex. unfold Parse. rewrite Hp.
    set (p0 := match configKeys p with Some _ => p | None => _ end).
    assert (is_Some (configKeys p0)) as Hk.
    { subst p0. destruct (configKeys p) eqn:E; [by rewrite E|by eexists]. }
    destruct (parts_loop_config_fixed q parts Hex p0 (newSchema addr) []
                (root_ok_newSchema _) Hk) as (p'&e&Hl).
    simpl. rewrite Hl. simpl. by eexists _, _.
  - intros p addr q filter pre part post p1 s1 fps1 Hp Hcf Hl.
    unfold Parse. rewrite Hp.
    set (p0 := match configKeys p with Some _ => p | None => _ end) in *.
    simpl. by rewrite (parts_loop_first q pre part post Hcf _ _ _ _ _ _ Hl).
Qed.
End Projection.

(** The projection expression [a@foo,.config@(1 2)] gives [.config] a
    fixed order, and [Parse] fails on it with another message: the
    unknown order of the part before. *)
Lemma C9_counterexample :
  ∃ p e,
    Parse (H := golib_model.lib) zeroProjectionParser 1 "a@foo,.config@(1 2)"
      examples.star = Some (p, examples.star, inr e) ∧
    parse.Msg e ≠ "fixed order not allowed for .config"%string.
Proof. eexists _, _. split; [vm_compute; reflexivity|]. vm_compute. discriminate. Qed.

End projection_props.

(** ** The tuple order (sort.go) *)

Module order_props.
Import num benchproc spec num_props.

(** *** Strings, byte-wise *)

Lemma ascii_compare_refl a : Ascii.compare a a = Eq.
Proof. unfold Ascii.compare. apply N.compare_refl. Qed.

Lemma string_compare_refl x : String.compare x x = Eq.
Proof. induction x as [|a x IH]; simpl; [done|]. by rewrite ascii_compare_refl. Qed.

Lemma string_compare_trans x y z :
  String.compare x y = Lt → String.compare y z = Lt → String.compare x z = Lt.
Proof.
  revert y z. induction x as [|a x IH]; intros [|b y] [|c z]; simpl; try done.
  unfold Ascii.compare.
  destruct (N.compare_spec (N_of_ascii a) (N_of_ascii b)) as [E1|L1|G1];
    destruct (N.compare_spec (N_of_ascii b) (N_of_ascii c)) as [E2|L2|G2];
    try done; intros H1 H2.
  - rewrite E1, E2, N.compare_refl. by eapply IH.
  - rewrite E1. by apply N.compare_lt_iff in L2 as ->.
  - rewrite <- E2. by apply N.compare_lt_iff in L1 as ->.
  - assert (N_of_ascii a < N_of_ascii c)%N as L by lia.
    by apply N.compare_lt_iff in L as ->.
Qed.

Lemma string_lt_irrefl x : string_lt x x = false.
Proof. unfold string_lt, String.ltb. by rewrite string_compare_refl. Qed.

Lemma string_lt_trans x y z :
  string_lt x y = true → string_lt y z = true → string_lt x z = true.
Proof.
  unfold string_lt, String.ltb.
  destruct (String.compare x y) eqn:E1; try done.
  destruct (String.compare y z) eqn:E2; try done.
  by rewrite (string_compare_trans _ _ _ E1 E2).
Qed.

Lemma string_lt_total x y :
  x ≠ y → string_lt x y = true ∨ string_lt y x = true.
Proof.
  intros Hne. unfold string_lt, String.ltb.
  rewrite (String.compare_antisym y x).
  destruct (String.compare x y) eqn:E; simpl; auto.
  by apply String.compare_eq_iff in E.
Qed.

Lemma string_lt_asym x y : string_lt x y = true → string_lt y x = false.
Proof.
  unfold string_lt, String.ltb. rewrite (String.compare_antisym y x).
  by destruct (String.compare x y).
Qed.

(** *** Comparators *)

Lemma beforeb_spec cf x y : beforeb cf x y = true ↔ before cf x y.
Proof.
  unfold beforeb, before. destruct (cf x y =? 0) eqn:E; simpl.
  - apply Z.eqb_eq in E. rewrite E. split; [by right|]. intros [?|[_ ?]]; [lia|done].
  - apply Z.eqb_neq in E. rewrite Z.ltb_lt. split; [by left|].
    intros [?|[? _]]; [done|lia].
Qed.

Section Good.
Context (cf : string → string → Z) (Hgood : good_cmp cf).

Lemma good_refl x : cf x x = 0.
Proof. destruct Hgood as [Ha _]. pose proof (Ha x x). lia. Qed.

Lemma good_zero_sym x y : cf x y = 0 → cf y x = 0.
Proof.
  destruct Hgood as [Ha _]. pose proof (Ha x y). pose proof (Ha y x). lia.
Qed.

Lemma before_irrefl x : ¬ before cf x x.
Proof.
  intros [Hlt|[_ Hs]]; [rewrite good_refl in Hlt; lia|].
  by rewrite string_lt_irrefl in Hs.
Qed.

Lemma before_asym x y : before cf x y → ¬ before cf y x.
Proof.
  destruct Hgood as [Ha _]. pose proof (Ha x y) as A1. pose proof (Ha y x) as A2.
  intros [H1|[H1 S1]] [H2|[H2 S2]]; try lia.
  apply string_lt_asym in S1. congruence.
Qed.

Lemma before_trans x y z : before cf x y → before cf y z → before cf x z.
Proof.
  destruct Hgood as [Ha Ht].
  pose proof (Ha x y) as A1. pose proof (Ha y x) as A2.
  pose proof (Ha y z) as A3. pose proof (Ha z y) as A4.
  pose proof (Ha x z) as A5. pose proof (Ha z x) as A6.
  pose proof (Ht x y z) as T1. pose proof (Ht z x y) as T2.
  pose proof (Ht y z x) as T3. pose proof (Ht z y x) as T4.
  intros [H1|[H1 S1]] [H2|[H2 S2]]; unfold before.
  - left. lia.
  - left. lia.
  - left. lia.
  - right. split; [lia|]. by eapply string_lt_trans.
Qed.

Lemma before_total x y : x ≠ y → before cf x y ∨ before cf y x.
Proof.
  destruct Hgood as [Ha _]. pose proof (Ha x y) as A1. pose proof (Ha y x) as A2.
  intros Hne. unfold before.
  destruct (Z.lt_trichotomy (cf x y) 0) as [?|[?|?]]; [by left; left| |].
  - destruct (string_lt_total x y Hne); [left|right]; right; split;
      try done; lia.
  - right. left. lia.
Qed.
End Good.

(** A comparator that compares keys is a good one. *)
Lemma keyed_good (cf : string → string → Z) (key : string → key3) :
  (∀ x y, (cf x y < 0 ↔ key3_lt (key x) (key y)) ∧
          (0 < cf x y ↔ key3_lt (key y) (key x))) →
  good_cmp cf.
Proof.
  intros Hk. split.
  - intros x y. destruct (Hk x y) as [H1 _], (Hk y x) as [_ H2].
    rewrite H1, H2. done.
  - intros x y z. destruct (Hk x y) as [_ H1], (Hk y z) as [_ H2],
      (Hk x z) as [_ H3].
    unfold key3_lt in *.
    destruct (key x) as [[x1 x2] x3], (key y) as [[y1 y2] y3],
      (key z) as [[z1 z2] z3]. simpl in *. lia.
Qed.

Lemma wrap64_small z : - 2 ^ 63 ≤ z < 2 ^ 63 → wrap64 z = z.
Proof.
  intros Hz. unfold wrap64. rewrite Z.mod_small; lia.
Qed.

Lemma map_get_nonneg (m : gmap string Z) x :
  map_Forall (λ _ v, nonneg_int v) m → nonneg_int (map_get m x).
Proof.
  intros Hm. unfold map_get. destruct (m !! x) as [v|] eqn:E; simpl.
  - by eapply Hm.
  - unfold nonneg_int. lia.
Qed.

Lemma map_cmp_good (m : gmap string Z) :
  map_Forall (λ _ v, nonneg_int v) m →
  good_cmp (λ a b, wrap64 (map_get m a - map_get m b)).
Proof.
  intros Hm. apply (keyed_good _ (λ x, (map_get m x, 0, 0))).
  intros x y. pose proof (map_get_nonneg m x Hm) as Hx.
  pose proof (map_get_nonneg m y Hm) as Hy. unfold nonneg_int in *.
  rewrite wrap64_small by lia. unfold key3_lt. simpl. lia.
Qed.

Lemma alpha_good : good_cmp order_alpha.
Proof.
  unfold order_alpha, strings_Compare. split.
  - intros x y. rewrite (String.compare_antisym y x).
    destruct (String.compare x y); simpl; lia.
  - intros x y z.
    destruct (String.compare x y) eqn:E1; [| |lia];
      destruct (String.compare y z) eqn:E2; try lia; intros _ _.
    + apply String.compare_eq_iff in E1, E2. subst.
      rewrite string_compare_refl. lia.
    + apply String.compare_eq_iff in E1. subst. rewrite E2. lia.
    + apply String.compare_eq_iff in E2. subst. rewrite E1. lia.
    + rewrite (string_compare_trans _ _ _ E1 E2). lia.
Qed.

(** *** Floats *)

Lemma flt_key a b :
  IsNaN a = false → IsNaN b = false →
  (flt a b = true ↔ key3_lt (float_key a) (float_key b)).
Proof.
  unfold flt, SFltb, key3_lt.
  destruct a as [sa|sa| |sa ma ea], b as [sb|sb| |sb mb eb]; try done;
    intros _ _; try destruct sa; try destruct sb; simpl;
    try (split; [done|lia]); try (split; [intros _; lia|done]).
  all: destruct (Z.compare_spec ea eb) as [E|L|G]; simpl;
    try (split; [done|lia]); try (split; [intros _; lia|done]).
  all: subst; change (Pos.compare_cont Eq ma mb) with (Pos.compare ma mb);
    destruct (Pos.compare_spec ma mb); simpl;
    try (split; [done|lia]); try (split; [intros _; lia|done]).
Qed.

Lemma float_key_nan a : IsNaN a = false → (float_key a).1.1 ≤ 2.
Proof. destruct a as [s|s| |s m e]; try done; destruct s; simpl; lia. Qed.

Section Order.
Context `{GoLib}.

Lemma num_keyed x y :
  (order_num x y < 0 ↔ key3_lt (num_key x) (num_key y)) ∧
  (0 < order_num x y ↔ key3_lt (num_key y) (num_key x)).
Proof.
  unfold order_num, num_key.
  destruct (parseNum x) as [aa oka], (parseNum y) as [bb okb].
  destruct oka, okb; simpl.
  - destruct (IsNaN aa) eqn:Na, (IsNaN bb) eqn:Nb; simpl.
    + apply IsNaN_true in Na, Nb. subst. simpl. unfold key3_lt. simpl. lia.
    + apply IsNaN_true in Na. subst. rewrite flt_nan_l. unfold fgt.
      rewrite flt_nan_r. simpl. pose proof (float_key_nan bb Nb).
      unfold key3_lt. simpl. lia.
    + apply IsNaN_true in Nb. subst. rewrite flt_nan_r. simpl.
      pose proof (float_key_nan aa Na). unfold key3_lt. simpl. lia.
    + rewrite !orb_false_r. unfold fgt.
      pose proof (flt_key aa bb Na Nb) as K1.
      pose proof (flt_key bb aa Nb Na) as K2.
      assert (∀ (b1 b2 : bool) (P Q : Prop),
                (b1 = true ↔ P) → (b2 = true ↔ Q) → ¬ (P ∧ Q) →
                ((if b1 then -1 else if b2 then 1 else 0) < 0 ↔ P) ∧
                (0 < (if b1 then -1 else if b2 then 1 else 0) ↔ Q)) as Hb.
      { intros [] [] P Q [H1 H1'] [H2 H2'] Hn; (split; split); intros HH;
          try lia; try (by apply H1); try (by apply H2);
          try (by apply H1' in HH); try (by apply H2' in HH);
          exfalso; apply Hn; split; first [done|by apply H1|by apply H2]. }
      apply Hb; [done|done|]. unfold key3_lt.
      destruct (float_key aa) as [[? ?] ?], (float_key bb) as [[? ?] ?].
      simpl. lia.
  - pose proof (float_key_nan aa) as Hk. unfold key3_lt. simpl.
    destruct aa as [s|s| |s m e]; try destruct s; simpl; lia.
  - unfold key3_lt. simpl.
    destruct bb as [s|s| |s m e]; try destruct s; simpl; lia.
  - unfold key3_lt. simpl. lia.
Qed.

Lemma num_good : good_cmp order_num.
Proof. apply (keyed_good _ num_key). apply num_keyed. Qed.

(** The function a comparison closure computes. *)
Lemma call_cmp_good h cm :
  cmp_ok h cm →
  ∃ cf, good_cmp cf ∧ ∀ x y, call_cmp h cm x y = Some (cf x y).
Proof.
  destruct cm as [|m|f|f| |]; simpl; [done| | | | |].
  - intros Hm. eexists. split; [by apply map_cmp_good|done].
  - intros (fi&Hd&Hm). eexists. split; [by apply map_cmp_good|].
    intros x y. by rewrite Hd.
  - intros (fi&Hd&Hm). eexists. split; [by apply map_cmp_good|].
    intros x y. by rewrite Hd.
  - intros _. exists order_alpha. split; [apply alpha_good|done].
  - intros _. exists order_num. split; [apply num_good|done].
Qed.

Lemma at_idx_value a i : 0 ≤ i → at_idx a i = Some (value_at a i).
Proof.
  intros Hi. unfold at_idx, value_at, index.
  assert ((0 <=? i) = true) as -> by by apply Z.leb_le.
  destruct (i <? Z.of_nat (length a)) eqn:E.
  - apply Z.ltb_lt in E.
    destruct (a !! Z.to_nat i) as [v|] eqn:Ev; [done|].
    apply lookup_ge_None in Ev. lia.
  - apply Z.ltb_ge in E. rewrite (lookup_ge_None_2 a (Z.to_nat i)); [done|lia].
Qed.

(** One step of [less] on a field that is in order. *)
Lemma less_cons h f flat a b fi cf :
  deref h f = Some fi → 0 ≤ idx fi →
  (∀ x y, call_cmp h (cmp fi) x y = Some (cf x y)) →
  less h (f :: flat) a b =
    if String.eqb (value_at a (idx fi)) (value_at b (idx fi))
    then less h flat a b
    else Some (beforeb cf (value_at a (idx fi)) (value_at b (idx fi))).
Proof.
  intros Hd Hi Hc. simpl. rewrite Hd. simpl.
  rewrite !at_idx_value by done. simpl.
  destruct (String.eqb _ _); simpl; [done|]. rewrite Hc. simpl.
  unfold beforeb. by destruct (cf _ _ =? 0).
Qed.

Lemma less_defined h flat a b :
  flat_ok h flat → ∃ r, less h flat a b = Some r.
Proof.
  induction 1 as [|f flat (fi&Hd&Hi&Hc) _ IH]; [by eexists|].
  destruct (call_cmp_good h _ Hc) as (cf&_&Hcf).
  rewrite (less_cons h f flat a b fi cf Hd Hi Hcf).
  destruct (String.eqb _ _); [done|by eexists].
Qed.

Lemma less_irrefl h flat a : flat_ok h flat → less h flat a a = Some false.
Proof.
  induction 1 as [|f flat (fi&Hd&Hi&Hc) _ IH]; [done|].
  destruct (call_cmp_good h _ Hc) as (cf&_&Hcf).
  rewrite (less_cons h f flat a a fi cf Hd Hi Hcf).
  by rewrite String.eqb_refl.
Qed.

Lemma less_asym h flat a b :
  flat_ok h flat → less h flat a b = Some true → less h flat b a = Some false.
Proof.
  induction 1 as [|f flat (fi&Hd&Hi&Hc) _ IH]; [done|].
  destruct (call_cmp_good h _ Hc) as (cf&Hg&Hcf).
  rewrite (less_cons h f flat a b fi cf Hd Hi Hcf).
  rewrite (less_cons h f flat b a fi cf Hd Hi Hcf).
  rewrite (String.eqb_sym (value_at b _)).
  destruct (String.eqb _ _); [done|]. intros [= Hb]. f_equal.
  apply beforeb_spec in Hb. apply (before_asym cf Hg) in Hb.
  destruct (beforeb cf (value_at b (idx fi)) (value_at a (idx fi))) eqn:E;
    [|done].
  by apply beforeb_spec in E.
Qed.

Lemma less_trans h flat a b c :
  flat_ok h flat →
  less h flat a b = Some true → less h flat b c = Some true →
  less h flat a c = Some true.
Proof.
  induction 1 as [|f flat (fi&Hd&Hi&Hc) _ IH]; [done|].
  destruct (call_cmp_good h _ Hc) as (cf&Hg&Hcf).
  rewrite (less_cons h f flat a b fi cf Hd Hi Hcf).
  rewrite (less_cons h f flat b c fi cf Hd Hi Hcf).
  rewrite (less_cons h f flat a c fi cf Hd Hi Hcf).
  set (x := value_at a (idx fi)). set (y := value_at b (idx fi)).
  set (z := value_at c (idx fi)).
  destruct (String.eqb x y) eqn:Exy.
  { apply String.eqb_eq in Exy. rewrite <- Exy.
    destruct (String.eqb x z); [exact IH|done]. }
  destruct (String.eqb y z) eqn:Eyz.
  { apply String.eqb_eq in Eyz. rewrite <- Eyz, Exy. done. }
  intros [= H1] [= H2]. apply beforeb_spec in H1, H2.
  pose proof (before_trans cf Hg x y z H1 H2) as H3.
  destruct (String.eqb x z) eqn:Exz.
  { apply String.eqb_eq in Exz. rewrite <- Exz in H3.
    by apply before_irrefl in H3. }
  f_equal. by apply beforeb_spec.
Qed.

(** Tuples that neither is before the other agree on every field. *)
Lemma less_neither h flat a b :
  flat_ok h flat →
  less h flat a b = Some false → less h flat b a = Some false →
  Forall (λ f, ∃ fi, deref h f = Some fi ∧
                     value_at a (idx fi) = value_at b (idx fi)) flat.
Proof.
  induction 1 as [|f flat (fi&Hd&Hi&Hc) _ IH]; [constructor|].
  destruct (call_cmp_good h _ Hc) as (cf&Hg&Hcf).
  rewrite (less_cons h f flat a b fi cf Hd Hi Hcf).
  rewrite (less_cons h f flat b a fi cf Hd Hi Hcf).
  rewrite (String.eqb_sym (value_at b _)).
  destruct (String.eqb _ _) eqn:E.
  - apply String.eqb_eq in E. intros H1 H2. constructor; [by exists fi|].
    by apply IH.
  - apply String.eqb_neq in E. intros [= H1] [= H2]. exfalso.
    destruct (before_total cf Hg _ _ E) as [Hb|Hb];
      apply beforeb_spec in Hb; congruence.
Qed.

Lemma less_first_difference h flat a b :
  flat_ok h flat →
  (less h flat a b = Some true ↔ first_difference h flat a b).
Proof.
  induction 1 as [|f flat (fi&Hd&Hi&Hc) _ IH].
  { split; [done|]. intros (pre&f&post&fi&Hf&_). by destruct pre. }
  destruct (call_cmp_good h _ Hc) as (cf&Hg&Hcf).
  rewrite (less_cons h f flat a b fi cf Hd Hi Hcf).
  destruct (String.eqb _ _) eqn:E.
  - apply String.eqb_eq in E. rewrite IH. split.
    + intros (pre&g&post&gi&->&Hpre&Hgd&Hne&Hb).
      exists (f :: pre), g, post, gi. split; [done|].
      split; [|done]. constructor; [by exists fi|done].
    + intros (pre&g&post&gi&Hfl&Hpre&Hgd&Hne&Hb).
      destruct pre as [|f0 pre]; simpl in Hfl.
      * injection Hfl as <- <-. rewrite Hd in Hgd. injection Hgd as <-. done.
      * injection Hfl as <- ->. apply Forall_cons in Hpre as [_ Hpre].
        by exists pre, g, post, gi.
  - apply String.eqb_neq in E. split.
    + intros [= Hb]. apply beforeb_spec in Hb.
      exists [], f, flat, fi. split; [done|]. split; [constructor|].
      split; [done|]. split; [done|].
      exists (cf (value_at a (idx fi)) (value_at b (idx fi))). by rewrite Hcf.
    + intros (pre&g&post&gi&Hfl&Hpre&Hgd&Hne&Hb).
      destruct pre as [|f0 pre]; simpl in Hfl.
      * injection Hfl as <- <-. rewrite Hd in Hgd. injection Hgd as <-.
        destruct Hb as (cv&Hcv&Hb). rewrite Hcf in Hcv. injection Hcv as <-.
        f_equal. by apply beforeb_spec.
      * injection Hfl as <- ->. apply Forall_cons in Hpre as [(gi'&Hd'&He) _].
        rewrite Hd in Hd'. injection Hd' as <-. done.
Qed.
End Order.

End order_props.

(** ** The tuple order is strict and total; growth keeps it *)

Module growth_props.
Import num benchproc spec intern_props order_props.

Lemma trimmed_last a :
  trim a = a → a = [] ∨ ∃ v, last a = Some v ∧ v ≠ ""%string.
Proof.
  intros Ht. destruct (trim_loop_last a (length a) ltac:(lia)) as [E|(v&Hl&Hv&_)].
  - left. by rewrite <- Ht.
  - right. exists v. fold (trim a) in Hl. by rewrite Ht in Hl.
Qed.

Lemma trimmed_shorter n a b :
  tuple_ok n a → tuple_ok n b →
  (∀ i, 0 ≤ i < n → value_at a i = value_at b i) →
  (length b ≤ length a)%nat.
Proof.
  intros [Ha _] [Hb Hbt] Hv.
  destruct (trimmed_last b Hbt) as [->|(v&Hl&Hne)]; [simpl; lia|].
  destruct (decide (length b ≤ length a)%nat) as [|Hgt]; [done|]. exfalso.
  rewrite last_lookup in Hl.
  specialize (Hv (Z.of_nat (Nat.pred (length b)))).
  unfold value_at in Hv. rewrite Nat2Z.id, Hl in Hv.
  rewrite (lookup_ge_None_2 a) in Hv by lia. simpl in Hv.
  destruct b; [done|]. simpl in *. apply Hne. symmetry. apply Hv. lia.
Qed.

Lemma trimmed_ext n a b :
  tuple_ok n a → tuple_ok n b →
  (∀ i, 0 ≤ i < n → value_at a i = value_at b i) → a = b.
Proof.
  intros Ha Hb Hv.
  pose proof (trimmed_shorter n a b Ha Hb Hv) as L1.
  assert (∀ i, 0 ≤ i < n → value_at b i = value_at a i) as Hv'.
  { intros i Hi. symmetry. by apply Hv. }
  pose proof (trimmed_shorter n b a Hb Ha Hv') as L2.
  apply list_eq_same_length with (length a); [lia|lia|].
  intros i x y Hi Hx Hy. destruct Ha as [Ha _].
  specialize (Hv (Z.of_nat i)). unfold value_at in Hv.
  rewrite Nat2Z.id, Hx, Hy in Hv. simpl in Hv. apply Hv. lia.
Qed.

Section Order.
Context `{GoLib}.

(** C3.  On the flattened fields of a schema, [less] never panics,
    and [a] is before [b] exactly when, at the first field in schema
    order where their values differ, the comparator of the field puts
    the value of [a] first, or returns 0 and the bytes of the value of
    [a] come first.  This order is strict: no tuple is before itself,
    it is asymmetric and transitive; and when the fields cover every
    storage index, two tuples of Configs of the schema compare equal,
    neither before the other, exactly when they are the same tuple. *)
Theorem C3_tuple_order h flat :
  flat_ok h flat →
  (∀ a b, ∃ r, less h flat a b = Some r) ∧
  (∀ a b, less h flat a b = Some true ↔ first_difference h flat a b) ∧
  (∀ a, less h flat a a = Some false) ∧
  (∀ a b, less h flat a b = Some true → less h flat b a = Some false) ∧
  (∀ a b c, less h flat a b = Some true → less h flat b c = Some true →
            less h flat a c = Some true) ∧
  (∀ n a b, covers h flat n → tuple_ok n a → tuple_ok n b →
     (less h flat a b = Some false ∧ less h flat b a = Some false ↔ a = b)).
Proof.
  intros Hok. split; [|split; [|split; [|split; [|split]]]].
  - intros a b. by apply less_defined.
  - intros a b. by apply less_first_difference.
  - intros a. by apply less_irrefl.
  - intros a b. by apply less_asym.
  - intros a b c. by apply less_trans.
  - intros n a b Hcov Ha Hb. split.
    + intros [H1 H2]. apply (trimmed_ext n); [done|done|].
      intros i Hi. destruct (Hcov i Hi) as (f&fi&Hin&Hd&<-).
      pose proof (less_neither h flat a b Hok H1 H2) as Hall.
      rewrite Forall_forall in Hall. destruct (Hall f Hin) as (fi'&Hd'&Hv).
      rewrite Hd in Hd'. by injection Hd' as <-.
    + intros <-. split; by apply less_irrefl.
Qed.
End Order.

(** *** Adding a field *)

Lemma agree_addField s g name s' f :
  addField s g name = Some (s', f) → agree (fieldHeap s) (fieldHeap s').
Proof.
  intros Ha. destruct (addField_row _ _ _ _ _ Ha)
    as (_&_&_&_&gp&gi&Hgp&Hgi&Hidx&Hf&Hh).
  intros p fi Hp. rewrite Hh.
  pose proof (lookup_lt_Some _ _ _ Hgi) as Hlt.
  destruct (decide (p = gp)) as [->|Hne].
  - exists (add_sub f gi). rewrite list_lookup_insert_eq by (rewrite length_app; lia).
    rewrite Hgi in Hp. by injection Hp as <-.
  - exists fi. rewrite list_lookup_insert_ne by done.
    by rewrite (lookup_app_l_Some _ _ _ _ Hp).
Qed.

Lemma walk_at h k f p fi :
  fieldInternal_ptr f = Some p → h !! p = Some fi →
  walk h (S k) f =
    if negb (idx fi =? -1) then Some [f]
    else ls ← mapM (walk h k) (sub fi); Some (concat ls).
Proof. intros Hp Hfi. cbn [walk]. unfold deref. by rewrite Hp; simpl; rewrite Hfi. Qed.

Section Walk.
Variables (h : list fieldInternal) (gp : nat) (gi newfi : fieldInternal)
          (newf : Field).
Hypothesis Hg : h !! gp = Some gi.
Hypothesis Hgroup : idx gi = -1.
Hypothesis Hnew : fieldInternal_ptr newf = Some (length h).
Hypothesis Hleaf : idx newfi ≠ -1.

Let h' := <[gp := add_sub newf gi]> (h ++ [newfi]).
Let old (x : Field) : Prop := is_ptr (length h) x = false.

Lemma grown_old p fi : h !! p = Some fi → p ≠ gp → h' !! p = Some fi.
Proof.
  intros Hp Hne. unfold h'. rewrite list_lookup_insert_ne by done.
  by rewrite (lookup_app_l_Some _ _ _ _ Hp).
Qed.

Lemma grown_group : h' !! gp = Some (add_sub newf gi).
Proof.
  unfold h'. pose proof (lookup_lt_Some _ _ _ Hg).
  rewrite list_lookup_insert_eq; [done|]. rewrite length_app. lia.
Qed.

Lemma grown_new : h' !! length h = Some newfi.
Proof.
  unfold h'. pose proof (lookup_lt_Some _ _ _ Hg).
  rewrite list_lookup_insert_ne by lia.
  rewrite lookup_app_r by lia. by rewrite Nat.sub_diag.
Qed.

Lemma walk_children k xs ls :
  (∀ x y, walk h k x = Some y →
     ∃ y', walk h' (S k) x = Some y' ∧ filter old y' = y) →
  Forall2 (λ x y, walk h k x = Some y) xs ls →
  ∃ ls', Forall2 (λ x y, walk h' (S k) x = Some y) xs ls' ∧
         filter old (concat ls') = concat ls.
Proof.
  intros IH. induction 1 as [|x y xs ls Hx _ (ls'&Hall&Hc)].
  - exists []. by split; [constructor|].
  - destruct (IH x y Hx) as (y'&Hy'&Hf). exists (y' :: ls'). split.
    + by constructor.
    + simpl. by rewrite filter_app, Hf, Hc.
Qed.

(** The flattening of the grown tree is the old one with the new field
    put in. *)
Lemma walk_grow k : ∀ f l,
  walk h k f = Some l →
  ∃ l', walk h' (S k) f = Some l' ∧ filter old l' = l.
Proof.
  induction k as [|k IH]; intros f l Hw; [done|].
  cbn [walk] in Hw. unfold deref in Hw.
  destruct (fieldInternal_ptr f) as [p|] eqn:Ep; simpl in Hw; [|done].
  destruct (h !! p) as [fi|] eqn:Efi; simpl in Hw; [|done].
  pose proof (lookup_lt_Some _ _ _ Efi) as Hlt.
  destruct (idx fi =? -1) eqn:Ei; simpl in Hw.
  - apply Z.eqb_eq in Ei.
    destruct (mapM (walk h k) (sub fi)) as [ls|] eqn:Em; simpl in Hw; [|done].
    injection Hw as <-. apply mapM_Some in Em.
    destruct (walk_children k _ _ IH Em) as (ls'&Hall&Hc).
    destruct (decide (p = gp)) as [->|Hne].
    + rewrite Hg in Efi. injection Efi as <-.
      exists (concat (ls' ++ [[newf]])). split.
      * rewrite (walk_at h' (S k) f gp _ Ep grown_group).
        cbn [add_sub idx sub]. rewrite Hgroup. cbn [negb Z.eqb].
        assert (mapM (walk h' (S k)) (sub gi ++ [newf]) = Some (ls' ++ [[newf]]))
          as ->; [|done].
        apply mapM_Some. apply Forall2_app; [done|]. constructor; [|constructor].
        rewrite (walk_at h' k newf _ _ Hnew grown_new).
        destruct (idx newfi =? -1) eqn:E; [|done]. apply Z.eqb_eq in E. done.
      * rewrite concat_app, filter_app, Hc. simpl.
        rewrite filter_cons_False; [by rewrite app_nil_r|].
        unfold old, is_ptr. rewrite Hnew, Nat.eqb_refl. done.
    + exists (concat ls'). split; [|done].
      rewrite (walk_at h' (S k) f p _ Ep (grown_old _ _ Efi Hne)).
      rewrite Ei. cbn [negb]. apply mapM_Some in Hall. by rewrite Hall.
  - injection Hw as <-. exists [f]. split.
    + assert (p ≠ gp) as Hne.
      { intros ->. rewrite Hg in Efi. injection Efi as <-.
        rewrite Hgroup in Ei. done. }
      rewrite (walk_at h' (S k) f p _ Ep (grown_old _ _ Efi Hne)).
      by rewrite Ei.
    + rewrite filter_cons_True; [done|]. unfold old, is_ptr. rewrite Ep.
      apply Nat.eqb_neq. lia.
Qed.
End Walk.

Section Growth.
Context `{GoLib}.

Lemma agree_deref h h' f fi :
  agree h h' → deref h f = Some fi →
  ∃ fi', deref h' f = Some fi' ∧ idx fi' = idx fi ∧ cmp fi' = cmp fi ∧
         order fi' = order fi ∧ schema fi' = schema fi.
Proof.
  unfold deref. intros Hag Hd.
  destruct (fieldInternal_ptr f) as [p|]; simpl in *; [|done]. by apply Hag.
Qed.

Lemma agree_call_cmp h h' cm x y r :
  agree h h' → call_cmp h cm x y = Some r → call_cmp h' cm x y = Some r.
Proof.
  intros Hag. destruct cm as [|m|f|f| |]; simpl; try done.
  - destruct (deref h f) as [fi|] eqn:E; simpl; [|done].
    destruct (agree_deref _ _ _ _ Hag E) as (fi'&->&_&_&Ho&_). simpl.
    by rewrite Ho.
  - destruct (deref h f) as [fi|] eqn:E; simpl; [|done].
    destruct (agree_deref _ _ _ _ Hag E) as (fi'&->&_&_&Ho&_). simpl.
    by rewrite Ho.
Qed.

(** Fields past the end of both tuples do not take part in the order. *)
Lemma less_grow h h' p a b r : ∀ fl',
  agree h h' →
  (∀ f, f ∈ fl' → is_ptr p f = true →
     ∃ fi, deref h' f = Some fi ∧
           Z.of_nat (length a) ≤ idx fi ∧ Z.of_nat (length b) ≤ idx fi) →
  less h (filter (λ x, is_ptr p x = false) fl') a b = Some r →
  less h' fl' a b = Some r.
Proof.
  intros fl' Hag. induction fl' as [|f fl' IH]; intros Hnew Hl; [done|].
  assert (∀ f0, f0 ∈ fl' → is_ptr p f0 = true →
     ∃ fi, deref h' f0 = Some fi ∧
           Z.of_nat (length a) ≤ idx fi ∧ Z.of_nat (length b) ≤ idx fi) as Hnew'.
  { intros f0 Hin. apply Hnew. by right. }
  destruct (is_ptr p f) eqn:Ep.
  - rewrite filter_cons_False in Hl by (rewrite Ep; done).
    destruct (Hnew f ltac:(left) Ep) as (fi&Hd&La&Lb).
    cbn [less]. rewrite Hd. simpl. unfold at_idx.
    destruct (idx fi <? Z.of_nat (length a)) eqn:E1; [apply Z.ltb_lt in E1; lia|].
    destruct (idx fi <? Z.of_nat (length b)) eqn:E2; [apply Z.ltb_lt in E2; lia|].
    simpl. by apply IH.
  - rewrite filter_cons_True in Hl by done. cbn [less] in Hl |- *.
    destruct (deref h f) as [fi|] eqn:Ed; simpl in Hl; [|done].
    destruct (agree_deref _ _ _ _ Hag Ed) as (fi'&->&Hi&Hc&_&_). simpl.
    rewrite Hi, Hc.
    destruct (at_idx a (idx fi)) as [aa|]; simpl in *; [|done].
    destruct (at_idx b (idx fi)) as [bb|]; simpl in *; [|done].
    destruct (String.eqb aa bb); simpl in *; [by apply IH|].
    destruct (call_cmp h (cmp fi) aa bb) as [cm|] eqn:Ec; simpl in Hl; [|done].
    by rewrite (agree_call_cmp _ _ _ _ _ _ Hag Ec).
Qed.

Lemma Fields_walk s s1 fl :
  cache_ok s → Fields s = Some (s1, fl) →
  walk (fieldHeap s) (S (length (fieldHeap s))) (root s) = Some fl ∧
  fieldHeap s1 = fieldHeap s ∧ nodeHeap s1 = nodeHeap s.
Proof.
  unfold Fields. intros Hc Hf. destruct (flatCache s) as [fc|] eqn:E.
  - injection Hf as <- <-. split; [by apply Hc|done].
  - destruct (walk _ _ _) as [fc|]; simpl in Hf; [|done].
    by injection Hf as <- <-.
Qed.

(** C2.  [addField] on a schema that has produced Configs gives the new
    field the next unused storage index, [nFields], and counts it; every
    field the schema had keeps its index, and none of them has the new
    one.  The Configs are untouched: every Config denotes the node it
    denoted, with the same values (so the same hash), in the same
    buckets, and [Get] reads what it read.  The fields flatten to the old
    sequence with the new field put in, and [less] and [Less] give on
    every two Configs produced before the result they gave. *)
Theorem C2_addField_growth s g name s' f :
  wf s → addField s g name = Some (s', f) →
  (∃ fi, deref (fieldHeap s') f = Some fi ∧ idx fi = nFields s) ∧
  nFields s' = nFields s + 1 ∧
  (∀ f0 fi0, deref (fieldHeap s) f0 = Some fi0 →
     idx fi0 ≠ nFields s ∧
     ∃ fi0', deref (fieldHeap s') f0 = Some fi0' ∧ idx fi0' = idx fi0) ∧
  (nodeHeap s' = nodeHeap s ∧ configs s' = configs s ∧
   ∀ cf, node s' cf = node s cf) ∧
  (∀ cf f0 v, Get s cf f0 = Some v → Get s' cf f0 = Some v) ∧
  (∀ s1 fl, Fields s = Some (s1, fl) →
     ∃ s1' fl', Fields s' = Some (s1', fl') ∧
       filter (λ x, is_ptr (length (fieldHeap s)) x = false) fl' = fl ∧
       ∀ n m r, n ∈ nodeHeap s → m ∈ nodeHeap s →
         less (fieldHeap s1) fl (vals n) (vals m) = Some r →
         less (fieldHeap s1') fl' (vals n) (vals m) = Some r) ∧
  (∀ cf o s1 r, Less s cf o = Some (s1, r) →
     ∃ s1', Less s' cf o = Some (s1', r)).
Proof.
  intros ((Hrow&Hnodes)&Hidx&Hcache) Ha.
  pose proof (agree_addField _ _ _ _ _ Ha) as Hag.
  destruct (addField_row _ _ _ _ _ Ha)
    as (Hn&_&Hnh&_&gp&gi&Hgp&Hgi&Hgidx&Hf&Hh).
  assert (configs s' = configs s ∧ flatCache s' = None ∧ root s' = root s)
    as (Hcf&Hfc&Hroot).
  { unfold addField in Ha. destruct (deref (fieldHeap s) g); simpl in Ha; [|done].
    destruct (negb _); [done|]. destruct (update _ _ _); simpl in Ha; [|done].
    by injection Ha as <- _. }
  assert (0 ≤ nFields s) as Hnn by lia.
  pose proof (lookup_lt_Some _ _ _ Hgi) as Hlt.
  set (newfi := mkFieldInternal (Some (self s)) (nFields s) [] cmpNil None) in *.
  assert (deref (fieldHeap s') f = Some newfi) as Hdf.
  { rewrite Hh, Hf. unfold deref. simpl.
    by apply (grown_new (fieldHeap s) gp gi newfi). }
  assert (∀ cf, node s' cf = node s cf) as Hnode.
  { intros cf. unfold node. by rewrite Hnh. }
  assert (∀ s1 fl, Fields s = Some (s1, fl) →
     ∃ s1' fl', Fields s' = Some (s1', fl') ∧
       filter (λ x, is_ptr (length (fieldHeap s)) x = false) fl' = fl ∧
       ∀ n m r, n ∈ nodeHeap s → m ∈ nodeHeap s →
         less (fieldHeap s1) fl (vals n) (vals m) = Some r →
         less (fieldHeap s1') fl' (vals n) (vals m) = Some r) as Hord.
  { intros s1 fl HF. destruct (Fields_walk _ _ _ Hcache HF) as (Hw&Hh1&_).
    destruct (walk_grow (fieldHeap s) gp gi newfi f Hgi Hgidx
                ltac:(by rewrite Hf) ltac:(simpl; lia) _ _ _ Hw) as (fl'&Hw'&Hfl).
    exists (set_flatCache s' (Some fl')), fl'. split; [|split; [done|]].
    - assert (walk (fieldHeap s') (S (length (fieldHeap s'))) (root s') = Some fl')
        as Hw2.
      { rewrite Hroot, Hh, length_insert, length_app. simpl.
        replace (length (fieldHeap s) + 1)%nat with (S (length (fieldHeap s)))
          by lia.
        exact Hw'. }
      unfold Fields. by rewrite Hfc, Hw2.
    - intros n m r Hin Him Hl. rewrite Hh1 in Hl. rewrite <- Hfl in Hl.
      change (fieldHeap (set_flatCache s' (Some fl'))) with (fieldHeap s').
      apply (less_grow (fieldHeap s) (fieldHeap s') (length (fieldHeap s)));
        [done| |done].
      intros f0 _ Hp. exists newfi.
      rewrite Forall_forall in Hnodes.
      destruct (Hnodes n Hin) as (_&Ln&_). destruct (Hnodes m Him) as (_&Lm&_).
      split; [|simpl; lia].
      unfold is_ptr in Hp. unfold deref.
      destruct (fieldInternal_ptr f0) as [q|]; [|done].
      apply Nat.eqb_eq in Hp. subst q. simpl. rewrite Hh.
      by apply (grown_new (fieldHeap s) gp gi newfi). }
  split; [by exists newfi|]. split; [done|]. split; [|split; [|split; [|split]]].
  - intros f0 fi0 Hd. split.
    + unfold deref in Hd. destruct (fieldInternal_ptr f0) as [p|]; simpl in Hd; [|done].
      unfold idx_bound in Hidx. rewrite Forall_lookup in Hidx.
      specialize (Hidx _ _ Hd). simpl in Hidx. lia.
    + destruct (agree_deref _ _ _ _ Hag Hd) as (fi'&?&?&_). by exists fi'.
  - done.
  - intros cf f0 v. unfold Get. destruct (IsZero cf); [done|].
    rewrite Hnode. destruct (node s cf) as [n|]; simpl; [|done].
    destruct (deref (fieldHeap s) f0) as [fi|] eqn:Ed; simpl; [|done].
    destruct (agree_deref _ _ _ _ Hag Ed) as (fi'&->&Hi&_&_&Hs). simpl.
    by rewrite Hi, Hs.
  - done.
  - intros cf o s1 r. unfold Less. rewrite !Hnode.
    destruct (node s cf) as [n|] eqn:En; simpl; [|done].
    destruct (node s o) as [m|] eqn:Em; simpl; [|done].
    destruct (negb _); [done|].
    destruct (Fields s) as [[s2 fl]|] eqn:EF; simpl; [|done].
    destruct (less (fieldHeap s2) fl (vals n) (vals m)) as [b|] eqn:El; simpl; [|done].
    intros [= <- <-].
    destruct (Hord _ _ eq_refl) as (s1'&fl'&->&_&Hl). simpl.
    exists s1'. rewrite (Hl n m b); [done| | |done].
    + unfold node in En. destruct (c cf); simpl in En; [|done].
      by eapply list_elem_of_lookup_2.
    + unfold node in Em. destruct (c o); simpl in Em; [|done].
      by eapply list_elem_of_lookup_2.
Qed.
End Growth.

End growth_props.

(** ** The theorems at the examples *)

Module instances.
Import num benchproc spec examples parse.

Ltac compute_eq := vm_compute; reflexivity.

(** The run of [examples]: the first record and the third project to the
    same tuple and to one Config, though the schema grew in between; the
    second record projects to another tuple and another Config. *)
Lemma C1_witness :
  (tuple_of intern_st1.1.2 = tuple_of intern_st3.1.2 ∧ intern_st1.2 = intern_st3.2) ∧
  (tuple_of intern_st1.1.2 ≠ tuple_of intern_st2.1.2 ∧ intern_st1.2 ≠ intern_st2.2).
Proof.
  split.
  - assert (tuple_of intern_st1.1.2 = tuple_of intern_st3.1.2) as Ht by compute_eq.
    split; [exact Ht|].
    apply (intern_props.C1_Project_interns (H := golib_model.lib)
             intern_st0.1 intern_st0.2 intern_r1
             intern_st1.1.1 intern_st1.1.2 intern_st1.2 [intern_r2]
             intern_st2.1.1 intern_st2.1.2 intern_r1
             intern_st3.1.1 intern_st3.1.2 intern_st3.2);
      [compute_eq|compute_eq|compute_eq|exact Ht].
  - assert (tuple_of intern_st1.1.2 ≠ tuple_of intern_st2.1.2) as Ht
      by (vm_compute; discriminate).
    split; [exact Ht|].
    apply (intern_props.C1_Project_interns (H := golib_model.lib)
             intern_st0.1 intern_st0.2 intern_r1
             intern_st1.1.1 intern_st1.1.2 intern_st1.2 []
             intern_st1.1.1 intern_st1.1.2 intern_r2
             intern_st2.1.1 intern_st2.1.2 intern_st2.2);
      [compute_eq|compute_eq|compute_eq|exact Ht].
Defined.

(** The schema after two records is well formed. *)
Lemma grown_schema_wf : wf grown_schema.
Proof.
  split; [split; [compute_eq|]|split].
  - repeat constructor; vm_compute; congruence.
  - repeat constructor.
  - intros fc Hfc. vm_compute in Hfc. injection Hfc as <-. compute_eq.
Qed.

(** Adding the field [x] to the schema of the run: it takes index 2, the
    next one; the second Config still reads ["2"] for [b], and the first
    is still before the second. *)
Lemma C2_witness :
  wf grown_schema ∧
  addField grown_schema (root grown_schema) "x" = Some (grown_schema', field_x) ∧
  nFields grown_schema' = 3 ∧
  Get grown_schema' intern_st2.2 field_b = Some "2"%string ∧
  ∃ s1', Less (H := golib_model.lib) grown_schema' intern_st1.2 intern_st2.2
           = Some (s1', true).
Proof.
  assert (addField grown_schema (root grown_schema) "x"
            = Some (grown_schema', field_x)) as Ha by compute_eq.
  pose proof (growth_props.C2_addField_growth (H := golib_model.lib)
                grown_schema (root grown_schema) "x" grown_schema' field_x
                grown_schema_wf Ha) as (_&Hn&_&_&Hget&_&Hless).
  split; [exact grown_schema_wf|]. split; [exact Ha|]. split; [exact Hn|].
  split.
  - apply Hget. compute_eq.
  - apply (Hless _ _ (default grown_schema (fst <$> Less (H := golib_model.lib) grown_schema intern_st1.2 intern_st2.2))).
    compute_eq.
Defined.

(** A map whose listed values are positions holds positions. *)
Lemma nonneg_map (m : gmap string Z) :
  forallb (λ kv, (0 <=? kv.2) && (kv.2 <? 2 ^ 63)) (map_to_list m) = true →
  map_Forall (λ _ v, nonneg_int v) m.
Proof.
  intros Hf. apply map_Forall_to_list. rewrite forallb_forall in Hf.
  apply Forall_forall. intros [k v] Hin. apply list_elem_of_In in Hin.
  specialize (Hf _ Hin). simpl in Hf. unfold nonneg_int. simpl. lia.
Qed.

(** The two fields of the run can be compared. *)
Lemma grown_flat_ok : flat_ok (fieldHeap grown_schema) [field_a; field_b].
Proof.
  repeat constructor.
  - eexists. split; [compute_eq|]. split; [vm_compute; congruence|].
    eexists. split; [compute_eq|]. apply nonneg_map. compute_eq.
  - eexists. split; [compute_eq|]. split; [vm_compute; congruence|].
    eexists. split; [compute_eq|]. apply nonneg_map. compute_eq.
Qed.

(** On the schema of the run the tuple [1] is before the tuple [1 2],
    so [1 2] is not before [1]. *)
Lemma C3_witness :
  flat_ok (fieldHeap grown_schema) [field_a; field_b] ∧
  less (H := golib_model.lib) (fieldHeap grown_schema) [field_a; field_b]
    ["1"] ["1"; "2"]%string = Some true ∧
  less (H := golib_model.lib) (fieldHeap grown_schema) [field_a; field_b]
    ["1"; "2"] ["1"]%string = Some false.
Proof.
  split; [exact grown_flat_ok|].
  assert (less (H := golib_model.lib) (fieldHeap grown_schema)
            [field_a; field_b] ["1"] ["1"; "2"]%string = Some true) as Hl
    by compute_eq.
  split; [exact Hl|].
  by apply (growth_props.C3_tuple_order (H := golib_model.lib)
              (fieldHeap grown_schema) [field_a; field_b] grown_flat_ok).
Defined.

(** The library model reads the literals of the examples as Go does. *)
Lemma model_ParseFloat_agrees : ParseFloat_agrees (H := golib_model.lib).
Proof. split; repeat constructor. Qed.

(** With the library model: the eight values sort to the order of the
    test from the reverse order, ["1"] is before a string that is not a
    number, and ["inf"] is before ["NaN"]. *)
Lemma C4_witness :
  ParseFloat_agrees (H := golib_model.lib) ∧
  sort_Slice (num_less (H := golib_model.lib)) (rev num_values) = Some num_values ∧
  order_num (H := golib_model.lib) "1" "abc" = -1 ∧
  order_num (H := golib_model.lib) "inf" "NaN" = -1.
Proof.
  destruct (num_props.C4_num_order (H := golib_model.lib))
    as (Hunread&Hnan&_&_&_&Hsort).
  split; [exact model_ParseFloat_agrees|]. split; [|split].
  - apply (Hsort model_ParseFloat_agrees (rev num_values)).
    symmetry. apply Permutation_rev.
  - apply (Hunread "1" "abc" (float_of_Z 1))%string; compute_eq.
  - apply (Hnan "inf" "NaN" (S754_infinity false) S754_nan)%string; compute_eq.
Defined.

(** With the library model: ["1Y"] is 10^24 rounded, and ["2GiB"] is 2
    times 1024^3. *)
Lemma C5_witness :
  ParseFloat_agrees (H := golib_model.lib) ∧
  parseNum (H := golib_model.lib) "1Y" = (float_of_Z (10 ^ 24), true) ∧
  parseNum (H := golib_model.lib) "2GiB" =
    (fmul (float_of_Z 2) (math_Pow 1024 3), true).
Proof.
  destruct (num_props.C5_parseNum_prefixes (H := golib_model.lib))
    as (Hlit&Hgen&_).
  split; [exact model_ParseFloat_agrees|]. split.
  - apply (Hlit model_ParseFloat_agrees).
  - apply (Hgen (bs "2") "G"%char 3 true (bs "B") (float_of_Z 2));
      [done|by repeat constructor|done|by right; right|compute_eq|compute_eq].
Defined.

(** The header of the four tuples of the example has three levels that
    subdivide the whole sequence by the columns of [a], [b] and [c]. *)
Lemma C6_witness :
  ∃ levels,
    NewConfigHeader header_schema header_configs_ex = Some (header_schema', levels) ∧
    length levels = 3%nat ∧
    levels_from header_cols 0 (root_span header_configs_ex) levels.
Proof.
  apply (proj1 header_props.C6_header_levels header_schema header_configs_ex
           header_schema' header_fields_ex header_cols (Some 1%nat));
    [done|compute_eq|compute_eq|compute_eq].
Defined.

(** [Parse] on [.config@(1 2)] returns the syntax error "fixed order not
    allowed for .config" at offset 8, the offset of the order. *)
Lemma C9_witness :
  config_fixed config_fixed_part ∧
  Parse (H := golib_model.lib) zeroProjectionParser 1 config_fixed_q star =
    Some (mkProjectionParser (Some ∅) [] false false None, star,
          inr (parse.mkSyntaxError config_fixed_q 8
                 "fixed order not allowed for .config")).
Proof.
  assert (config_fixed config_fixed_part) as Hcf by done.
  split; [exact Hcf|].
  apply (proj2 (proj2 (projection_props.C9_config_fixed_order (H := golib_model.lib)))
           zeroProjectionParser 1%nat config_fixed_q star [] config_fixed_part []
           _ (newSchema 1) []); [compute_eq|exact Hcf|compute_eq].
Defined.

(** In the run, the first Config reads [""] for the field [b] that the
    second record brought, and the second Config reads [""] for a field
    [x] added after it. *)
Lemma C10_witness :
  Get intern_st2.1.2 intern_st1.2 field_b = Some ""%string ∧
  Get grown_schema' intern_st2.2 field_x = Some ""%string.
Proof.
  destruct intern_props.C10_Get_past_end as (Hpast&Hadd). split.
  - apply (Hpast intern_st2.1.2 intern_st1.2 field_b
             (mkConfigNode (Some 1%nat) ["1"%string])
             (default (mkFieldInternal None 0 [] cmpNil None)
                (fieldHeap intern_st2.1.2 !! 3%nat)));
      [compute_eq|compute_eq|compute_eq|vm_compute; congruence].
  - apply (Hadd grown_schema intern_st2.2
             (mkConfigNode (Some 1%nat) ["1"; "2"]%string)
             (root grown_schema) "x"%string grown_schema' field_x);
      [|compute_eq|compute_eq].
    split; [compute_eq|]. repeat constructor; vm_compute; congruence.
Defined.

(** With the library model: [a:(b /c/)] parses to the OR of the literal
    match of [b] and the regexp match of [c]; [a:()] records "nothing to
    match" at offset 3, the closing parenthesis, and [ParseFilter] returns
    this error. *)
Lemma C8_witness :
  (∃ rest e' re,
     parser_match (H := golib_model.lib) 4 (newTokenizer multi_q).1
       (newTokenizer multi_q).2 =
       Some (FilterOp OpOr [FilterMatch "a" None "b" 0; FilterMatch "a" (Some re) "" 0],
             rest, e')) ∧
  (∃ rest e',
     parser_match (H := golib_model.lib) 4 (newTokenizer empty_q).1
       (newTokenizer empty_q).2 = Some (FilterNil, rest, e') ∧
     err e' = Some (mkSyntaxError empty_q 3 "nothing to match")) ∧
  ParseFilter (H := golib_model.lib) empty_q =
    Some (inr (mkSyntaxError empty_q 3 "nothing to match")).
Proof.
  pose proof (proj1 (filter_props.C8_match_multi (H := golib_model.lib))) as Hkv.
  split; [|split; [|compute_eq]].
  - edestruct (Hkv 3%nat (newTokenizer multi_q).1 (newTokenizer multi_q).2)
      as (_&Hpar); [compute_eq|compute_eq|compute_eq|compute_eq|compute_eq|].
    destruct (Hpar eq_refl) as (Hmulti&_).
    eexists _, _, _. etransitivity.
    + eapply Hmulti;
        [eapply value_list_value; [compute_eq|compute_eq|];
         eapply value_list_value; [compute_eq|compute_eq|];
         eapply value_list_close; [compute_eq|compute_eq]
        |discriminate|simpl; lia].
    + vm_compute. reflexivity.
  - edestruct (Hkv 3%nat (newTokenizer empty_q).1 (newTokenizer empty_q).2)
      as (_&Hpar); [compute_eq|compute_eq|compute_eq|compute_eq|compute_eq|].
    destruct (Hpar eq_refl) as (_&Hempty).
    edestruct Hempty as (e5&Hm&He); [compute_eq|compute_eq|compute_eq|lia|].
    eexists _, e5. split; [exact Hm|exact He].
Defined.

End instances.

(** ** The flattening of the fields *)

Module walk_props.
Import num benchproc spec intern_props growth_props.

(** What a successful walk did. *)
Lemma walk_Some h k f l :
  walk h k f = Some l →
  ∃ k' p fi, k = S k' ∧ fieldInternal_ptr f = Some p ∧ h !! p = Some fi ∧
    ((idx fi ≠ -1 ∧ l = [f]) ∨
     (idx fi = -1 ∧ ∃ ls, Forall2 (λ x y, walk h k' x = Some y) (sub fi) ls ∧
                          l = concat ls)).
Proof.
  destruct k as [|k]; [done|]. cbn [walk]. unfold deref. intros Hw.
  destruct (fieldInternal_ptr f) as [p|] eqn:Ep; simpl in Hw; [|done].
  destruct (h !! p) as [fi|] eqn:Efi; simpl in Hw; [|done].
  exists k, p, fi. split; [done|]. split; [done|]. split; [done|].
  destruct (idx fi =? -1) eqn:Ei; simpl in Hw.
  - apply Z.eqb_eq in Ei. right. split; [done|].
    destruct (mapM (walk h k) (sub fi)) as [ls|] eqn:Em; simpl in Hw; [|done].
    injection Hw as <-. exists ls. split; [|done]. by apply mapM_Some.
  - apply Z.eqb_neq in Ei. left. split; [done|]. by injection Hw as <-.
Qed.

Lemma walk_group h k f p fi ls :
  fieldInternal_ptr f = Some p → h !! p = Some fi → idx fi = -1 →
  Forall2 (λ x y, walk h k x = Some y) (sub fi) ls →
  walk h (S k) f = Some (concat ls).
Proof.
  intros Hp Hfi Hi Hall. rewrite (walk_at h k f p fi Hp Hfi), Hi.
  cbn [negb Z.eqb]. apply mapM_Some in Hall. by rewrite Hall.
Qed.

Lemma walk_leaf h k f p fi :
  fieldInternal_ptr f = Some p → h !! p = Some fi → idx fi ≠ -1 →
  walk h (S k) f = Some [f].
Proof.
  intros Hp Hfi Hi. rewrite (walk_at h k f p fi Hp Hfi).
  destruct (idx fi =? -1) eqn:E; [|done]. by apply Z.eqb_eq in E.
Qed.

(** More fuel gives the same flattening. *)
Lemma walk_mono h k : ∀ f l, walk h k f = Some l → walk h (S k) f = Some l.
Proof.
  induction k as [|k IH]; intros f l Hw; [done|].
  destruct (walk_Some _ _ _ _ Hw) as (k'&p&fi&[= <-]&Hp&Hfi&[[Hi ->]|(Hi&ls&Hall&->)]).
  - by apply (walk_leaf h (S k) f p fi).
  - apply (walk_group h (S k) f p fi ls Hp Hfi Hi).
    eapply Forall2_impl; [exact Hall|]. intros x y. apply IH.
Qed.

Lemma walk_mono_le h k k' f l :
  (k ≤ k')%nat → walk h k f = Some l → walk h k' f = Some l.
Proof. induction 1; [done|]. intros Hw. by apply walk_mono, IHle. Qed.

(** The flattening reads only the indices and the children. *)
Lemma walk_decor h h' k : decor h h' → ∀ f, walk h' k f = walk h k f.
Proof.
  intros [Hlen Hd]. induction k as [|k IH]; intros f; [done|].
  cbn [walk]. unfold deref. destruct (fieldInternal_ptr f) as [p|]; [|done].
  simpl. destruct (h !! p) as [fi|] eqn:Efi.
  - destruct (Hd p fi Efi) as (fi'&->&Hi&Hs&_). simpl. rewrite Hi, Hs.
    destruct (negb _); [done|]. f_equal. clear -IH.
    induction (sub fi) as [|x xs IHx]; [done|]. simpl. rewrite IH.
    destruct (walk h k x); simpl; [|done]. by rewrite IHx.
  - apply lookup_ge_None in Efi. rewrite (lookup_ge_None_2 h') by lia. done.
Qed.

(** The fuel of [Fields] is enough for a tree. *)
Lemma walk_total h : tree_ok h →
  ∀ n p f k, (length h - p ≤ n)%nat → fieldInternal_ptr f = Some p →
    (p < length h)%nat → (length h - p ≤ k)%nat → is_Some (walk h k f).
Proof.
  intros (_&Hch&_). induction n as [|n IH]; intros p f k Hn Hp Hlt Hk; [lia|].
  destruct k as [|k]; [lia|].
  destruct (lookup_lt_is_Some_2 h p Hlt) as [fi Hfi].
  rewrite (walk_at h k f p fi Hp Hfi). destruct (negb _); [by eexists|].
  assert (∃ ls, mapM (walk h k) (sub fi) = Some ls) as [ls ->];
    [|by eexists].
  specialize (Hch p fi Hfi). induction Hch as [|x xs (q&Hq&Hpq) _ (ls&IHx)].
  - by eexists.
  - assert (length h - q ≤ n)%nat as H1 by lia.
    assert (q < length h)%nat as H2 by lia.
    assert (length h - q ≤ k)%nat as H3 by lia.
    destruct (IH q x k H1 Hq H2 H3) as [lx Hx].
    simpl. rewrite Hx. simpl. rewrite IHx. simpl. by eexists.
Qed.

Lemma elem_of_concat {A} (x : A) (ls : list (list A)) :
  x ∈ concat ls ↔ ∃ l, x ∈ l ∧ l ∈ ls.
Proof.
  rewrite list_elem_of_In, in_concat. split.
  - intros (l&?&?). exists l. by rewrite !list_elem_of_In.
  - intros (l&?&?). exists l. by rewrite <- !list_elem_of_In.
Qed.

(** The fields of a flattening are leaves of the store. *)
Lemma walk_leaves h k : ∀ f l x,
  walk h k f = Some l → x ∈ l →
  ∃ fi, deref h x = Some fi ∧ idx fi ≠ -1.
Proof.
  induction k as [|k IH]; intros f l x Hw Hin; [done|].
  destruct (walk_Some _ _ _ _ Hw) as (k'&p&fi&[= <-]&Hp&Hfi&[[Hi ->]|(Hi&ls&Hall&->)]).
  - apply list_elem_of_singleton in Hin as ->. exists fi. unfold deref.
    rewrite Hp. done.
  - apply elem_of_concat in Hin as (lx&Hx&Hlx).
    apply list_elem_of_lookup in Hlx as [i Hi'].
    destruct (Forall2_lookup_r _ _ _ _ _ Hall Hi') as (c&_&Hc).
    by apply (IH c lx x).
Qed.

(** Every leaf under a field is in its flattening. *)
Lemma walk_sub h k : ∀ f l p fi c,
  walk h (S k) f = Some l → fieldInternal_ptr f = Some p → h !! p = Some fi →
  idx fi = -1 → c ∈ sub fi →
  ∃ lc, walk h k c = Some lc ∧ lc ⊆ l.
Proof.
  intros f l p fi c Hw Hp Hfi Hi Hc.
  destruct (walk_Some _ _ _ _ Hw) as (k'&p'&fi'&[= <-]&Hp'&Hfi'&Hcase).
  rewrite Hp in Hp'. injection Hp' as <-. rewrite Hfi in Hfi'.
  injection Hfi' as <-. destruct Hcase as [[Hi' _]|(_&ls&Hall&->)]; [done|].
  apply list_elem_of_lookup in Hc as [i Hc].
  destruct (Forall2_lookup_l _ _ _ _ _ Hall Hc) as (lc&Hlc&Hwc).
  exists lc. split; [done|]. intros x Hx. apply elem_of_concat.
  exists lc. split; [done|]. by eapply list_elem_of_lookup_2.
Qed.

Lemma walk_reaches h r0 : tree_ok h → fieldInternal_ptr r0 = Some O →
  ∀ n q, (q ≤ n)%nat → (q < length h)%nat →
  ∀ k l, walk h k r0 = Some l →
  ∃ f k' lq, fieldInternal_ptr f = Some q ∧ walk h k' f = Some lq ∧ lq ⊆ l.
Proof.
  intros (_&Hch&Hpar) Hr0. induction n as [|n IH]; intros q Hn Hlt k l Hw.
  - assert (q = O) as -> by lia. by exists r0, k, l.
  - destruct (decide (q = O)) as [->|Hq0].
    { by exists r0, k, l. }
    destruct (Hpar q ltac:(lia)) as (p&fi&c&Hfi&Hi&Hc&Hcq).
    pose proof (Hch p fi Hfi) as Hall. rewrite Forall_forall in Hall.
    destruct (Hall c Hc) as (q'&Hq'&Hpq).
    assert (q' = q) as -> by congruence.
    assert (p ≤ n)%nat as Hpn by lia. assert (p < length h)%nat as Hph by lia.
    destruct (IH p Hpn Hph k l Hw) as (f&k'&lp&Hfp&Hwp&Hsub).
    destruct k' as [|k']; [done|].
    destruct (walk_sub h k' f lp p fi c Hwp Hfp Hfi Hi Hc) as (lc&Hwc&Hlc).
    exists c, k', lc. split; [done|]. split; [done|].
    intros x Hx. by apply Hsub, Hlc.
Qed.

End walk_props.

(** ** Stores that keep their tree *)

Module inv_props.
Import num benchproc spec intern_props growth_props walk_props.

Lemma cmp_ptr_ok_mono n m cm : (n ≤ m)%nat → cmp_ptr_ok n cm → cmp_ptr_ok m cm.
Proof.
  intros Hle. destruct cm; simpl; try done; intros (q&?&?); exists q;
    (split; [done|lia]).
Qed.

Lemma entry_ok_mono n m fi : (n ≤ m)%nat → entry_ok n fi → entry_ok m fi.
Proof.
  intros Hle [[?|?] ?]; (split; [|done]); [by left|right].
  by eapply cmp_ptr_ok_mono.
Qed.

Lemma order_nonneg_empty fi :
  order fi = None ∨ order fi = Some ∅ → order_nonneg fi.
Proof.
  unfold order_nonneg. intros [-> | ->]; simpl; intros k v Hkv;
    by rewrite lookup_empty in Hkv.
Qed.

Lemma callable_callable_but h q : callable h → callable_but h q.
Proof.
  intros Hc p fi Hp. split; [intros _; by apply (Hc p)|].
  by destruct (Hc p fi Hp) as [_ [? _]].
Qed.

(** *** Stores that differ in closures and order maps *)

Lemma decor_refl h : decor h h.
Proof. split; [done|]. intros p fi Hp. by exists fi. Qed.

Lemma decor_trans h1 h2 h3 : decor h1 h2 → decor h2 h3 → decor h1 h3.
Proof.
  intros [L1 D1] [L2 D2]. split; [congruence|]. intros p fi Hp.
  destruct (D1 p fi Hp) as (fi2&Hp2&Hi2&Hs2&Hc2).
  destruct (D2 p fi2 Hp2) as (fi3&Hp3&Hi3&Hs3&Hc3).
  exists fi3. split; [done|]. repeat split; congruence.
Qed.

Lemma decor_inv h h' p fi' :
  decor h h' → h' !! p = Some fi' →
  ∃ fi, h !! p = Some fi ∧ idx fi' = idx fi ∧ sub fi' = sub fi ∧
        schema fi' = schema fi.
Proof.
  intros [Hl Hd] Hp. pose proof (lookup_lt_Some _ _ _ Hp) as Hlt.
  rewrite Hl in Hlt. destruct (lookup_lt_is_Some_2 h p Hlt) as [fi Hfi].
  destruct (Hd p fi Hfi) as (fi2&Hp2&?&?&?). rewrite Hp in Hp2.
  injection Hp2 as <-. by exists fi.
Qed.

Lemma decor_update h f g h' :
  (∀ fi, idx (g fi) = idx fi ∧ sub (g fi) = sub fi ∧
         schema (g fi) = schema fi) →
  update h f g = Some h' → decor h h'.
Proof.
  intros Hg. unfold update. intros Hu.
  destruct (fieldInternal_ptr f) as [q|]; simpl in Hu; [|done].
  destruct (h !! q) as [fq|] eqn:Eq; simpl in Hu; [|done].
  injection Hu as <-. split; [by rewrite length_insert|]. intros p fi Hp.
  destruct (decide (p = q)) as [->|Hne].
  - exists (g fq). rewrite list_lookup_insert_eq by by eapply lookup_lt_Some.
    rewrite Eq in Hp. injection Hp as <-. split; [done|]. apply Hg.
  - exists fi. by rewrite list_lookup_insert_ne.
Qed.

Lemma tree_decor h h' : decor h h' → tree_ok h → tree_ok h'.
Proof.
  intros Hd ((r&Hr&Hri)&Hch&Hpar). pose proof Hd as [Hl Hd'].
  split; [|split].
  - destruct (Hd' O r Hr) as (r'&?&?&_). exists r'. split; [done|congruence].
  - intros p fi' Hp. destruct (decor_inv _ _ _ _ Hd Hp) as (fi&Hfi&_&->&_).
    rewrite Hl. by apply (Hch p).
  - intros q Hq. rewrite Hl in Hq.
    destruct (Hpar q Hq) as (p&fi&f&Hfi&Hi&Hf&Hfq).
    destruct (Hd' p fi Hfi) as (fi'&?&?&Hs&_). exists p, fi', f.
    split; [done|]. split; [congruence|]. split; [by rewrite Hs|done].
Qed.

Lemma fields_decor s s' :
  fields_ok s → root s' = root s → nFields s' = nFields s →
  self s' = self s →
  decor (fieldHeap s) (fieldHeap s') → fields_ok s'.
Proof.
  intros (Hr&Ht&Hb&Hc&Hs) Er En Es Hd. split; [by rewrite Er|].
  split; [by eapply tree_decor|]. split; [|split].
  - intros p fi' Hp. destruct (decor_inv _ _ _ _ Hd Hp) as (fi&Hfi&->&_).
    rewrite En. by apply (Hb p).
  - intros i Hi. rewrite En in Hi. destruct (Hc i Hi) as (p&fi&Hfi&Hidx).
    destruct Hd as [_ Hd]. destruct (Hd p fi Hfi) as (fi'&?&?&_).
    exists p, fi'. split; [done|congruence].
  - intros p fi' Hp. destruct (decor_inv _ _ _ _ Hd Hp) as (fi&Hfi&->&_&->).
    rewrite Es. by apply (Hs p).
Qed.

Lemma cache_decor s s' :
  cache_ok s → root s' = root s →
  decor (fieldHeap s) (fieldHeap s') →
  flatCache s' = flatCache s ∨ flatCache s' = None → cache_ok s'.
Proof.
  intros Hc Er Hd Hf fc Hfc. destruct Hf as [Hf|Hf]; [|congruence].
  rewrite Hf in Hfc. rewrite (walk_decor _ _ _ Hd), Er.
  destruct Hd as [-> _]. by apply Hc.
Qed.

Section Frame.
Context `{GoLib}.

(** A call that leaves the nodes, the tree and the size of the schema as
    they are keeps the invariant. *)
Lemma winv_frame s s' :
  winv s → same_nodes s s' → nFields s' = nFields s →
  length (row s') = length (row s) → root s' = root s →
  decor (fieldHeap s) (fieldHeap s') →
  flatCache s' = flatCache s ∨ flatCache s' = None →
  Forall proj_ok (project s') → winv s'.
Proof.
  intros (Hn&Hc&Hf&(Hu1&Hu2)&Hp) (Sn&Sc&Ss) En El Er Hd Hfc Hp'.
  split; [|split; [|split; [|split]]].
  - eapply nodes_ok_mono; [exact Hn|done|lia|]. rewrite El, En. apply Hn.
  - by eapply cache_decor.
  - by eapply fields_decor.
  - split.
    + intros p n. rewrite Sn, Sc. apply Hu1.
    + intros p q n m. rewrite Sn. apply Hu2.
  - done.
Qed.
End Frame.

(** *** A store with one more field *)

Section Grow.
Variables (h : list fieldInternal) (gp : nat) (gi newfi : fieldInternal)
          (newf : Field).
Hypothesis Hg : h !! gp = Some gi.
Hypothesis Hgroup : idx gi = -1.
Hypothesis Hnew : fieldInternal_ptr newf = Some (length h).
Hypothesis Hsub : sub newfi = [].

Let h' := <[gp := add_sub newf gi]> (h ++ [newfi]).
Let old (x : Field) : Prop := is_ptr (length h) x = false.

Lemma grown_length : length h' = S (length h).
Proof. unfold h'. rewrite length_insert, length_app. simpl. lia. Qed.

Lemma grow_old p fi : h !! p = Some fi → p ≠ gp → h' !! p = Some fi.
Proof.
  intros Hp Hne. unfold h'. rewrite list_lookup_insert_ne by done.
  by rewrite (lookup_app_l_Some _ _ _ _ Hp).
Qed.

Lemma grow_group : h' !! gp = Some (add_sub newf gi).
Proof.
  unfold h'. pose proof (lookup_lt_Some _ _ _ Hg).
  rewrite list_lookup_insert_eq; [done|]. rewrite length_app. lia.
Qed.

Lemma grow_new : h' !! length h = Some newfi.
Proof.
  unfold h'. pose proof (lookup_lt_Some _ _ _ Hg).
  rewrite list_lookup_insert_ne by lia.
  rewrite lookup_app_r by lia. by rewrite Nat.sub_diag.
Qed.

(** The fields of the grown store. *)
Lemma grown_lookup p fi' :
  h' !! p = Some fi' →
  (p = length h ∧ fi' = newfi) ∨
  (p = gp ∧ fi' = add_sub newf gi) ∨
  (p ≠ gp ∧ h !! p = Some fi').
Proof.
  intros Hp. pose proof (lookup_lt_Some _ _ _ Hp) as Hlt.
  rewrite grown_length in Hlt.
  destruct (decide (p = length h)) as [->|Hn].
  { left. rewrite grow_new in Hp. by injection Hp as <-. }
  destruct (decide (p = gp)) as [->|Hne].
  { right. left. rewrite grow_group in Hp. by injection Hp as <-. }
  right. right. split; [done|].
  destruct (lookup_lt_is_Some_2 h p ltac:(lia)) as [fi Hfi].
  rewrite (grow_old _ _ Hfi Hne) in Hp. by injection Hp as <-.
Qed.

Lemma grown_agree p fi :
  h !! p = Some fi →
  ∃ fi', h' !! p = Some fi' ∧ idx fi' = idx fi ∧ cmp fi' = cmp fi ∧
         order fi' = order fi ∧ schema fi' = schema fi.
Proof.
  intros Hp. destruct (decide (p = gp)) as [->|Hne].
  - exists (add_sub newf gi). rewrite grow_group.
    rewrite Hg in Hp. by injection Hp as <-.
  - exists fi. by rewrite (grow_old _ _ Hp Hne).
Qed.

Lemma grow_children k xs ls :
  (∀ x y, walk h k x = Some y →
     ∃ y', walk h' (S k) x = Some y' ∧ filter old y' = y ∧
           (idx newfi = -1 → y' = y)) →
  Forall2 (λ x y, walk h k x = Some y) xs ls →
  ∃ ls', Forall2 (λ x y, walk h' (S k) x = Some y) xs ls' ∧
         filter old (concat ls') = concat ls ∧
         (idx newfi = -1 → ls' = ls).
Proof.
  intros IH. induction 1 as [|x y xs ls Hx _ (ls'&Hall&Hc&He)].
  - exists []. by split; [constructor|].
  - destruct (IH x y Hx) as (y'&Hy'&Hf&Hey). exists (y' :: ls'). split.
    + by constructor.
    + split; [simpl; by rewrite filter_app, Hf, Hc|].
      intros Hi. by rewrite Hey, He.
Qed.

(** The flattening of the grown tree is the old one with the new field
    put in, if it is a leaf. *)
Lemma grow_walk k : ∀ f l,
  walk h k f = Some l →
  ∃ l', walk h' (S k) f = Some l' ∧ filter old l' = l ∧
        (idx newfi = -1 → l' = l).
Proof.
  induction k as [|k IH]; intros f l Hw; [done|].
  destruct (walk_Some _ _ _ _ Hw)
    as (k'&p&fi&[= <-]&Ep&Efi&[[Hi ->]|(Hi&ls&Hall&->)]).
  - exists [f]. split; [|split; [|done]].
    + apply (walk_leaf h' (S k) f p fi); [done| |done]. apply grow_old; [done|].
      intros ->. rewrite Hg in Efi. injection Efi as <-. done.
    + rewrite filter_cons_True; [done|]. unfold old, is_ptr. rewrite Ep.
      apply Nat.eqb_neq. apply lookup_lt_Some in Efi. lia.
  - destruct (grow_children k _ _ IH Hall) as (ls'&Hall'&Hc&He).
    destruct (decide (p = gp)) as [->|Hne].
    + rewrite Hg in Efi. injection Efi as <-.
      assert (walk h' (S k) newf =
              Some (if negb (idx newfi =? -1) then [newf] else [])) as Hwn.
      { rewrite (walk_at h' k newf _ _ Hnew grow_new), Hsub.
        by destruct (negb _). }
      exists (concat (ls' ++ [if negb (idx newfi =? -1) then [newf] else []])).
      split; [|split].
      * apply (walk_group h' (S k) f gp (add_sub newf gi)); [done| |done|].
        { apply grow_group. }
        simpl. apply Forall2_app; [done|]. by repeat constructor.
      * rewrite concat_app, filter_app, Hc. simpl. rewrite app_nil_r.
        destruct (negb _); [|by rewrite app_nil_r].
        rewrite filter_cons_False; [by rewrite app_nil_r|].
        unfold old, is_ptr. rewrite Hnew, Nat.eqb_refl. done.
      * intros Hin. rewrite Hin. simpl. rewrite concat_app. simpl.
        rewrite app_nil_r. by rewrite (He Hin).
    + exists (concat ls'). split; [|split; [done|]].
      * apply (walk_group h' (S k) f p fi); [done| |done|done].
        by apply grow_old.
      * intros Hin. by rewrite (He Hin).
Qed.

Lemma tree_grow : tree_ok h → tree_ok h'.
Proof.
  intros ((r&Hr&Hri)&Hch&Hpar). pose proof (lookup_lt_Some _ _ _ Hg) as Hlt.
  split; [|split].
  - destruct (grown_agree O r Hr) as (r'&?&?&_). exists r'.
    split; [done|congruence].
  - intros p fi' Hp. rewrite grown_length.
    destruct (grown_lookup p fi' Hp) as [[-> ->]|[[-> ->]|[Hne Hfi]]].
    + rewrite Hsub. constructor.
    + simpl. apply Forall_app. split.
      * eapply Forall_impl; [exact (Hch gp gi Hg)|]. simpl.
        intros f (q&?&?). exists q. split; [done|lia].
      * constructor; [|constructor]. exists (length h). split; [done|lia].
    + eapply Forall_impl; [exact (Hch p fi' Hfi)|]. simpl.
      intros f (q&?&?). exists q. split; [done|lia].
  - intros q Hq. rewrite grown_length in Hq.
    destruct (decide (q = length h)) as [->|Hn].
    + exists gp, (add_sub newf gi), newf. split; [apply grow_group|].
      split; [done|]. split; [|done]. simpl. apply elem_of_app. right.
      by apply list_elem_of_singleton.
    + destruct (Hpar q ltac:(lia)) as (p&fi&f&Hfi&Hi&Hf&Hfq).
      destruct (decide (p = gp)) as [->|Hne].
      * rewrite Hg in Hfi. injection Hfi as <-.
        exists gp, (add_sub newf gi), f. split; [apply grow_group|].
        split; [done|]. split; [|done]. simpl. apply elem_of_app. by left.
      * exists p, fi, f. split; [by apply grow_old|done].
Qed.

Lemma callable_grow :
  callable h → order newfi = None → callable_but h' (length h).
Proof.
  intros Hc Ho p fi' Hp. rewrite grown_length.
  destruct (grown_lookup p fi' Hp) as [[-> ->]|[[-> ->]|[_ Hfi]]].
  - split; [done|]. apply order_nonneg_empty. by left.
  - destruct (Hc gp gi Hg) as [_ [Hn Hm]]. split; [|done]. intros _.
    split; [by left|]. done.
  - pose proof (Hc p fi' Hfi) as He. split; [|by destruct He as [_ [? _]]].
    intros _.
    eapply entry_ok_mono; [|done]. lia.
Qed.
End Grow.

End inv_props.

(** ** The invariant of a schema, and the calls that keep it *)

Module reach_props.
Import num benchproc spec intern_props walk_props inv_props.

Lemma framed_refl s : framed s s.
Proof. done. Qed.

Lemma framed_trans s1 s2 s3 : framed s1 s2 → framed s2 s3 → framed s1 s3.
Proof.
  intros (N1&?&?&?&?&?&?) (N2&?&?&?&?&?&?).
  split; [by eapply same_nodes_trans|]. repeat split; congruence.
Qed.

Lemma intern_framed s b s' st : intern s b = (s', st) → framed s s'.
Proof. unfold intern. destruct (interns s !! str b); intros [= <- <-]; done. Qed.

Lemma store_length {A} (l : list A) i v l' :
  store l i v = Some l' → length l' = length l.
Proof.
  unfold store. destruct (_ && _); [|done]. intros [= <-].
  by rewrite length_insert.
Qed.

Lemma store_row_framed s f v s' : store_row s f v = Some s' → framed s s'.
Proof.
  unfold store_row. intros Hs.
  destruct (deref (fieldHeap s) f) as [fi|]; simpl in Hs; [|done].
  destruct (intern s v) as [sx st] eqn:Ei. apply intern_framed in Ei.
  destruct (store (row sx) (idx fi) st) as [rw|] eqn:Es; simpl in Hs; [|done].
  injection Hs as <-. apply store_length in Es.
  destruct Ei as ((?&?&?)&?&?&?&?&?&?). unfold framed, same_nodes. simpl.
  repeat split; congruence.
Qed.

(** What [addField] returns. *)
Lemma addField_spec s g name s' f :
  addField s g name = Some (s', f) →
  ∃ gp gi, fieldInternal_ptr g = Some gp ∧ fieldHeap s !! gp = Some gi ∧
    idx gi = -1 ∧ f = mkField name (Some (length (fieldHeap s))) ∧
    s' = mkSchema (self s) (root s) (nFields s + 1) (unitField s) None
           (project s) (row s ++ [""%string]) (interns s) (configs s)
           (<[gp := add_sub f gi]>
              (fieldHeap s ++
                 [mkFieldInternal (Some (self s)) (nFields s) [] cmpNil None]))
           (nodeHeap s).
Proof.
  unfold addField. intros Ha.
  destruct (deref (fieldHeap s) g) as [gi|] eqn:Eg; simpl in Ha; [|done].
  destruct (idx gi =? -1) eqn:Ei; simpl in Ha; [|done].
  apply Z.eqb_eq in Ei. unfold deref in Eg.
  destruct (fieldInternal_ptr g) as [gp|] eqn:Ep; simpl in Eg; [|done].
  unfold update in Ha. simpl in Ha. rewrite Ep in Ha. simpl in Ha.
  rewrite (lookup_app_l_Some _ _ _ _ Eg) in Ha. simpl in Ha.
  injection Ha as <- <-. by exists gp, gi.
Qed.

(** What [addGroup] returns for an allocated group. *)
Lemma addGroup_spec s g name gp gi :
  fieldInternal_ptr g = Some gp → fieldHeap s !! gp = Some gi →
  addGroup s g name =
    Some (set_fieldHeap s
            (<[gp := add_sub (mkField name (Some (length (fieldHeap s)))) gi]>
               (fieldHeap s ++
                  [mkFieldInternal (Some (self s)) (-1) [] cmpNil None])),
          mkField name (Some (length (fieldHeap s)))).
Proof.
  intros Ep Eg. unfold addGroup, update. simpl. rewrite Ep. simpl.
  by rewrite (lookup_app_l_Some _ _ _ _ Eg).
Qed.

Lemma update_length h f g h' : update h f g = Some h' → length h' = length h.
Proof.
  unfold update. intros Hu.
  destruct (fieldInternal_ptr f) as [q|]; simpl in Hu; [|done].
  destruct (h !! q) as [fq|]; simpl in Hu; [|done].
  injection Hu as <-. by rewrite length_insert.
Qed.

(** An update that gives the field at [q] a closure. *)
Lemma update_callable h f g h' q :
  fieldInternal_ptr f = Some q → callable_but h q →
  update h f g = Some h' →
  (∀ fi, order_nonneg fi → entry_ok (length h) (g fi)) →
  callable h'.
Proof.
  intros Hq Hc Hu Hg. pose proof (update_length _ _ _ _ Hu) as Hl.
  unfold update in Hu. rewrite Hq in Hu. simpl in Hu.
  destruct (h !! q) as [fq|] eqn:Eq; simpl in Hu; [|done].
  injection Hu as <-. intros p fi Hp. rewrite length_insert.
  destruct (decide (p = q)) as [->|Hne].
  - rewrite list_lookup_insert_eq in Hp by by eapply lookup_lt_Some.
    injection Hp as <-. apply Hg. apply (Hc q fq Eq).
  - rewrite list_lookup_insert_ne in Hp by done. by apply (Hc p).
Qed.

(** An update that keeps what the fields have. *)
Lemma update_callable_but h f g h' q :
  callable_but h q → update h f g = Some h' →
  (∀ fi, (entry_ok (length h) fi → entry_ok (length h) (g fi)) ∧
         (order_nonneg fi → order_nonneg (g fi))) →
  callable_but h' q.
Proof.
  intros Hc Hu Hg. unfold update in Hu.
  destruct (fieldInternal_ptr f) as [r|]; simpl in Hu; [|done].
  destruct (h !! r) as [fr|] eqn:Er; simpl in Hu; [|done].
  injection Hu as <-. intros p fi Hp. rewrite length_insert.
  destruct (decide (p = r)) as [->|Hpr].
  - rewrite list_lookup_insert_eq in Hp by by eapply lookup_lt_Some.
    injection Hp as <-. destruct (Hc r fr Er) as [H1 H2].
    destruct (Hg fr) as [G1 G2]. split; [|by apply G2].
    intros Hne. by apply G1, H1.
  - rewrite list_lookup_insert_ne in Hp by done. by apply (Hc p).
Qed.

Lemma update_keeps_callable h f g h' :
  callable h → update h f g = Some h' →
  (∀ fi, entry_ok (length h) fi → entry_ok (length h) (g fi)) →
  callable h'.
Proof.
  intros Hc Hu Hg. unfold update in Hu.
  destruct (fieldInternal_ptr f) as [r|]; simpl in Hu; [|done].
  destruct (h !! r) as [fr|] eqn:Er; simpl in Hu; [|done].
  injection Hu as <-. intros p fi Hp. rewrite length_insert.
  destruct (decide (p = r)) as [->|Hpr].
  - rewrite list_lookup_insert_eq in Hp by by eapply lookup_lt_Some.
    injection Hp as <-. by apply Hg, (Hc r).
  - rewrite list_lookup_insert_ne in Hp by done. by apply (Hc p).
Qed.

Lemma set_order_empty_ok n fi :
  (entry_ok n fi → entry_ok n (set_order (Some ∅) fi)) ∧
  (order_nonneg fi → order_nonneg (set_order (Some ∅) fi)).
Proof.
  split.
  - intros [Hc [_ Hm]]. split; [done|]. split; [|done].
    apply order_nonneg_empty. by right.
  - intros _. apply order_nonneg_empty. by right.
Qed.

Lemma update_ptr h f g h' :
  update h f g = Some h' →
  ∃ q, fieldInternal_ptr f = Some q ∧ (q < length h)%nat.
Proof.
  unfold update. intros Hu.
  destruct (fieldInternal_ptr f) as [q|]; simpl in Hu; [|done].
  destruct (h !! q) as [fq|] eqn:Eq; simpl in Hu; [|done].
  exists q. split; [done|]. by eapply lookup_lt_Some.
Qed.

(** [initField] gives the new leaf its closure. *)
Lemma initField_callable init h f h' q :
  init_ok init → fieldInternal_ptr f = Some q → callable_but h q →
  call_initField init h f = Some h' → callable h' ∧ decor h h'.
Proof.
  intros Hi Hq Hc. destruct init as [m| |cm]; simpl.
  - intros Hu. split.
    + eapply update_callable; [done|done|done|]. intros fi Ho.
      split; [by right|]. split; [done|]. simpl. by intros ? [= <-].
    + eapply decor_update; [|done]. done.
  - intros Hu.
    destruct (update h f (set_order (Some ∅))) as [h1|] eqn:E1; simpl in Hu;
      [|done].
    pose proof (update_length _ _ _ _ E1) as L1.
    pose proof (update_ptr _ _ _ _ Hu) as (q'&Hq'&Hlt).
    assert (q' = q) as -> by congruence. split.
    + eapply (update_callable h1 f _ h' q); [done| |done|].
      * eapply update_callable_but; [done|done|]. intros fi.
        apply set_order_empty_ok.
      * intros fi Ho. split; [right; simpl; by exists q|]. by split.
    + eapply decor_trans.
      * eapply (decor_update h f _ h1); [|exact E1]. done.
      * eapply (decor_update h1 f _ h'); [|exact Hu]. done.
  - intros Hu. split.
    + eapply update_callable; [done|done|done|]. intros fi Ho.
      split; [right; simpl; by destruct Hi as [-> | ->]|].
      split; [done|]. simpl. by destruct Hi as [-> | ->].
    + eapply decor_update; [|done]. done.
Qed.

Section Reach.
Context `{GoLib}.

Lemma inv_newSchema addr : inv (newSchema addr).
Proof.
  split; [split; [|split; [|split; [|split]]]|].
  - apply nodes_ok_newSchema.
  - intros fc Hfc. done.
  - split; [done|]. split; [split; [|split]|split; [|split]].
    + by eexists.
    + intros [|p] fi Hp; [|done]. injection Hp as <-. constructor.
    + intros q Hq. simpl in Hq. lia.
    + intros [|p] fi Hp; [|done]. injection Hp as <-. simpl. lia.
    + intros i Hi. simpl in Hi. lia.
    + intros [|p] fi Hp; [|done]. by injection Hp as <-.
  - split; [done|]. intros p q n m Hp. done.
  - constructor.
  - intros [|p] fi Hp; [|done]. injection Hp as <-.
    split; [by left|]. split; [apply order_nonneg_empty; by left|done].
Qed.

Lemma inv_framed s s' : inv s → framed s s' → inv s'.
Proof.
  intros [Hw Hc] (Hn&?&?&?&Hh&Hf&Hp). split.
  - eapply winv_frame; try done.
    + rewrite Hh. apply decor_refl.
    + by left.
    + rewrite Hp. apply Hw.
  - by rewrite Hh.
Qed.

(** The heap of a schema changes in closures and order maps only. *)
Lemma inv_decor s h :
  inv s → decor (fieldHeap s) h → callable h → inv (set_fieldHeap s h).
Proof.
  intros [Hw Hc] Hd Hc'. split; [|done].
  eapply winv_frame; try done; [by left|apply Hw].
Qed.

Lemma inv_set_project s ps :
  inv s → Forall proj_ok ps → inv (set_project s ps).
Proof.
  intros [Hw Hc] Hp. split; [|done].
  eapply winv_frame; try done; [apply decor_refl|by left].
Qed.

Lemma inv_set_row s r :
  inv s → length r = length (row s) → inv (set_row s r).
Proof.
  intros [Hw Hc] Hp. split; [|done].
  eapply winv_frame; try done; [apply decor_refl|by left|apply Hw].
Qed.

Lemma winv_addField s g name s' f :
  winv s → addField s g name = Some (s', f) →
  winv s' ∧
  (callable (fieldHeap s) → callable_but (fieldHeap s') (length (fieldHeap s))) ∧
  fieldInternal_ptr f = Some (length (fieldHeap s)) ∧
  project s' = project s.
Proof.
  intros ((Hrow&Hnodes)&Hc&(Hr&Ht&Hb&Hcov&Hsch)&(Hu1&Hu2)&Hp) Ha.
  destruct (addField_spec _ _ _ _ _ Ha) as (gp&gi&Hgp&Hgi&Hgidx&Hf&->).
  assert (0 ≤ nFields s) as Hnn by lia.
  set (newfi := mkFieldInternal (Some (self s)) (nFields s) [] cmpNil None).
  assert (fieldInternal_ptr f = Some (length (fieldHeap s))) as Hfp by by rewrite Hf.
  split; [|split; [|done]].
  - split; [|split; [|split; [|split]]]; simpl.
    + split; simpl.
      * rewrite length_app. simpl. lia.
      * eapply Forall_impl; [exact Hnodes|]. intros n (?&?&?).
        split; [done|]. split; [simpl; lia|done].
    + intros fc Hfc. done.
    + split; [done|]. split; [|split; [|split]]; simpl.
      * by apply tree_grow.
      * intros p fi' Hp'.
        destruct (grown_lookup _ _ _ newfi f Hgi p fi' Hp')
          as [[-> ->]|[[-> ->]|[_ Hfi]]]; simpl.
        -- lia.
        -- specialize (Hb gp gi Hgi). lia.
        -- specialize (Hb p fi' Hfi). lia.
      * intros i Hi. destruct (decide (i = nFields s)) as [->|Hne].
        -- exists (length (fieldHeap s)), newfi. split; [|done].
           by apply (grow_new _ gp gi newfi f).
        -- destruct (Hcov i ltac:(lia)) as (p&fi&Hfi&Hidx).
           destruct (grown_agree _ _ _ newfi f Hgi p fi Hfi) as (fi'&?&?&_).
           exists p, fi'. split; [done|congruence].
      * intros p fi' Hp'.
        destruct (grown_lookup _ _ _ newfi f Hgi p fi' Hp')
          as [[-> ->]|[[-> ->]|[_ Hfi]]]; simpl; [done|done|].
        by apply (Hsch p).
    + done.
    + done.
  - intros Hcal. simpl. by apply callable_grow.
Qed.

Lemma inv_addGroup s name s' f :
  inv s → addGroup s (root s) name = Some (s', f) →
  inv s' ∧ project s' = project s.
Proof.
  intros [((Hrow&Hnodes)&Hc&(Hr&Ht&Hb&Hcov&Hsch)&(Hu1&Hu2)&Hp) Hcal] Ha.
  pose proof Ht as ((r&Hr0&Hri)&_&_).
  rewrite (addGroup_spec s (root s) name O r Hr Hr0) in Ha.
  injection Ha as <- <-.
  set (newf := mkField name (Some (length (fieldHeap s)))).
  set (newfi := mkFieldInternal (Some (self s)) (-1) [] cmpNil None).
  split; [|done]. split; [split; [|split; [|split; [|split]]]|]; simpl.
  - done.
  - intros fc Hfc.
    destruct (grow_walk (fieldHeap s) O r newfi newf Hr0 Hri eq_refl eq_refl
                _ _ _ (Hc fc Hfc)) as (l'&Hw&_&He).
    rewrite (He eq_refl) in Hw. cbn [fieldHeap root set_fieldHeap].
    rewrite grown_length by done. exact Hw.
  - split; [done|]. split; [|split; [|split]]; simpl.
    + by apply tree_grow.
    + intros p fi' Hp'.
      destruct (grown_lookup _ _ _ newfi newf Hr0 p fi' Hp')
        as [[-> ->]|[[-> ->]|[_ Hfi]]]; simpl.
      * lia.
      * specialize (Hb O r Hr0). lia.
      * by apply (Hb p).
    + intros i Hi. destruct (Hcov i Hi) as (p&fi&Hfi&Hidx).
      destruct (grown_agree _ _ _ newfi newf Hr0 p fi Hfi) as (fi'&?&?&_).
      exists p, fi'. split; [done|congruence].
    + intros p fi' Hp'.
      destruct (grown_lookup _ _ _ newfi newf Hr0 p fi' Hp')
        as [[-> ->]|[[-> ->]|[_ Hfi]]]; simpl; [done|done|].
      by apply (Hsch p).
  - done.
  - done.
  - intros p fi' Hp'. rewrite grown_length by done.
    destruct (grown_lookup _ _ _ newfi newf Hr0 p fi' Hp')
      as [[-> ->]|[[-> ->]|[_ Hfi]]].
    + split; [by left|]. split; [apply order_nonneg_empty; by left|done].
    + destruct (Hcal O r Hr0) as [_ ?]. by split; [left|].
    + eapply entry_ok_mono; [|by apply (Hcal p)]. lia.
Qed.

(** A new leaf and its closure. *)
Lemma inv_add_init s g name s1 f init h :
  inv s → init_ok init → addField s g name = Some (s1, f) →
  call_initField init (fieldHeap s1) f = Some h →
  inv (set_fieldHeap s1 h) ∧ project s1 = project s.
Proof.
  intros [Hw Hc] Hi Ha Hci.
  destruct (winv_addField _ _ _ _ _ Hw Ha) as (Hw1&Hcb&Hfp&Hp).
  destruct (initField_callable _ _ _ _ _ Hi Hfp (Hcb Hc) Hci) as [Hc' Hd].
  split; [|done]. split; [|done].
  eapply winv_frame; try done; [by left|apply Hw1].
Qed.

Lemma inv_store_row s f v s' : inv s → store_row s f v = Some s' → inv s'.
Proof. intros Hi Hs. eapply inv_framed; [done|]. by eapply store_row_framed. Qed.

Lemma inv_projectConfig_loop p init g cfgs : ∀ seen s seen' s',
  inv s → init_ok init →
  projectConfig_loop p init g cfgs seen s = Some (seen', s') →
  inv s' ∧ project s' = project s.
Proof.
  induction cfgs as [|cfg cfgs IH]; intros seen s seen' s' Hi Hio Hl;
    simpl in Hl.
  { by injection Hl as <- <-. }
  destruct (seen !! benchfmt.Key cfg) as [fld|].
  - destruct (store_row s fld _) as [s1|] eqn:Es; simpl in Hl; [|done].
    destruct (IH _ _ _ _ (inv_store_row _ _ _ _ Hi Es) Hio Hl) as [? Hp].
    split; [done|]. rewrite Hp. by apply store_row_framed in Es as (_&_&_&_&_&_&?).
  - destruct (configKeys_get p _); [by apply (IH seen s seen' s')|].
    destruct (addField s g _) as [[s1 fld]|] eqn:Ea; simpl in Hl; [|done].
    destruct (call_initField init _ _) as [h|] eqn:Ec; simpl in Hl; [|done].
    destruct (store_row _ fld _) as [s2|] eqn:Es; simpl in Hl; [|done].
    destruct (inv_add_init _ _ _ _ _ _ _ Hi Hio Ea Ec) as [Hi1 Hp1].
    destruct (IH _ _ _ _ (inv_store_row _ _ _ _ Hi1 Es) Hio Hl) as [? Hp].
    split; [done|]. rewrite Hp.
    apply store_row_framed in Es as (_&_&_&_&_&_&->). done.
Qed.

Lemma inv_call_project pr p s r p' s' pr' :
  inv s → proj_ok pr → call_project pr p s r = Some (p', s', pr') →
  inv s' ∧ proj_ok pr' ∧ project s' = project s.
Proof.
  intros Hi Hp. destruct pr as [init g seen|fld|ext fld]; simpl; intros Hc.
  - destruct (projectConfig_loop _ _ _ _ _ _) as [[seen' s1]|] eqn:E;
      simpl in Hc; [|done].
    injection Hc as <- <- <-.
    destruct (inv_projectConfig_loop _ _ _ _ _ _ _ _ Hi Hp E). done.
  - destruct (fullExtractor p) as [ext|] eqn:Efe; simpl in Hc.
    + rewrite Efe in Hc. simpl in Hc.
      destruct (extract.apply ext r) as [val|]; simpl in Hc; [|done].
      destruct (store_row s fld val) as [s1|] eqn:Es; simpl in Hc; [|done].
      injection Hc as <- <- <-. split; [by eapply inv_store_row|].
      split; [done|]. by apply store_row_framed in Es as (_&_&_&_&_&_&?).
    + destruct (extract.apply _ r) as [val|]; simpl in Hc; [|done].
      destruct (store_row s fld val) as [s1|] eqn:Es; simpl in Hc; [|done].
      injection Hc as <- <- <-. split; [by eapply inv_store_row|].
      split; [done|]. by apply store_row_framed in Es as (_&_&_&_&_&_&?).
  - destruct (extract.apply ext r) as [val|]; simpl in Hc; [|done].
    destruct (store_row s fld val) as [s1|] eqn:Es; simpl in Hc; [|done].
    injection Hc as <- <- <-. split; [by eapply inv_store_row|].
    split; [done|]. by apply store_row_framed in Es as (_&_&_&_&_&_&?).
Qed.

Lemma inv_populate_loop projs : ∀ i p s r p' s',
  inv s → Forall proj_ok projs →
  populate_loop projs i p s r = Some (p', s') → inv s'.
Proof.
  induction projs as [|pr projs IH]; intros i p s r p' s' Hi Hps Hl;
    simpl in Hl.
  { by injection Hl as <- <-. }
  apply Forall_cons in Hps as [Hpr Hps].
  destruct (call_project pr p s r) as [[[p1 s1] pr1]|] eqn:Ec; simpl in Hl;
    [|done].
  destruct (inv_call_project _ _ _ _ _ _ _ Hi Hpr Ec) as (Hi1&Hpr1&_).
  eapply IH; [|exact Hps|exact Hl]. apply inv_set_project; [done|].
  apply Forall_insert; [|done]. apply Hi1.
Qed.

Lemma inv_populateRow p s r p' s' :
  inv s → populateRow p s r = Some (p', s') → inv s'.
Proof.
  unfold populateRow. intros Hi Hl.
  eapply inv_populate_loop; [| |exact Hl].
  - apply inv_set_row; [done|]. by rewrite length_fmap.
  - simpl. apply Hi.
Qed.

Lemma inv_Fields s s' fl :
  inv s → Fields s = Some (s', fl) →
  inv s' ∧ walk (fieldHeap s) (S (length (fieldHeap s))) (root s) = Some fl ∧
  same_nodes s s' ∧ fieldHeap s' = fieldHeap s ∧ nFields s' = nFields s ∧
  row s' = row s ∧ root s' = root s.
Proof.
  intros Hi. unfold Fields. destruct (flatCache s) as [fc|] eqn:Efc.
  - intros [= <- <-]. split; [done|]. split; [|done]. by apply Hi.
  - destruct (walk _ _ _) as [fc|] eqn:Ew; simpl; [|done].
    intros [= <- <-]. split; [|done]. destruct Hi as [(Hn&Hc&Hf&Hu&Hp) Hcal].
    split; [|done]. split; [done|]. split; [|done].
    intros fc' [= <-]. done.
Qed.

Lemma observe_decor h row f h' :
  callable h → observe h row f = Some h' → callable h' ∧ decor h h'.
Proof.
  intros Hc. unfold observe. intros Ho.
  destruct (deref h f) as [fi|] eqn:Ed; simpl in Ho; [|done].
  destruct (order fi) as [o|] eqn:Eo;
    [|injection Ho as <-; split; [done|apply decor_refl]].
  destruct (if idx fi <? _ then _ else _) as [val|]; simpl in Ho; [|done].
  destruct (o !! val); [injection Ho as <-; split; [done|apply decor_refl]|].
  split.
  - eapply update_keeps_callable; [done|done|]. intros fi0 [Hc0 [_ Hm0]].
    split; [done|]. split; [|done]. unfold order_nonneg. simpl.
    apply map_Forall_insert_2; [lia|].
    unfold deref in Ed. destruct (fieldInternal_ptr f) as [q|]; [|done].
    destruct (Hc q fi Ed) as [_ [Hn _]]. unfold order_nonneg in Hn.
    by rewrite Eo in Hn.
  - eapply decor_update; [|done]. done.
Qed.

Lemma observe_all_decor row fields : ∀ h h',
  callable h → observe_all h row fields = Some h' → callable h' ∧ decor h h'.
Proof.
  induction fields as [|f fields IH]; intros h h' Hc Ho; simpl in Ho.
  { injection Ho as <-. split; [done|apply decor_refl]. }
  destruct (observe h row f) as [h1|] eqn:E1; simpl in Ho; [|done].
  destruct (observe_decor _ _ _ _ Hc E1) as [Hc1 Hd1].
  destruct (IH _ _ Hc1 Ho) as [Hc2 Hd2]. split; [done|].
  by eapply decor_trans.
Qed.

Lemma find_config_none s cs t :
  find_config s cs t = Some None →
  ∀ p n, p ∈ cs → nodeHeap s !! p = Some n → vals n ≠ t.
Proof.
  induction cs as [|q cs IH]; simpl; intros Hf p n Hin Hp.
  { by apply elem_of_nil in Hin. }
  destruct (nodeHeap s !! q) as [nq|] eqn:Eq; simpl in Hf; [|done].
  destruct (equalRow nq t) eqn:Ee; [done|].
  apply elem_of_cons in Hin as [->|Hin]; [|by apply (IH Hf p)].
  rewrite Eq in Hp. injection Hp as <-. intros Hv.
  apply equalRow_spec in Hv. congruence.
Qed.

Lemma inv_internRow s s' cf :
  inv s → internRow s = Some (s', cf) →
  inv s' ∧ nFields s' = nFields s ∧ row s' = row s.
Proof.
  intros Hi. unfold internRow. intros Hr.
  destruct (find_config s _ _) as [[p|]|] eqn:Ef; simpl in Hr; [| |done].
  { by injection Hr as <- <-. }
  destruct (Fields s) as [[s1 fields]|] eqn:EF; simpl in Hr; [|done].
  destruct (observe_all _ _ _) as [h|] eqn:Eo; simpl in Hr; [|done].
  injection Hr as <- <-.
  destruct (inv_Fields _ _ _ Hi EF) as (Hi1&_&(Sn&Sc&Ss)&Sh&Sf&Sr&_).
  destruct (observe_all_decor _ _ _ _ (proj2 Hi1) Eo) as [Hcal Hd].
  pose proof (inv_decor _ _ Hi1 Hd Hcal)
    as [((Hrow&Hnodes)&Hc&Hf&(Hu1&Hu2)&Hp) Hcal2].
  simpl in *. split; [|by rewrite Sf, Sr].
  set (t := trim (row s)) in *.
  split; [split; [|split; [|split; [|split]]]|]; simpl; try done.
  - split; [done|]. simpl. apply Forall_app. split; [done|].
    constructor; [|constructor]. split; [done|]. simpl.
    split; [|apply trim_idemp]. pose proof (trim_length (row s)).
    rewrite Sr in Hrow. subst t. lia.
  - split.
    + intros p n Hp'. cbn [configs set_configs nodeHeap] in *.
      apply lookup_app_Some in Hp' as [Hp'|[Hge Hp']].
      * specialize (Hu1 p n Hp').
        destruct (decide (hash_row (vals n) = hash_row t)) as [E|Hne].
        -- rewrite E, lookup_insert_eq. simpl. rewrite <- E.
           apply elem_of_app. by left.
        -- by rewrite lookup_insert_ne.
      * destruct (p - length (nodeHeap s1))%nat as [|k] eqn:Ek; [|done].
        injection Hp' as <-. simpl. rewrite lookup_insert_eq. simpl.
        apply elem_of_app. right. apply list_elem_of_singleton. lia.
    + assert (∀ p n, nodeHeap s1 !! p = Some n → vals n ≠ t) as Hfresh.
      { intros p n Hp'. specialize (Hu1 p n Hp'). intros Hv.
        rewrite Hv in Hu1. rewrite Sc in Hu1. rewrite Sn in Hp'.
        by apply (find_config_none _ _ _ Ef p n). }
      intros p q n m Hp' Hq' Hv. cbn [configs set_configs nodeHeap] in *.
      apply lookup_app_Some in Hp' as [Hp'|[Hge Hp']];
        apply lookup_app_Some in Hq' as [Hq'|[Hge' Hq']].
      * by apply (Hu2 p q n m).
      * destruct (q - length (nodeHeap s1))%nat as [|k] eqn:Ek; [|done].
        injection Hq' as <-. simpl in Hv. by apply Hfresh in Hp'.
      * destruct (p - length (nodeHeap s1))%nat as [|k] eqn:Ek; [|done].
        injection Hp' as <-. simpl in Hv. symmetry in Hv. by apply Hfresh in Hq'.
      * destruct (p - length (nodeHeap s1))%nat as [|k] eqn:Ek; [|done].
        destruct (q - length (nodeHeap s1))%nat as [|k'] eqn:Ek'; [|done].
        lia.
Qed.

Lemma inv_Project p s r p' s' cf :
  inv s → Project p s r = Some (p', s', cf) → inv s'.
Proof.
  intros Hi. unfold Project. intros Hp.
  destruct (populateRow p s r) as [[p1 s1]|] eqn:E1; simpl in Hp; [|done].
  destruct (internRow s1) as [[s2 cf2]|] eqn:E2; simpl in Hp; [|done].
  injection Hp as <- <- <-.
  by apply (inv_internRow s1 s2 cf2 (inv_populateRow _ _ _ _ _ Hi E1)) in E2 as [? _].
Qed.

Lemma inv_values_loop u vs : ∀ s out s' out',
  inv s → values_loop s u vs out = Some (s', out') → inv s'.
Proof.
  induction vs as [|v vs IH]; intros s out s' out' Hi Hl; simpl in Hl.
  { by injection Hl as <- <-. }
  destruct (store (row s) u _) as [r|] eqn:Es; simpl in Hl; [|done].
  destruct (internRow _) as [[s1 cf]|] eqn:Ei; simpl in Hl; [|done].
  apply store_length in Es.
  apply (inv_internRow _ _ _ (inv_set_row _ _ Hi Es)) in Ei as [Hi1 _].
  by eapply IH.
Qed.

Lemma inv_ProjectValues p s r p' s' cfs :
  inv s → ProjectValues p s r = Some (p', s', cfs) → inv s'.
Proof.
  intros Hi. unfold ProjectValues. intros Hp.
  destruct (populateRow p s r) as [[p1 s1]|] eqn:E1; simpl in Hp; [|done].
  pose proof (inv_populateRow _ _ _ _ _ Hi E1) as Hi1.
  destruct (fieldInternal_ptr (unitField s1)).
  - destruct (deref _ _) as [ui|]; simpl in Hp; [|done].
    destruct (values_loop _ _ _ _) as [[s2 out]|] eqn:E2; simpl in Hp; [|done].
    injection Hp as <- <- <-. by eapply inv_values_loop.
  - destruct (internRow s1) as [[s2 cf2]|] eqn:E2; simpl in Hp; [|done].
    injection Hp as <- <- <-. by apply (inv_internRow _ _ _ Hi1) in E2 as [? _].
Qed.

End Reach.
End reach_props.

(** ** Every schema of the package satisfies the invariant *)

Module reach_final.
Import num benchproc spec intern_props walk_props inv_props reach_props.

Section Parse.
Context `{GoLib}.

Lemma inv_add_init_project s name s1 f init h pr :
  inv s → init_ok init → proj_ok pr →
  addField s (root s) name = Some (s1, f) →
  call_initField init (fieldHeap s1) f = Some h →
  inv (set_project (set_fieldHeap s1 h) (project (set_fieldHeap s1 h) ++ [pr])).
Proof.
  intros Hi Hio Hpr Ha Hc.
  destruct (inv_add_init _ _ _ _ _ _ _ Hi Hio Ha Hc) as [Hi1 _].
  apply inv_set_project; [done|]. apply Forall_app. split; [apply Hi1|].
  by repeat constructor.
Qed.

Lemma fixedMap_nonneg fixed : ∀ i m,
  0 ≤ i → map_Forall (λ _ v, 0 ≤ v) m →
  map_Forall (λ _ v, 0 ≤ v) (fixedMap_loop fixed i m).
Proof.
  induction fixed as [|v fixed IH]; intros i m Hi Hm; simpl; [done|].
  apply IH; [lia|]. by apply map_Forall_insert_2.
Qed.

Lemma inv_makeProjection p s q proj p' s' res :
  inv s → makeProjection p s q proj = Some (p', s', res) → inv s'.
Proof.
  intros Hi. unfold makeProjection.
  set (order := if String.eqb (parse.Order proj) "fixed" then _ else _).
  assert (∀ init, order = Some init → init_ok init) as Hord.
  { subst order. intros init.
    destruct (String.eqb (parse.Order proj) "fixed").
    { intros [= <-]. apply fixedMap_nonneg; [lia|].
      intros k v Hkv. by rewrite lookup_empty in Hkv. }
    destruct (String.eqb (parse.Order proj) "first"); [by intros [= <-]|].
    unfold builtinOrders.
    destruct (String.eqb (parse.Order proj) "alpha"); [intros [= <-]; by left|].
    destruct (String.eqb (parse.Order proj) "num"); [intros [= <-]; by right|].
    done. }
  destruct order as [init|]; [|by intros [= _ <- _]].
  specialize (Hord init eq_refl).
  destruct (String.eqb (parse.pKey proj) ".config").
  { destruct (String.eqb (parse.Order proj) "fixed"); [by intros [= _ <- _]|].
    destruct (addGroup s (root s) ".config") as [[s1 g]|] eqn:Eg; simpl; [|done].
    intros [= _ <- _]. destruct (inv_addGroup _ _ _ _ Hi Eg) as [Hi1 _].
    apply inv_set_project; [done|]. apply Forall_app. split; [apply Hi1|].
    by repeat constructor. }
  destruct (String.eqb (parse.pKey proj) ".fullname").
  { destruct (addField s (root s) ".fullname") as [[s1 f]|] eqn:Ea; simpl; [|done].
    destruct (call_initField init _ f) as [h|] eqn:Ec; simpl; [|done].
    intros [= _ <- _]. by eapply inv_add_init_project. }
  destruct (if _ || _ then _ else _) as [p1|]; simpl; [|done].
  destruct (extract.newExtractor _) as [ext|msg]; [|by intros [= _ <- _]].
  destruct (addField s (root s) _) as [[s1 f]|] eqn:Ea; simpl; [|done].
  destruct (call_initField init _ f) as [h|] eqn:Ec; simpl; [|done].
  intros [= _ <- _]. by eapply inv_add_init_project.
Qed.

Lemma inv_parts_loop q parts : ∀ p s fps p' s' fps',
  inv s → parts_loop p s q parts fps = Some (p', inl (s', fps')) → inv s'.
Proof.
  induction parts as [|part parts IH]; intros p s fps p' s' fps' Hi Hl;
    simpl in Hl.
  { by injection Hl as _ <- _. }
  destruct (makeProjection p s q part) as [[[p1 s1] res]|] eqn:Em;
    simpl in Hl; [|done].
  destruct res as [f|e]; [|done].
  eapply IH; [|exact Hl]. by eapply inv_makeProjection.
Qed.

Lemma inv_Parse p addr q filter p' filter' s :
  Parse p addr q filter = Some (p', filter', inl s) → inv s.
Proof.
  unfold Parse. intros Hp.
  destruct (parse.ParseProjection q) as [[parts|e]|]; simpl in Hp; [| |done].
  - destruct (parts_loop _ _ _ _ _) as [[p1 [[s1 fps]|e]]|] eqn:El;
      simpl in Hp; [| |done].
    + injection Hp as _ _ <-.
      eapply inv_parts_loop; [|exact El]. apply inv_newSchema.
    + done.
  - done.
Qed.

Lemma inv_Residue p addr p' s : Residue p addr = Some (p', s) → inv s.
Proof.
  unfold Residue. intros Hr.
  destruct (if negb (haveConfig p) then _ else _) as [[p1 s1]|] eqn:E1;
    simpl in Hr; [|done].
  destruct (if negb (haveFullname p1) then _ else _) as [[p2 s2]|] eqn:E2;
    simpl in Hr; [|done].
  injection Hr as <- <-.
  assert (inv s1) as Hi1.
  { destruct (negb (haveConfig p)).
    - destruct (makeProjection _ _ _ _) as [[[p0 s0] res]|] eqn:Em;
        simpl in E1; [|done].
      injection E1 as <- <-. eapply inv_makeProjection; [|exact Em].
      apply inv_newSchema.
    - injection E1 as <- <-. apply inv_newSchema. }
  clear E1. destruct (negb (haveFullname p1)).
  - destruct (makeProjection _ _ _ _) as [[[p0 s0] res]|] eqn:Em;
      simpl in E2; [|done].
    injection E2 as <- <-. by eapply inv_makeProjection.
  - by injection E2 as <- <-.
Qed.

Lemma inv_AddValues s s' f : inv s → AddValues s = Some (s', f) → inv s'.
Proof.
  intros Hi. unfold AddValues.
  destruct (fieldInternal_ptr (unitField s)); [done|].
  destruct (addField s (root s) ".unit") as [[s1 fld]|] eqn:Ea; simpl; [|done].
  destruct (update (fieldHeap s1) fld _) as [h1|] eqn:E1; simpl; [|done].
  destruct (update h1 fld _) as [h2|] eqn:E2; simpl; [|done].
  intros [= <- <-]. destruct Hi as [Hw Hc].
  destruct (winv_addField _ _ _ _ _ Hw Ea) as (Hw1&Hcb&Hfp&Hp).
  pose proof (update_length _ _ _ _ E1) as L1.
  assert (callable h2) as Hc2.
  { eapply (update_callable h1 fld _ h2); [exact Hfp| |exact E2|].
    - eapply update_callable_but; [exact (Hcb Hc)|exact E1|].
      intros fi. apply set_order_empty_ok.
    - intros fi Ho. split; [|by split]. right. simpl.
      exists (length (fieldHeap s)).
      split; [done|]. apply update_ptr in E2 as (q&Hq&Hlt).
      rewrite Hfp in Hq. injection Hq as <-. done. }
  assert (decor (fieldHeap s1) h2) as Hd.
  { eapply decor_trans.
    - eapply (decor_update _ fld _ h1); [|exact E1]. done.
    - eapply (decor_update h1 fld _ h2); [|exact E2]. done. }
  split; [|done].
  eapply (winv_frame s1); try done; [by left|apply Hw1].
Qed.

(** Every schema of the package satisfies the invariant. *)
Lemma reachable_inv s : reachable s → inv s.
Proof.
  induction 1 as [p addr q filter p' filter' s Hp|p addr p' s Hr
                 |s s' f _ IH Ha|p s r p' s' cf _ IH Hp
                 |p s r p' s' cfs _ IH Hp|s s' fl _ IH Hf].
  - by eapply inv_Parse.
  - by eapply inv_Residue.
  - by eapply inv_AddValues.
  - by eapply inv_Project.
  - by eapply inv_ProjectValues.
  - by apply (inv_Fields _ _ _ IH) in Hf as [? _].
Qed.

Lemma inv_wf s : inv s → wf s.
Proof.
  intros [(Hn&Hc&(_&_&Hb&_)&_) _]. split; [done|]. split; [|done].
  apply Forall_lookup. intros p fi Hp. by apply (Hb p).
Qed.

(** [Fields] returns on a schema of the package. *)
Lemma inv_Fields_total s : inv s → ∃ s' fl, Fields s = Some (s', fl).
Proof.
  intros [(_&_&(Hr&Ht&_)&_) _]. unfold Fields.
  destruct (flatCache s) as [fc|]; [by eexists _, _|].
  pose proof Ht as ((r&Hr0&_)&_).
  destruct (walk_total _ Ht (length (fieldHeap s)) O (root s)
              (S (length (fieldHeap s)))) as [fl ->]; try done; try lia.
  - by eapply lookup_lt_Some.
  - by eexists _, _.
Qed.

(** The flattened fields of a schema of the package are leaves with a
    closure, and they cover the storage indices. *)
Lemma inv_flat s fl :
  inv s → walk (fieldHeap s) (S (length (fieldHeap s))) (root s) = Some fl →
  covers (fieldHeap s) fl (nFields s) ∧
  (bounded (fieldHeap s) → flat_ok (fieldHeap s) fl).
Proof.
  intros [(_&_&(Hr&Ht&Hb&Hcov&_)&_) Hcal] Hw. split.
  - intros i Hi. destruct (Hcov i Hi) as (p&fi&Hfi&Hidx).
    pose proof (lookup_lt_Some _ _ _ Hfi) as Hlt.
    destruct (walk_reaches _ _ Ht Hr p p (le_n _) Hlt _ _ Hw)
      as (f&k'&lq&Hfq&Hwq&Hsub).
    destruct k' as [|k']; [done|].
    assert (idx fi ≠ -1) as Hleaf by lia.
    rewrite (walk_leaf _ k' f p fi Hfq Hfi Hleaf) in Hwq. injection Hwq as <-.
    exists f, fi. split; [apply Hsub; by left|]. split; [|done].
    unfold deref. by rewrite Hfq.
  - intros Hbd. apply Forall_forall. intros f Hf.
    assert (∀ q gi, fieldHeap s !! q = Some gi →
              map_Forall (λ _ v, nonneg_int v) (default ∅ (order gi)) ∧
              ∀ m, cmp gi = cmpFixed m → map_Forall (λ _ v, nonneg_int v) m)
      as Hints.
    { intros q gi Hgi. destruct (Hcal q gi Hgi) as [_ [N1 N2]].
      destruct (Hbd q gi Hgi) as [B1 B2]. split.
      - intros k v Hkv. split; [by apply (N1 k)|by apply (B1 k)].
      - intros m Hm k v Hkv. split; [by apply (N2 m Hm k)|by apply (B2 m Hm k)]. }
    destruct (walk_leaves _ _ _ _ _ Hw Hf) as (fi&Hd&Hleaf).
    exists fi. split; [done|]. unfold deref in Hd.
    destruct (fieldInternal_ptr f) as [p|]; simpl in Hd; [|done].
    specialize (Hb p fi Hd). split; [lia|].
    destruct (Hcal p fi Hd) as [[?|Hcm] _]; [done|].
    destruct (Hints p fi Hd) as [Ho Hm].
    destruct (cmp fi) as [|m|g|g| |] eqn:Ec; simpl in *; try done.
    + by apply Hm.
    + destruct Hcm as (q&Hq&Hlt).
      destruct (lookup_lt_is_Some_2 _ _ Hlt) as [gi Hgi].
      exists gi. unfold deref. rewrite Hq. split; [done|].
      by destruct (Hints q gi Hgi).
    + destruct Hcm as (q&Hq&Hlt).
      destruct (lookup_lt_is_Some_2 _ _ Hlt) as [gi Hgi].
      exists gi. unfold deref. rewrite Hq. split; [done|].
      by destruct (Hints q gi Hgi).
Qed.

End Parse.
End reach_final.

(** ** The order of the Configs of a schema *)

Module config_props.
Import num benchproc spec intern_props order_props growth_props.
Import walk_props inv_props reach_props reach_final.

Section Configs.
Context `{GoLib}.

Lemma node_elem s cf n : node s cf = Some n → n ∈ nodeHeap s.
Proof.
  unfold node. destruct (c cf) as [p|]; simpl; [|done].
  apply list_elem_of_lookup_2.
Qed.

(** The flattening of a schema of the package. *)
Lemma inv_flatten s :
  inv s →
  ∃ s1 flat, Fields s = Some (s1, flat) ∧ inv s1 ∧
    fieldHeap s1 = fieldHeap s ∧ nodeHeap s1 = nodeHeap s ∧
    nFields s1 = nFields s ∧
    covers (fieldHeap s) flat (nFields s) ∧
    (bounded (fieldHeap s) → flat_ok (fieldHeap s) flat).
Proof.
  intros Hi. destruct (inv_Fields_total s Hi) as (s1&flat&HF).
  destruct (inv_Fields _ _ _ Hi HF) as (Hi1&Hw&(Sn&_&_)&Sh&Sf&_&_).
  destruct (inv_flat s flat Hi Hw) as [Hcov Hok].
  exists s1, flat. done.
Qed.

(** [Config.Less] on two Configs of a schema of the package is [less] on
    their tuples. *)
Lemma Less_less s a b n m s1 flat :
  inv s → node s a = Some n → node s b = Some m →
  Fields s = Some (s1, flat) →
  Less s a b = r ← less (fieldHeap s1) flat (vals n) (vals m); Some (s1, r).
Proof.
  intros [((_&Hnodes)&_) _] Ha Hb HF. unfold Less. rewrite Ha, Hb. simpl.
  rewrite Forall_forall in Hnodes.
  destruct (Hnodes n (node_elem _ _ _ Ha)) as (->&_&_).
  destruct (Hnodes m (node_elem _ _ _ Hb)) as (->&_&_).
  simpl. rewrite Nat.eqb_refl. simpl. rewrite HF. simpl.
  by destruct (less _ _ _ _).
Qed.

Lemma config_less_less s a b n m s1 flat :
  inv s → node s a = Some n → node s b = Some m →
  Fields s = Some (s1, flat) →
  config_less s a b = less (fieldHeap s) flat (vals n) (vals m).
Proof.
  intros Hi Ha Hb HF. unfold config_less.
  rewrite (Less_less s a b n m s1 flat Hi Ha Hb HF).
  destruct (inv_Fields _ _ _ Hi HF) as (_&_&_&->&_).
  by destruct (less _ _ _ _).
Qed.

(** Two Configs that hold one tuple are one Config. *)
Lemma config_eq s a b n m :
  inv s → node s a = Some n → node s b = Some m → vals n = vals m → a = b.
Proof.
  intros [(_&_&_&(_&Hu)&_) _]. unfold node.
  destruct a as [[p|]], b as [[q|]]; simpl; try done.
  intros Hp Hq Hv. by rewrite (Hu p q n m Hp Hq Hv).
Qed.

Lemma node_tuple_ok s cf n :
  inv s → node s cf = Some n → tuple_ok (nFields s) (vals n).
Proof.
  intros [((_&Hnodes)&_) _] Hn. rewrite Forall_forall in Hnodes.
  by destruct (Hnodes n (node_elem _ _ _ Hn)) as (_&?&?).
Qed.

(** The order of [Config.Less] on the Configs of a schema of the
    package. *)
Lemma config_order s :
  inv s → bounded (fieldHeap s) →
  (∀ a b, is_config s a → is_config s b →
     ∃ s' r, Less s a b = Some (s', r) ∧ inv s') ∧
  (∀ a, is_config s a → config_less s a a = Some false) ∧
  (∀ a b, is_config s a → is_config s b →
     config_less s a b = Some true → config_less s b a = Some false) ∧
  (∀ a b c, is_config s a → is_config s b → is_config s c →
     config_less s a b = Some true → config_less s b c = Some true →
     config_less s a c = Some true) ∧
  (∀ a b, is_config s a → is_config s b →
     (config_less s a b = Some false ∧ config_less s b a = Some false ↔ a = b)).
Proof.
  intros Hi Hbd.
  destruct (inv_flatten s Hi) as (s1&flat&HF&Hi1&Sh&Sn&Sf&Hcov&Hok).
  specialize (Hok Hbd).
  split; [|split; [|split; [|split]]].
  - intros a b [n Ha] [m Hb].
    rewrite (Less_less s a b n m s1 flat Hi Ha Hb HF), Sh.
    destruct (less_defined _ _ (vals n) (vals m) Hok) as [r ->].
    by exists s1, r.
  - intros a [n Ha]. rewrite (config_less_less s a a n n s1 flat Hi Ha Ha HF).
    by apply less_irrefl.
  - intros a b [n Ha] [m Hb].
    rewrite (config_less_less s a b n m s1 flat Hi Ha Hb HF).
    rewrite (config_less_less s b a m n s1 flat Hi Hb Ha HF).
    by apply less_asym.
  - intros a b c0 [n Ha] [m Hb] [k Hc].
    rewrite (config_less_less s a b n m s1 flat Hi Ha Hb HF).
    rewrite (config_less_less s b c0 m k s1 flat Hi Hb Hc HF).
    rewrite (config_less_less s a c0 n k s1 flat Hi Ha Hc HF).
    by apply less_trans.
  - intros a b [n Ha] [m Hb]. split.
    + rewrite (config_less_less s a b n m s1 flat Hi Ha Hb HF).
      rewrite (config_less_less s b a m n s1 flat Hi Hb Ha HF).
      intros [H1 H2]. apply (config_eq s a b n m Hi Ha Hb).
      apply (trimmed_ext (nFields s));
        [by eapply node_tuple_ok|by eapply node_tuple_ok|].
      intros i Hix. destruct (Hcov i Hix) as (f&fi&Hin&Hd&<-).
      pose proof (less_neither _ _ _ _ Hok H1 H2) as Hall.
      rewrite Forall_forall in Hall. destruct (Hall f Hin) as (fi'&Hd'&Hv).
      rewrite Hd in Hd'. by injection Hd' as <-.
    + intros <-. rewrite (config_less_less s a a n n s1 flat Hi Ha Ha HF).
      split; by apply less_irrefl.
Qed.

End Configs.
End config_props.

(** ** Configs are immutable *)

Module stable_props.
Import num benchproc spec intern_props growth_props.
Import walk_props inv_props reach_props.

Lemma stable_refl s : stable s s.
Proof.
  split; [done|]. split; [exists []; by rewrite app_nil_r|].
  intros p fi Hp. by exists fi.
Qed.

Lemma stable_trans s1 s2 s3 : stable s1 s2 → stable s2 s3 → stable s1 s3.
Proof.
  intros (A1&[l1 N1]&H1) (A2&[l2 N2]&H2). split; [congruence|]. split.
  - exists (l1 ++ l2). by rewrite N2, N1, app_assoc.
  - intros p fi Hp. destruct (H1 p fi Hp) as (fi2&Hp2&?&?).
    destruct (H2 p fi2 Hp2) as (fi3&Hp3&?&?). exists fi3.
    split; [done|]. split; congruence.
Qed.

Lemma framed_stable s s' : framed s s' → stable s s'.
Proof.
  intros ((Hn&_&Hs)&_&_&_&Hh&_). split; [done|].
  split; [exists []; by rewrite app_nil_r|].
  intros p fi Hp. exists fi. by rewrite Hh.
Qed.

(** A schema with the same nodes and a heap with other closures. *)
Lemma decor_stable s s' :
  self s' = self s → nodeHeap s' = nodeHeap s →
  decor (fieldHeap s) (fieldHeap s') → stable s s'.
Proof.
  intros Hs Hn [_ Hd]. split; [done|].
  split; [exists []; by rewrite app_nil_r|].
  intros p fi Hp. destruct (Hd p fi Hp) as (fi'&?&?&_&?). by exists fi'.
Qed.

Lemma addField_stable s g name s' f :
  addField s g name = Some (s', f) → stable s s'.
Proof.
  intros Ha. destruct (addField_spec _ _ _ _ _ Ha) as (gp&gi&_&Hgi&_&_&->).
  split; [done|]. split; [exists []; by rewrite app_nil_r|]. simpl.
  intros p fi Hp.
  destruct (grown_agree _ _ _
              (mkFieldInternal (Some (self s)) (nFields s) [] cmpNil None) f
              Hgi p fi Hp) as (fi'&?&?&_&_&?).
  by exists fi'.
Qed.

Lemma initField_decor init h f h' :
  call_initField init h f = Some h' → decor h h'.
Proof.
  destruct init as [m| |cm]; simpl; intros Hu.
  - eapply decor_update; [|done]. done.
  - destruct (update h f (set_order (Some ∅))) as [h1|] eqn:E1; simpl in Hu;
      [|done].
    eapply decor_trans.
    + eapply (decor_update h f _ h1); [|exact E1]. done.
    + eapply (decor_update h1 f _ h'); [|exact Hu]. done.
  - eapply decor_update; [|done]. done.
Qed.

Lemma add_init_stable s g name s1 f init h :
  addField s g name = Some (s1, f) →
  call_initField init (fieldHeap s1) f = Some h →
  stable s (set_fieldHeap s1 h).
Proof.
  intros Ha Hc. eapply stable_trans; [by eapply addField_stable|].
  apply decor_stable; [done|done|]. by eapply initField_decor.
Qed.

Lemma projectConfig_loop_stable p init g cfgs : ∀ seen s seen' s',
  projectConfig_loop p init g cfgs seen s = Some (seen', s') → stable s s'.
Proof.
  induction cfgs as [|cfg cfgs IH]; intros seen s seen' s' Hl; simpl in Hl.
  { injection Hl as <- <-. apply stable_refl. }
  destruct (seen !! benchfmt.Key cfg) as [fld|].
  - destruct (store_row s fld _) as [s1|] eqn:Es; simpl in Hl; [|done].
    eapply stable_trans; [|by eapply IH].
    by apply framed_stable, (store_row_framed _ fld (benchfmt.Value cfg)).
  - destruct (configKeys_get p _); [by eapply IH|].
    destruct (addField s g _) as [[s1 fld]|] eqn:Ea; simpl in Hl; [|done].
    destruct (call_initField init _ _) as [h|] eqn:Ec; simpl in Hl; [|done].
    destruct (store_row _ fld _) as [s2|] eqn:Es; simpl in Hl; [|done].
    eapply stable_trans; [by eapply add_init_stable|].
    eapply stable_trans; [|by eapply IH].
    by apply framed_stable, (store_row_framed _ fld (benchfmt.Value cfg)).
Qed.

Lemma call_project_stable pr p s r p' s' pr' :
  call_project pr p s r = Some (p', s', pr') → stable s s'.
Proof.
  destruct pr as [init g seen|fld|ext fld]; simpl; intros Hc.
  - destruct (projectConfig_loop _ _ _ _ _ _) as [[seen' s1]|] eqn:E;
      simpl in Hc; [|done].
    injection Hc as <- <- <-. by eapply projectConfig_loop_stable.
  - destruct (fullExtractor p) as [ext|] eqn:Efe; simpl in Hc.
    + rewrite Efe in Hc. simpl in Hc.
      destruct (extract.apply ext r) as [val|]; simpl in Hc; [|done].
      destruct (store_row s fld val) as [s1|] eqn:Es; simpl in Hc; [|done].
      injection Hc as <- <- <-. by apply framed_stable, (store_row_framed _ fld val).
    + destruct (extract.apply _ r) as [val|]; simpl in Hc; [|done].
      destruct (store_row s fld val) as [s1|] eqn:Es; simpl in Hc; [|done].
      injection Hc as <- <- <-. by apply framed_stable, (store_row_framed _ fld val).
  - destruct (extract.apply ext r) as [val|]; simpl in Hc; [|done].
    destruct (store_row s fld val) as [s1|] eqn:Es; simpl in Hc; [|done].
    injection Hc as <- <- <-. by apply framed_stable, (store_row_framed _ fld val).
Qed.

Lemma populate_loop_stable projs : ∀ i p s r p' s',
  populate_loop projs i p s r = Some (p', s') → stable s s'.
Proof.
  induction projs as [|pr projs IH]; intros i p s r p' s' Hl; simpl in Hl.
  { injection Hl as <- <-. apply stable_refl. }
  destruct (call_project pr p s r) as [[[p1 s1] pr1]|] eqn:Ec; simpl in Hl;
    [|done].
  eapply stable_trans; [by eapply call_project_stable|].
  eapply stable_trans; [|by eapply IH].
  apply decor_stable; [done|done|apply decor_refl].
Qed.

Lemma populateRow_stable p s r p' s' :
  populateRow p s r = Some (p', s') → stable s s'.
Proof.
  unfold populateRow. intros Hl.
  eapply stable_trans; [|by eapply populate_loop_stable].
  apply framed_stable. unfold framed, same_nodes. simpl.
  by rewrite length_fmap.
Qed.

Lemma Fields_stable s s' fl : Fields s = Some (s', fl) → stable s s'.
Proof.
  unfold Fields. destruct (flatCache s).
  - intros [= <- _]. apply stable_refl.
  - destruct (walk _ _ _); simpl; [|done]. intros [= <- _].
    apply decor_stable; [done|done|apply decor_refl].
Qed.

Lemma observe_all_decor_only row fields : ∀ h h',
  observe_all h row fields = Some h' → decor h h'.
Proof.
  induction fields as [|f fields IH]; intros h h' Ho; simpl in Ho.
  { injection Ho as <-. apply decor_refl. }
  destruct (observe h row f) as [h1|] eqn:E1; simpl in Ho; [|done].
  eapply decor_trans; [|by eapply IH]. clear Ho. unfold observe in E1.
  destruct (deref h f) as [fi|]; simpl in E1; [|done].
  destruct (order fi) as [o|]; [|injection E1 as <-; apply decor_refl].
  destruct (if idx fi <? _ then _ else _) as [val|]; simpl in E1; [|done].
  destruct (o !! val); [injection E1 as <-; apply decor_refl|].
  eapply decor_update; [|done]. done.
Qed.

Section Stable.
Context `{GoLib}.

Lemma internRow_stable s s' cf : internRow s = Some (s', cf) → stable s s'.
Proof.
  unfold internRow. intros Hr.
  destruct (find_config s _ _) as [[p|]|] eqn:Ef; simpl in Hr; [| |done].
  { injection Hr as <- <-. apply stable_refl. }
  destruct (Fields s) as [[s1 fields]|] eqn:EF; simpl in Hr; [|done].
  destruct (observe_all _ _ _) as [h|] eqn:Eo; simpl in Hr; [|done].
  injection Hr as <- <-.
  eapply stable_trans; [by eapply Fields_stable|].
  pose proof (observe_all_decor_only _ _ _ _ Eo) as [_ Hd].
  split; [done|]. split; [by eexists|]. simpl.
  intros p fi Hp. destruct (Hd p fi Hp) as (fi'&?&?&_&?). by exists fi'.
Qed.

Lemma Project_stable p s r p' s' cf :
  Project p s r = Some (p', s', cf) → stable s s'.
Proof.
  unfold Project. intros Hp.
  destruct (populateRow p s r) as [[p1 s1]|] eqn:E1; simpl in Hp; [|done].
  destruct (internRow s1) as [[s2 cf2]|] eqn:E2; simpl in Hp; [|done].
  injection Hp as <- <- <-.
  eapply stable_trans; [by eapply populateRow_stable|by eapply internRow_stable].
Qed.

Lemma values_loop_stable u vs : ∀ s out s' out',
  values_loop s u vs out = Some (s', out') → stable s s'.
Proof.
  induction vs as [|v vs IH]; intros s out s' out' Hl; simpl in Hl.
  { injection Hl as <- <-. apply stable_refl. }
  destruct (store (row s) u _) as [r|] eqn:Es; simpl in Hl; [|done].
  destruct (internRow _) as [[s1 cf]|] eqn:Ei; simpl in Hl; [|done].
  eapply stable_trans; [|by eapply IH].
  eapply stable_trans; [|by eapply internRow_stable].
  apply framed_stable. unfold framed, same_nodes. simpl.
  by rewrite (store_length _ _ _ _ Es).
Qed.

Lemma ProjectValues_stable p s r p' s' cfs :
  ProjectValues p s r = Some (p', s', cfs) → stable s s'.
Proof.
  unfold ProjectValues. intros Hp.
  destruct (populateRow p s r) as [[p1 s1]|] eqn:E1; simpl in Hp; [|done].
  eapply stable_trans; [by eapply populateRow_stable|].
  destruct (fieldInternal_ptr (unitField s1)).
  - destruct (deref _ _) as [ui|]; simpl in Hp; [|done].
    destruct (values_loop _ _ _ _) as [[s2 out]|] eqn:E2; simpl in Hp; [|done].
    injection Hp as <- <- <-. by eapply values_loop_stable.
  - destruct (internRow s1) as [[s2 cf2]|] eqn:E2; simpl in Hp; [|done].
    injection Hp as <- <- <-. by eapply internRow_stable.
Qed.

Lemma AddValues_stable s s' f : AddValues s = Some (s', f) → stable s s'.
Proof.
  unfold AddValues. destruct (fieldInternal_ptr (unitField s)); [done|].
  destruct (addField s (root s) ".unit") as [[s1 fld]|] eqn:Ea; simpl; [|done].
  destruct (update (fieldHeap s1) fld _) as [h1|] eqn:E1; simpl; [|done].
  destruct (update h1 fld _) as [h2|] eqn:E2; simpl; [|done].
  intros [= <- <-]. eapply stable_trans; [by eapply addField_stable|].
  apply decor_stable; [done|done|]. simpl. eapply decor_trans.
  - eapply (decor_update _ fld _ h1); [|exact E1]. done.
  - eapply (decor_update h1 fld _ h2); [|exact E2]. done.
Qed.

Lemma later_stable s s' : later s s' → stable s s'.
Proof.
  induction 1 as [s|s s1 s' f _ IH Ha|s s1 p r p' s' cf _ IH Hp
                 |s s1 p r p' s' cfs _ IH Hp|s s1 s' fl _ IH Hf].
  - apply stable_refl.
  - eapply stable_trans; [exact IH|by eapply AddValues_stable].
  - eapply stable_trans; [exact IH|by eapply Project_stable].
  - eapply stable_trans; [exact IH|by eapply ProjectValues_stable].
  - eapply stable_trans; [exact IH|by eapply Fields_stable].
Qed.

(** A later state reads from a Config what the state read. *)
Lemma stable_Get s s' cf f v :
  stable s s' → Get s cf f = Some v → Get s' cf f = Some v.
Proof.
  intros (Hs&[l Hn]&Hh). unfold Get. destruct (IsZero cf); [done|].
  unfold node. destruct (c cf) as [p|]; simpl; [|done].
  destruct (nodeHeap s !! p) as [n|] eqn:En; simpl; [|done].
  rewrite Hn, (lookup_app_l_Some _ _ _ _ En). simpl.
  unfold deref. destruct (fieldInternal_ptr f) as [q|]; simpl; [|done].
  destruct (fieldHeap s !! q) as [fi|] eqn:Efi; simpl; [|done].
  destruct (Hh q fi Efi) as (fi'&->&Hi&Hsc). simpl. by rewrite Hi, Hsc.
Qed.

End Stable.
End stable_props.

(** ** Schemas of the package: what every caller can rely on *)

Module schema_extra.
Import num benchproc spec intern_props order_props growth_props.
Import walk_props inv_props reach_props reach_final config_props stable_props.

Section Schemas.
Context `{GoLib}.

(** What [Get] reads from a Config of the schema for a flattened field. *)
Lemma Get_value s a n f fi :
  inv s → node s a = Some n → deref (fieldHeap s) f = Some fi →
  idx fi ≠ -1 →
  Get s a f = Some (value_at (vals n) (idx fi)).
Proof.
  intros [((_&Hnodes)&_&(_&_&Hb&_&Hsch)&_) _] Ha Hd Hleaf. unfold Get.
  assert (IsZero a = false) as ->.
  { unfold IsZero. unfold node in Ha. by destruct (c a). }
  rewrite Ha. simpl. rewrite Hd. simpl.
  rewrite Forall_forall in Hnodes.
  destruct (Hnodes n (node_elem _ _ _ Ha)) as (->&_&_).
  unfold deref in Hd. destruct (fieldInternal_ptr f) as [p|]; simpl in Hd; [|done].
  rewrite (Hsch p fi Hd Hleaf). simpl. rewrite Nat.eqb_refl. simpl.
  specialize (Hb p fi Hd). unfold value_at.
  destruct (Z.of_nat (length (vals n)) <=? idx fi) eqn:E.
  - apply Z.leb_le in E. rewrite (lookup_ge_None_2 (vals n)) by lia. done.
  - apply Z.leb_gt in E. unfold index.
    destruct (0 <=? idx fi) eqn:E0; [|apply Z.leb_gt in E0; lia].
    destruct (lookup_lt_is_Some_2 (vals n) (Z.to_nat (idx fi)) ltac:(lia))
      as [v Hv]. by rewrite Hv.
Qed.

(** X1.  Every schema that [Parse] or [Residue] makes, after any calls of
    [AddValues], [Project], [ProjectValues] and [Fields] with any parser,
    satisfies the invariant of the package: the row buffer has [nFields]
    slots and every stored tuple is of this schema, trimmed, and no longer
    than [nFields]; the storage indices in use are those from 0 to
    [nFields], and only groups have index -1; the fields are a tree
    under the root; every leaf has a comparison closure and points back
    to the schema; the flatten cache, when set, is the flattening; and
    every node is in the hash bucket of its tuple, which no other node
    holds. *)
Theorem schema_invariant s :
  reachable s →
  nodes_ok s ∧ idx_bound s ∧ cache_ok s ∧ fields_ok s ∧
  callable (fieldHeap s) ∧ nodes_unique s.
Proof.
  intros Hr. pose proof (reachable_inv s Hr) as Hi.
  destruct (inv_wf s Hi) as (Hn&Hb&Hc).
  destruct Hi as [(_&_&Hf&Hu&_) Hcal]. done.
Qed.

(** X2.  On a schema of the package [Fields] returns, and what it
    returns is cached: a second call returns the same fields and changes
    nothing.  The fields returned are leaves of the schema, each with a
    storage index from 0 to [nFields], and every such index belongs to
    one of them; the call changes neither the fields nor the Configs. *)
Theorem Fields_flattening s :
  reachable s →
  ∃ s' fl, Fields s = Some (s', fl) ∧ Fields s' = Some (s', fl) ∧
    fieldHeap s' = fieldHeap s ∧ nodeHeap s' = nodeHeap s ∧
    nFields s' = nFields s ∧
    (∀ f, f ∈ fl →
       ∃ fi, deref (fieldHeap s) f = Some fi ∧ 0 ≤ idx fi < nFields s ∧
             schema fi = Some (self s)) ∧
    covers (fieldHeap s) fl (nFields s).
Proof.
  intros Hr. pose proof (reachable_inv s Hr) as Hi.
  destruct (inv_flatten s Hi) as (s1&fl&HF&Hi1&Sh&Sn&Sf&Hcov&_).
  destruct (inv_Fields _ _ _ Hi HF) as (_&Hw&_).
  exists s1, fl. split; [done|]. split; [|split; [done|split; [done|split; [done|split; [|done]]]]].
  - unfold Fields in *. destruct (flatCache s) as [fc|] eqn:E.
    + injection HF as <- <-. by rewrite E.
    + destruct (walk _ _ _); simpl in HF; [|done]. by injection HF as <- <-.
  - intros f Hf. destruct (walk_leaves _ _ _ _ _ Hw Hf) as (fi&Hd&Hleaf).
    exists fi. split; [done|]. destruct Hi as [(_&_&(_&_&Hb&_&Hsch)&_) _].
    unfold deref in Hd. destruct (fieldInternal_ptr f) as [p|]; simpl in Hd; [|done].
    specialize (Hb p fi Hd). split; [lia|]. by apply (Hsch p).
Qed.

(** X3.  On a schema of the package whose ints did not overflow,
    [Config.Less] returns on every two Configs of the schema, and it is
    a strict total order on them: no Config is before itself, the order
    is asymmetric and transitive, and of two Configs that are not the
    same one is before the other. *)
Theorem Config_Less_strict_total s :
  reachable s → bounded (fieldHeap s) →
  (∀ a b, is_config s a → is_config s b →
     ∃ s' r, Less s a b = Some (s', r) ∧ nodeHeap s' = nodeHeap s) ∧
  (∀ a, is_config s a → config_less s a a = Some false) ∧
  (∀ a b, is_config s a → is_config s b →
     config_less s a b = Some true → config_less s b a = Some false) ∧
  (∀ a b c, is_config s a → is_config s b → is_config s c →
     config_less s a b = Some true → config_less s b c = Some true →
     config_less s a c = Some true) ∧
  (∀ a b, is_config s a → is_config s b → a ≠ b →
     config_less s a b = Some true ∨ config_less s b a = Some true).
Proof.
  intros Hr Hbd. pose proof (reachable_inv s Hr) as Hi.
  destruct (config_order s Hi Hbd) as (Hdef&Hirr&Hasym&Htr&Heq).
  split; [|split; [done|split; [done|split; [done|]]]].
  - intros a b Ha Hb. destruct (Hdef a b Ha Hb) as (s'&r&HL&_).
    exists s', r. split; [done|]. unfold Less in HL.
    destruct (node s a); simpl in HL; [|done].
    destruct (node s b); simpl in HL; [|done].
    destruct (negb _); [done|].
    destruct (Fields s) as [[s1 fl]|] eqn:HF; simpl in HL; [|done].
    destruct (less _ _ _ _); simpl in HL; [|done]. injection HL as <- _.
    by destruct (inv_Fields _ _ _ Hi HF) as (_&_&(?&_)&_).
  - intros a b Ha Hb Hne.
    destruct (Hdef a b Ha Hb) as (s1&r1&H1&_).
    destruct (Hdef b a Hb Ha) as (s2&r2&H2&_).
    assert (config_less s a b = Some r1) as C1 by (unfold config_less; by rewrite H1).
    assert (config_less s b a = Some r2) as C2 by (unfold config_less; by rewrite H2).
    destruct r1; [by left|]. destruct r2; [by right|].
    exfalso. apply Hne. by apply (Heq a b Ha Hb).
Qed.

(** X4.  On a schema of the package [Get] returns for every Config of
    the schema and every field that [Fields] lists, and the values
    determine the Config: two Configs of the schema that read the same
    for every field are the same Config. *)
Theorem Configs_determined_by_values s s1 fl a b :
  reachable s → Fields s = Some (s1, fl) →
  is_config s a → is_config s b →
  (∀ f, f ∈ fl → ∃ v, Get s a f = Some v) ∧
  ((∀ f, f ∈ fl → Get s a f = Get s b f) → a = b).
Proof.
  intros Hr HF [n Ha] [m Hb]. pose proof (reachable_inv s Hr) as Hi.
  destruct (inv_Fields _ _ _ Hi HF) as (_&Hw&_).
  destruct (inv_flat s fl Hi Hw) as [Hcov _].
  assert (∀ f c k, f ∈ fl → node s c = Some k →
            ∃ fi, deref (fieldHeap s) f = Some fi ∧
                  Get s c f = Some (value_at (vals k) (idx fi))) as HG.
  { intros f c0 k Hf Hc. destruct (walk_leaves _ _ _ _ _ Hw Hf) as (fi&Hd&Hleaf).
    exists fi. split; [done|]. by apply Get_value. }
  split.
  - intros f Hf. destruct (HG f a n Hf Ha) as (fi&_&->). by eexists.
  - intros Hall. apply (config_eq s a b n m Hi Ha Hb).
    apply (trimmed_ext (nFields s));
      [by eapply node_tuple_ok|by eapply node_tuple_ok|].
    intros i Hix. destruct (Hcov i Hix) as (f&fi&Hin&Hd&<-).
    specialize (Hall f Hin).
    destruct (HG f a n Hin Ha) as (fi1&Hd1&G1).
    destruct (HG f b m Hin Hb) as (fi2&Hd2&G2).
    rewrite Hd in Hd1, Hd2. injection Hd1 as <-. injection Hd2 as <-.
    rewrite G1, G2 in Hall. by injection Hall.
Qed.

(** X5.  Configs are immutable: after any further calls of [AddValues],
    [Project], [ProjectValues] and [Fields] on the schema, every Config
    denotes the node it denoted, every field keeps its storage index,
    and [Get] reads from every Config, for every field, the value it
    read before. *)
Theorem Configs_immutable s s' :
  later s s' →
  (∀ cf n, node s cf = Some n → node s' cf = Some n) ∧
  (∀ f fi, deref (fieldHeap s) f = Some fi →
     ∃ fi', deref (fieldHeap s') f = Some fi' ∧ idx fi' = idx fi) ∧
  (∀ cf f v, Get s cf f = Some v → Get s' cf f = Some v).
Proof.
  intros Hl. pose proof (later_stable s s' Hl) as Hst.
  split; [|split].
  - destruct Hst as (_&[l Hn]&_). intros cf n. unfold node.
    destruct (c cf) as [p|]; simpl; [|done]. intros Hp.
    by rewrite Hn, (lookup_app_l_Some _ _ _ _ Hp).
  - destruct Hst as (_&_&Hh). intros f fi. unfold deref.
    destruct (fieldInternal_ptr f) as [p|]; simpl; [|done]. intros Hp.
    destruct (Hh p fi Hp) as (fi'&?&?&_). by exists fi'.
  - intros cf f v. by apply stable_Get.
Qed.

End Schemas.
End schema_extra.

(** ** Fields that vary over a set of configs (NonSingularFields) *)

Module nonsingular_props.
Import num benchproc spec intern_props order_props growth_props.
Import walk_props inv_props reach_props reach_final config_props stable_props.
Import schema_extra.

Section NonSingular.
Context `{GoLib}.

Lemma differs_spec s f base rest :
  Forall (λ c, is_Some (Get s c f)) rest →
  differs s f base rest =
    Some (existsb (λ c, negb (String.eqb (val s c f) base)) rest).
Proof.
  induction 1 as [|c rest [v Hv] _ IH]; [done|].
  assert (val s c f = v) as Ev by (unfold val; by rewrite Hv).
  cbn [differs existsb]. rewrite Ev, Hv. cbn [mbind option_bind].
  destruct (String.eqb v base); cbn [negb orb]; [exact IH|done].
Qed.

Lemma nonsingular_loop_spec s c0 rest fields : ∀ out,
  Forall (λ f, Forall (λ c, is_Some (Get s c f)) (c0 :: rest)) fields →
  nonsingular_loop s c0 rest fields out =
    Some (out ++ filter (λ f, existsb (λ c, negb (String.eqb (val s c f)
                                                   (val s c0 f))) rest = true)
                   fields).
Proof.
  intros out Hall. revert out.
  induction Hall as [|f fields Hf _ IH]; intros out.
  { cbn [nonsingular_loop]. by rewrite filter_nil, app_nil_r. }
  apply Forall_cons in Hf as [[v0 Hv0] Hrest].
  assert (val s c0 f = v0) as Ev by (unfold val; by rewrite Hv0).
  cbn [nonsingular_loop]. rewrite Hv0. cbn [mbind option_bind].
  rewrite (differs_spec _ _ _ _ Hrest). cbn [mbind option_bind].
  rewrite IH. f_equal.
  destruct (existsb _ rest) eqn:E.
  - rewrite filter_cons_True by (by rewrite Ev, E).
    by rewrite <- app_assoc.
  - rewrite filter_cons_False; [done|]. by rewrite Ev, E.
Qed.

(** Configs of the schema have it as their common schema. *)
Lemma commonSchema_configs s cfs :
  inv s → Forall (is_config s) cfs → cfs ≠ [] →
  commonSchema s cfs = Some (Some (self s)).
Proof.
  intros Hi Hcfs Hne.
  assert (∀ c n, node s c = Some n → nschema n = Some (self s)) as Hsch.
  { intros c n Hn. destruct Hi as [((_&Hnodes)&_) _].
    rewrite Forall_forall in Hnodes.
    by destruct (Hnodes n (node_elem _ _ _ Hn)) as (?&_). }
  destruct cfs as [|c0 rest]; [done|].
  apply Forall_cons in Hcfs as [[n0 Hn0] Hrest].
  cbn [commonSchema]. rewrite Hn0. cbn [mbind option_bind].
  rewrite (Hsch _ _ Hn0).
  assert (mapM (λ cf, n ← node s cf;
                  if option_nat_eqb (nschema n) (Some (self s))
                  then Some () else None) rest
          = Some (replicate (length rest) ())) as ->; [|done].
  clear Hne. induction Hrest as [|c1 rest [n1 Hn1] _ IH]; [done|].
  cbn [mapM]. rewrite Hn1. cbn [mbind option_bind].
  rewrite (Hsch _ _ Hn1). cbn [option_nat_eqb]. rewrite Nat.eqb_refl.
  cbn [mbind option_bind]. rewrite IH. done.
Qed.

(** X6.  On a schema of the package and Configs of that schema,
    [NonSingularFields] returns a sublist of [Fields], in the order of
    the schema: a field is in it exactly when two of the Configs read
    different values for it; so comparing with the first Config finds
    every field that varies.  For no Config or one it returns no field.
    The Configs are left as they are. *)
Theorem NonSingularFields_varies s cfs :
  reachable s → Forall (is_config s) cfs →
  ∃ s' out, NonSingularFields s cfs = Some (s', out) ∧
    nodeHeap s' = nodeHeap s ∧
    ((length cfs ≤ 1)%nat → out = []) ∧
    ∀ s1 fl, Fields s = Some (s1, fl) →
      sublist out fl ∧ ∀ f, f ∈ fl → (f ∈ out ↔ varies s cfs f).
Proof.
  intros Hr Hcfs. pose proof (reachable_inv s Hr) as Hi.
  destruct (inv_flatten s Hi) as (s1&fl&HF&Hi1&Sh&Sn&Sf&Hcov&_).
  destruct (inv_Fields _ _ _ Hi HF) as (_&Hw&_).
  assert (∀ c f, Get s1 c f = Get s c f) as HG.
  { intros c0 f. unfold Get, node. by rewrite Sn, Sh. }
  assert (∀ c f, is_config s c → f ∈ fl → is_Some (Get s c f)) as Hget.
  { intros c0 f [n Hn] Hf.
    destruct (walk_leaves _ _ _ _ _ Hw Hf) as (fi&Hd&Hleaf).
    rewrite (Get_value s c0 n f fi Hi Hn Hd Hleaf). by eexists. }
  unfold NonSingularFields.
  destruct (length cfs <=? 1)%nat eqn:El.
  - apply Nat.leb_le in El. exists s, []. split; [done|]. split; [done|].
    split; [done|]. intros s2 fl2 HF2. split; [apply sublist_nil_l|].
    intros f Hf. split; [by intros ?%elem_of_nil|].
    intros (a&b&Ha&Hb&Hne). exfalso.
    destruct cfs as [|c0 [|c1 cfs]]; simpl in El; [by apply elem_of_nil in Ha| |lia].
    apply list_elem_of_singleton in Ha, Hb. by subst.
  - apply Nat.leb_gt in El. destruct cfs as [|c0 rest]; [simpl in El; lia|].
    apply Forall_cons in Hcfs as [Hc0 Hrest].
    rewrite (commonSchema_configs s (c0 :: rest) Hi); [|by constructor|done].
    cbn [mbind option_bind]. rewrite HF. cbn [mbind option_bind].
    rewrite (nonsingular_loop_spec s1 c0 rest fl []).
    2:{ apply Forall_forall. intros f Hf. apply Forall_forall. intros c1 Hc1.
        rewrite HG. apply Hget; [|done].
        apply elem_of_cons in Hc1 as [->|Hc1]; [done|].
        rewrite Forall_forall in Hrest. by apply Hrest. }
    simpl. eexists _, _. split; [done|]. split; [done|].
    split; [simpl in El; lia|].
    intros s2 fl2 HF2. injection HF2 as <- <-.
    split; [apply sublist_filter|].
    intros f Hf. rewrite list_elem_of_filter.
    assert (∀ c, c ∈ c0 :: rest → ∃ v, Get s c f = Some v ∧ val s1 c f = v)
      as Hv.
    { intros c1 Hc1. destruct (Hget c1 f) as [v Hv]; [|done|].
      - apply elem_of_cons in Hc1 as [->|Hc1]; [done|].
        rewrite Forall_forall in Hrest. by apply Hrest.
      - exists v. split; [done|]. unfold val. by rewrite HG, Hv. }
    split.
    + intros [Hex _]. apply existsb_exists in Hex as (c1&Hin&Hne).
      apply list_elem_of_In in Hin.
      destruct (Hv c0 ltac:(left)) as (v0&G0&V0).
      destruct (Hv c1 ltac:(by right)) as (v1&G1&V1).
      exists c1, c0. split; [by right|]. split; [left|].
      rewrite G0, G1. intros [= E]. rewrite V0, V1, E, String.eqb_refl in Hne.
      done.
    + intros (a&b&Ha&Hb&Hne). split; [|done].
      destruct (Hv c0 ltac:(left)) as (v0&G0&V0).
      destruct (Hv a Ha) as (va&Ga&Va). destruct (Hv b Hb) as (vb&Gb&Vb).
      assert (va ≠ v0 ∨ vb ≠ v0) as Hd.
      { destruct (decide (va = v0)) as [->|]; [|by left].
        right. intros ->. apply Hne. by rewrite Ga, Gb. }
      apply existsb_exists.
      destruct Hd as [Hd|Hd].
      * exists a. split.
        -- apply elem_of_cons in Ha as [->|Ha]; [by rewrite Ga in G0; injection G0|].
           by apply list_elem_of_In.
        -- rewrite Va, V0. apply negb_true_iff. by apply String.eqb_neq.
      * exists b. split.
        -- apply elem_of_cons in Hb as [->|Hb]; [by rewrite Gb in G0; injection G0|].
           by apply list_elem_of_In.
        -- rewrite Vb, V0. apply negb_true_iff. by apply String.eqb_neq.
Qed.

End NonSingular.
End nonsingular_props.

(** ** The file configuration of a result and its index *)

Module fileconfig_props.
Import benchfmt fileconfig result_spec.

Lemma elem_Some {A} (l : list A) i x :
  elem l i = Some x ↔ 0 ≤ i ∧ l !! Z.to_nat i = Some x.
Proof.
  unfold elem. destruct (0 <=? i) eqn:E.
  - apply Z.leb_le in E. split; [by intros ?|by intros [_ ?]].
  - apply Z.leb_gt in E. split; [done|]. intros [? _]. lia.
Qed.


(** The index that the loop builds over distinct keys. *)
Lemma index_from_lookup l : ∀ i m k j,
  NoDup (keys l) →
  (((index_from l i m) !! k = Some j) ↔
    (((i ≤ j) ∧ (keys l !! Z.to_nat (j - i) = Some k)) ∨
     ((k ∉ keys l) ∧ m !! k = Some j))).
Proof.
  induction l as [|c l IH]; intros i m k j Hnd; simpl.
  { split; [intros ?; right; split; [apply not_elem_of_nil|done]|].
    intros [[_ ?]|[_ ?]]; done. }
  apply NoDup_cons in Hnd as [Hc Hnd]. fold (keys l) in *.
  rewrite (IH _ _ _ _ Hnd). split.
  - intros [[Hij Hl]|[Hk Hm]].
    + left. split; [lia|].
      replace (Z.to_nat (j - i)) with (S (Z.to_nat (j - (i + 1)))) by lia.
      done.
    + apply lookup_insert_Some in Hm as [[<- <-]|[Hne Hm]].
      * left. split; [lia|]. by rewrite Z.sub_diag.
      * right. split; [|done]. intros [?|?]%elem_of_cons; done.
  - intros [[Hij Hl]|[Hk Hm]].
    + destruct (Z.to_nat (j - i)) as [|q] eqn:Eq.
      * injection Hl as <-. right. split; [done|].
        replace j with i by lia. apply lookup_insert_eq.
      * left. split; [lia|]. simpl in Hl.
        by replace (Z.to_nat (j - (i + 1))) with q by lia.
    + right. apply not_elem_of_cons in Hk as [Hne Hk]. split; [done|].
      by rewrite lookup_insert_ne.
Qed.

(** [FileConfigIndex] builds an index in step, and changes nothing else. *)
Lemma FileConfigIndex_in_step r key :
  in_step r →
  ∃ m, FileConfigIndex r key
       = (mkResult (FileConfig r) (spare r) (Some m), m, m !! key) ∧
    in_step (mkResult (FileConfig r) (spare r) (Some m)) ∧
    ∀ k i, m !! k = Some i ↔ 0 ≤ i ∧ keys (FileConfig r) !! Z.to_nat i = Some k.
Proof.
  intros [Hnd Hm]. unfold FileConfigIndex.
  assert (∃ m, match configPos r with
               | Some m => m
               | None => index_from (FileConfig r) 0 ∅
               end = m ∧
               ∀ k i, m !! k = Some i ↔
                 0 ≤ i ∧ keys (FileConfig r) !! Z.to_nat i = Some k)
    as (m&->&Hex).
  { destruct (configPos r) as [m|] eqn:E.
    - exists m. split; [done|]. by apply Hm.
    - eexists. split; [done|]. intros k i.
      rewrite (index_from_lookup _ _ _ _ _ Hnd), Z.sub_0_r.
      split; [intros [?|[_ ?]]; done|]. by left. }
  exists m. split; [done|]. split; [|done].
  split; [done|]. simpl. by intros ? [= <-].
Qed.

Lemma keys_lookup l p k :
  keys l !! p = Some k ↔ ∃ c, l !! p = Some c ∧ Key c = k.
Proof.
  unfold keys. rewrite list_lookup_fmap_Some. split.
  - intros (c&Hc&->). by exists c.
  - intros (c&Hc&<-). by exists c.
Qed.

Lemma pair_value_elem l c :
  NoDup (keys l) → c ∈ l → pair_value l (Key c) = Value c.
Proof.
  unfold pair_value. induction l as [|d l IH]; intros Hnd Hc.
  { by apply elem_of_nil in Hc. }
  apply NoDup_cons in Hnd as [Hd Hnd]. simpl.
  destruct (String.eqb (Key d) (Key c)) eqn:E.
  - apply String.eqb_eq in E. apply elem_of_cons in Hc as [->|Hc]; [done|].
    exfalso. apply Hd. rewrite E. unfold keys. apply list_elem_of_fmap.
    by exists c.
  - apply elem_of_cons in Hc as [->|Hc]; [by rewrite String.eqb_refl in E|].
    by apply IH.
Qed.

Lemma pair_value_none l k : k ∉ keys l → pair_value l k = [].
Proof.
  unfold pair_value. induction l as [|d l IH]; intros Hk; [done|].
  apply not_elem_of_cons in Hk as [Hne Hk]. simpl.
  destruct (String.eqb (Key d) k) eqn:E.
  - apply String.eqb_eq in E. done.
  - by apply IH.
Qed.

(** Two lists of distinct keys with the same pairs for [k] give it the
    same value. *)
Lemma pair_value_ext l l' k :
  NoDup (keys l) → NoDup (keys l') →
  (∀ c, Key c = k → c ∈ l ↔ c ∈ l') →
  pair_value l k = pair_value l' k.
Proof.
  intros Hnd Hnd' Heq.
  destruct (decide (k ∈ keys l)) as [Hin|Hin].
  - apply list_elem_of_fmap in Hin as (c&->&Hc).
    rewrite (pair_value_elem l c Hnd Hc).
    symmetry. apply pair_value_elem; [done|]. by apply Heq.
  - rewrite (pair_value_none l k Hin). symmetry. apply pair_value_none.
    intros (c&->&Hc)%list_elem_of_fmap. apply Hin.
    apply list_elem_of_fmap. exists c. split; [done|]. by apply Heq.
Qed.

(** [GetFileConfig] reads the value of the pair with the key. *)
Lemma GetFileConfig_pair r key :
  in_step r →
  ∃ r1, GetFileConfig r key
        = Some (r1, str (pair_value (FileConfig r) key)) ∧
    FileConfig r1 = FileConfig r ∧ spare r1 = spare r ∧ in_step r1.
Proof.
  intros Hs. destruct (FileConfigIndex_in_step r key Hs) as (m&E&Hs1&Hex).
  unfold GetFileConfig. rewrite E.
  destruct (m !! key) as [pos|] eqn:Ep.
  - apply Hex in Ep as [Hpos Hk]. apply keys_lookup in Hk as (c&Hc&<-).
    cbn [FileConfig]. rewrite (proj2 (elem_Some _ _ _) (conj Hpos Hc)).
    cbn [mbind option_bind].
    exists (mkResult (FileConfig r) (spare r) (Some m)). split; [|done].
    rewrite (pair_value_elem _ c (proj1 Hs)); [done|].
    by eapply list_elem_of_lookup_2.
  - exists (mkResult (FileConfig r) (spare r) (Some m)). split; [|done].
    rewrite pair_value_none; [done|].
    intros (p&Hp)%list_elem_of_lookup.
    assert (m !! key = Some (Z.of_nat p)) as Hm.
    { apply Hex. split; [lia|]. by rewrite Nat2Z.id. }
    congruence.
Qed.


(** X7.  [GetFileConfig] returns the value of the pair of [FileConfig]
    that has the key, and the empty string when no pair has it; it
    builds the index if need be and leaves the pairs as they are. *)
Theorem GetFileConfig_value r key :
  in_step r →
  ∃ r1, GetFileConfig r key
        = Some (r1, str (pair_value (FileConfig r) key)) ∧
    FileConfig r1 = FileConfig r ∧ in_step r1 ∧
    (key ∉ keys (FileConfig r) → reads r key "").
Proof.
  intros Hs. destruct (GetFileConfig_pair r key Hs) as (r1&E&Hl&_&Hs1).
  exists r1. split; [done|]. split; [done|]. split; [done|].
  intros Hk. exists r1. by rewrite E, pair_value_none.
Qed.


(** The pairs that a deletion at [p] leaves: the last pair takes the
    place [p], and the list loses its last place. *)
Lemma swap_lookup {A} (l : list A) (p : nat) (c2 x : A) (i : nat) :
  take (length l - 1) (<[p := c2]> l) !! i = Some x ↔
    (i < length l - 1)%nat ∧
    ((i = p ∧ x = c2) ∨ (i ≠ p ∧ l !! i = Some x)).
Proof.
  rewrite lookup_take_Some, list_lookup_insert_Some. split.
  - intros [[(->&->&Hp)|[Hne Hl]] Hi]; (split; [done|]); [by left|by right].
  - intros [Hi [[-> ->]|[Hne Hl]]]; (split; [|done]).
    + left. split; [done|]. split; [done|]. lia.
    + right. done.
Qed.

(** X9.  [SetFileConfig] with the empty value deletes the pair of the
    key, if there is one, and never panics on a result whose index is in
    step: the last pair takes the place of the deleted one, every other
    pair stays where it is, and the index is kept in step.  Afterwards
    [GetFileConfig] returns the empty string for the key and what it
    returned before for every other key. *)
Theorem SetFileConfig_empty_deletes r key :
  in_step r →
  ∃ r', SetFileConfig r key "" = Some r' ∧ in_step r' ∧
    (∀ c, c ∈ FileConfig r' ↔ c ∈ FileConfig r ∧ Key c ≠ key) ∧
    (key ∉ keys (FileConfig r) → FileConfig r' = FileConfig r) ∧
    (∀ p, keys (FileConfig r) !! p = Some key →
       ∃ c2, last (FileConfig r) = Some c2 ∧
         FileConfig r' = take (length (FileConfig r) - 1)
                              (<[p := c2]> (FileConfig r))) ∧
    reads r' key "" ∧
    ∀ k v, k ≠ key → reads r k v → reads r' k v.
Proof.
  intros Hs. destruct (FileConfigIndex_in_step r key Hs) as (m&E&Hs1&Hex).
  pose proof (proj1 Hs) as Hnd.
  assert (∀ r', in_step r' →
    (∀ c, c ∈ FileConfig r' ↔ c ∈ FileConfig r ∧ Key c ≠ key) →
    reads r' key "" ∧ ∀ k v, k ≠ key → reads r k v → reads r' k v) as Hreads.
  { intros r' Hs' Hmem. split.
    - destruct (GetFileConfig_pair r' key Hs') as (r2&E2&_). exists r2.
      rewrite E2, pair_value_none; [done|].
      intros (c&Hk&Hc)%list_elem_of_fmap. apply Hmem in Hc as [_ Hc]. done.
    - intros k v Hne [r2 E2].
      destruct (GetFileConfig_pair r k Hs) as (r3&E3&_).
      destruct (GetFileConfig_pair r' k Hs') as (r4&E4&_). exists r4.
      rewrite E4, (pair_value_ext (FileConfig r') (FileConfig r) k);
        [congruence|apply Hs'|done|].
      intros c Hc. rewrite Hmem. split; [by intros [? _]|].
      intros ?. split; [done|]. congruence. }
  unfold SetFileConfig. cbn [String.eqb]. unfold deleteFileConfig. rewrite E.
  destruct (m !! key) as [pos|] eqn:Ep.
  2:{ (* no pair has the key *)
    assert (key ∉ keys (FileConfig r)) as Hnk.
    { intros (p&Hp)%list_elem_of_lookup.
      assert (m !! key = Some (Z.of_nat p)) as Hm.
      { apply Hex. split; [lia|]. by rewrite Nat2Z.id. }
      congruence. }
    assert (∀ c, c ∈ FileConfig r ↔ c ∈ FileConfig r ∧ Key c ≠ key) as Hmem.
    { intros c. split; [|by intros [? _]]. intros Hc. split; [done|].
      intros <-. apply Hnk. apply list_elem_of_fmap. by exists c. }
    exists (mkResult (FileConfig r) (spare r) (Some m)).
    split; [done|]. split; [done|]. split; [done|]. split; [done|]. split.
    { intros p Hp. exfalso. apply Hnk. by eapply list_elem_of_lookup_2. }
    by apply Hreads. }
  (* the pair at [pos] has the key *)
  apply Hex in Ep as [Hpos Hk]. pose proof Hk as Hkp.
  apply keys_lookup in Hk as (cfg&Hcfg&Hkey).
  set (l := FileConfig r) in *. set (p := Z.to_nat pos) in *.
  set (n := length l).
  assert (p < n)%nat as Hpn by (by eapply lookup_lt_Some).
  destruct (lookup_lt_is_Some_2 l (n - 1)) as [cfg2 Hcfg2]; [lia|].
  assert (Z.to_nat (Z.of_nat n - 1) = (n - 1)%nat) as En by lia.
  assert (last l = Some cfg2) as Hlast.
  { rewrite last_lookup, <- Hcfg2. f_equal. unfold n. lia. }
  assert (p = (n - 1)%nat → cfg2 = cfg) as Hsame
    by (intros Hp; rewrite Hp in Hcfg; congruence).
  assert (p ≠ (n - 1)%nat → Key cfg2 ≠ key) as Hdiff.
  { intros Hne Hk2. apply Hne.
    eapply NoDup_lookup; [exact Hnd|exact Hkp|].
    apply keys_lookup. by exists cfg2. }
  set (l2 := <[(n - 1)%nat := cfg]> (<[p := cfg2]> l)).
  assert (l2 !! p = Some cfg2) as Hnow.
  { unfold l2. destruct (decide (p = (n - 1)%nat)) as [Hp|Hp].
    - rewrite <- Hp, list_lookup_insert_eq; [by rewrite Hsame|].
      by rewrite length_insert.
    - rewrite list_lookup_insert_ne by done.
      by rewrite list_lookup_insert_eq. }
  assert (l2 !! (n - 1)%nat = Some cfg) as Hgone.
  { unfold l2. rewrite list_lookup_insert_eq; [done|].
    rewrite length_insert. unfold n in *. lia. }
  assert (take (n - 1) l2 = take (n - 1) (<[p := cfg2]> l)) as Htake.
  { unfold l2. by rewrite take_insert_ge. }
  cbn [FileConfig spare]. fold l n.
  rewrite (proj2 (elem_Some l pos cfg) (conj Hpos Hcfg)).
  cbn [mbind option_bind].
  rewrite (proj2 (elem_Some l (Z.of_nat n - 1) cfg2));
    [|split; [lia|by rewrite En]].
  cbn [mbind option_bind]. rewrite En. fold l2.
  rewrite (proj2 (elem_Some l2 pos cfg2) (conj Hpos Hnow)).
  cbn [mbind option_bind].
  rewrite (proj2 (elem_Some l2 (Z.of_nat n - 1) cfg));
    [|split; [lia|by rewrite En]].
  cbn [mbind option_bind]. rewrite Htake.
  set (l' := take (n - 1) (<[p := cfg2]> l)).
  assert (∀ i k, keys l' !! i = Some k ↔
            (i < n - 1)%nat ∧
            ((i = p ∧ k = Key cfg2) ∨ (i ≠ p ∧ keys l !! i = Some k)))
    as Hkl.
  { intros i k. unfold l', keys, n.
    rewrite <- (length_fmap Key l), fmap_take, list_fmap_insert.
    apply swap_lookup. }
  assert (keys l !! (n - 1)%nat = Some (Key cfg2)) as Hk2
    by (apply keys_lookup; by exists cfg2).
  assert (∀ c, c ∈ l' ↔ c ∈ l ∧ Key c ≠ key) as Hmem.
  { intros c. rewrite !list_elem_of_lookup. split.
    - intros (i&Hi). apply swap_lookup in Hi as [Hin [[-> ->]|[Hne Hi]]].
      + split; [by exists (n - 1)%nat|]. apply Hdiff. unfold n in *. lia.
      + split; [by exists i|]. intros Hk. apply Hne.
        eapply NoDup_lookup; [exact Hnd| |exact Hkp].
        apply keys_lookup. by exists c.
    - intros [(i&Hi) Hne].
      assert (i < n)%nat by (by eapply lookup_lt_Some).
      assert (i ≠ p) by (intros ->; congruence).
      destruct (decide (i = (n - 1)%nat)) as [->|Hil].
      + exists p. apply swap_lookup. split; [unfold n in *; lia|].
        left. split; [done|]. congruence.
      + exists i. apply swap_lookup. split; [unfold n in *; lia|].
        by right. }
  assert (in_step (mkResult l' (cfg :: spare r)
                     (Some (delete key (<[Key cfg2 := pos]> m))))) as Hs'.
  { split; cbn [FileConfig configPos].
    - apply NoDup_alt. intros i j k Hi Hj.
      apply Hkl in Hi as [Hin [[-> ->]|[Hip Hi]]];
        apply Hkl in Hj as [Hjn [[-> Hj]|[Hjp Hj]]]; try done.
      + exfalso. pose proof (NoDup_lookup _ _ _ _ Hnd Hj Hk2). lia.
      + exfalso. subst k. pose proof (NoDup_lookup _ _ _ _ Hnd Hi Hk2). lia.
      + by eapply NoDup_lookup.
    - intros ? [= <-] k i.
      rewrite lookup_delete_Some, lookup_insert_Some, Hex, Hkl. split.
      + intros [Hne [[<- <-]|[Hne2 [Hi Hk]]]].
        * split; [done|]. fold p.
          assert (p ≠ (n - 1)%nat) as Hp by (intros Hp; apply Hne;
            by rewrite <- Hkey, (Hsame Hp)).
          split; [lia|]. by left.
        * split; [done|].
          assert (Z.to_nat i < n)%nat.
          { apply lookup_lt_Some in Hk. unfold keys in Hk.
            by rewrite length_fmap in Hk. }
          assert (Z.to_nat i ≠ (n - 1)%nat).
          { intros Hi'. rewrite Hi' in Hk. congruence. }
          split; [lia|]. right. split; [|done].
          intros Hi'. unfold p in *. rewrite Hi' in Hk. congruence.
      + intros [Hi [Hin [[Hip ->]|[Hip Hk]]]].
        * assert (p ≠ (n - 1)%nat) as Hp by (unfold p in *; lia).
          split; [by apply not_eq_sym, Hdiff|]. left. split; [done|].
          unfold p in *. lia.
        * split.
          { intros <-. apply Hip.
            by eapply NoDup_lookup. }
          right. split; [|done]. intros <-.
          pose proof (NoDup_lookup _ _ _ _ Hnd Hk Hk2). lia. }
  eexists. split; [done|]. split; [done|]. split; [done|]. split.
  { intros Hnk. exfalso. apply Hnk. by eapply list_elem_of_lookup_2. }
  split.
  { intros q Hq. exists cfg2. split; [done|]. cbn [FileConfig].
    by rewrite (NoDup_lookup _ _ _ _ Hnd Hq Hkp). }
  by apply Hreads.
Qed.

End fileconfig_props.

(** ** Unit metadata: written once *)

Module units_props.
Import units units_spec.

Lemma unit_index_from_lookup l : ∀ i m k j,
  NoDup (ukeys l) →
  (((index_from l i m) !! k = Some j) ↔
    (((i ≤ j) ∧ (ukeys l !! Z.to_nat (j - i) = Some k)) ∨
     ((k ∉ ukeys l) ∧ m !! k = Some j))).
Proof.
  induction l as [|c l IH]; intros i m k j Hnd; simpl.
  { split; [intros ?; right; split; [apply not_elem_of_nil|done]|].
    intros [[_ ?]|[_ ?]]; done. }
  apply NoDup_cons in Hnd as [Hc Hnd]. fold (ukeys l) in *.
  rewrite (IH _ _ _ _ Hnd). split.
  - intros [[Hij Hl]|[Hk Hm]].
    + left. split; [lia|].
      replace (Z.to_nat (j - i)) with (S (Z.to_nat (j - (i + 1)))) by lia.
      done.
    + apply lookup_insert_Some in Hm as [[<- <-]|[Hne Hm]].
      * left. split; [lia|]. by rewrite Z.sub_diag.
      * right. split; [|done]. intros [?|?]%elem_of_cons; done.
  - intros [[Hij Hl]|[Hk Hm]].
    + destruct (Z.to_nat (j - i)) as [|q] eqn:Eq.
      * injection Hl as <-. right. split; [done|].
        replace j with i by lia. apply lookup_insert_eq.
      * left. split; [lia|]. simpl in Hl.
        by replace (Z.to_nat (j - (i + 1))) with q by lia.
    + right. apply not_elem_of_cons in Hk as [Hne Hk]. split; [done|].
      by rewrite lookup_insert_ne.
Qed.

Lemma ukeys_lookup l p k :
  ukeys l !! p = Some k ↔ ∃ md, l !! p = Some md ∧ (Unit md, Key md) = k.
Proof.
  unfold ukeys. rewrite list_lookup_fmap_Some. split.
  - intros (c&Hc&->). by exists c.
  - intros (c&Hc&<-). by exists c.
Qed.

Lemma meta_value_elem l md :
  NoDup (ukeys l) → md ∈ l →
  meta_value l (Unit md) (Key md) = Some (Value md).
Proof.
  unfold meta_value. induction l as [|d l IH]; intros Hnd Hc.
  { by apply elem_of_nil in Hc. }
  apply NoDup_cons in Hnd as [Hd Hnd]. simpl.
  destruct (String.eqb (Unit d) (Unit md) && String.eqb (Key d) (Key md)) eqn:E.
  - apply andb_true_iff in E as [E1%String.eqb_eq E2%String.eqb_eq].
    apply elem_of_cons in Hc as [->|Hc]; [done|].
    exfalso. apply Hd. rewrite E1, E2. unfold ukeys.
    apply list_elem_of_fmap. by exists md.
  - apply elem_of_cons in Hc as [->|Hc]; [by rewrite !String.eqb_refl in E|].
    by apply IH.
Qed.

Lemma meta_value_none l unit key :
  (unit, key) ∉ ukeys l → meta_value l unit key = None.
Proof.
  unfold meta_value. induction l as [|d l IH]; intros Hk; [done|].
  apply not_elem_of_cons in Hk as [Hne Hk]. simpl.
  destruct (String.eqb (Unit d) unit && String.eqb (Key d) key) eqn:E.
  - apply andb_true_iff in E as [E1%String.eqb_eq E2%String.eqb_eq].
    by subst.
  - by apply IH.
Qed.

Lemma meta_value_app l md unit key v :
  meta_value l unit key = Some v → meta_value (l ++ [md]) unit key = Some v.
Proof.
  unfold meta_value. induction l as [|d l IH]; [done|]. simpl.
  destruct (String.eqb (Unit d) unit && String.eqb (Key d) key); [done|].
  exact IH.
Qed.

(** [Get] reads the value of the entry for the unit and the key. *)
Lemma Get_meta u unit key :
  in_step u →
  ∃ m, let mv := meta_value (Metadata u) unit key in
    Get u unit key
    = Some (mkUnits (Metadata u) (Some m),
            (default ""%string mv, bool_decide (is_Some mv))) ∧
    in_step (mkUnits (Metadata u) (Some m)) ∧
    (mv = None → (unit, key) ∉ ukeys (Metadata u)) ∧
    ∀ k i, m !! k = Some i ↔ 0 ≤ i ∧ ukeys (Metadata u) !! Z.to_nat i = Some k.
Proof.
  intros [Hnd Hm]. unfold Get.
  assert (∃ m, match index u with
               | Some m => m
               | None => index_from (Metadata u) 0 ∅
               end = m ∧
               ∀ k i, m !! k = Some i ↔
                 0 ≤ i ∧ ukeys (Metadata u) !! Z.to_nat i = Some k)
    as (m&->&Hex).
  { destruct (index u) as [m|] eqn:E.
    - exists m. split; [done|]. by apply Hm.
    - eexists. split; [done|]. intros k i.
      rewrite (unit_index_from_lookup _ _ _ _ _ Hnd), Z.sub_0_r.
      split; [intros [?|[_ ?]]; done|]. by left. }
  exists m. cbn zeta. cbn [Metadata].
  assert (in_step (mkUnits (Metadata u) (Some m))) as Hs1.
  { split; [done|]. simpl. by intros ? [= <-]. }
  destruct (m !! (unit, key)) as [pos|] eqn:Ep.
  - apply Hex in Ep as [Hpos Hk]. apply ukeys_lookup in Hk as (md&Hmd&Hk).
    injection Hk as <- <-.
    rewrite (proj2 (fileconfig_props.elem_Some _ _ _) (conj Hpos Hmd)).
    cbn [mbind option_bind].
    rewrite (meta_value_elem _ md Hnd) by (by eapply list_elem_of_lookup_2).
    done.
  - assert ((unit, key) ∉ ukeys (Metadata u)) as Hnk.
    { intros (p&Hp)%list_elem_of_lookup.
      assert (m !! (unit, key) = Some (Z.of_nat p)) as Hm'.
      { apply Hex. split; [lia|]. by rewrite Nat2Z.id. }
      congruence. }
    rewrite (meta_value_none _ _ _ Hnk). done.
Qed.

(** X11.  [Units.Get] returns the value of the entry of [Metadata] for
    the unit and the key with [true], and the empty string with [false]
    when there is no entry; it leaves the entries as they are. *)
Theorem Units_Get_value u unit key :
  in_step u →
  ∃ u1, Get u unit key
        = Some (u1, match meta_value (Metadata u) unit key with
                    | Some v => (v, true)
                    | None => (""%string, false)
                    end) ∧
    Metadata u1 = Metadata u ∧ in_step u1.
Proof.
  intros Hs. destruct (Get_meta u unit key Hs) as (m&E&Hs1&_).
  cbn zeta in E. exists (mkUnits (Metadata u) (Some m)).
  split; [|done]. rewrite E.
  by destruct (meta_value (Metadata u) unit key).
Qed.

(** X12.  Unit metadata is written once.  [Units.Set] never panics on
    units whose index is in step and keeps it in step; it only ever
    appends: for a unit and key without entry it appends the entry and
    returns no error; for one that has an entry it changes nothing, and
    it returns an error exactly when the value differs from the one set.
    Every value that was set stays set. *)
Theorem Units_Set_once u unit key value :
  in_step u →
  ∃ u' err, Set_ u unit key value = Some (u', err) ∧ in_step u' ∧
    match meta_value (Metadata u) unit key with
    | Some have =>
        Metadata u' = Metadata u ∧
        (have = value → err = None) ∧
        (have ≠ value →
           err = Some ("metadata " ++ key ++ " of unit " ++ unit ++
                       " already set to " ++ have)%string)
    | None =>
        Metadata u' = Metadata u ++ [mkUnitMetadata unit key value] ∧
        err = None
    end ∧
    (∀ un k v, meta_value (Metadata u) un k = Some v →
               meta_value (Metadata u') un k = Some v) ∧
    (err = None → meta_value (Metadata u') unit key = Some value).
Proof.
  intros Hs. destruct (Get_meta u unit key Hs) as (m&E&Hs1&Hnone&Hex).
  cbn zeta in E. unfold Set_. rewrite E. cbn [mbind option_bind].
  destruct (meta_value (Metadata u) unit key) as [have|] eqn:Emv.
  - cbn [default]. unfold id. rewrite bool_decide_true by (by eexists).
    destruct (String.eqb have value) eqn:Ev.
    + apply String.eqb_eq in Ev as ->.
      eexists _, _. split; [done|]. split; [done|]. cbn [Metadata].
      split; [by repeat split|]. split; [by intros|by intros].
    + apply String.eqb_neq in Ev.
      eexists _, _. split; [done|]. split; [done|]. cbn [Metadata].
      split; [by repeat split|]. split; [by intros|by intros].
  - rewrite bool_decide_false by (by intros [? ?]).
    cbn [index mbind option_bind Metadata].
    pose proof (Hnone eq_refl) as Hnk. pose proof (proj1 Hs) as Hnd.
    set (n := length (Metadata u)).
    set (md := mkUnitMetadata unit key value).
    assert (ukeys (Metadata u ++ [md]) = ukeys (Metadata u) ++ [(unit, key)])
      as Hkeys by (unfold ukeys; by rewrite fmap_app).
    assert (NoDup (ukeys (Metadata u ++ [md]))) as Hnd'.
    { rewrite Hkeys. apply NoDup_app. split; [done|]. split.
      - intros x Hx ->%list_elem_of_singleton. done.
      - apply NoDup_singleton. }
    eexists _, _. split; [done|]. split.
    { split; cbn [Metadata index]; [done|].
      intros ? [= <-] k i. rewrite Hkeys, lookup_insert_Some, Hex.
      rewrite lookup_app_Some.
      assert (length (ukeys (Metadata u)) = n) as Hlen
        by (unfold ukeys; by rewrite length_fmap).
      split.
      - intros [[<- <-]|[Hne [Hi Hk]]].
        + split; [lia|]. right. split; [lia|].
          match goal with
          | |- _ !! ?x = _ => replace x with 0%nat by lia
          end. done.
        + split; [done|]. by left.
      - intros [Hi [Hk|[Hge Hk]]].
        + right. split; [|done]. intros <-. apply Hnk.
          by eapply list_elem_of_lookup_2.
        + left. apply list_lookup_singleton_Some in Hk as [Hz <-].
          split; [done|]. lia. }
    split; [done|]. cbn [Metadata]. split.
    { intros un k v Hv. by apply meta_value_app. }
    intros _. apply (meta_value_elem _ md Hnd').
    apply elem_of_app. right. by apply list_elem_of_singleton.
Qed.

End units_props.

(** ** The extractor of a file configuration key *)

Module filekey_props.
Import benchfmt extract.

Lemma configPos_from_app l c : ∀ i m,
  configPos_from (l ++ [c]) i m
  = <[Key c := (i + length l)%nat]> (configPos_from l i m).
Proof.
  induction l as [|d l IH]; intros i m; simpl.
  - by rewrite Nat.add_0_r.
  - rewrite IH.
    by replace (i + S (length l))%nat with (S i + length l)%nat by lia.
Qed.

Lemma configPos_from_last l key :
  match configPos_from l 0%nat ∅ !! key with
  | Some pos =>
      ∃ cfg, l !! pos = Some cfg ∧
        Value cfg = result_spec.last_pair_value l key
  | None => result_spec.last_pair_value l key = []
  end.
Proof.
  unfold result_spec.last_pair_value, result_spec.pair_value.
  induction l as [|c l IH] using rev_ind; [done|].
  rewrite configPos_from_app, reverse_snoc. cbn [find]. simpl.
  destruct (String.eqb (Key c) key) eqn:E.
  - apply String.eqb_eq in E as <-. rewrite lookup_insert_eq.
    exists c. split; [|done]. by rewrite list_lookup_middle.
  - apply String.eqb_neq in E. rewrite lookup_insert_ne by done.
    destruct (configPos_from l 0%nat ∅ !! key) as [pos|]; [|done].
    destruct IH as (cfg&Hcfg&Hv). exists cfg. split; [|done].
    by apply lookup_app_l_Some.
Qed.

(** X10.  The extractor of a file configuration key returns the value
    of the last pair of [FileConfig] that has the key, and the empty
    value when no pair has it. *)
Theorem extractFileKey_last_pair res key :
  extractFileKey res key
  = result_spec.last_pair_value (benchfmt.FileConfig res) key ∧
  (key ∉ result_spec.keys (benchfmt.FileConfig res) →
   extractFileKey res key = []).
Proof.
  assert (extractFileKey res key
          = result_spec.last_pair_value (benchfmt.FileConfig res) key) as E.
  { unfold extractFileKey, FileConfigIndex.
    pose proof (configPos_from_last (benchfmt.FileConfig res) key) as H.
    destruct (configPos_from _ _ _ !! key) as [pos|]; [|done].
    destruct H as (cfg&->&Hv). done. }
  split; [done|]. intros Hk. rewrite E.
  unfold result_spec.last_pair_value.
  apply fileconfig_props.pair_value_none.
  intros Hin. apply Hk. unfold result_spec.keys in *.
  rewrite fmap_reverse in Hin. exact (proj1 (elem_of_reverse _ _) Hin).
Qed.

End filekey_props.

(** ** Benchmark names: GOMAXPROCS, base and parts *)

Module name_props.
Import benchfmt extract spec name_spec extract_props.

Lemma digit_not_dash c : is_digit c = true → byte_eqb c "-" = false.
Proof.
  intros Hd. destruct (byte_eqb c "-") eqn:E; [|done].
  apply byte_eqb_eq in E. subst c. vm_compute in Hd. done.
Qed.

Lemma digit_not_slash c : is_digit c = true → c ≠ "/"%char.
Proof. intros Hd ->. vm_compute in Hd. done. Qed.

(** The loop from [k] down, when the bytes from [k] on are digits. *)
Lemma splitGomaxprocs_from_digits n k :
  (k ≤ length n)%nat → digits (drop k n) →
  match splitGomaxprocs_from n k with
  | (buf, Some g) =>
      ∃ ds, n = buf ++ g ∧ g = "-"%char :: ds ∧ ds ≠ [] ∧ digits ds
  | (buf, None) => buf = n ∧ ¬ has_gomaxprocs n
  end.
Proof.
  induction k as [|i IH]; intros Hk Hd; cbn [splitGomaxprocs_from].
  { split; [done|]. intros (buf&ds&->&Hne&Hds).
    rewrite drop_0 in Hd. apply Forall_app in Hd as [_ Hd].
    apply Forall_cons in Hd as [Hd _]. vm_compute in Hd. done. }
  destruct (n !! i) as [ch|] eqn:E.
  2:{ apply lookup_ge_None in E. lia. }
  assert (drop i n = ch :: drop (S i) n) as Hdrop by (by apply drop_S).
  destruct (byte_eqb ch "-") eqn:E1; cbn [andb].
  - apply byte_eqb_eq in E1. subst ch.
    destruct (i <? length n - 1)%nat eqn:E2.
    + apply Nat.ltb_lt in E2. exists (drop (S i) n).
      split; [by rewrite take_drop|]. split; [done|]. split; [|done].
      intros Hnil. apply (f_equal length) in Hnil.
      rewrite length_drop in Hnil. simpl in Hnil. lia.
    + apply Nat.ltb_ge in E2.       replace (negb (is_digit "-")) with true by (by vm_compute).
      split; [done|]. intros (buf&ds&->&Hne&Hds).
      rewrite length_app in E2, Hk. simpl in E2, Hk.
      assert (length ds ≠ 0)%nat by (by destruct ds).
      rewrite lookup_app_r in E by lia.
      destruct (i - length buf)%nat as [|q] eqn:Eq; [lia|]. simpl in E.
      unfold digits in Hds. rewrite Forall_lookup in Hds.
      pose proof (Hds _ _ E) as Hbad. vm_compute in Hbad. done.
  - destruct (is_digit ch) eqn:E3; cbn [negb].
    + apply IH; [lia|]. rewrite Hdrop. by constructor.
    + split; [done|]. intros (buf&ds&->&Hne&Hds).
      rewrite length_app in Hk. simpl in Hk.
      destruct (decide (i < length buf)%nat) as [Hi|Hi].
      * rewrite drop_app_le in Hd by lia.
        apply Forall_app in Hd as [_ Hd].
        apply Forall_cons in Hd as [Hd _]. vm_compute in Hd. done.
      * rewrite lookup_app_r in E by lia.
        destruct (i - length buf)%nat as [|q] eqn:Eq.
        -- injection E as <-. vm_compute in E1. done.
        -- simpl in E. unfold digits in Hds. rewrite Forall_lookup in Hds.
           rewrite (Hds _ _ E) in E3. done.
Qed.

(** The bytes of a name that ends in GOMAXPROCS split in one way only. *)
Lemma gomaxprocs_unique buf ds buf' ds' :
  buf ++ "-"%char :: ds = buf' ++ "-"%char :: ds' →
  digits ds → digits ds' → buf = buf' ∧ ds = ds'.
Proof.
  intros Heq Hd Hd'.
  assert (∀ b d b' d', b ++ "-"%char :: d = b' ++ "-"%char :: d' →
            digits d → (length b < length b')%nat → False) as Hlt.
  { intros b d b' d' He Hdd Hl.
    assert ((b ++ "-"%char :: d) !! length b' = Some "-"%char) as Hx.
    { rewrite He. by rewrite list_lookup_middle. }
    rewrite lookup_app_r in Hx by lia.
    destruct (length b' - length b)%nat as [|q] eqn:Eq; [lia|]. simpl in Hx.
    unfold digits in Hdd. rewrite Forall_lookup in Hdd.
    pose proof (Hdd _ _ Hx) as Hbad. vm_compute in Hbad. done. }
  assert (length buf = length buf') as Hlen.
  { destruct (decide (length buf < length buf')%nat) as [H1|H1].
    - exfalso. by eapply (Hlt buf ds buf' ds').
    - destruct (decide (length buf' < length buf)%nat) as [H2|H2]; [|lia].
      exfalso. by eapply (Hlt buf' ds' buf ds). }
  apply app_inj_1 in Heq as [-> Heq]; [|done]. by injection Heq as ->.
Qed.

Lemma splitGomaxprocs_spec n :
  match splitGomaxprocs n with
  | (buf, Some g) =>
      ∃ ds, n = buf ++ g ∧ g = "-"%char :: ds ∧ ds ≠ [] ∧ digits ds
  | (buf, None) => buf = n ∧ ¬ has_gomaxprocs n
  end.
Proof.
  apply splitGomaxprocs_from_digits; [done|]. rewrite drop_all. constructor.
Qed.

Lemma splitGomaxprocs_split buf ds :
  ds ≠ [] → digits ds →
  splitGomaxprocs (buf ++ "-"%char :: ds) = (buf, Some ("-"%char :: ds)).
Proof.
  intros Hne Hds. pose proof (splitGomaxprocs_spec (buf ++ "-"%char :: ds)) as H.
  destruct (splitGomaxprocs _) as [buf' [g|]].
  - destruct H as (ds'&Heq&->&Hne'&Hds').
    by destruct (gomaxprocs_unique _ _ _ _ Heq Hds Hds') as [-> ->].
  - destruct H as [_ H]. exfalso. apply H. by exists buf, ds.
Qed.

Lemma splitGomaxprocs_whole n :
  ¬ has_gomaxprocs n → splitGomaxprocs n = (n, None).
Proof.
  intros Hn. pose proof (splitGomaxprocs_spec n) as H.
  destruct (splitGomaxprocs n) as [buf' [g|]].
  - destruct H as (ds&->&->&Hne&Hds). exfalso. apply Hn. by exists buf', ds.
  - by destruct H as [-> _].
Qed.

(** X13.  [splitGomaxprocs] splits a name exactly when it ends in a dash
    and one digit or more: the prefix is what is before the dash, the
    GOMAXPROCS part is the dash and the digits.  Every other name, such
    as one that ends in a dash or has no dash, is returned whole, with
    nil for GOMAXPROCS. *)
Theorem splitGomaxprocs_dash_digits :
  (∀ buf ds, ds ≠ [] → digits ds →
     splitGomaxprocs (buf ++ "-"%char :: ds) = (buf, Some ("-"%char :: ds))) ∧
  (∀ n, ¬ has_gomaxprocs n → splitGomaxprocs n = (n, None)) ∧
  (∀ n buf g, splitGomaxprocs n = (buf, g) → buf ++ default [] g = n).
Proof.
  pose proof splitGomaxprocs_spec as Hspec.
  split; [|split].
  - apply splitGomaxprocs_split.
  - apply splitGomaxprocs_whole.
  - intros n buf g E. pose proof (Hspec n) as H. rewrite E in H.
    destruct g as [g|]; simpl.
    + by destruct H as (ds&->&_).
    + destruct H as [-> _]. by rewrite app_nil_r.
Qed.

Lemma IndexByte_none s c : c ∉ s → IndexByte s c = -1.
Proof.
  induction s as [|d s IH]; intros Hc; [done|].
  apply not_elem_of_cons in Hc as [Hne Hc]. simpl.
  destruct (byte_eqb d c) eqn:E; [apply byte_eqb_eq in E; congruence|].
  by rewrite (IH Hc).
Qed.

Lemma IndexByte_first pre post c :
  c ∉ pre → IndexByte (pre ++ c :: post) c = Z.of_nat (length pre).
Proof.
  induction pre as [|d pre IH]; intros Hc; simpl.
  - assert (byte_eqb c c = true) as -> by (by apply byte_eqb_eq). done.
  - apply not_elem_of_cons in Hc as [Hne Hc].
    destruct (byte_eqb d c) eqn:E; [apply byte_eqb_eq in E; congruence|].
    rewrite (IH Hc). destruct (Z.of_nat (length pre) <? 0) eqn:El; [lia|lia].
Qed.

Lemma Parts_loop_noslash buf rest : ∀ i prev acc,
  "/"%char ∉ rest → Parts_loop buf rest i prev acc = (acc, prev).
Proof.
  induction rest as [|c rest IH]; intros i prev acc Hc; [done|].
  apply not_elem_of_cons in Hc as [Hne Hc]. simpl.
  destruct (byte_eqb c "/") eqn:E; [apply byte_eqb_eq in E; congruence|].
  by apply IH.
Qed.

Lemma Parts_loop_head buf rest : ∀ i prev acc a,
  head acc = Some a → head (Parts_loop buf rest i prev acc).1 = Some a.
Proof.
  induction rest as [|c rest IH]; intros i prev acc a Ha; [done|]. simpl.
  destruct (byte_eqb c "/"); apply IH; [|done].
  by destruct acc.
Qed.

Lemma Parts_loop_first buf pre post : ∀ i prev acc,
  "/"%char ∉ pre →
  Parts_loop buf (pre ++ "/"%char :: post) i prev acc
  = Parts_loop buf post (S (i + length pre)) (i + length pre)
      (acc ++ [slice buf prev (i + length pre)]).
Proof.
  induction pre as [|c pre IH]; intros i prev acc Hc; simpl.
  - by rewrite Nat.add_0_r.
  - apply not_elem_of_cons in Hc as [Hne Hc].
    destruct (byte_eqb c "/") eqn:E; [apply byte_eqb_eq in E; congruence|].
    rewrite (IH _ _ _ Hc). by replace (S i + length pre)%nat
      with (i + S (length pre))%nat by lia.
Qed.

Lemma digits_no_slash ds : digits ds → "/"%char ∉ ds.
Proof.
  intros Hd Hin. unfold digits in Hd. rewrite Forall_forall in Hd.
  by apply (digit_not_slash _ (Hd _ Hin)).
Qed.

(** The first of the parts is [Base], and it has no slash. *)
Lemma nameParts_head n :
  head (nameParts n) = Some (Base n) ∧ ("/"%char ∉ Base n).
Proof.
  unfold nameParts, Base, Full. pose proof (splitGomaxprocs_spec n) as Hs.
  destruct (splitGomaxprocs n) as [buf g]. cbn [fst].
  assert (∃ tl, n = buf ++ tl ∧ "/"%char ∉ tl) as (tl&Hn&Htl).
  { destruct g as [g|].
    - destruct Hs as (ds&->&->&_&Hds). eexists. split; [done|].
      intros [E|Hin]%elem_of_cons; [done|]. by apply (digits_no_slash ds).
    - destruct Hs as [-> _]. exists []. rewrite app_nil_r.
      split; [done|apply not_elem_of_nil]. }
  assert (∀ l (x : bytes) o, head l = Some x →
            head (match o with Some y => l ++ [y] | None => l end) = Some x)
    as Hopt.
  { intros l x o Hl. destruct o; [|done]. by destruct l. }
  destruct (decide ("/"%char ∈ buf)) as [Hin|Hnin].
  - apply list_elem_of_split_l in Hin as (pre&post&Hbuf&Hpre).
    assert (IndexByte n "/" = Z.of_nat (length pre)) as ->.
    { rewrite Hn, Hbuf, <- app_assoc. simpl. by apply IndexByte_first. }
    replace (0 <=? Z.of_nat (length pre)) with true
      by (symmetry; apply Z.leb_le; lia).
    rewrite Nat2Z.id.
    assert (take (length pre) n = pre) as ->.
    { rewrite Hn, Hbuf, <- app_assoc. by rewrite take_app_length. }
    split; [|done].
    rewrite Hbuf at 2. rewrite (Parts_loop_first buf pre post _ _ _ Hpre).
    pose proof (Parts_loop_head buf post (S (0 + length pre)) (0 + length pre)
                  ([] ++ [slice buf 0 (0 + length pre)]) _ eq_refl) as Hh.
    destruct (Parts_loop buf post _ _ _) as [acc prev]. simpl in Hh.
    apply Hopt. destruct acc as [|a acc]; [done|]. simpl in *.
    rewrite Hh. f_equal. unfold slice. rewrite drop_0, Nat.sub_0_r, Hbuf.
    by rewrite take_app_length.
  - rewrite (Parts_loop_noslash buf buf _ _ _ Hnin). simpl.
    assert (IndexByte n "/" = -1) as ->.
    { apply IndexByte_none. rewrite Hn. intros [?|?]%elem_of_app; done. }
    simpl. split; [|done]. by destruct g.
Qed.

(** X14.  [Parts] never panics.  The base name it returns is [Base] of
    the name and has no slash; the base name and the parts, one after
    the other, are the full name; every part starts with a slash or,
    for GOMAXPROCS, with a dash. *)
Theorem Parts_reassemble n :
  ∃ parts, Parts n = Some (Base n, parts) ∧
    Base n ++ concat parts = n ∧
    ("/"%char ∉ Base n) ∧
    Forall (λ p, starts_with p "/" = true ∨ starts_with p "-" = true) parts.
Proof.
  destruct (nameParts_spec n) as (base&parts&E&Hcat&Hall).
  destruct (nameParts_head n) as [Hh Hns]. rewrite E in Hh.
  injection Hh as ->. exists parts. unfold Parts. rewrite E. done.
Qed.

(** *** Names built from parts *)

Lemma Parts_loop_skip buf q r : ∀ i prev acc,
  "/"%char ∉ q →
  Parts_loop buf (q ++ r) i prev acc = Parts_loop buf r (i + length q) prev acc.
Proof.
  induction q as [|c q IH]; intros i prev acc Hc; simpl.
  - by rewrite Nat.add_0_r.
  - apply not_elem_of_cons in Hc as [Hne Hc].
    destruct (byte_eqb c "/") eqn:E; [apply byte_eqb_eq in E; congruence|].
    rewrite (IH _ _ _ Hc).
    by replace (S i + length q)%nat with (i + S (length q))%nat by lia.
Qed.

Lemma Parts_loop_parts buf ps : ∀ i prev acc,
  drop i buf = concat ps → (prev ≤ i)%nat → Forall slash_part ps →
  ∃ acc' prev', Parts_loop buf (concat ps) i prev acc = (acc', prev') ∧
    acc' ++ [drop prev' buf] = acc ++ slice buf prev i :: ps.
Proof.
  induction ps as [|p ps IH]; intros i prev acc Hd Hle Hall.
  - exists acc, prev. split; [done|]. do 2 f_equal. unfold slice.
    simpl in Hd. apply (f_equal length) in Hd. rewrite length_drop in Hd.
    simpl in Hd. rewrite take_ge; [done|]. rewrite length_drop. lia.
  - apply Forall_cons in Hall as [(q&->&Hq) Hall]. simpl in Hd |- *.
    rewrite (Parts_loop_skip _ _ _ _ _ _ Hq).
    destruct (IH (S i + length q)%nat i (acc ++ [slice buf prev i]))
      as (acc'&prev'&->&Hres); [|lia|done|].
    { replace (S i + length q)%nat with (i + S (length q))%nat by lia.
      rewrite <- drop_drop, Hd. simpl. by rewrite drop_app_length. }
    exists acc', prev'. split; [done|]. rewrite Hres, <- app_assoc. simpl.
    do 3 f_equal. unfold slice.
    rewrite Hd.
    replace (S (i + length q) - i)%nat with (S (length q)) by lia.
    cbn [take]. f_equal. by rewrite take_app_length.
Qed.

(** The parts of a name that is built from a base and parts. *)
Lemma nameParts_name_of base ps procs :
  "/"%char ∉ base → Forall slash_part ps →
  match procs with
  | Some ds => ds ≠ [] ∧ digits ds
  | None => ¬ has_gomaxprocs (base ++ concat ps)
  end →
  nameParts (name_of base ps procs)
  = base :: ps ++ option_list (procs_part procs).
Proof.
  intros Hb Hps Hprocs. unfold nameParts, name_of.
  assert (splitGomaxprocs (base ++ concat ps ++ default [] (procs_part procs))
          = (base ++ concat ps, procs_part procs)) as ->.
  { destruct procs as [ds|]; simpl.
    - destruct Hprocs as [Hne Hds]. rewrite app_assoc.
      by apply splitGomaxprocs_split.
    - rewrite !app_nil_r. by apply splitGomaxprocs_whole. }
  set (buf := base ++ concat ps).
  unfold buf at 2. rewrite (Parts_loop_skip buf base (concat ps) _ _ _ Hb).
  destruct (Parts_loop_parts buf ps (0 + length base) 0 []) as (acc&prev&->&Hres);
    [|lia|done|].
  { unfold buf. simpl. by rewrite drop_app_length. }
  rewrite Hres. simpl. unfold slice. rewrite drop_0, Nat.sub_0_r. unfold buf.
  rewrite take_app_length.
  destruct procs; simpl; [done|by rewrite app_nil_r].
Qed.

(** X15.  [Parts] undoes the building of a name: for a base without
    slash, parts that each start with the only slash they have, and
    GOMAXPROCS digits (or a name that does not end in a dash and
    digits), [Parts] of the name returns that base and those parts, the
    GOMAXPROCS part last. *)
Theorem Parts_of_built_name base ps procs :
  "/"%char ∉ base → Forall slash_part ps →
  match procs with
  | Some ds => ds ≠ [] ∧ digits ds
  | None => ¬ has_gomaxprocs (base ++ concat ps)
  end →
  Parts (name_of base ps procs)
  = Some (base, ps ++ option_list (procs_part procs)) ∧
  Base (name_of base ps procs) = base.
Proof.
  intros Hb Hps Hprocs.
  pose proof (nameParts_name_of base ps procs Hb Hps Hprocs) as E.
  split; [unfold Parts; by rewrite E|].
  destruct (nameParts_head (name_of base ps procs)) as [Hh _].
  rewrite E in Hh. by injection Hh.
Qed.

(** *** The extractor of a name key *)

Lemma byte_eqb_refl c : byte_eqb c c = true.
Proof. by apply byte_eqb_eq. Qed.

Lemma byte_eqb_ne c d : c ≠ d → byte_eqb c d = false.
Proof.
  intros Hne. destruct (byte_eqb c d) eqn:E; [|done].
  by apply byte_eqb_eq in E.
Qed.

Lemma HasPrefix_key k : ∀ k' v,
  "="%char ∉ k → "="%char ∉ k' →
  HasPrefix (k' ++ "="%char :: v) (k ++ ["="%char]) = true ↔ k' = k.
Proof.
  induction k as [|c k IH]; intros k' v Hk Hk'.
  - destruct k' as [|c' k']; cbn [HasPrefix app].
    + by rewrite byte_eqb_refl.
    + apply not_elem_of_cons in Hk' as [Hne _].
      by rewrite (byte_eqb_ne _ _ Hne).
  - apply not_elem_of_cons in Hk as [Hne Hk].
    destruct k' as [|c' k']; cbn [HasPrefix app].
    + rewrite (byte_eqb_ne c "=") by done. done.
    + apply not_elem_of_cons in Hk' as [Hne' Hk'].
      destruct (byte_eqb c c') eqn:E; cbn [andb].
      * apply byte_eqb_eq in E as ->. rewrite (IH k' v Hk Hk').
        split; [by intros ->|by intros [= ->]].
      * split; [done|]. intros [= -> _].
        by rewrite byte_eqb_refl in E.
Qed.

Lemma find_part_kvs kvs k tl :
  "="%char ∉ k → Forall (λ kv, "="%char ∉ kv.1) kvs →
  Forall (λ p, starts_with p "/" = false) tl →
  find_part ((part_of <$> kvs) ++ tl) ("/"%char :: k ++ ["="%char])
  = kv_lookup kvs k.
Proof.
  intros Hk Hall Htl. induction Hall as [|[k' v] kvs Hk' _ IH].
  - cbn [fmap list_fmap app kv_lookup].
    induction Htl as [|p tl Hp _ IH]; [done|]. cbn [find_part].
    destruct p as [|c p]; [done|]. cbn [HasPrefix starts_with] in Hp |- *.
    assert (byte_eqb "/" c = false) as ->; [|done].
    apply byte_eqb_ne. intros <-. by rewrite byte_eqb_refl in Hp.
  - cbn [fmap list_fmap app kv_lookup find_part]. fold (fmap part_of kvs).
    unfold part_of at 1 2. cbn [fst snd HasPrefix] in Hk' |- *.
    rewrite byte_eqb_refl. cbn [andb].
    destruct (decide (k' = k)) as [->|Hne].
    + rewrite (proj2 (HasPrefix_key k k v Hk Hk) eq_refl).
      cbn [length drop].
      replace (k ++ "="%char :: v) with ((k ++ ["="%char]) ++ v)
        by (by rewrite <- app_assoc).
      by rewrite drop_app_length.
    + destruct (HasPrefix (k' ++ "="%char :: v) (k ++ ["="%char])) eqn:E.
      * by apply HasPrefix_key in E.
      * exact IH.
Qed.

(** X16.  Building a name and extracting a key are inverse: in a name
    built from a base, parts [/k=v] and GOMAXPROCS digits, the extractor
    that [newExtractor] makes for the key [/k] returns the value of the
    first part with that key, empty when no part has it.  For the key
    [/gomaxprocs] it returns the GOMAXPROCS digits of the name when there
    are any, whatever the parts say. *)
Theorem name_key_extractor base kvs procs k fc vs :
  "/"%char ∉ base →
  Forall (λ kv, ("/"%char ∉ kv.1) ∧ ("="%char ∉ kv.1) ∧ ("/"%char ∉ kv.2))
    kvs →
  match procs with
  | Some ds => ds ≠ [] ∧ digits ds
  | None => ¬ has_gomaxprocs (base ++ concat (part_of <$> kvs))
  end →
  "="%char ∉ bs k →
  ∃ e, newExtractor (String "/" k) = inl e ∧
    apply e (benchfmt.mkResult fc (name_of base (part_of <$> kvs) procs) vs)
    = Some (match procs with
            | Some ds =>
                if String.eqb k "gomaxprocs" then ds else kv_lookup kvs (bs k)
            | None => kv_lookup kvs (bs k)
            end).
Proof.
  intros Hb Hkvs Hprocs Hk.
  assert (Forall slash_part (part_of <$> kvs)) as Hps.
  { apply Forall_fmap. eapply Forall_impl; [exact Hkvs|].
    intros [k' v] (H1&H2&H3). exists (k' ++ "="%char :: v). split; [done|].
    simpl in *. intros [?|[?|?]%elem_of_cons]%elem_of_app; done. }
  assert (Forall (λ kv, "="%char ∉ kv.1) kvs) as Heq.
  { eapply Forall_impl; [exact Hkvs|]. by intros ? (_&?&_). }
  pose proof (nameParts_name_of base _ procs Hb Hps Hprocs) as E.
  assert (bs (String "/" k) ++ bs "=" = "/"%char :: bs k ++ ["="%char])
    as Hpre by done.
  exists (extractNamePartOf (bs (String "/" k) ++ bs "=")
            (String.eqb (String "/" k) "/gomaxprocs")).
  split; [done|]. cbn [apply]. unfold extractNamePart, Parts.
  cbn [benchfmt.Name]. rewrite E, Hpre.
  assert (String.eqb (String "/" k) "/gomaxprocs" = String.eqb k "gomaxprocs")
    as -> by done.
  assert (find_part ((part_of <$> kvs) ++ option_list (procs_part procs))
            ("/"%char :: bs k ++ ["="%char]) = kv_lookup kvs (bs k)) as ->.
  { apply find_part_kvs; [done|done|].
    destruct procs; repeat constructor. }
  destruct (String.eqb k "gomaxprocs") eqn:Eg; cbn [andb].
  2:{ by destruct procs. }
  destruct procs as [ds|]; simpl.
  - rewrite length_app, Nat.add_comm. simpl.
    rewrite last_snoc. done.
  - rewrite app_nil_r.
    destruct (0 <? length (part_of <$> kvs))%nat eqn:El; [|done].
    destruct kvs as [|kv kvs _] using rev_ind; [done|].
    rewrite fmap_app. simpl. rewrite last_snoc. done.
Qed.

(** *** No extractor panics *)

Lemma normalize_parts_total replace g parts : ∀ newName,
  Forall (λ p, p ≠ []) parts →
  is_Some (normalize_parts replace g parts newName).
Proof.
  intros newName Hall. revert newName.
  induction Hall as [|p parts Hp _ IH]; intros newName; [by eexists|].
  cbn [normalize_parts].
  assert (is_Some (normalize_part replace g p)) as [out ->]; [|apply IH].
  unfold normalize_part. destruct (find_replace replace p); [by eexists|].
  destruct g; [|by eexists]. destruct p as [|c p]; [done|].
  destruct (byte_eqb c "-"); by eexists.
Qed.

Lemma parts_not_empty n base parts :
  Parts n = Some (base, parts) → Forall (λ p, p ≠ []) parts.
Proof.
  intros E. destruct (nameParts_spec n) as (b&ps&En&_&Hall).
  unfold Parts in E. rewrite En in E. injection E as <- <-.
  eapply Forall_impl; [exact Hall|]. intros p [Hp|Hp] ->; done.
Qed.

Lemma apply_is_Some e res : is_Some (apply e res).
Proof.
  destruct (nameParts_spec (benchfmt.Name res)) as (b&ps&En&_&Hall).
  assert (Parts (benchfmt.Name res) = Some (b, ps)) as EP
    by (unfold Parts; by rewrite En).
  pose proof (parts_not_empty _ _ _ EP) as Hne.
  destruct e as [| |prefix g|key|replace xn xg]; cbn [apply];
    try (by eexists).
  - unfold extractNamePart. rewrite EP.
    destruct (g && (0 <? length ps)%nat) eqn:E; [|by eexists].
    apply andb_true_iff in E as [_ E%Nat.ltb_lt].
    destruct ps as [|p ps _] using rev_ind; [simpl in E; lia|].
    rewrite last_snoc. apply Forall_app in Hne as [_ Hp].
    apply Forall_cons in Hp as [Hp _]. destruct p as [|c p]; [done|].
    destruct (byte_eqb c "-"); by eexists.
  - unfold extractFullExcluded.
    destruct (negb _); [by eexists|]. rewrite EP.
    by apply normalize_parts_total.
Qed.

(** X18.  No extractor panics, whatever the result: the extractors of
    [.name], [.fullname], a name key, a file key and of the full name
    with excluded keys all return a value, also for a name that is empty
    or has no part. *)
Theorem extractors_never_panic e res : ∃ v, apply e res = Some v.
Proof. apply apply_is_Some. Qed.

End name_props.

(** ** Headers tile the sequence of configs *)

Module header_extra.
Import num benchproc spec header_props.
Import walk_props inv_props reach_props reach_final config_props.

Lemma tiles_app l1 l2 lo mid hi :
  tiles l1 lo mid → tiles l2 mid hi → tiles (l1 ++ l2) lo hi.
Proof.
  revert lo. induction l1 as [|nd l1 IH]; intros lo H1 H2; simpl in *.
  - by subst.
  - destruct H1 as (?&?&?). split; [done|]. split; [done|]. by apply IH.
Qed.

(** The runs of a span tile it, and each run has one value. *)
Lemma runs_tiles i lo vs cur :
  0 ≤ lo → runs i lo vs cur →
  tiles cur lo (lo + Z.of_nat (length vs)) ∧
  Forall (λ nd, lo ≤ Start nd ∧
                Start nd + Len nd ≤ lo + Z.of_nat (length vs) ∧
                ∀ j, Start nd ≤ j < Start nd + Len nd →
                     vs !! Z.to_nat (j - lo) = Some (hValue nd)) cur.
Proof.
  intros Hlo Hr. induction Hr as [lo|lo v k vs cur Hhd Hr IH].
  { simpl. split; [lia|constructor]. }
  destruct (IH ltac:(lia)) as [Ht Hall].
  rewrite length_app, length_replicate.
  split.
  - cbn [tiles Start Len]. split; [done|]. split; [lia|].
    replace (lo + Z.of_nat (S k + length vs))
      with (lo + Z.of_nat (S k) + Z.of_nat (length vs)) by lia.
    done.
  - constructor.
    + cbn [Start Len hValue]. split; [lia|]. split; [lia|].
      intros j Hj. rewrite lookup_app_l by (rewrite length_replicate; lia).
      apply lookup_replicate_2. lia.
    + eapply Forall_impl; [exact Hall|]. intros nd (H1&H2&H3).
      split; [lia|]. split; [lia|]. intros j Hj.
      rewrite lookup_app_r by (rewrite length_replicate; lia).
      rewrite length_replicate.
      replace (Z.to_nat (j - lo) - S k)%nat
        with (Z.to_nat (j - (lo + Z.of_nat (S k)))) by lia.
      by apply H3.
Qed.

(** A level that subdivides a tiling is a tiling of the same span. *)
Lemma subdivides_tiles col i prev level lo hi :
  0 ≤ lo → tiles prev lo hi → subdivides col i prev level →
  tiles level lo hi ∧ Forall (nested prev) level ∧
  Forall (spans_value col) level.
Proof.
  intros Hlo Ht (curs&HF&->). revert lo Hlo Ht.
  induction HF as [|p cur prev curs (span&Hsub&Hruns) _ IH]; intros lo Hlo Ht.
  { simpl in *. split; [done|]. split; constructor. }
  destruct Ht as (Hs&Hlen&Ht).
  apply subslice_Some in Hsub as (H1&H2&H3&->).
  assert (Z.of_nat (length (slice col (Z.to_nat (Start p))
                              (Z.to_nat (Start p + Len p)))) = Len p) as Hl.
  { unfold slice. rewrite length_take, length_drop. lia. }
  destruct (runs_tiles _ _ _ _ H1 Hruns) as [Htc Hallc].
  rewrite Hl in Htc, Hallc.
  destruct (IH (lo + Len p) ltac:(lia) Ht) as (Ht'&Hn'&Hv').
  simpl. split; [|split].
  - eapply tiles_app; [|exact Ht']. by rewrite <- Hs.
  - apply Forall_app. split.
    + eapply Forall_impl; [exact Hallc|]. intros nd (Ha&Hb&_).
      exists p. split; [left|]. lia.
    + eapply Forall_impl; [exact Hn'|]. intros nd (q&Hq&?).
      exists q. split; [by right|done].
  - apply Forall_app. split; [|done].
    eapply Forall_impl; [exact Hallc|]. intros nd (Ha&Hb&Hc) j Hj.
    specialize (Hc j Hj). unfold slice in Hc.
    apply lookup_take_Some in Hc as [Hc _]. rewrite lookup_drop in Hc.
    by replace (Z.to_nat (Start p) + Z.to_nat (j - Start p))%nat
      with (Z.to_nat j) in Hc by lia.
Qed.

Lemma levels_header_ok cols n : ∀ i prev levels,
  tiles prev 0 n → levels_from cols i prev levels →
  header_ok cols n prev levels.
Proof.
  induction cols as [|col cols IH]; intros i prev levels Ht Hl;
    destruct levels as [|level levels]; try done.
  destruct Hl as [Hsub Hl].
  destruct (subdivides_tiles _ _ _ _ 0 n ltac:(lia) Ht Hsub) as (H1&H2&H3).
  cbn [header_ok]. split; [done|]. split; [done|]. split; [done|].
  by eapply IH.
Qed.

Section Header.
Context `{GoLib}.

(** X17.  On a schema of the package and a sequence of its Configs that
    is not empty, [NewConfigHeader] never panics and returns one level
    per field of the schema.  Each level tiles the whole sequence: its
    nodes follow one another from the first config to the last, none is
    empty, each lies within one node of the level before, and each
    spans configs that all have the value of the node for the field of
    the level. *)
Theorem NewConfigHeader_tiles s cfs :
  reachable s → Forall (is_config s) cfs → cfs ≠ [] →
  ∃ s' fl cols levels,
    Fields s = Some (s', fl) ∧
    NewConfigHeader s cfs = Some (s', levels) ∧
    mapM (column s cfs) fl = Some cols ∧
    length levels = length fl ∧
    header_ok cols (Z.of_nat (length cfs)) (root_span cfs) levels.
Proof.
  intros Hr Hcfs Hne. pose proof (reachable_inv s Hr) as Hi.
  destruct (inv_flatten s Hi) as (s1&fl&HF&Hi1&Sh&Sn&Sf&Hcov&_).
  destruct (inv_Fields _ _ _ Hi HF) as (_&Hw&_).
  assert (∀ c f, Get s1 c f = Get s c f) as HG.
  { intros c0 f. unfold Get, node. by rewrite Sn, Sh. }
  assert (∃ cols, mapM (column s cfs) fl = Some cols) as [cols Hcols].
  { apply mapM_is_Some. apply Forall_forall. intros f Hf.
    unfold compose, column. apply mapM_is_Some. apply Forall_forall.
    intros c Hc. unfold compose.
    rewrite Forall_forall in Hcfs. destruct (Hcfs c Hc) as [n Hn].
    destruct (walk_leaves _ _ _ _ _ Hw Hf) as (fi&Hd&Hleaf).
    cbn beta.
    rewrite (schema_extra.Get_value s c n f fi Hi Hn Hd Hleaf). by eexists. }
  assert (mapM (column s1 cfs) fl = Some cols) as Hcols1.
  { rewrite <- Hcols. apply mapM_ext. intros f. unfold column.
    apply mapM_ext. intros c. apply HG. }
  pose proof (nonsingular_props.commonSchema_configs s cfs Hi Hcfs Hne) as Hcs.
  destruct (header_fields_ok s1 cfs fl cols 0 (root_span cfs) Hcols1)
    as (levels&Hl&Hlen&Hlv).
  { repeat constructor; simpl; lia. }
  exists s1, fl, cols, levels. split; [done|]. split.
  { unfold NewConfigHeader. destruct cfs as [|c cfs]; [done|].
    change (length (c :: cfs) =? 0)%nat with false. cbn iota.
    rewrite Hcs. cbn [mbind option_bind]. rewrite HF. cbn [mbind option_bind].
    unfold root_span in Hl. rewrite Hl. done. }
  split; [done|]. split; [done|].
  eapply levels_header_ok; [|exact Hlv].
  unfold root_span. cbn [tiles Start Len]. split; [done|]. split; [|lia].
  destruct cfs; [done|]. simpl. lia.
Qed.

End Header.
End header_extra.

(** ** Project never panics *)

Module total_props.
Import num benchproc spec intern_props order_props growth_props.
Import walk_props inv_props reach_props reach_final config_props stable_props.

Lemma keeps_refl h : keeps h h.
Proof. intros q fi Hq. by exists fi. Qed.

Lemma keeps_trans h1 h2 h3 : keeps h1 h2 → keeps h2 h3 → keeps h1 h3.
Proof.
  intros H1 H2 q fi Hq. destruct (H1 q fi Hq) as (fi2&Hq2&E2).
  destruct (H2 q fi2 Hq2) as (fi3&Hq3&E3). exists fi3. split; [done|].
  congruence.
Qed.

Lemma decor_keeps h h' : decor h h' → keeps h h'.
Proof.
  intros [_ Hd] q fi Hq. destruct (Hd q fi Hq) as (fi'&?&?&_).
  by exists fi'.
Qed.

Lemma leaf_keeps h h' f : keeps h h' → leaf h f → leaf h' f.
Proof.
  intros Hk (q&fi&Hp&Hq&Hi). destruct (Hk q fi Hq) as (fi'&Hq'&E).
  exists q, fi'. split; [done|]. split; [done|]. congruence.
Qed.

Lemma group_keeps h h' g : keeps h h' → group h g → group h' g.
Proof.
  intros Hk (q&fi&Hp&Hq&Hi). destruct (Hk q fi Hq) as (fi'&Hq'&E).
  exists q, fi'. split; [done|]. split; [done|]. congruence.
Qed.

Lemma closure_keeps h h' pr : keeps h h' → closure_ok h pr → closure_ok h' pr.
Proof.
  intros Hk. destruct pr as [init g seen|f|e f]; simpl.
  - intros [Hg Hs]. split; [by eapply group_keeps|].
    eapply map_Forall_impl; [exact Hs|]. intros k f Hf. by eapply leaf_keeps.
  - by apply leaf_keeps.
  - by apply leaf_keeps.
Qed.

Lemma closures_keep h h' prs :
  keeps h h' → Forall (closure_ok h) prs → Forall (closure_ok h') prs.
Proof.
  intros Hk Hf. eapply Forall_impl; [exact Hf|].
  intros pr. by apply closure_keeps.
Qed.

Lemma carries_refl s : carries s s.
Proof. split; [apply keeps_refl|done]. Qed.

Lemma carries_trans s1 s2 s3 : carries s1 s2 → carries s2 s3 → carries s1 s3.
Proof.
  intros (H1&H2&H3&H4) (G1&G2&G3&G4).
  split; [by eapply keeps_trans|]. split; [congruence|].
  split; congruence.
Qed.

Lemma update_keeps h f g h' :
  update h f g = Some h' → (∀ fi, idx (g fi) = idx fi) → keeps h h'.
Proof.
  unfold update. intros Hu Hg.
  destruct (fieldInternal_ptr f) as [p|]; simpl in Hu; [|done].
  destruct (h !! p) as [fi0|] eqn:E; simpl in Hu; [|done].
  injection Hu as <-. intros q fi Hq.
  destruct (decide (q = p)) as [->|Hne].
  - exists (g fi0). rewrite list_lookup_insert_eq by (by eapply lookup_lt_Some).
    split; [done|]. rewrite Hg. congruence.
  - exists fi. by rewrite list_lookup_insert_ne.
Qed.

Lemma update_total h f g q :
  fieldInternal_ptr f = Some q → (q < length h)%nat →
  ∃ h', update h f g = Some h' ∧ length h' = length h.
Proof.
  intros Hp Hq. unfold update. rewrite Hp. simpl.
  destruct (lookup_lt_is_Some_2 h q Hq) as [fi ->]. simpl.
  eexists. split; [done|]. by rewrite length_insert.
Qed.

Lemma initField_keeps init h f h' :
  call_initField init h f = Some h' → keeps h h'.
Proof.
  destruct init as [m| |cm]; simpl; intros Hc.
  - by eapply update_keeps.
  - destruct (update h f _) as [h1|] eqn:E1; simpl in Hc; [|done].
    eapply keeps_trans; eapply update_keeps; try done.
  - by eapply update_keeps.
Qed.

Lemma initField_total init h f q :
  fieldInternal_ptr f = Some q → (q < length h)%nat →
  ∃ h', call_initField init h f = Some h'.
Proof.
  intros Hp Hq. destruct init as [m| |cm]; simpl.
  - destruct (update_total h f (set_cmp (cmpFixed m)) q Hp Hq) as (h'&->&_).
    by eexists.
  - destruct (update_total h f (set_order (Some ∅)) q Hp Hq) as (h1&->&Hl).
    simpl.
    destruct (update_total h1 f (set_cmp (cmpFirst f)) q Hp ltac:(lia))
      as (h'&->&_). by eexists.
  - destruct (update_total h f (set_cmp cm) q Hp Hq) as (h'&->&_).
    by eexists.
Qed.

(** Writing a leaf into the row. *)
Lemma store_row_total s f v :
  nodes_ok s → fields_ok s → leaf (fieldHeap s) f →
  ∃ s', store_row s f v = Some s' ∧ carries s s' ∧ project s' = project s.
Proof.
  intros [Hrow _] (_&_&Hb&_) (q&fi&Hp&Hq&Hi). unfold store_row, deref.
  rewrite Hp. simpl. rewrite Hq. simpl.
  destruct (intern s v) as [s1 st] eqn:Ein.
  assert (row s1 = row s ∧ fieldHeap s1 = fieldHeap s ∧
          nodeHeap s1 = nodeHeap s ∧ configs s1 = configs s ∧
          unitField s1 = unitField s ∧ project s1 = project s)
    as (Er&Eh&En&Ec&Eu&Ep).
  { unfold intern in Ein. destruct (interns s !! str v); injection Ein as <- _;
      done. }
  pose proof (Hb q fi Hq) as Hrange. unfold store.
  assert ((0 <=? idx fi) && (idx fi <? Z.of_nat (length (row s1))) = true)
    as ->.
  { rewrite Er, Hrow. apply andb_true_iff. split; [apply Z.leb_le|apply Z.ltb_lt]; lia. }
  simpl. eexists. split; [done|]. split; [|done].
  split; [simpl; rewrite Eh; apply keeps_refl|]. done.
Qed.

Lemma addField_total s g name :
  group (fieldHeap s) g → ∃ s' f, addField s g name = Some (s', f).
Proof.
  intros (q&gi&Hp&Hq&Hi). unfold addField, deref. rewrite Hp. simpl.
  rewrite Hq. simpl. rewrite Hi. simpl. unfold update. rewrite Hp. simpl.
  rewrite (lookup_app_l_Some _ _ _ _ Hq). simpl. by eexists _, _.
Qed.

Lemma addField_carries s g name s' f :
  0 ≤ nFields s → addField s g name = Some (s', f) →
  carries s s' ∧ project s' = project s ∧ leaf (fieldHeap s') f ∧
  ∃ q, fieldInternal_ptr f = Some q ∧ (q < length (fieldHeap s'))%nat.
Proof.
  intros Hn Ha. destruct (addField_spec _ _ _ _ _ Ha) as (gp&gi&Hp&Hg&Hi&->&->).
  pose proof (lookup_lt_Some _ _ _ Hg) as Hlt.
  simpl. split; [split; [|done]|split; [done|split]].
  - intros q fi Hq. simpl. destruct (decide (q = gp)) as [->|Hne].
    + exists (add_sub (mkField name (Some (length (fieldHeap s)))) gi).
      rewrite list_lookup_insert_eq by (rewrite length_app; simpl; lia).
      split; [done|]. simpl. congruence.
    + exists fi. rewrite list_lookup_insert_ne by done.
      by rewrite (lookup_app_l_Some _ _ _ _ Hq).
  - eexists _, _. split; [done|]. split.
    + rewrite list_lookup_insert_ne by lia. by rewrite list_lookup_middle.
    + simpl. lia.
  - eexists. split; [done|]. rewrite length_insert, length_app. simpl. lia.
Qed.

Lemma Fields_carries s s' fl :
  Fields s = Some (s', fl) →
  carries s s' ∧ project s' = project s ∧ unitField s' = unitField s ∧
  row s' = row s.
Proof.
  unfold Fields. destruct (flatCache s) as [fc|].
  - intros [= <- _]. split; [apply carries_refl|done].
  - destruct (walk _ _ _) as [fc|]; simpl; [|done]. intros [= <- _].
    split; [split; [apply keeps_refl|done]|done].
Qed.

Lemma addField_idx s g name s' f :
  addField s g name = Some (s', f) →
  ∃ q fi, fieldInternal_ptr f = Some q ∧ fieldHeap s' !! q = Some fi ∧
          idx fi = nFields s.
Proof.
  intros Ha. destruct (addField_spec _ _ _ _ _ Ha) as (gp&gi&Hp&Hg&Hi&->&->).
  pose proof (lookup_lt_Some _ _ _ Hg) as Hlt.
  exists (length (fieldHeap s)),
    (mkFieldInternal (Some (self s)) (nFields s) [] cmpNil None).
  split; [done|]. split; [|done]. simpl.
  rewrite list_lookup_insert_ne by lia. by rewrite list_lookup_middle.
Qed.

Lemma addGroup_carries s g name s' f :
  addGroup s g name = Some (s', f) →
  carries s s' ∧ project s' = project s ∧ group (fieldHeap s') f.
Proof.
  unfold addGroup, update. cbn [fieldHeap set_fieldHeap].
  destruct (fieldInternal_ptr g) as [gp|]; simpl; [|done].
  destruct ((fieldHeap s ++ _) !! gp) as [gi|] eqn:Eg; simpl; [|done].
  intros [= <- <-]. pose proof (lookup_lt_Some _ _ _ Eg) as Hlt.
  split; [split; [|done]|split; [done|]].
  - intros q fi Hq. simpl. pose proof (lookup_lt_Some _ _ _ Hq) as Hql.
    destruct (decide (q = gp)) as [->|Hne].
    + eexists. rewrite list_lookup_insert_eq by done. split; [done|].
      rewrite (lookup_app_l_Some _ _ _ _ Hq) in Eg. injection Eg as <-. done.
    + exists fi. rewrite list_lookup_insert_ne by done.
      by rewrite (lookup_app_l_Some _ _ _ _ Hq).
  - simpl. destruct (decide (gp = length (fieldHeap s))) as [->|Hne].
    + rewrite list_lookup_middle in Eg by done. injection Eg as <-.
      eexists _, _. split; [done|]. split; [by apply list_lookup_insert_eq|].
      done.
    + eexists _, _. split; [done|]. split.
      * rewrite list_lookup_insert_ne by done. by apply list_lookup_middle.
      * done.
Qed.

Lemma runnable_carries s s' :
  runnable s → carries s s' → project s' = project s → runnable s'.
Proof.
  intros (Hcl&Hb&Hu) (Hk&Hn&Hc&Hun) Hp. split; [|split].
  - rewrite Hp. by eapply closures_keep.
  - intros hsh cs. rewrite Hc, Hn. apply Hb.
  - unfold unit_ok. rewrite Hun. destruct Hu as [Hu|Hu]; [by left|right].
    by eapply leaf_keeps.
Qed.

Lemma runnable_set_project s pr :
  runnable s → closure_ok (fieldHeap s) pr →
  runnable (set_project s (project s ++ [pr])).
Proof.
  intros (Hcl&Hb&Hu) Hpr. split; [|done].
  cbn [project set_project fieldHeap]. apply Forall_app. split; [done|].
  by repeat constructor.
Qed.

Lemma runnable_newSchema addr : runnable (newSchema addr).
Proof.
  split; [constructor|]. split; [|by left].
  intros hsh cs Hcs. simpl in Hcs. by rewrite lookup_empty in Hcs.
Qed.

(** Trimming does not change the value of a tuple at an index. *)
Lemma trim_loop_value row n i :
  (n ≤ length row)%nat →
  (∀ j, (n ≤ j)%nat → (j < length row)%nat → row !! j = Some ""%string) →
  value_at (trim_loop row n) i = value_at row i.
Proof.
  unfold value_at. induction n as [|k IH]; intros Hn Hrest.
  { cbn [trim_loop]. rewrite lookup_nil. simpl.
    destruct (row !! Z.to_nat i) as [v|] eqn:E; [|done].
    rewrite (Hrest (Z.to_nat i)) in E; [by injection E as <-|lia|].
    by eapply lookup_lt_Some. }
  cbn [trim_loop].
  destruct (lookup_lt_is_Some_2 row k ltac:(lia)) as [v Hv]. rewrite Hv.
  destruct (String.eqb v "") eqn:E.
  - apply String.eqb_eq in E. subst v. apply IH; [lia|].
    intros j Hj Hlt. destruct (decide (j = k)) as [->|Hne]; [done|].
    apply Hrest; lia.
  - destruct (decide (Z.to_nat i < S k)%nat) as [Hlt|Hge].
    + by rewrite lookup_take_lt.
    + rewrite lookup_take_ge by lia. simpl.
      destruct (row !! Z.to_nat i) as [w|] eqn:Ew; [|done].
      rewrite (Hrest (Z.to_nat i)) in Ew; [by injection Ew as <-|lia|].
      by eapply lookup_lt_Some.
Qed.

Lemma trim_value row i : value_at (trim row) i = value_at row i.
Proof. apply trim_loop_value; [done|]. intros j ? ?. lia. Qed.

Section Total.
Context `{GoLib}.

Lemma inv_nFields s : inv s → 0 ≤ nFields s.
Proof. intros [([Hrow _]&_) _]. lia. Qed.

(** The loop of the [.config] closure returns. *)
Lemma projectConfig_loop_total p init g cfgs : ∀ seen s,
  inv s → init_ok init → group (fieldHeap s) g →
  map_Forall (λ _ f, leaf (fieldHeap s) f) seen →
  ∃ seen' s', projectConfig_loop p init g cfgs seen s = Some (seen', s') ∧
    carries s s' ∧ map_Forall (λ _ f, leaf (fieldHeap s') f) seen'.
Proof.
  induction cfgs as [|cfg cfgs IH]; intros seen s Hi Hio Hg Hseen.
  { exists seen, s. split; [done|]. split; [apply carries_refl|done]. }
  cbn [projectConfig_loop].
  destruct (seen !! benchfmt.Key cfg) as [field|] eqn:Es.
  - pose proof Hi as [(Hn&_&Hf&_) _].
    destruct (store_row_total s field (benchfmt.Value cfg) Hn Hf (Hseen _ _ Es))
      as (s1&E1&Hc1&Hp1).
    rewrite E1. cbn [mbind option_bind].
    pose proof (inv_store_row _ _ _ _ Hi E1) as Hi1.
    destruct (IH seen s1 Hi1 Hio) as (seen'&s'&E&Hc&Hl).
    { eapply group_keeps; [apply Hc1|done]. }
    { eapply map_Forall_impl; [exact Hseen|]. intros k f Hl.
      eapply leaf_keeps; [apply Hc1|done]. }
    exists seen', s'. split; [done|]. split; [|done].
    by eapply carries_trans.
  - destruct (configKeys_get p (benchfmt.Key cfg)).
    { by apply IH. }
    destruct (addField_total s g (benchfmt.Key cfg) Hg) as (s1&field&Ea).
    rewrite Ea. cbn [mbind option_bind].
    destruct (addField_carries _ _ _ _ _ (inv_nFields s Hi) Ea)
      as (Hc1&Hp1&Hl1&q&Hq&Hlt).
    destruct (initField_total init (fieldHeap s1) field q Hq Hlt) as (h&Eh).
    rewrite Eh. cbn [mbind option_bind].
    destruct (inv_add_init _ _ _ _ _ _ _ Hi Hio Ea Eh) as [Hi2 _].
    pose proof (initField_keeps _ _ _ _ Eh) as Hk2.
    assert (leaf h field) as Hl2 by (by eapply leaf_keeps).
    pose proof Hi2 as [(Hn2&_&Hf2&_) _].
    destruct (store_row_total (set_fieldHeap s1 h) field (benchfmt.Value cfg)
                Hn2 Hf2 Hl2) as (s3&E3&Hc3&Hp3).
    rewrite E3. cbn [mbind option_bind].
    pose proof (inv_store_row _ _ _ _ Hi2 E3) as Hi3.
    assert (carries s s3) as Hc.
    { eapply carries_trans; [|exact Hc3].
      destruct Hc1 as (K1&K2&K3&K4). split; [|done].
      simpl. by eapply keeps_trans. }
    destruct (IH (<[benchfmt.Key cfg := field]> seen) s3 Hi3 Hio)
      as (seen'&s'&E&Hc'&Hl).
    { eapply group_keeps; [apply Hc|done]. }
    { apply map_Forall_insert_2.
      - eapply leaf_keeps; [apply Hc3|done].
      - eapply map_Forall_impl; [exact Hseen|]. intros k f Hl.
        eapply leaf_keeps; [apply Hc|done]. }
    exists seen', s'. split; [done|]. split; [|done].
    by eapply carries_trans.
Qed.

(** A call of a closure returns. *)
Lemma call_project_total pr p s r :
  inv s → proj_ok pr → closure_ok (fieldHeap s) pr →
  ∃ p' s' pr', call_project pr p s r = Some (p', s', pr') ∧
    carries s s' ∧ closure_ok (fieldHeap s') pr'.
Proof.
  intros Hi Hpo Hcl. pose proof Hi as [(Hn&_&Hf&_) _].
  destruct pr as [init g seen|field|ext field]; cbn [call_project].
  - destruct Hcl as [Hg Hseen].
    destruct (projectConfig_loop_total p init g (benchfmt.FileConfig r) seen s
                Hi Hpo Hg Hseen) as (seen'&s'&->&Hc&Hl).
    cbn [mbind option_bind]. eexists _, _, _. split; [done|].
    split; [done|]. split; [|done]. eapply group_keeps; [apply Hc|done].
  - set (p1 := match fullExtractor p with Some _ => p | None => _ end).
    assert (∃ e, fullExtractor p1 = Some e) as [e ->].
    { subst p1. destruct (fullExtractor p) eqn:E; [by eexists|].
      by eexists. }
    cbn [mbind option_bind].
    destruct (name_props.apply_is_Some e r) as [v ->].
    cbn [mbind option_bind].
    destruct (store_row_total s field v Hn Hf Hcl) as (s'&->&Hc&_).
    cbn [mbind option_bind]. eexists _, _, _. split; [done|].
    split; [done|]. eapply leaf_keeps; [apply Hc|done].
  - destruct (name_props.apply_is_Some ext r) as [v ->].
    cbn [mbind option_bind].
    destruct (store_row_total s field v Hn Hf Hcl) as (s'&->&Hc&_).
    cbn [mbind option_bind]. eexists _, _, _. split; [done|].
    split; [done|]. eapply leaf_keeps; [apply Hc|done].
Qed.

(** The loop of [populateRow] over the closures returns. *)
Lemma populate_loop_total r projs : ∀ i p s,
  inv s → Forall proj_ok projs →
  Forall (closure_ok (fieldHeap s)) projs →
  Forall (closure_ok (fieldHeap s)) (project s) →
  ∃ p' s', populate_loop projs i p s r = Some (p', s') ∧
    carries s s' ∧ Forall (closure_ok (fieldHeap s')) (project s').
Proof.
  induction projs as [|pr projs IH]; intros i p s Hi Hpo Hcl Hall.
  { exists p, s. split; [done|]. split; [apply carries_refl|done]. }
  apply Forall_cons in Hpo as [Hpo1 Hpo]. apply Forall_cons in Hcl as [Hcl1 Hcl].
  cbn [populate_loop].
  destruct (call_project_total pr p s r Hi Hpo1 Hcl1)
    as (p1&s1&pr1&E1&Hc1&Hcl1').
  rewrite E1. cbn [mbind option_bind].
  destruct (inv_call_project _ _ _ _ _ _ _ Hi Hpo1 E1) as (Hi1&Hpo1'&Hp1).
  set (s2 := set_project s1 (<[i := pr1]> (project s1))).
  assert (inv s2) as Hi2.
  { apply inv_set_project; [done|]. apply Forall_insert; [|done].
    by destruct Hi1 as [(_&_&_&_&?) _]. }
  destruct (IH (S i) p1 s2 Hi2 Hpo) as (p'&s'&E&Hc&Hall').
  { eapply closures_keep; [apply Hc1|done]. }
  { subst s2. cbn [project set_project fieldHeap]. apply Forall_insert; [|done].
    rewrite Hp1. eapply closures_keep; [apply Hc1|done]. }
  exists p', s'. split; [done|]. split; [|done].
  eapply carries_trans; [exact Hc1|]. exact Hc.
Qed.

Lemma populateRow_total p s r :
  inv s → Forall (closure_ok (fieldHeap s)) (project s) →
  ∃ p' s', populateRow p s r = Some (p', s') ∧ inv s' ∧
    carries s s' ∧ Forall (closure_ok (fieldHeap s')) (project s').
Proof.
  intros Hi Hcl. unfold populateRow.
  set (s0 := set_row s ((λ _, ""%string) <$> row s)).
  assert (inv s0) as Hi0.
  { apply inv_set_row; [done|]. by rewrite length_fmap. }
  destruct (populate_loop_total r (project s0) 0%nat p s0 Hi0)
    as (p'&s'&E&Hc&Hall); [|done|done|].
  { by destruct Hi as [(_&_&_&_&?) _]. }
  exists p', s'. split; [done|]. split; [|done].
  eapply inv_populateRow; [exact Hi|]. exact E.
Qed.

(** *** Interning the row *)

Lemma find_config_total s cs t :
  Forall (λ q, (q < length (nodeHeap s))%nat) cs →
  ∃ found, find_config s cs t = Some found.
Proof.
  induction 1 as [|q cs Hq _ IH]; [by eexists|]. cbn [find_config].
  destruct (lookup_lt_is_Some_2 _ _ Hq) as [n ->]. cbn [mbind option_bind].
  destruct (equalRow n t); [by eexists|done].
Qed.

Lemma observe_total h row f :
  (∃ q fi, fieldInternal_ptr f = Some q ∧ h !! q = Some fi ∧ 0 ≤ idx fi) →
  ∃ h', observe h row f = Some h'.
Proof.
  intros (q&fi&Hp&Hq&Hi). unfold observe, deref. rewrite Hp. simpl.
  rewrite Hq. simpl. destruct (order fi) as [o|]; [|by eexists].
  assert (∃ val, (if idx fi <? Z.of_nat (length row)
                  then index row (idx fi) else Some ""%string) = Some val)
    as [val ->].
  { destruct (idx fi <? Z.of_nat (length row)) eqn:E; [|by eexists].
    apply Z.ltb_lt in E. unfold index.
    replace (0 <=? idx fi) with true by (symmetry; apply Z.leb_le; lia).
    apply lookup_lt_is_Some_2. lia. }
  simpl. destruct (o !! val); [by eexists|].
  destruct (update_total h f (set_order (Some (<[val := Z.of_nat (size o)]> o)))
              q Hp) as (h'&->&_); [by eapply lookup_lt_Some|by eexists].
Qed.

Lemma observe_all_total row fields : ∀ h,
  callable h →
  Forall (λ f, ∃ q fi, fieldInternal_ptr f = Some q ∧ h !! q = Some fi ∧
                       0 ≤ idx fi) fields →
  ∃ h', observe_all h row fields = Some h'.
Proof.
  induction fields as [|f fields IH]; intros h Hcal Hall; [by eexists|].
  apply Forall_cons in Hall as [Hf Hall]. cbn [observe_all].
  destruct (observe_total h row f Hf) as [h1 E1]. rewrite E1.
  cbn [mbind option_bind].
  destruct (observe_decor _ _ _ _ Hcal E1) as [Hcal1 Hd].
  apply IH; [done|]. eapply Forall_impl; [exact Hall|].
  intros f' (q&fi&Hp&Hq&Hi). destruct Hd as [_ Hd].
  destruct (Hd q fi Hq) as (fi'&Hq'&Ei&_). exists q, fi'.
  split; [done|]. split; [done|]. congruence.
Qed.

(** [internRow] returns, and the Config it returns is a Config of the
    schema, with the trimmed row as its tuple. *)
Lemma internRow_total s :
  inv s → buckets_ok s →
  ∃ s' cf n, internRow s = Some (s', cf) ∧ node s' cf = Some n ∧
    vals n = trim (row s) ∧
    keeps (fieldHeap s) (fieldHeap s') ∧ buckets_ok s' ∧
    project s' = project s ∧ unitField s' = unitField s ∧ row s' = row s.
Proof.
  intros Hi Hb. unfold internRow.
  set (t := trim (row s)).
  destruct (find_config_total s (default [] (configs s !! hash_row t)) t)
    as [found Ef].
  { destruct (configs s !! hash_row t) as [cs|] eqn:E; [by eapply Hb|].
    constructor. }
  rewrite Ef. cbn [mbind option_bind]. destruct found as [p|].
  - destruct (find_config_found _ _ _ _ Ef) as (n&Hn&Hv).
    exists s, (mkConfigOf (Some p)), n. split; [done|]. split; [done|].
    split; [done|]. split; [apply keeps_refl|done].
  - destruct (inv_flatten s Hi) as (s1&fl&HF&Hi1&Sh&Sn&Sf&_).
    destruct (inv_Fields _ _ _ Hi HF) as (_&Hw&(_&Sc&_)&_&_&Sr&_).
    rewrite HF. cbn [mbind option_bind].
    destruct (observe_all_total t fl (fieldHeap s1)) as [h Eh].
    { by destruct Hi1. }
    { apply Forall_forall. intros f Hf.
      destruct (walk_leaves _ _ _ _ _ Hw Hf) as (fi&Hd&Hleaf).
      unfold deref in Hd.
      destruct (fieldInternal_ptr f) as [q|] eqn:Hp; simpl in Hd; [|done].
      exists q, fi. rewrite Sh. split; [done|]. split; [done|].
      destruct Hi as [(_&_&(_&_&Hbd&_)&_) _]. pose proof (Hbd q fi Hd). lia. }
    rewrite Eh. cbn [mbind option_bind].
    destruct (observe_all_decor _ _ _ _ (proj2 Hi1) Eh) as [_ Hd].
    set (nd := mkConfigNode (Some (self (set_fieldHeap s1 h))) t).
    eexists _, _, nd. split; [done|]. split.
    { unfold node. cbn [c mbind option_bind set_configs nodeHeap set_fieldHeap].
      by rewrite list_lookup_middle. }
    split; [done|]. split.
    { cbn [fieldHeap set_configs set_fieldHeap]. rewrite <- Sh.
      by apply decor_keeps. }
    split.
    { intros hsh cs. cbn [configs set_configs nodeHeap set_fieldHeap].
      rewrite length_app. simpl. rewrite Sn, Sc.
      destruct (decide (hsh = hash_row t)) as [->|Hne].
      - rewrite lookup_insert_eq. intros [= <-]. apply Forall_app. split.
        + destruct (configs s !! hash_row t) as [cs0|] eqn:E; simpl; [|constructor].
          eapply Forall_impl; [by eapply Hb|]. intros q Hq. simpl in Hq. lia.
        + repeat constructor. lia.
      - rewrite lookup_insert_ne by done. intros Hcs.
        eapply Forall_impl; [by eapply Hb|]. intros q Hq. simpl in Hq. lia. }
    cbn [project unitField row set_configs set_fieldHeap].
    by destruct (Fields_carries _ _ _ HF) as (_&?&?&?).
Qed.

(** *** The calls of the package return *)

Lemma Project_runs p s r :
  inv s → runnable s →
  ∃ p' s' cf n, Project p s r = Some (p', s', cf) ∧ inv s' ∧ runnable s' ∧
    node s' cf = Some n.
Proof.
  intros Hi (Hcl&Hb&Hu). unfold Project.
  destruct (populateRow_total p s r Hi Hcl) as (p1&s1&E1&Hi1&Hc1&Hcl1).
  rewrite E1. cbn [mbind option_bind].
  assert (buckets_ok s1) as Hb1.
  { destruct Hc1 as (_&Hn&Hc&_). intros hsh cs. rewrite Hn, Hc. apply Hb. }
  destruct (internRow_total s1 Hi1 Hb1) as (s'&cf&n&E2&Hn&_&Hk&Hb'&Hp&Hun&_).
  rewrite E2. cbn [mbind option_bind]. exists p1, s', cf, n.
  split; [done|]. split; [by eapply inv_internRow|]. split; [|done].
  split; [|split; [done|]].
  - rewrite Hp. by eapply closures_keep.
  - unfold unit_ok. rewrite Hun. destruct Hc1 as (Hk1&_&_&->).
    destruct Hu as [Hu|Hu]; [by left|right].
    eapply leaf_keeps; [exact Hk|]. by eapply leaf_keeps.
Qed.

Lemma root_group s : inv s → group (fieldHeap s) (root s).
Proof.
  intros [(_&_&(Hr&((r0&Hr0&Hi0)&_)&_)&_) _]. by exists O, r0.
Qed.

Lemma AddValues_runs s :
  inv s → runnable s → fieldInternal_ptr (unitField s) = None →
  ∃ s' f, AddValues s = Some (s', f) ∧ runnable s' ∧ unitField s' = f ∧
    leaf (fieldHeap s') f ∧
    ∃ q fi, fieldInternal_ptr f = Some q ∧ fieldHeap s' !! q = Some fi ∧
            idx fi = nFields s.
Proof.
  intros Hi Hrun Hu. unfold AddValues. rewrite Hu.
  destruct (addField_total s (root s) ".unit" (root_group s Hi)) as (s1&f&Ea).
  rewrite Ea. cbn [mbind option_bind].
  destruct (addField_carries _ _ _ _ _ (inv_nFields s Hi) Ea)
    as (Hc1&Hp1&Hl1&q&Hq&Hlt).
  destruct (update_total (fieldHeap s1) f (set_order (Some ∅)) q Hq Hlt)
    as (h1&E1&L1).
  rewrite E1. cbn [mbind option_bind].
  destruct (update_total h1 f (set_cmp (cmpUnit f)) q Hq ltac:(lia))
    as (h2&E2&L2).
  rewrite E2. cbn [mbind option_bind].
  assert (keeps (fieldHeap s1) h2) as Hk.
  { eapply keeps_trans; eapply update_keeps; try done. }
  assert (leaf h2 f) as Hl by (by eapply leaf_keeps).
  destruct (addField_idx _ _ _ _ _ Ea) as (q0&fi0&Hq0&Hfi0&Ei0).
  destruct (Hk q0 fi0 Hfi0) as (fi2&Hfi2&Ei2).
  eexists _, _. split; [done|]. split.
  { assert (runnable (set_fieldHeap s1 h2)) as (R1&R2&R3).
    { eapply runnable_carries; [exact Hrun| |done].
      destruct Hc1 as (K1&K2&K3&K4). split; [|done]. simpl.
      by eapply keeps_trans. }
    split; [done|]. split; [done|]. by right. }
  split; [done|]. split; [done|].
  exists q0, fi2. split; [done|]. split; [done|]. congruence.
Qed.

Lemma runnable_makeProjection p s q proj p' s' res :
  inv s → runnable s → makeProjection p s q proj = Some (p', s', res) →
  runnable s'.
Proof.
  intros Hi Hrun. unfold makeProjection.
  destruct (if String.eqb (parse.Order proj) "fixed" then _ else _)
    as [init|]; [|by intros [= _ <- _]].
  assert (∀ name s1 f h pr,
            addField s (root s) name = Some (s1, f) →
            call_initField init (fieldHeap s1) f = Some h →
            (∀ h', leaf h' f → closure_ok h' pr) →
            runnable (set_project (set_fieldHeap s1 h)
                        (project (set_fieldHeap s1 h) ++ [pr]))) as Hadd.
  { intros name s1 f h pr Ea Ec Hpr.
    destruct (addField_carries _ _ _ _ _ (inv_nFields s Hi) Ea)
      as (Hc1&Hp1&Hl1&_).
    pose proof (initField_keeps _ _ _ _ Ec) as Hk.
    apply runnable_set_project.
    - eapply runnable_carries; [exact Hrun| |done].
      destruct Hc1 as (K1&K2&K3&K4). split; [|done]. simpl.
      by eapply keeps_trans.
    - apply Hpr. by eapply leaf_keeps. }
  destruct (String.eqb (parse.pKey proj) ".config").
  { destruct (String.eqb (parse.Order proj) "fixed"); [by intros [= _ <- _]|].
    destruct (addGroup s (root s) ".config") as [[s1 g]|] eqn:Eg; simpl; [|done].
    intros [= _ <- _]. destruct (addGroup_carries _ _ _ _ _ Eg) as (Hc1&Hp1&Hg).
    apply runnable_set_project; [by eapply runnable_carries|].
    split; [done|]. apply map_Forall_empty. }
  destruct (String.eqb (parse.pKey proj) ".fullname").
  { destruct (addField s (root s) ".fullname") as [[s1 f]|] eqn:Ea; simpl; [|done].
    destruct (call_initField init _ f) as [h|] eqn:Ec; simpl; [|done].
    intros [= _ <- _]. by eapply Hadd. }
  destruct (if _ || _ then _ else _) as [p1|]; simpl; [|done].
  destruct (extract.newExtractor _) as [ext|msg]; [|by intros [= _ <- _]].
  destruct (addField s (root s) _) as [[s1 f]|] eqn:Ea; simpl; [|done].
  destruct (call_initField init _ f) as [h|] eqn:Ec; simpl; [|done].
  intros [= _ <- _]. by eapply Hadd.
Qed.

Lemma runnable_parts_loop q parts : ∀ p s fps p' s' fps',
  inv s → runnable s →
  parts_loop p s q parts fps = Some (p', inl (s', fps')) → runnable s'.
Proof.
  induction parts as [|part parts IH]; intros p s fps p' s' fps' Hi Hrun Hl;
    simpl in Hl.
  { by injection Hl as _ <- _. }
  destruct (makeProjection p s q part) as [[[p1 s1] res]|] eqn:Em;
    simpl in Hl; [|done].
  destruct res as [f|e]; [|done].
  eapply IH; [| |exact Hl].
  - by eapply inv_makeProjection.
  - by eapply runnable_makeProjection.
Qed.

Lemma runnable_Parse p addr q filter p' filter' s :
  Parse p addr q filter = Some (p', filter', inl s) → runnable s.
Proof.
  unfold Parse. intros Hp.
  destruct (parse.ParseProjection q) as [[parts|e]|]; simpl in Hp; [| |done].
  - destruct (parts_loop _ _ _ _ _) as [[p1 [[s1 fps]|e]]|] eqn:El;
      simpl in Hp; [| |done].
    + injection Hp as _ _ <-.
      eapply runnable_parts_loop; [| |exact El].
      * apply inv_newSchema.
      * apply runnable_newSchema.
    + done.
  - done.
Qed.

Lemma runnable_Residue p addr p' s : Residue p addr = Some (p', s) → runnable s.
Proof.
  unfold Residue. intros Hr.
  destruct (if negb (haveConfig p) then _ else _) as [[p1 s1]|] eqn:E1;
    simpl in Hr; [|done].
  destruct (if negb (haveFullname p1) then _ else _) as [[p2 s2]|] eqn:E2;
    simpl in Hr; [|done].
  injection Hr as <- <-.
  assert (inv s1 ∧ runnable s1) as [Hi1 Hr1].
  { destruct (negb (haveConfig p)).
    - destruct (makeProjection _ _ _ _) as [[[p0 s0] res]|] eqn:Em;
        simpl in E1; [|done].
      injection E1 as <- <-. split.
      + eapply inv_makeProjection; [|exact Em]. apply inv_newSchema.
      + eapply runnable_makeProjection; [| |exact Em].
        * apply inv_newSchema.
        * apply runnable_newSchema.
    - injection E1 as <- <-. split; [apply inv_newSchema|apply runnable_newSchema]. }
  clear E1. destruct (negb (haveFullname p1)).
  - destruct (makeProjection _ _ _ _) as [[[p0 s0] res]|] eqn:Em;
      simpl in E2; [|done].
    injection E2 as <- <-. by eapply runnable_makeProjection.
  - by injection E2 as <- <-.
Qed.

(** The loop of [ProjectValues] returns one Config for each value, and
    each reads the unit of its value for the unit field. *)
Lemma values_loop_runs uf u vs : ∀ s out,
  inv s → runnable s →
  (∃ q ui, fieldInternal_ptr uf = Some q ∧ fieldHeap s !! q = Some ui ∧
           idx ui = u ∧ u ≠ -1) →
  ∃ s' new, values_loop s u vs out = Some (s', out ++ new) ∧
    inv s' ∧ runnable s' ∧ stable s s' ∧
    Forall2 (λ cf val, Get s' cf uf = Some (benchfmt.Unit val)) new vs.
Proof.
  induction vs as [|val vs IH]; intros s out Hi Hrun (q&ui&Hq&Hui&Hu&Hleaf).
  { exists s, []. rewrite app_nil_r. split; [done|]. split; [done|].
    split; [done|]. split; [apply stable_refl|constructor]. }
  cbn [values_loop]. pose proof Hi as [([Hrow _]&_&(_&_&Hbd&_)&_) _].
  pose proof (Hbd q ui Hui) as Hrange. unfold store.
  assert ((0 <=? u) && (u <? Z.of_nat (length (row s))) = true) as ->.
  { apply andb_true_iff. split; [apply Z.leb_le|apply Z.ltb_lt]; lia. }
  cbn [mbind option_bind].
  set (r := <[Z.to_nat u := benchfmt.Unit val]> (row s)).
  assert (inv (set_row s r)) as Hi0.
  { apply inv_set_row; [done|]. unfold r. by rewrite length_insert. }
  destruct Hrun as (R1&R2&R3).
  destruct (internRow_total (set_row s r) Hi0 R2)
    as (s1&cf&n&E&Hn&Hv&Hk&Hb1&Hp1&Hu1&_).
  rewrite E. cbn [mbind option_bind].
  pose proof (inv_internRow _ _ _ Hi0 E) as (Hi1&_&_).
  pose proof (internRow_stable _ _ _ E) as Hst1.
  assert (runnable s1) as Hrun1.
  { split; [|split; [done|]].
    - rewrite Hp1. by eapply closures_keep.
    - unfold unit_ok. rewrite Hu1. destruct R3 as [R3|R3]; [by left|right].
      by eapply leaf_keeps. }
  destruct (Hk q ui Hui) as (ui1&Hui1&Ei1).
  assert (Get s1 cf uf = Some (benchfmt.Unit val)) as Hget.
  { rewrite (schema_extra.Get_value s1 cf n uf ui1 Hi1 Hn).
    - rewrite Hv, Ei1, Hu. cbn [row set_row]. rewrite trim_value.
      unfold value_at, r. rewrite list_lookup_insert_eq by lia. done.
    - unfold deref. rewrite Hq. done.
    - congruence. }
  destruct (IH s1 (out ++ [cf]) Hi1 Hrun1) as (s'&new&E'&Hi'&Hrun'&Hst'&Hall).
  { exists q, ui1. split; [done|]. split; [done|]. split; [congruence|done]. }
  exists s', (cf :: new). rewrite E'. split; [by rewrite <- app_assoc|].
  split; [done|]. split; [done|]. split.
  - eapply stable_trans; [exact Hst1|exact Hst'].
  - constructor; [|done]. by eapply stable_Get.
Qed.

Lemma ProjectValues_runs p s r :
  inv s → runnable s →
  ∃ p' s' cfs, ProjectValues p s r = Some (p', s', cfs) ∧
    inv s' ∧ runnable s' ∧
    length cfs = length (benchfmt.Values r) ∧
    Forall (is_config s') cfs ∧
    (fieldInternal_ptr (unitField s) = None →
       ∃ cf, cfs = (λ _, cf) <$> benchfmt.Values r) ∧
    (fieldInternal_ptr (unitField s) ≠ None →
       Forall2 (λ cf val, Get s' cf (unitField s) = Some (benchfmt.Unit val))
         cfs (benchfmt.Values r)).
Proof.
  intros Hi (Hcl&Hb&Hu). unfold ProjectValues.
  destruct (populateRow_total p s r Hi Hcl) as (p1&s1&E1&Hi1&Hc1&Hcl1).
  rewrite E1. cbn [mbind option_bind].
  pose proof Hc1 as (Hk1&Hn1&Hcf1&Hu1).
  assert (buckets_ok s1) as Hb1.
  { intros hsh cs. rewrite Hn1, Hcf1. apply Hb. }
  rewrite Hu1.
  destruct (fieldInternal_ptr (unitField s)) as [q|] eqn:Eu.
  - destruct Hu as [Hu|(q'&ui&Hq'&Hui&Hleaf)]; [congruence|].
    assert (q' = q) as -> by congruence.
    destruct (Hk1 q ui Hui) as (ui1&Hui1&Ei1).
    unfold deref. rewrite Eu. cbn [mbind option_bind]. rewrite Hui1.
    cbn [mbind option_bind].
    destruct (values_loop_runs (unitField s) (idx ui1) (benchfmt.Values r)
                s1 []) as (s'&new&E&Hi'&Hrun'&Hst&Hall); [done| | |].
    { split; [done|]. split; [done|]. unfold unit_ok. rewrite Hu1. right.
      exists q, ui1. split; [done|]. split; [done|]. congruence. }
    { exists q, ui1. split; [done|]. split; [done|]. split; [done|].
      congruence. }
    rewrite E. cbn [mbind option_bind app]. exists p1, s', new.
    split; [done|]. split; [done|]. split; [done|]. split.
    { by apply Forall2_length in Hall. }
    split.
    { clear E. induction Hall as [|cf val new vs Hg _ IH]; constructor; [|done].
      unfold is_config. unfold Get in Hg. destruct (IsZero cf); [done|].
      destruct (node s' cf); [by eexists|done]. }
    split; [done|]. by intros _.
  - destruct (internRow_total s1 Hi1 Hb1) as (s'&cf&n&E2&Hn&_&Hk&Hb'&Hp&Hun&_).
    rewrite E2. cbn [mbind option_bind].
    exists p1, s', ((λ _, cf) <$> benchfmt.Values r).
    split; [done|]. split; [by eapply inv_internRow|]. split.
    { split; [|split; [done|]].
      - rewrite Hp. by eapply closures_keep.
      - unfold unit_ok. rewrite Hun, Hu1. by left. }
    split; [by rewrite length_fmap|]. split.
    { apply Forall_fmap. apply Forall_forall. intros v _. by exists n. }
    split; [by exists cf|done].
Qed.

(** Every schema of the package can run. *)
Lemma reachable_runnable s : reachable s → runnable s.
Proof.
  induction 1 as [p addr q filter p' filter' s Hp|p addr p' s Hr
                 |s s' f Hre IH Ha|p s r p' s' cf Hre IH Hp
                 |p s r p' s' cfs Hre IH Hp|s s' fl Hre IH Hf].
  - by eapply runnable_Parse.
  - by eapply runnable_Residue.
  - pose proof (reachable_inv s Hre) as Hi.
    assert (fieldInternal_ptr (unitField s) = None) as Hu.
    { unfold AddValues in Ha. by destruct (fieldInternal_ptr (unitField s)). }
    destruct (AddValues_runs s Hi IH Hu) as (s2&f2&E&Hrun&_).
    rewrite E in Ha. by injection Ha as <- _.
  - pose proof (reachable_inv s Hre) as Hi.
    destruct (Project_runs p s r Hi IH) as (p2&s2&cf2&n&E&_&Hrun&_).
    rewrite E in Hp. by injection Hp as _ <- _.
  - pose proof (reachable_inv s Hre) as Hi.
    destruct (ProjectValues_runs p s r Hi IH) as (p2&s2&cfs2&E&_&Hrun&_).
    rewrite E in Hp. by injection Hp as _ <- _.
  - destruct (Fields_carries _ _ _ Hf) as (Hc&Hp&_).
    by eapply runnable_carries.
Qed.

(** X19.  [Project] never panics: on a schema of the package, with any
    parser and any result (any name, any file configuration, also one
    that brings new keys), it returns a Config of the schema, and the
    schema is again a schema of the package.  Every Config there was
    stays a Config. *)
Theorem Project_never_panics s p r :
  reachable s →
  ∃ p' s' cf, Project p s r = Some (p', s', cf) ∧ reachable s' ∧
    is_config s' cf ∧ ∀ cf0, is_config s cf0 → is_config s' cf0.
Proof.
  intros Hre. pose proof (reachable_inv s Hre) as Hi.
  destruct (Project_runs p s r Hi (reachable_runnable s Hre))
    as (p'&s'&cf&n&E&_&_&Hn).
  exists p', s', cf. split; [done|]. split; [by eapply reach_Project|].
  split; [by exists n|].
  destruct (Project_stable _ _ _ _ _ _ E) as (_&[l Hl]&_).
  intros cf0 [n0 Hn0]. exists n0. unfold node in *.
  destruct (c cf0) as [q|]; simpl in *; [|done].
  by rewrite Hl, (lookup_app_l_Some _ _ _ _ Hn0).
Qed.

(** X20.  [ProjectValues] never panics on a schema of the package and
    returns one Config of the schema for each value of the result, in
    order.  If the schema has no unit field the Configs are all the
    same; if it has one, the Config of a value reads the unit of that
    value for the unit field. *)
Theorem ProjectValues_per_value s p r :
  reachable s →
  ∃ p' s' cfs, ProjectValues p s r = Some (p', s', cfs) ∧ reachable s' ∧
    length cfs = length (benchfmt.Values r) ∧
    Forall (is_config s') cfs ∧
    (fieldInternal_ptr (unitField s) = None →
       ∃ cf, cfs = (λ _, cf) <$> benchfmt.Values r) ∧
    (fieldInternal_ptr (unitField s) ≠ None →
       Forall2 (λ cf val, Get s' cf (unitField s) = Some (benchfmt.Unit val))
         cfs (benchfmt.Values r)).
Proof.
  intros Hre. pose proof (reachable_inv s Hre) as Hi.
  destruct (ProjectValues_runs p s r Hi (reachable_runnable s Hre))
    as (p'&s'&cfs&E&_&_&Hrest).
  exists p', s', cfs. split; [done|]. split; [by eapply reach_ProjectValues|].
  done.
Qed.

(** X21.  [AddValues] can be called once: on a schema of the package
    without unit field it never panics, returns a new leaf that becomes
    the unit field, and gives a schema of the package; a second call
    panics.  Every Config there was reads the empty string for the new
    field. *)
Theorem AddValues_once s :
  reachable s → fieldInternal_ptr (unitField s) = None →
  ∃ s' f, AddValues s = Some (s', f) ∧ reachable s' ∧ unitField s' = f ∧
    leaf (fieldHeap s') f ∧ AddValues s' = None ∧
    ∀ cf, is_config s cf → Get s' cf f = Some ""%string.
Proof.
  intros Hre Hu. pose proof (reachable_inv s Hre) as Hi.
  destruct (AddValues_runs s Hi (reachable_runnable s Hre) Hu)
    as (s'&f&E&Hrun&Huf&Hl&Hidx).
  exists s', f. split; [done|].
  assert (reachable s') as Hre' by (by eapply reach_AddValues).
  split; [done|]. split; [done|]. split; [done|]. split.
  { unfold AddValues. rewrite Huf. destruct Hl as (q&_&->&_). done. }
  intros cf [n Hn]. pose proof (reachable_inv s' Hre') as Hi'.
  destruct Hl as (q&fi&Hq&Hfi&Hleaf).
  destruct (AddValues_stable _ _ _ E) as (_&[l Hnl]&_).
  assert (node s' cf = Some n) as Hn'.
  { unfold node in *. destruct (c cf) as [k|]; simpl in *; [|done].
    by rewrite Hnl, (lookup_app_l_Some _ _ _ _ Hn). }
  rewrite (schema_extra.Get_value s' cf n f fi Hi' Hn');
    [|by unfold deref; rewrite Hq|done].
  f_equal. unfold value_at.
  assert (idx fi = nFields s) as Ei.
  { destruct Hidx as (q0&fi0&Hq0&Hfi0&Ei0).
    assert (q0 = q) as -> by congruence. congruence. }
  destruct Hi as [([Hrow Hnodes]&_) _]. rewrite Forall_forall in Hnodes.
  destruct (Hnodes n (node_elem _ _ _ Hn)) as (_&Hlen&_).
  rewrite lookup_ge_None_2; [done|]. rewrite Ei. unfold tuple_ok in Hlen.
  lia.
Qed.

(** X22.  [Residue] never panics, for any parser.  The schema it
    returns is a schema of the package that projects [.config] unless
    the parser has it already, and [.fullname] likewise, as its only
    field; afterwards the parser has both, so a second [Residue] returns
    a schema that projects nothing. *)
Theorem Residue_covers_once p addr addr' :
  ∃ p' s, Residue p addr = Some (p', s) ∧ reachable s ∧
    haveConfig p' = true ∧ haveFullname p' = true ∧
    length (project s)
      = ((if haveConfig p then 0 else 1) + (if haveFullname p then 0 else 1))%nat ∧
    nFields s = (if haveFullname p then 0 else 1) ∧
    Residue p' addr' = Some (p', newSchema addr').
Proof.
  assert (∃ p' s, Residue p addr = Some (p', s) ∧
            haveConfig p' = true ∧ haveFullname p' = true ∧
            length (project s)
              = ((if haveConfig p then 0 else 1) +
                 (if haveFullname p then 0 else 1))%nat ∧
            nFields s = (if haveFullname p then 0 else 1))
    as (p'&s&E&Hc&Hf&Hl&Hn).
  { unfold Residue.
    destruct (haveConfig p) eqn:Ec; destruct (haveFullname p) eqn:Ef;
      cbn; rewrite ?Ec, ?Ef; cbn; eexists _, _; (split; [reflexivity|]);
      cbn; rewrite ?Ec, ?Ef; done. }
  exists p', s. split; [done|]. split; [by eapply reach_Residue|].
  split; [done|]. split; [done|]. split; [done|]. split; [done|].
  unfold Residue. rewrite Hc. cbn. rewrite Hf. done.
Qed.

End Total.
End total_props.

(** ** The further properties at the examples *)

Module extra_instances.
Import num benchproc spec examples samples.

Ltac compute_eq := vm_compute; reflexivity.
Ltac compute_dec := apply (bool_decide_unpack _); vm_compute; exact I.

(** The schema after two records is a schema of the package. *)
Lemma grown_reachable : reachable (H := golib_model.lib) grown_schema.
Proof.
  eapply (reach_Project intern_st1.1.1 intern_st1.1.2 intern_r2);
    [|compute_eq].
  eapply (reach_Project intern_st0.1 intern_st0.2 intern_r1);
    [|compute_eq].
  eapply (reach_Parse zeroProjectionParser 1%nat ".config" star).
  compute_eq.
Qed.

(** The maps of a store hold ints when a check of their values says
    so. *)
Lemma bounded_check (h : list fieldInternal) :
  forallb (λ fi,
    forallb (λ kv, kv.2 <? 2 ^ 63) (map_to_list (default ∅ (order fi))) &&
    match cmp fi with
    | cmpFixed m => forallb (λ kv, kv.2 <? 2 ^ 63) (map_to_list m)
    | _ => true
    end) h = true →
  bounded h.
Proof.
  intros Hall p fi Hp. rewrite forallb_forall in Hall.
  apply list_elem_of_lookup_2, list_elem_of_In in Hp.
  specialize (Hall fi Hp). apply andb_true_iff in Hall as [Ho Hm].
  assert (∀ m : gmap string Z,
            forallb (λ kv, kv.2 <? 2 ^ 63) (map_to_list m) = true →
            map_Forall (λ _ v, v < 2 ^ 63) m) as Hconv.
  { intros m Hf. apply map_Forall_to_list. rewrite forallb_forall in Hf.
    apply Forall_forall. intros [k v] Hin. apply list_elem_of_In in Hin.
    specialize (Hf _ Hin). simpl in *. lia. }
  split; [by apply Hconv|]. intros m Hc. rewrite Hc in Hm. by apply Hconv.
Qed.

Lemma grown_bounded : bounded (fieldHeap grown_schema).
Proof. apply bounded_check. compute_eq. Qed.

Lemma grown_configs_ok : Forall (is_config grown_schema) grown_configs.
Proof.
  constructor; [eexists; compute_eq|].
  constructor; [eexists; compute_eq|]. constructor.
Qed.

(** The invariant, on the schema of the run. *)
Lemma schema_invariant_witness :
  reachable (H := golib_model.lib) grown_schema ∧
  nodes_ok grown_schema ∧ idx_bound grown_schema ∧ cache_ok grown_schema ∧
  fields_ok grown_schema ∧ callable (fieldHeap grown_schema) ∧
  nodes_unique (H := golib_model.lib) grown_schema.
Proof.
  split; [exact grown_reachable|].
  exact (schema_extra.schema_invariant (H := golib_model.lib) grown_schema
           grown_reachable).
Defined.

(** [Fields] on the schema of the run returns the fields [a] and [b]. *)
Lemma Fields_flattening_witness :
  reachable (H := golib_model.lib) grown_schema ∧
  ∃ s', Fields grown_schema = Some (s', [field_a; field_b]) ∧
        Fields s' = Some (s', [field_a; field_b]) ∧
        covers (fieldHeap grown_schema) [field_a; field_b] 2.
Proof.
  split; [exact grown_reachable|].
  destruct (schema_extra.Fields_flattening (H := golib_model.lib) grown_schema
              grown_reachable) as (s'&fl&H1&H2&_&_&_&_&H7).
  assert (Fields grown_schema
          = Some (default grown_schema (fst <$> Fields grown_schema),
                  [field_a; field_b])) as E by compute_eq.
  rewrite E in H1. injection H1 as <- <-.
  eexists. split; [exact E|]. split; [exact H2|exact H7].
Defined.

(** The two Configs of the run: the first is before the second, so the
    second is not before the first. *)
Lemma Config_Less_witness :
  reachable (H := golib_model.lib) grown_schema ∧
  bounded (fieldHeap grown_schema) ∧
  config_less (H := golib_model.lib) grown_schema intern_st1.2 intern_st2.2
    = Some true ∧
  config_less (H := golib_model.lib) grown_schema intern_st2.2 intern_st1.2
    = Some false.
Proof.
  split; [exact grown_reachable|]. split; [exact grown_bounded|].
  assert (config_less (H := golib_model.lib) grown_schema intern_st1.2
            intern_st2.2 = Some true) as Hc by compute_eq.
  split; [exact Hc|].
  destruct (schema_extra.Config_Less_strict_total (H := golib_model.lib)
              grown_schema grown_reachable grown_bounded) as (_&_&Hasym&_).
  apply Hasym; [by eexists|by eexists|exact Hc].
Defined.

(** The two Configs of the run have a value for [b], and are equal if
    they read the same for every field. *)
Lemma Configs_determined_witness :
  reachable (H := golib_model.lib) grown_schema ∧
  Fields grown_schema
    = Some (default grown_schema (fst <$> Fields grown_schema),
            [field_a; field_b]) ∧
  is_config grown_schema intern_st1.2 ∧ is_config grown_schema intern_st2.2 ∧
  (∃ v, Get grown_schema intern_st1.2 field_b = Some v) ∧
  ((∀ f, f ∈ [field_a; field_b] →
      Get grown_schema intern_st1.2 f = Get grown_schema intern_st2.2 f) →
   intern_st1.2 = intern_st2.2).
Proof.
  assert (Fields grown_schema
          = Some (default grown_schema (fst <$> Fields grown_schema),
                  [field_a; field_b])) as E by compute_eq.
  assert (is_config grown_schema intern_st1.2) as Ha by (eexists; compute_eq).
  assert (is_config grown_schema intern_st2.2) as Hb by (eexists; compute_eq).
  destruct (schema_extra.Configs_determined_by_values (H := golib_model.lib)
              grown_schema _ _ intern_st1.2 intern_st2.2
              grown_reachable E Ha Hb) as [Hv Heq].
  split; [exact grown_reachable|]. split; [exact E|]. split; [exact Ha|].
  split; [exact Hb|]. split; [|exact Heq].
  apply Hv. apply elem_of_cons. right. apply elem_of_cons. by left.
Defined.

(** The first Config of the run reads ["1"] for [a] in the schema after
    the second record as it did before. *)
Lemma Configs_immutable_witness :
  later (H := golib_model.lib) intern_st1.1.2 grown_schema ∧
  Get intern_st1.1.2 intern_st1.2 field_a = Some "1"%string ∧
  Get grown_schema intern_st1.2 field_a = Some "1"%string.
Proof.
  assert (later (H := golib_model.lib) intern_st1.1.2 grown_schema) as Hl.
  { eapply (later_Project _ _ intern_st1.1.1 intern_r2);
      [apply later_refl|compute_eq]. }
  assert (Get intern_st1.1.2 intern_st1.2 field_a = Some "1"%string) as Hg
    by compute_eq.
  split; [exact Hl|]. split; [exact Hg|].
  destruct (schema_extra.Configs_immutable (H := golib_model.lib)
              intern_st1.1.2 grown_schema Hl) as (_&_&Hget).
  by apply Hget.
Defined.

(** Of the fields [a] and [b] of the run, [b] alone varies between the
    two Configs. *)
Lemma NonSingularFields_witness :
  reachable (H := golib_model.lib) grown_schema ∧
  Forall (is_config grown_schema) grown_configs ∧
  ∃ s' out, NonSingularFields grown_schema grown_configs = Some (s', out) ∧
    (field_b ∈ out ↔ varies grown_schema grown_configs field_b) ∧
    (field_a ∈ out ↔ varies grown_schema grown_configs field_a).
Proof.
  split; [exact grown_reachable|]. split; [exact grown_configs_ok|].
  destruct (nonsingular_props.NonSingularFields_varies (H := golib_model.lib)
              grown_schema grown_configs grown_reachable grown_configs_ok)
    as (s'&out&E&_&_&Hfl).
  assert (Fields grown_schema
          = Some (default grown_schema (fst <$> Fields grown_schema),
                  [field_a; field_b])) as EF by compute_eq.
  destruct (Hfl _ _ EF) as [_ Hiff].
  exists s', out. split; [exact E|]. split.
  - apply Hiff. apply elem_of_cons. right. apply elem_of_cons. by left.
  - apply Hiff. apply elem_of_cons. by left.
Defined.

(** The header of the two Configs of the run has a level for [a] and
    one for [b]. *)
Lemma NewConfigHeader_witness :
  reachable (H := golib_model.lib) grown_schema ∧
  Forall (is_config grown_schema) grown_configs ∧ grown_configs ≠ [] ∧
  ∃ s' fl cols levels,
    Fields grown_schema = Some (s', fl) ∧
    NewConfigHeader grown_schema grown_configs = Some (s', levels) ∧
    mapM (column grown_schema grown_configs) fl = Some cols ∧
    length levels = length fl ∧
    header_ok cols 2 (root_span grown_configs) levels.
Proof.
  split; [exact grown_reachable|]. split; [exact grown_configs_ok|].
  split; [done|].
  exact (header_extra.NewConfigHeader_tiles (H := golib_model.lib)
           grown_schema grown_configs grown_reachable grown_configs_ok
           ltac:(done)).
Defined.

(** [Project] on the schema of the run, with the first record again. *)
Lemma Project_never_panics_witness :
  reachable (H := golib_model.lib) grown_schema ∧
  ∃ p' s' cf,
    Project (H := golib_model.lib) intern_st2.1.1 grown_schema intern_r1
      = Some (p', s', cf) ∧
    reachable (H := golib_model.lib) s' ∧ is_config s' cf ∧
    is_config s' intern_st2.2.
Proof.
  split; [exact grown_reachable|].
  destruct (total_props.Project_never_panics (H := golib_model.lib)
              grown_schema intern_st2.1.1 intern_r1 grown_reachable)
    as (p'&s'&cf&E&Hre&Hcf&Hold).
  exists p', s', cf. split; [exact E|]. split; [exact Hre|].
  split; [exact Hcf|]. apply Hold. eexists. compute_eq.
Defined.

(** The schema of the run has no unit field: [AddValues] adds one, once. *)
Lemma AddValues_once_witness :
  reachable (H := golib_model.lib) grown_schema ∧
  fieldInternal_ptr (unitField grown_schema) = None ∧
  ∃ s' f, AddValues grown_schema = Some (s', f) ∧ unitField s' = f ∧
    AddValues s' = None ∧
    Get s' intern_st2.2 f = Some ""%string.
Proof.
  split; [exact grown_reachable|]. split; [reflexivity|].
  destruct (total_props.AddValues_once (H := golib_model.lib) grown_schema
              grown_reachable eq_refl) as (s'&f&E&_&Hu&_&Hn&Hg).
  exists s', f. split; [exact E|]. split; [exact Hu|]. split; [exact Hn|].
  apply Hg. eexists. compute_eq.
Defined.

Lemma units_schema_reachable : reachable (H := golib_model.lib) units_schema.
Proof.
  eapply (reach_AddValues grown_schema _
            (default (unitField grown_schema)
               (snd <$> AddValues grown_schema)));
    [exact grown_reachable|compute_eq].
Qed.

(** [ProjectValues] on the schema with the unit field: one Config for
    each of the two values, reading its unit. *)
Lemma ProjectValues_witness :
  reachable (H := golib_model.lib) units_schema ∧
  ∃ p' s' cfs,
    ProjectValues (H := golib_model.lib) intern_st2.1.1 units_schema
      values_result = Some (p', s', cfs) ∧
    length cfs = 2%nat ∧
    Forall2 (λ cf val, Get s' cf (unitField units_schema)
                       = Some (benchfmt.Unit val))
      cfs (benchfmt.Values values_result).
Proof.
  split; [exact units_schema_reachable|].
  destruct (total_props.ProjectValues_per_value (H := golib_model.lib)
              units_schema intern_st2.1.1 values_result
              units_schema_reachable)
    as (p'&s'&cfs&E&_&Hlen&_&_&Hunits).
  exists p', s', cfs. split; [exact E|]. split; [exact Hlen|].
  apply Hunits. discriminate.
Defined.

(** *** File configuration and units *)

Lemma fresh_in_step l sp :
  NoDup (result_spec.keys l) →
  result_spec.in_step (fileconfig.mkResult l sp None).
Proof. intros Hnd. split; [done|]. intros m Hm. done. Qed.

Lemma file_result_in_step : result_spec.in_step file_result.
Proof. apply fresh_in_step. compute_dec. Qed.

Lemma sample_units_in_step : units_spec.in_step sample_units.
Proof. split; [compute_dec|]. intros m Hm. done. Qed.

(** The sample result reads [amd64] for [goarch]. *)
Lemma GetFileConfig_witness :
  result_spec.in_step file_result ∧
  ∃ r1, fileconfig.GetFileConfig file_result "goarch" = Some (r1, "amd64"%string).
Proof.
  split; [exact file_result_in_step|].
  destruct (fileconfig_props.GetFileConfig_value file_result "goarch"
              file_result_in_step) as (r1&E&_).
  exists r1. exact E.
Defined.


(** Deleting [goos] from the sample result: the last pair, [pkg], takes
    its place. *)
Lemma SetFileConfig_delete_witness :
  result_spec.in_step file_result ∧
  ∃ r', fileconfig.SetFileConfig file_result "goos" "" = Some r' ∧
    result_spec.keys (fileconfig.FileConfig r') = ["pkg"; "goarch"]%string ∧
    result_spec.reads r' "goos" "".
Proof.
  split; [exact file_result_in_step|].
  destruct (fileconfig_props.SetFileConfig_empty_deletes file_result "goos"
              file_result_in_step) as (r'&E&_&_&_&Hpos&Hr&_).
  exists r'. split; [exact E|]. split; [|exact Hr].
  destruct (Hpos 0%nat eq_refl) as (c2&Hlast&->).
  injection Hlast as <-. compute_eq.
Defined.

(** The sample units read [lower] for [better] of [ns/op]. *)
Lemma Units_Get_witness :
  units_spec.in_step sample_units ∧
  ∃ u1, units.Get sample_units "ns/op" "better"
        = Some (u1, ("lower"%string, true)).
Proof.
  split; [exact sample_units_in_step|].
  destruct (units_props.Units_Get_value sample_units "ns/op" "better"
              sample_units_in_step) as (u1&E&_).
  exists u1. exact E.
Defined.

(** Setting [better] of [ns/op] to [higher] in the sample units is an
    error and changes nothing. *)
Lemma Units_Set_witness :
  units_spec.in_step sample_units ∧
  ∃ u' err, units.Set_ sample_units "ns/op" "better" "higher" = Some (u', err) ∧
    units.Metadata u' = units.Metadata sample_units ∧
    err = Some "metadata better of unit ns/op already set to lower"%string.
Proof.
  split; [exact sample_units_in_step|].
  destruct (units_props.Units_Set_once sample_units "ns/op" "better" "higher"
              sample_units_in_step) as (u'&err&E&_&Hm&_).
  exists u', err. split; [exact E|].
  change (units_spec.meta_value (units.Metadata sample_units) "ns/op" "better")
    with (Some "lower"%string) in Hm.
  destruct Hm as (Hmeta&_&Herr). split; [exact Hmeta|].
  apply Herr. done.
Defined.

(** *** Names *)

Lemma sample_base_ok : "/"%char ∉ sample_base.
Proof. compute_dec. Qed.

Lemma sample_procs_ok :
  match sample_procs with
  | Some ds => ds ≠ [] ∧ name_spec.digits ds
  | None =>
      ¬ name_spec.has_gomaxprocs
          (sample_base ++ concat (name_spec.part_of <$> sample_kvs))
  end.
Proof. split; [done|]. repeat constructor. Qed.

(** The parts of [BenchmarkX/a=1/b=2-8]. *)
Lemma Parts_of_built_name_witness :
  ("/"%char ∉ sample_base) ∧
  Forall name_spec.slash_part (name_spec.part_of <$> sample_kvs) ∧
  benchfmt.Parts (bs "BenchmarkX/a=1/b=2-8")
  = Some (bs "BenchmarkX", [bs "/a=1"; bs "/b=2"; bs "-8"]) ∧
  benchfmt.Base (bs "BenchmarkX/a=1/b=2-8") = bs "BenchmarkX".
Proof.
  assert (Forall name_spec.slash_part (name_spec.part_of <$> sample_kvs))
    as Hps.
  { constructor; [eexists; split; [reflexivity|compute_dec]|].
    constructor; [eexists; split; [reflexivity|compute_dec]|].
    constructor. }
  split; [exact sample_base_ok|]. split; [exact Hps|].
  exact (name_props.Parts_of_built_name sample_base
           (name_spec.part_of <$> sample_kvs) sample_procs
           sample_base_ok Hps sample_procs_ok).
Defined.

(** The extractor of [/b] on [BenchmarkX/a=1/b=2-8] returns [2]. *)
Lemma name_key_extractor_witness :
  ("/"%char ∉ sample_base) ∧ ("="%char ∉ bs "b") ∧
  ∃ e, extract.newExtractor "/b" = inl e ∧
    extract.apply e (benchfmt.mkResult [] (bs "BenchmarkX/a=1/b=2-8") [])
    = Some (bs "2").
Proof.
  assert ("="%char ∉ bs "b") as Hk by compute_dec.
  split; [exact sample_base_ok|]. split; [exact Hk|].
  refine (name_props.name_key_extractor sample_base sample_kvs sample_procs
            "b" [] [] sample_base_ok _ sample_procs_ok Hk).
  constructor; [repeat split; compute_dec|].
  constructor; [repeat split; compute_dec|].
  constructor.
Defined.

End extra_instances.
